(** * Antialias.c: separable resampling (ImagingStretchHorizaontal, ImagingStretch)

    A shallow embedding of [src/libImaging/Antialias.c] and the properties
    of its resampling filters, coefficient planning, weighted reduction and
    two-pass orchestration.

    Numbers are modelled as the C code has them.  [float] is IEEE 754
    binary32 and [double] is binary64, both with round-to-nearest-even,
    taken from the Standard Library's executable specification
    [SpecFloat]; every C operation is rounded to the type the usual
    arithmetic conversions give it (FLT_EVAL_METHOD 0).  Conversions
    whose result C leaves undefined (a NaN or an out-of-range value cast to
    an integer type), and accesses outside a buffer, make the modelled
    call [Undef]. *)

From Stdlib Require Import ZArith List String Bool Lia QArith Qfield.
From Stdlib Require Import Floats.SpecFloat.
Import ListNotations.

Local Open Scope Z_scope.

(** ** C scalar types *)

Definition INT_MAX : Z := 2147483647.
Definition INT_MIN : Z := -2147483648.

Definition in_int (z : Z) : bool := (INT_MIN <=? z) && (z <=? INT_MAX).

(** [float] and [double] share the carrier [spec_float]; the operations
    below fix the precision. *)
Definition float := spec_float.
Definition double := spec_float.

(** The integer part of a floating-point value, rounded towards zero;
    [None] for infinities and NaN. *)
Definition Ztrunc (x : spec_float) : option Z :=
  match x with
  | S754_zero _ => Some 0
  | S754_finite s m e =>
      Some (cond_Zopp s (if 0 <=? e then Zpos m * 2 ^ e else Zpos m / 2 ^ (- e)))
  | _ => None
  end.

(** [(int) x]: undefined when the truncated value does not fit. *)
Definition to_int (x : spec_float) : option Z :=
  match Ztrunc x with
  | Some z => if in_int z then Some z else None
  | None => None
  end.

(** [(UINT8) x]: undefined when the truncated value does not fit. *)
Definition to_uint8 (x : spec_float) : option Z :=
  match Ztrunc x with
  | Some z => if (0 <=? z) && (z <=? 255) then Some z else None
  | None => None
  end.

Module F32.
Definition prec : Z := 24.
Definition emax : Z := 128.
Definition add : float -> float -> float := SFadd prec emax.
Definition sub : float -> float -> float := SFsub prec emax.
Definition mul : float -> float -> float := SFmul prec emax.
Definition div : float -> float -> float := SFdiv prec emax.
Definition ltb : float -> float -> bool := SFltb.
(** the value [m * 2^e], rounded *)
Definition dyadic (m e : Z) : float := binary_normalize prec emax m e false.
(** [(float) z] for an integer [z] *)
Definition of_int (z : Z) : float := dyadic z 0.
(** [(float) d] for a double [d] *)
Definition of_double (d : double) : float := SFldexp prec emax d 0.
Definition zero : float := S754_zero false.
Definition one : float := of_int 1.
End F32.

Module F64.
Definition prec : Z := 53.
Definition emax : Z := 1024.
Definition add : double -> double -> double := SFadd prec emax.
Definition sub : double -> double -> double := SFsub prec emax.
Definition mul : double -> double -> double := SFmul prec emax.
Definition div : double -> double -> double := SFdiv prec emax.
Definition ltb : double -> double -> bool := SFltb.
Definition leb : double -> double -> bool := SFleb.
Definition eqb : double -> double -> bool := SFeqb.
Definition dyadic (m e : Z) : double := binary_normalize prec emax m e false.
Definition of_int (z : Z) : double := dyadic z 0.
(** [(double) f] for a float [f]: exact, renormalised to 53 bits *)
Definition of_float (f : float) : double := SFldexp prec emax f 0.
Definition zero : double := S754_zero false.
Definition one : double := of_int 1.
Definition half : double := dyadic 1 (-1).

(** [floor] and [ceil] of <math.h> *)
Definition floor (x : double) : double :=
  match x with
  | S754_finite s m e =>
      if 0 <=? e then x
      else binary_normalize prec emax (cond_Zopp s (Zpos m) / 2 ^ (- e)) 0 s
  | _ => x
  end.

Definition ceil (x : double) : double :=
  match x with
  | S754_finite s m e =>
      if 0 <=? e then x
      else binary_normalize prec emax (- ((- cond_Zopp s (Zpos m)) / 2 ^ (- e))) 0 s
  | _ => x
  end.

(** M_PI of <math.h>: the double nearest to pi, 0x400921FB54442D18 *)
Definition M_PI : double := dyadic 7074237752028440 (-51).
End F64.

(** ** Resampling filters *)

Record filter_t := { filter : float -> float; support : float }.

Section Filters.

(** [sin] of <math.h>, on doubles; the library function is not part of
    the file and is left abstract. *)
Variable sin : double -> double.

Definition sinc_filter (x : float) : float :=
  if F64.eqb (F64.of_float x) F64.zero then F32.one
  else
    let x := F32.of_double (F64.mul (F64.of_float x) F64.M_PI) in
    F32.of_double (F64.div (sin (F64.of_float x)) (F64.of_float x)).

Definition antialias_filter (x : float) : float :=
  if F64.leb (F64.of_int (-3)) (F64.of_float x) && F64.ltb (F64.of_float x) (F64.of_int 3)
  then F32.mul (sinc_filter x) (sinc_filter (F32.div x (F32.of_int 3)))
  else F32.zero.

Definition ANTIALIAS : filter_t := {| filter := antialias_filter; support := F32.of_int 3 |}.

Definition nearest_filter (x : float) : float :=
  if F64.leb (F64.dyadic (-1) (-1)) (F64.of_float x) && F64.ltb (F64.of_float x) F64.half
  then F32.one
  else F32.zero.

Definition NEAREST : filter_t := {| filter := nearest_filter; support := F32.dyadic 1 (-1) |}.

Definition bilinear_filter (x : float) : float :=
  let x := if F64.ltb (F64.of_float x) F64.zero then SFopp x else x in
  if F64.ltb (F64.of_float x) F64.one
  then F32.of_double (F64.sub F64.one (F64.of_float x))
  else F32.zero.

Definition BILINEAR : filter_t := {| filter := bilinear_filter; support := F32.of_int 1 |}.

(** [#define a -0.5] is substituted textually: [a + 2.0] is
    [-0.5 + 2.0] and the trailing [* a] is [* -0.5], both on doubles. *)
Definition bicubic_filter (x : float) : float :=
  let a := F64.dyadic (-1) (-1) in
  let x := if F64.ltb (F64.of_float x) F64.zero then SFopp x else x in
  let xd := F64.of_float x in
  if F64.ltb xd F64.one then
    F32.of_double
      (F64.add
         (F64.mul
            (F64.mul
               (F64.sub (F64.mul (F64.add a (F64.of_int 2)) xd)
                        (F64.add a (F64.of_int 3)))
               xd)
            xd)
         (F64.of_int 1))
  else if F64.ltb xd (F64.of_int 2) then
    F32.of_double
      (F64.mul
         (F64.of_float
            (F32.sub
               (F32.mul
                  (F32.add (F32.mul (F32.sub x (F32.of_int 5)) x) (F32.of_int 8))
                  x)
               (F32.of_int 4)))
         a)
  else F32.zero.

Definition BICUBIC : filter_t := {| filter := bicubic_filter; support := F32.of_int 2 |}.

End Filters.

(** ** Scalar arithmetic of the reduction stage

    The accumulation of weights, their normalisation and the weighted sum
    use four operations on [float].  They are written once over a
    [Scalar] so that the same loops can be read over binary32 (the
    program) and over exact rationals (the idealised arithmetic some
    properties are stated in). *)

Class Scalar (R : Type) := {
  s_zero : R;                 (* 0.0 *)
  s_one : R;                  (* 1.0 *)
  s_add : R -> R -> R;
  s_mul : R -> R -> R;
  s_recip : R -> R;           (* 1.0 / x *)
  s_is_zero : R -> bool       (* x == 0.0 *)
}.

(** The program's scalars: [1.0 / x] and [x == 0.0] are evaluated on
    doubles, the quotient is then stored in a float. *)
#[export] Instance float_scalar : Scalar float := {|
  s_zero := F32.zero;
  s_one := F32.one;
  s_add := F32.add;
  s_mul := F32.mul;
  s_recip := fun x => F32.of_double (F64.div F64.one (F64.of_float x));
  s_is_zero := fun x => F64.eqb (F64.of_float x) F64.zero
|}.

#[export] Instance exact_scalar : Scalar Q := {|
  s_zero := 0%Q;
  s_one := 1%Q;
  s_add := Qplus;
  s_mul := Qmult;
  s_recip := Qinv;
  s_is_zero := fun x => Qeq_bool x 0
|}.

(** C arrays are total maps from indices; bounds are checked where the
    program indexes them. *)
Definition buffer (R : Type) := Z -> R.

Definition store {R : Type} (b : buffer R) (i : Z) (v : R) : buffer R :=
  fun j => if j =? i then v else b j.

(** The values [lo, lo+1, ..., hi-1] of a counting [for] loop. *)
Definition Zrange (lo hi : Z) : list Z :=
  map (fun i => lo + Z.of_nat i) (seq 0 (Z.to_nat (hi - lo))).

Section Reduction.
Context {R : Type} `{Scalar R}.

(** Lines 160-164 and 186-190: the weights of one window are written to
    [k[0 ..]] (here [k] starts at index [base] of the buffer) and summed
    into [ww]. *)
Definition window_loop (weight : Z -> R) (base lo hi : Z)
    (kk : buffer R) (ww : R) : buffer R * R :=
  fold_left
    (fun (st : buffer R * R) x =>
       let w := weight x in
       (store (fst st) (base + (x - lo)) w, s_add (snd st) w))
    (Zrange lo hi) (kk, ww).

(** Lines 165-168 and 191-194. *)
Definition reciprocal (ww : R) : R :=
  if s_is_zero ww then s_one else s_recip ww.

(** The inner sums of lines 199-200, 218-219, 234-235 and 243-244. *)
Definition weighted_sum (px : Z -> R) (kk : buffer R) (base lo hi : Z) : R :=
  fold_left
    (fun ss x => s_add ss (s_mul (px x) (kk (base + (x - lo)))))
    (Zrange lo hi) s_zero.

(** Line 245: the FLOAT32 finalisation. *)
Definition reduce_float (px : Z -> R) (kk : buffer R) (base lo hi : Z) (ww : R) : R :=
  s_mul (weighted_sum px kk base lo hi) ww.
End Reduction.

(** ** Images *)

Inductive imaging_type :=
| IMAGING_TYPE_UINT8
| IMAGING_TYPE_INT32
| IMAGING_TYPE_FLOAT32
| IMAGING_TYPE_SPECIAL.

(** The fields of [struct ImagingMemoryInstance] the file uses.  [image8]
    is [None] for a NULL pointer.  The 4-byte pixel rows are kept as three
    typed planes, one per access path of the file: the bytes
    [image[y][x*4+b]], the ints of [IMAGING_PIXEL_I] and the floats of
    [IMAGING_PIXEL_F]; a call touches exactly one of them. *)
Record ImagingMemoryInstance := {
  mode : string;
  type : imaging_type;
  bands : Z;
  xsize : Z;
  ysize : Z;
  image8 : option (Z -> Z -> Z);
  image : Z -> Z -> Z;
  image32 : Z -> Z -> Z;
  image32f : Z -> Z -> float
}.

Definition Imaging := ImagingMemoryInstance.

Definition store2 {V : Type} (rows : Z -> Z -> V) (y x : Z) (v : V) : Z -> Z -> V :=
  fun y' x' => if (y' =? y) && (x' =? x) then v else rows y' x'.

Definition set_image8 (im : Imaging) (rows : Z -> Z -> Z) : Imaging :=
  {| mode := mode im; type := type im; bands := bands im;
     xsize := xsize im; ysize := ysize im;
     image8 := Some rows; image := image im;
     image32 := image32 im; image32f := image32f im |}.

Definition set_image (im : Imaging) (rows : Z -> Z -> Z) : Imaging :=
  {| mode := mode im; type := type im; bands := bands im;
     xsize := xsize im; ysize := ysize im;
     image8 := image8 im; image := rows;
     image32 := image32 im; image32f := image32f im |}.

Definition set_image32 (im : Imaging) (rows : Z -> Z -> Z) : Imaging :=
  {| mode := mode im; type := type im; bands := bands im;
     xsize := xsize im; ysize := ysize im;
     image8 := image8 im; image := image im;
     image32 := rows; image32f := image32f im |}.

Definition set_image32f (im : Imaging) (rows : Z -> Z -> float) : Imaging :=
  {| mode := mode im; type := type im; bands := bands im;
     xsize := xsize im; ysize := ysize im;
     image8 := image8 im; image := image im;
     image32 := image32 im; image32f := rows |}.

(** ** Results of a call *)

Inductive error :=
| ModeError                   (* ImagingError_ModeError() *)
| ValueError (msg : string)   (* ImagingError_ValueError(msg) *)
| MemoryError                 (* ImagingError_MemoryError() *)
| CalleeError.                (* NULL handed on from ImagingNew or ImagingTranspose *)

(** [Ok s]: the code ran on, in state [s]; [Err e s]: it returned NULL
    with error [e], leaving state [s]; [Undef]: it left defined C. *)
Inductive outcome (S : Type) :=
| Ok (s : S)
| Err (e : error) (s : S)
| Undef.
Arguments Ok {S} s.
Arguments Err {S} e s.
Arguments Undef {S}.

Fixpoint for_each {S : Type} (body : Z -> S -> outcome S) (xs : list Z) (s : S)
  : outcome S :=
  match xs with
  | [] => Ok s
  | x :: xs' =>
      match body x s with
      | Ok s' => for_each body xs' s'
      | r => r
      end
  end.

(** [for (i = lo; i < hi; i++) body] *)
Definition for_loop {S : Type} (lo hi : Z) (body : Z -> S -> outcome S) (s : S)
  : outcome S :=
  for_each body (Zrange lo hi) s.

(** The filter tags of Imaging.h that the switch of lines 104-121 accepts;
    every other tag is [IMAGING_TRANSFORM_OTHER]. *)
Inductive transform :=
| IMAGING_TRANSFORM_NEAREST
| IMAGING_TRANSFORM_ANTIALIAS
| IMAGING_TRANSFORM_BILINEAR
| IMAGING_TRANSFORM_BICUBIC
| IMAGING_TRANSFORM_OTHER.

(** ** Coefficient planning and weighted reduction *)

(** The locals fixed by lines 124-136. *)
Record geometry := {
  scale : float;
  filterscale : float;
  g_support : float;
  kmax : Z
}.

(** Lines 124-136.  [(int) ceil(support) * 2 + 1] is undefined when the
    cast or the int arithmetic overflows. *)
Definition prepare (filterp : filter_t) (imOut imIn : Imaging) : option geometry :=
  let scale := F32.div (F32.of_int (xsize imIn)) (F32.of_int (xsize imOut)) in
  let filterscale :=
    if F64.ltb (F64.of_float scale) F64.one then F32.one else scale in
  let support := F32.mul (support filterp) filterscale in
  match to_int (F64.ceil (F64.of_float support)) with
  | Some c =>
      if in_int (c * 2) && in_int (c * 2 + 1)
      then Some {| scale := scale; filterscale := filterscale;
                   g_support := support; kmax := c * 2 + 1 |}
      else None
  | None => None
  end.

(** Lines 151-159, and again lines 177-185:
    [center], [ss = 1.0 / filterscale], [xmin] and [xmax]. *)
Definition column_center (g : geometry) (xx : Z) : float :=
  F32.of_double (F64.mul (F64.add (F64.of_int xx) F64.half) (F64.of_float (scale g))).

Definition column_ss (g : geometry) : float :=
  F32.of_double (F64.div F64.one (F64.of_float (filterscale g))).

Definition column_xmin (g : geometry) (xx : Z) : float :=
  let xmin :=
    F32.of_double (F64.floor (F64.of_float (F32.sub (column_center g xx) (g_support g)))) in
  if F64.ltb (F64.of_float xmin) F64.zero then F32.zero else xmin.

Definition column_xmax (g : geometry) (imIn : Imaging) (xx : Z) : float :=
  let xmax :=
    F32.of_double (F64.ceil (F64.of_float (F32.add (column_center g xx) (g_support g)))) in
  if F32.ltb (F32.of_int (xsize imIn)) xmax then F32.of_int (xsize imIn) else xmax.

(** Lines 161 and 187: [filterp->filter((x - center + 0.5) * ss) * ss]. *)
Definition weight (filterp : filter_t) (center ss : float) (x : Z) : float :=
  F32.mul
    (filter filterp
       (F32.of_double
          (F64.mul
             (F64.add (F64.of_float (F32.sub (F32.of_int x) center)) F64.half)
             (F64.of_float ss))))
    ss.

(** The writes [k[0 .. hi-lo)] with [k = &kk[base]] stay inside a buffer of
    [size] floats. *)
Definition writes_in_bounds (base lo hi size : Z) : bool :=
  (hi <=? lo) || ((0 <=? base) && (base + (hi - lo) <=? size)).

(** The reads [row[lo .. hi)] stay inside a source row. *)
Definition reads_in_bounds (imIn : Imaging) (lo hi : Z) : bool :=
  (hi <=? lo) || ((0 <=? lo) && (hi <=? xsize imIn)).

(** The coefficients of one output position: the int bounds of the
    window, the buffer with the window's weights written at [base], and the
    reciprocal of their sum (lines 151-168 and 177-194). *)
Definition column_coefficients (filterp : filter_t) (g : geometry) (imIn : Imaging)
    (size base xx : Z) (kk : buffer float)
  : option (Z * Z * buffer float * float) :=
  let center := column_center g xx in
  let ss := column_ss g in
  match to_int (column_xmin g xx), to_int (column_xmax g imIn xx) with
  | Some lo, Some hi =>
      if writes_in_bounds base lo hi size then
        let r := window_loop (weight filterp center ss) base lo hi kk F32.zero in
        Some (lo, hi, fst r, reciprocal (snd r))
      else None
  | _, _ => None
  end.

(** The planning pass, lines 149-172: one row of [kk] and three entries of
    [xbounds] per output position. *)
Definition plan_column (filterp : filter_t) (g : geometry) (imOut imIn : Imaging)
    (xx : Z) (st : buffer float * buffer float)
  : outcome (buffer float * buffer float) :=
  let base := xx * kmax g in                    (* k = &kk[xx * kmax] *)
  match column_coefficients filterp g imIn (xsize imOut * kmax g) base xx (fst st) with
  | Some (_, _, kk', ww) =>
      Ok (kk',
          store (store (store (snd st)
                   (xx * 3 + 0) (column_xmin g xx))
                   (xx * 3 + 1) (column_xmax g imIn xx))
                   (xx * 3 + 2) ww)
  | None => Undef
  end.

(** Lines 201-207 and 220-226: bias, saturate, truncate. *)
Definition bias8 (ss ww : float) : float :=
  F32.of_double (F64.add (F64.of_float (F32.mul ss ww)) F64.half).

Definition clip8 (ss : float) : option Z :=
  if F64.ltb (F64.of_float ss) F64.half then Some 0
  else if F64.leb (F64.of_int 255) (F64.of_float ss) then Some 255
  else to_uint8 ss.

(** Line 236: [(int) ss * ww], stored in an INT32. *)
Definition scale_int (ss ww : float) : option Z :=
  match to_int ss with
  | Some t => to_int (F32.mul (F32.of_int t) ww)
  | None => None
  end.

(** One pixel of each format (the bodies of the [yy] loops). *)
Definition pixel8 (imIn : Imaging) (src : Z -> Z -> Z)
    (kk : buffer float) (base lo hi : Z) (ww : float) (xx yy : Z) (imOut : Imaging)
  : outcome Imaging :=
  if reads_in_bounds imIn lo hi then
    let ss := weighted_sum (fun x => F32.of_int (src yy x)) kk base lo hi in
    match clip8 (bias8 ss ww), image8 imOut with
    | Some v, Some dst => Ok (set_image8 imOut (store2 dst yy xx v))
    | _, _ => Undef
    end
  else Undef.

Definition pixel_band (imIn : Imaging)
    (kk : buffer float) (base lo hi : Z) (ww : float) (xx yy b : Z) (imOut : Imaging)
  : outcome Imaging :=
  if reads_in_bounds imIn lo hi then
    let ss :=
      weighted_sum (fun x => F32.of_int (image imIn yy (x * 4 + b) mod 256))
                   kk base lo hi in
    match clip8 (bias8 ss ww) with
    | Some v => Ok (set_image imOut (store2 (image imOut) yy (xx * 4 + b) v))
    | None => Undef
    end
  else Undef.

(** Lines 214-227: [for (b = 0; b < bands; b++)], whose body moves [b]
    from 1 to 3 for two-band images.  [b] grows by at least one per
    round, so [bands] rounds of fuel are enough. *)
Fixpoint band_loop (fuel : nat) (nbands b : Z)
    (body : Z -> Imaging -> outcome Imaging) (imOut : Imaging) : outcome Imaging :=
  match fuel with
  | O => if b <? nbands then Undef else Ok imOut
  | S fuel' =>
      if b <? nbands then
        let b := if (nbands =? 2) && negb (b =? 0) then 3 else b in
        match body b imOut with
        | Ok imOut' => band_loop fuel' nbands (b + 1) body imOut'
        | r => r
        end
      else Ok imOut
  end.

Definition pixel32 (imIn : Imaging)
    (kk : buffer float) (base lo hi : Z) (ww : float) (xx yy : Z) (imOut : Imaging)
  : outcome Imaging :=
  if reads_in_bounds imIn lo hi then
    let ss := weighted_sum (fun x => F32.of_int (image32 imIn yy x)) kk base lo hi in
    match scale_int ss ww with
    | Some v => Ok (set_image32 imOut (store2 (image32 imOut) yy xx v))
    | None => Undef
    end
  else Undef.

Definition pixel32f (imIn : Imaging)
    (kk : buffer float) (base lo hi : Z) (ww : float) (xx yy : Z) (imOut : Imaging)
  : outcome Imaging :=
  if reads_in_bounds imIn lo hi then
    Ok (set_image32f imOut
          (store2 (image32f imOut) yy xx
             (reduce_float (fun x => image32f imIn yy x) kk base lo hi ww)))
  else Undef.

(** Lines 195-251: the reduction of one output column, given its
    coefficients. *)
Definition reduce_column (imIn : Imaging)
    (kk : buffer float) (base lo hi : Z) (ww : float) (xx : Z) (imOut : Imaging)
  : outcome Imaging :=
  match image8 imIn with
  | Some src =>
      for_loop 0 (ysize imOut) (pixel8 imIn src kk base lo hi ww xx) imOut
  | None =>
      match type imIn with
      | IMAGING_TYPE_UINT8 =>
          for_loop 0 (ysize imOut)
            (fun yy =>
               band_loop (Z.to_nat (bands imIn)) (bands imIn) 0
                 (pixel_band imIn kk base lo hi ww xx yy))
            imOut
      | IMAGING_TYPE_INT32 =>
          for_loop 0 (ysize imOut) (pixel32 imIn kk base lo hi ww xx) imOut
      | IMAGING_TYPE_FLOAT32 =>
          for_loop 0 (ysize imOut) (pixel32f imIn kk base lo hi ww xx) imOut
      | IMAGING_TYPE_SPECIAL => Err ModeError imOut
      end
  end.

(** Lines 176-252, one round: the coefficients are computed again, into
    the row of [kk] that [k] was left pointing at by the planning pass
    (the last one), and the column is reduced. *)
Definition stretch_column (filterp : filter_t) (g : geometry) (imIn : Imaging)
    (size base : Z) (xx : Z) (st : Imaging * buffer float)
  : outcome (Imaging * buffer float) :=
  match column_coefficients filterp g imIn size base xx (snd st) with
  | Some (lo, hi, kk', ww) =>
      match reduce_column imIn kk' base lo hi ww xx (fst st) with
      | Ok imOut' => Ok (imOut', kk')
      | Err e imOut' => Err e (imOut', kk')
      | Undef => Undef
      end
  | None => Undef
  end.

Section Stretch.

Variable sin : double -> double.

(** [malloc(n)]: [None] for NULL, otherwise the fresh block with whatever
    it holds. *)
Variable malloc : Z -> option (buffer float).

Definition select_filter (filter : transform) : option filter_t :=
  match filter with
  | IMAGING_TRANSFORM_NEAREST => Some NEAREST
  | IMAGING_TRANSFORM_ANTIALIAS => Some (ANTIALIAS sin)
  | IMAGING_TRANSFORM_BILINEAR => Some BILINEAR
  | IMAGING_TRANSFORM_BICUBIC => Some BICUBIC
  | IMAGING_TRANSFORM_OTHER => None
  end.

(** Lines 123-258, after the argument checks.  [ImagingSectionEnter] and
    [ImagingSectionLeave], which bracket the second loop, touch neither
    image and are left out. *)
Definition stretch_passes (filterp : filter_t) (imOut imIn : Imaging)
  : outcome Imaging :=
  match prepare filterp imOut imIn with
  | None => Undef
  | Some g =>
      let size := xsize imOut * kmax g in
      if negb (in_int size) then Undef else
      match malloc (size * 4) with
      | None => Err MemoryError imOut
      | Some kk =>
          if negb (in_int (xsize imOut * 3)) then Undef else
          match malloc (xsize imOut * 3 * 4) with
          | None => Err MemoryError imOut
          | Some xbounds =>
              match for_loop 0 (xsize imOut) (plan_column filterp g imOut imIn)
                      (kk, xbounds) with
              | Ok (kk, _) =>
                  match for_loop 0 (xsize imOut)
                          (stretch_column filterp g imIn size
                             ((xsize imOut - 1) * kmax g))
                          (imOut, kk) with
                  | Ok (imOut', _) => Ok imOut'
                  | Err e (imOut', _) => Err e imOut'
                  | Undef => Undef
                  end
              | Err e _ => Err e imOut
              | Undef => Undef
              end
          end
      end
  end.

(** [ImagingStretchHorizaontal(imOut, imIn, filter)]; [Ok] stands for
    [return imOut].  A NULL image is [None]. *)
Definition ImagingStretchHorizaontal (imOut imIn : option Imaging) (filter : transform)
  : outcome (option Imaging) :=
  match imOut, imIn with
  | Some o, Some i =>
      if negb (String.eqb (mode i) (mode o)) then Err ModeError imOut
      else if negb (ysize o =? ysize i) then
        Err (ValueError "ImagingStretchHorizaontal requires equal heights") imOut
      else
        match select_filter filter with
        | None => Err (ValueError "unsupported resampling filter") imOut
        | Some filterp =>
            match stretch_passes filterp o i with
            | Ok o' => Ok (Some o')
            | Err e o' => Err e (Some o')
            | Undef => Undef
            end
        end
  | _, _ => Err ModeError imOut
  end.

End Stretch.

(** ** The coefficient table reused (spec, sections 3 and 9)

    The variant the specification allows: the reduction of column [xx]
    takes its window and reciprocal from [xbounds] and its weights from
    row [xx] of [kk], as the planning pass left them, instead of computing
    them again. *)

Definition cached_column (g : geometry) (imIn : Imaging) (kk xbounds : buffer float)
    (xx : Z) (imOut : Imaging) : outcome Imaging :=
  match to_int (xbounds (xx * 3 + 0)), to_int (xbounds (xx * 3 + 1)) with
  | Some lo, Some hi =>
      reduce_column imIn kk (xx * kmax g) lo hi (xbounds (xx * 3 + 2)) xx imOut
  | _, _ => Undef
  end.

Definition stretch_passes_cached (malloc : Z -> option (buffer float))
    (filterp : filter_t) (imOut imIn : Imaging) : outcome Imaging :=
  match prepare filterp imOut imIn with
  | None => Undef
  | Some g =>
      let size := xsize imOut * kmax g in
      if negb (in_int size) then Undef else
      match malloc (size * 4) with
      | None => Err MemoryError imOut
      | Some kk =>
          if negb (in_int (xsize imOut * 3)) then Undef else
          match malloc (xsize imOut * 3 * 4) with
          | None => Err MemoryError imOut
          | Some xbounds =>
              match for_loop 0 (xsize imOut) (plan_column filterp g imOut imIn)
                      (kk, xbounds) with
              | Ok (kk, xbounds) =>
                  for_loop 0 (xsize imOut) (cached_column g imIn kk xbounds) imOut
              | Err e _ => Err e imOut
              | Undef => Undef
              end
          end
      end
  end.

(** ** The two-pass resize *)

(** The calls [ImagingStretch] makes, in order. *)
Inductive event :=
| EvNew (m : string) (xs ys : Z)   (* ImagingNew(mode, xsize, ysize) *)
| EvStretch                        (* ImagingStretchHorizaontal(...) *)
| EvTranspose                      (* ImagingTranspose(...) *)
| EvDelete (temp : nat).           (* ImagingDelete(imTemp<n>) *)

Section Orchestrator.

Variable sin : double -> double.
Variable malloc : Z -> option (buffer float).

(** The collaborators of Imaging.h: [ImagingNew] returns a fresh image or
    NULL, [ImagingTranspose(imOut, imIn)] the written [imOut] or NULL. *)
Variable ImagingNew : string -> Z -> Z -> option Imaging.
Variable ImagingTranspose : Imaging -> Imaging -> option Imaging.

Definition horizontal_pass (imOut imIn : Imaging) (filter : transform)
  : outcome (option Imaging) :=
  ImagingStretchHorizaontal sin malloc (Some imOut) (Some imIn) filter.

(** [ImagingStretch(imOut, imIn, filter)] with the trace of its calls;
    [xs] and [ys] are the locals [xsize] and [ysize]. *)
Definition ImagingStretch (imOut imIn : Imaging) (filter : transform)
  : outcome Imaging * list event :=
  let xs := xsize imOut in
  let ys := ysize imOut in
  if String.eqb (mode imIn) "P" || String.eqb (mode imIn) "1" then
    (Err ModeError imOut, [])
  else
    (* two-pass resize *)
    let t := [EvNew (mode imIn) xs (ysize imIn)] in
    match ImagingNew (mode imIn) xs (ysize imIn) with
    | None => (Err CalleeError imOut, t)
    | Some imTemp1 =>
        (* first pass *)
        let t := t ++ [EvStretch] in
        match horizontal_pass imTemp1 imIn filter with
        | Undef => (Undef, t)
        | Err e _ => (Err e imOut, t ++ [EvDelete 1])
        | Ok None => (Err CalleeError imOut, t ++ [EvDelete 1])
        | Ok (Some imTemp1) =>
            let t := t ++ [EvNew (mode imIn) (ysize imIn) xs] in
            match ImagingNew (mode imIn) (ysize imIn) xs with
            | None => (Err CalleeError imOut, t ++ [EvDelete 1])
            | Some imTemp2 =>
                (* transpose image once *)
                let t := t ++ [EvTranspose] in
                match ImagingTranspose imTemp2 imTemp1 with
                | None => (Err CalleeError imOut, t ++ [EvDelete 1; EvDelete 2])
                | Some imTemp2 =>
                    let t := t ++ [EvDelete 1; EvNew (mode imIn) ys xs] in
                    match ImagingNew (mode imIn) ys xs with
                    | None => (Err CalleeError imOut, t ++ [EvDelete 2])
                    | Some imTemp3 =>
                        (* second pass *)
                        let t := t ++ [EvStretch] in
                        match horizontal_pass imTemp3 imTemp2 filter with
                        | Undef => (Undef, t)
                        | Err e _ => (Err e imOut, t ++ [EvDelete 2; EvDelete 3])
                        | Ok None => (Err CalleeError imOut, t ++ [EvDelete 2; EvDelete 3])
                        | Ok (Some imTemp3) =>
                            (* transpose result *)
                            let t := t ++ [EvDelete 2; EvTranspose] in
                            match ImagingTranspose imOut imTemp3 with
                            | None => (Err CalleeError imOut, t ++ [EvDelete 3])
                            | Some imOut' => (Ok imOut', t ++ [EvDelete 3])
                            end
                        end
                    end
                end
            end
        end
    end.

End Orchestrator.

(** ** Exact coefficients of one output position

    What lines 151-168 compute for position [xx], without the buffer they
    are written to: the int bounds of the window, the weight of every
    source index, and the reciprocal of the summed weights. *)

Definition weight_total (w : Z -> float) (lo hi : Z) (ww : float) : float :=
  fold_left (fun acc x => F32.add acc (w x)) (Zrange lo hi) ww.

Definition column_plan (filterp : filter_t) (g : geometry) (imIn : Imaging) (xx : Z)
  : option (Z * Z * (Z -> float) * float) :=
  match to_int (column_xmin g xx), to_int (column_xmax g imIn xx) with
  | Some lo, Some hi =>
      let w := weight filterp (column_center g xx) (column_ss g) in
      Some (lo, hi, w, reciprocal (weight_total w lo hi F32.zero))
  | _, _ => None
  end.

(** The sum [ss] of one pixel, over the weights themselves. *)
Definition column_sum (px w : Z -> float) (lo hi : Z) : float :=
  fold_left (fun ss x => F32.add ss (F32.mul (px x) (w x))) (Zrange lo hi) F32.zero.

(** The state a call leaves behind, if it leaves one. *)
Definition final_state {S : Type} (r : outcome S) : option S :=
  match r with
  | Ok s => Some s
  | Err _ s => Some s
  | Undef => None
  end.

(** The lanes of a packed pixel that the band loop visits. *)
Definition visited_lane (nbands b : Z) : bool :=
  if nbands =? 2 then (b =? 0) || (b =? 3)
  else (0 <=? b) && (b <? nbands).

(** ** Sample images and collaborators for the examples *)

Definition plane_of_rows {V : Type} (d : V) (rows : list (list V)) : Z -> Z -> V :=
  fun y x => nth (Z.to_nat x) (nth (Z.to_nat y) rows []) d.

Definition no_bytes : Z -> Z -> Z := fun _ _ => 0.
Definition no_floats : Z -> Z -> float := fun _ _ => F32.zero.

(** An 8-bit single-band image, mode "L". *)
Definition image_L (xs ys : Z) (rows : list (list Z)) : Imaging :=
  {| mode := "L"; type := IMAGING_TYPE_UINT8; bands := 1; xsize := xs; ysize := ys;
     image8 := Some (plane_of_rows 0 rows); image := no_bytes;
     image32 := no_bytes; image32f := no_floats |}.

(** A palette image, mode "P". *)
Definition image_P (xs ys : Z) (rows : list (list Z)) : Imaging :=
  {| mode := "P"; type := IMAGING_TYPE_UINT8; bands := 1; xsize := xs; ysize := ys;
     image8 := Some (plane_of_rows 0 rows); image := no_bytes;
     image32 := no_bytes; image32f := no_floats |}.

(** A two-band packed image, mode "LA": four bytes per pixel. *)
Definition image_LA (xs ys : Z) (rows : list (list Z)) : Imaging :=
  {| mode := "LA"; type := IMAGING_TYPE_UINT8; bands := 2; xsize := xs; ysize := ys;
     image8 := None; image := plane_of_rows 0 rows;
     image32 := no_bytes; image32f := no_floats |}.

(** A 32-bit integer image, mode "I". *)
Definition image_I (xs ys : Z) (rows : list (list Z)) : Imaging :=
  {| mode := "I"; type := IMAGING_TYPE_INT32; bands := 1; xsize := xs; ysize := ys;
     image8 := None; image := no_bytes;
     image32 := plane_of_rows 0 rows; image32f := no_floats |}.

(** A 32-bit float image, mode "F". *)
Definition image_F (xs ys : Z) (rows : list (list float)) : Imaging :=
  {| mode := "F"; type := IMAGING_TYPE_FLOAT32; bands := 1; xsize := xs; ysize := ys;
     image8 := None; image := no_bytes;
     image32 := no_bytes; image32f := plane_of_rows F32.zero rows |}.

(** An image of a special type, mode "I;16". *)
Definition image_special (xs ys : Z) : Imaging :=
  {| mode := "I;16"; type := IMAGING_TYPE_SPECIAL; bands := 1; xsize := xs; ysize := ys;
     image8 := None; image := no_bytes;
     image32 := no_bytes; image32f := no_floats |}.

(** An allocator that always returns a zeroed block, and stand-ins for
    [sin], [ImagingNew] and [ImagingTranspose]. *)
Definition malloc_zeroed (n : Z) : option (buffer float) := Some (fun _ => F32.zero).
Definition sin_stub (x : double) : double := x.
Definition new_stub (m : string) (xs ys : Z) : option Imaging := None.
Definition transpose_stub (imOut imIn : Imaging) : option Imaging := Some imOut.

(** Row [y] of an 8-bit plane, an int plane and a float plane of a result. *)
Definition row_image8 (r : outcome (option Imaging)) (y : Z) : option (list Z) :=
  match r with
  | Ok (Some o) =>
      match image8 o with
      | Some rows => Some (map (rows y) (Zrange 0 (xsize o)))
      | None => None
      end
  | _ => None
  end.

Definition row_image32 (r : outcome (option Imaging)) (y : Z) : option (list Z) :=
  match r with
  | Ok (Some o) => Some (map (image32 o y) (Zrange 0 (xsize o)))
  | _ => None
  end.

Definition row_image32f (r : outcome (option Imaging)) (y : Z) : option (list float) :=
  match r with
  | Ok (Some o) => Some (map (image32f o y) (Zrange 0 (xsize o)))
  | _ => None
  end.

Definition row_image (r : outcome (option Imaging)) (y : Z) : option (list Z) :=
  match r with
  | Ok (Some o) => Some (map (image o y) (Zrange 0 (xsize o * 4)))
  | _ => None
  end.

(** ** Vocabulary of the reduction properties *)

(** A pixel of the 8-bit plane, if the image has one. *)
Definition cell8 (im : Imaging) (y x : Z) : option Z :=
  match image8 im with
  | Some rows => Some (rows y x)
  | None => None
  end.

Definition cell (im : Imaging) (y c : Z) : option Z := Some (image im y c).
Definition cell32 (im : Imaging) (y x : Z) : option Z := Some (image32 im y x).
Definition cell32f (im : Imaging) (y x : Z) : option float := Some (image32f im y x).

(** The values of [b] in the rounds of the band loop. *)
Definition band_lanes (nbands : Z) : list Z :=
  if nbands =? 2 then [0; 3] else Zrange 0 nbands.

(** [body] is the round of a [yy] loop that, for output column [xx], stores
    [val yy b] in the cell [(yy, key xx b)] of every lane [b], writes no
    other cell, and never reports an error. *)
Definition row_writer {V : Type} (get : Imaging -> Z -> Z -> option V)
    (lanes : list Z) (key : Z -> Z -> Z)
    (val : Z -> Z -> option V) (xx : Z) (body : Z -> Imaging -> outcome Imaging) : Prop :=
  forall yy s r,
    final_state (body yy s) = Some r ->
    body yy s = Ok r /\
    ysize r = ysize s /\
    (forall b, In b lanes -> exists v, val yy b = Some v /\ get r yy (key xx b) = Some v) /\
    (forall y c, y <> yy \/ (forall b, In b lanes -> c <> key xx b) -> get r y c = get s y c).

(** The reduction of a format: every column is a [yy] loop of row writers
    whose values are [finish] of the weighted sum of [px]. *)
Definition column_writer {V : Type} (get : Imaging -> Z -> Z -> option V)
    (lanes : list Z) (key : Z -> Z -> Z)
    (px : Z -> Z -> Z -> float) (finish : float -> float -> option V)
    (imIn : Imaging) : Prop :=
  forall kk base lo hi ww xx s,
  exists body,
    reduce_column imIn kk base lo hi ww xx s = for_loop 0 (ysize s) body s /\
    row_writer get lanes key
      (fun yy b => finish (weighted_sum (px yy b) kk base lo hi) ww) xx body.

(** [v] is the byte the saturation of lines 202-207 (and 221-226) stores
    for the biased sum [s]. *)
Definition stored8 (s : float) (v : Z) : Prop :=
  (F64.ltb (F64.of_float s) F64.half = true -> v = 0) /\
  (F64.ltb (F64.of_float s) F64.half = false ->
   F64.leb (F64.of_int 255) (F64.of_float s) = true -> v = 255) /\
  (F64.ltb (F64.of_float s) F64.half = false ->
   F64.leb (F64.of_int 255) (F64.of_float s) = false -> to_uint8 s = Some v) /\
  0 <= v <= 255.

(** The image a call returned, or [d] if it returned none. *)
Definition returned_image (r : outcome (option Imaging)) (d : Imaging) : Imaging :=
  match r with
  | Ok (Some o) => o
  | _ => d
  end.

(** Two sources that differ at most in the bytes of lanes 1 and 2. *)
Definition agree_on_lanes_0_3 (a b : Imaging) : Prop :=
  mode a = mode b /\ type a = type b /\ bands a = bands b /\
  xsize a = xsize b /\ ysize a = ysize b /\
  image8 a = image8 b /\ image32 a = image32 b /\ image32f a = image32f b /\
  forall y x, image a y (x * 4 + 0) = image b y (x * 4 + 0) /\
              image a y (x * 4 + 3) = image b y (x * 4 + 3).

(** The scenarios of the examples. *)
Definition ramp8 : Imaging := image_L 8 1 [[10; 20; 30; 40; 50; 60; 70; 80]].
Definition blank4 : Imaging := image_L 4 1 [[0; 0; 0; 0]].
Definition ones_I : Imaging := image_I 2 1 [[1; 1]].
Definition blank_I : Imaging := image_I 1 1 [[7]].
Definition quad_LA : Imaging :=
  image_LA 4 1 [[10; 1; 2; 200; 20; 3; 4; 210; 30; 5; 6; 220; 40; 7; 8; 230]].
Definition blank_LA : Imaging := image_LA 2 1 [[9; 9; 9; 9; 9; 9; 9; 9]].

(** The other order of line 236, [(int) (ss * ww)], for comparison: the
    scaled sum of pixel [(xx, yy)], truncated. *)
Definition scaled_then_truncated (filterp : filter_t) (imOut imIn : Imaging) (xx yy : Z)
  : option Z :=
  match prepare filterp imOut imIn with
  | Some g =>
      match column_plan filterp g imIn xx with
      | Some (lo, hi, w, ww) =>
          to_int (F32.mul (column_sum (fun x => F32.of_int (image32 imIn yy x)) w lo hi) ww)
      | None => None
      end
  | None => None
  end.

(** The reduction of a format runs through, from a destination that is
    [ready] for its stores, whenever the window lies inside the source row
    and every value to store is defined. *)
Definition column_defined (ready : Imaging -> Prop) {V : Type} (lanes : list Z)
    (px : Z -> Z -> Z -> float) (finish : float -> float -> option V)
    (imIn : Imaging) : Prop :=
  forall kk base lo hi ww xx s,
    ready s ->
    reads_in_bounds imIn lo hi = true ->
    (forall yy b, 0 <= yy < ysize s -> In b lanes ->
       finish (weighted_sum (px yy b) kk base lo hi) ww <> None) ->
    exists r, reduce_column imIn kk base lo hi ww xx s = Ok r /\
              ready r /\ ysize r = ysize s.

(** The window [lo, hi) has at most [kmax] entries. *)
Definition fits (g : geometry) (lo hi : Z) : Prop := hi <= lo \/ hi - lo <= kmax g.

(** Every column of the call has coefficients, a window that fits the
    coefficient row and the source row, and defined values to store. *)
Definition columns_defined {V : Type} (lanes : list Z)
    (px : Z -> Z -> Z -> float) (finish : float -> float -> option V)
    (filterp : filter_t) (g : geometry) (imOut imIn : Imaging) : Prop :=
  forall xx, 0 <= xx < xsize imOut ->
    exists lo hi w ww,
      column_plan filterp g imIn xx = Some (lo, hi, w, ww) /\
      fits g lo hi /\
      reads_in_bounds imIn lo hi = true /\
      forall yy b, 0 <= yy < ysize imOut -> In b lanes ->
        finish (column_sum (px yy b) w lo hi) ww <> None.

(** The window of column [xx] is defined and fits the coefficient row and
    the source row. *)
Definition window_ok (g : geometry) (imIn : Imaging) (xx : Z) : bool :=
  match to_int (column_xmin g xx), to_int (column_xmax g imIn xx) with
  | Some lo, Some hi =>
      ((hi <=? lo) || (hi - lo <=? kmax g)) && reads_in_bounds imIn lo hi
  | _, _ => false
  end.

(** The value the reduction stores for column [xx], row [yy] and lane [b]
    of a format with pixel reader [px] and finalisation [finish]. *)
Definition column_value {V : Type}
    (px : Z -> Z -> Z -> float) (finish : float -> float -> option V)
    (filterp : filter_t) (g : geometry) (imIn : Imaging) (xx yy b : Z) : option V :=
  match column_plan filterp g imIn xx with
  | Some (lo, hi, w, ww) => finish (column_sum (px yy b) w lo hi) ww
  | None => None
  end.

(** The geometry of a call whose preparation is defined. *)
Definition the_geometry (filterp : filter_t) (imOut imIn : Imaging) : geometry :=
  match prepare filterp imOut imIn with
  | Some g => g
  | None => {| scale := F32.zero; filterscale := F32.zero;
               g_support := F32.zero; kmax := 0 |}
  end.

(** Every entry of [out] is within [tol] of the entry of [expected]. *)
Fixpoint within (tol : Z) (out expected : list Z) : bool :=
  match out, expected with
  | [], [] => true
  | o :: out', e :: expected' => (Z.abs (o - e) <=? tol) && within tol out' expected'
  | _, _ => false
  end.

(** An 8-bit row of 16777219 = 2^24 + 3 pixels, and a one-pixel INT32
    image holding 2^24 + 1. *)
Definition wide_L : Imaging := image_L 16777219 1 [].
Definition odd_I : Imaging := image_I 1 1 [[16777217]].
Definition zero_I : Imaging := image_I 1 1 [[0]].

(** ** Vocabulary of the floating-point properties *)

(** A shift record with nothing shifted out. *)
Definition exact_record (m : Z) : shr_record :=
  {| shr_m := m; shr_r := false; shr_s := false |}.

(** [z * 2^e] is a normal number of the format, with mantissa [z]. *)
Definition representable (prec emax : Z) (z e : Z) : Prop :=
  z <> 0 /\ Zdigits2 z <= prec /\
  SpecFloat.emin prec emax <= e + Zdigits2 z - prec /\ e + Zdigits2 z <= emax.

(** ** Vocabulary of the identity of the nearest filter *)

(** The geometry of a call with the nearest filter and equal widths:
    scale 1, support 0.5, three coefficients per row. *)
Definition nearest_geometry : geometry :=
  {| scale := F32.one; filterscale := F32.one; g_support := F32.dyadic 1 (-1); kmax := 3 |}.

(** A float pixel as the reduction returns it at weight 1: a negative zero
    comes out positive. *)
Definition positive_zero (x : float) : float :=
  match x with
  | S754_zero _ => S754_zero false
  | _ => x
  end.

(** The 8-bit pixel the nearest filter stores for the source pixel [p]
    at scale 1. *)
Definition nearest_pixel8 (p : Z) : option Z :=
  clip8 (bias8 (F32.add F32.zero (F32.mul (F32.of_int p) F32.one)) F32.one).

(** An 8-bit row of 2^23 + 1 pixels that are 100, except pixel
    2^23 - 1, which is 200. *)
Definition long_L : Imaging :=
  {| mode := "L"; type := IMAGING_TYPE_UINT8; bands := 1; xsize := 8388609; ysize := 1;
     image8 := Some (fun _ x => if x =? 8388607 then 200 else 100); image := no_bytes;
     image32 := no_bytes; image32f := no_floats |}.

Definition blank8 : Imaging := image_L 8 1 [[0; 0; 0; 0; 0; 0; 0; 0]].

(** A float row of seven pixels 7.0, and a destination of three. *)
Definition sevens_F : Imaging := image_F 7 1 [repeat (F32.of_int 7) 7].
Definition blank3_F : Imaging := image_F 3 1 [[]].

(** ** Vocabulary of the further properties *)

Definition same_header (a b : Imaging) : Prop :=
  mode a = mode b /\ type a = type b /\ bands a = bands b /\
  xsize a = xsize b /\ ysize a = ysize b.

Definition malloc_failing (n : Z) : option (buffer float) := None.

(** A block that comes with arbitrary contents. *)
Definition malloc_garbage (n : Z) : option (buffer float) :=
  Some (fun i => F32.of_int (i + 12345)).

(** The temporaries that are alive after a trace of [ImagingStretch]:
    the k-th call of [ImagingNew] creates temporary k when it returns an
    image, [ImagingDelete] frees its argument.  [None] when a temporary is
    freed that is not alive. *)
Fixpoint live_temps (ImagingNew : string -> Z -> Z -> option Imaging)
    (t : list event) (next : nat) (live : list nat) : option (list nat) :=
  match t with
  | [] => Some live
  | EvNew m xs ys :: t' =>
      match ImagingNew m xs ys with
      | Some _ => live_temps ImagingNew t' (S next) (next :: live)
      | None => live_temps ImagingNew t' (S next) live
      end
  | EvDelete n :: t' =>
      if existsb (Nat.eqb n) live
      then live_temps ImagingNew t' next (List.filter (fun k => negb (Nat.eqb k n)) live)
      else None
  | _ :: t' => live_temps ImagingNew t' next live
  end.

(** What [ImagingNew] and [ImagingTranspose] promise about the shape of
    the image they return. *)
Definition new_contract (ImagingNew : string -> Z -> Z -> option Imaging) : Prop :=
  forall m xs ys im, ImagingNew m xs ys = Some im ->
    mode im = m /\ xsize im = xs /\ ysize im = ys.

Definition transpose_contract (ImagingTranspose : Imaging -> Imaging -> option Imaging) : Prop :=
  forall imOut imIn r, ImagingTranspose imOut imIn = Some r -> same_header r imOut.

(** An [ImagingNew] that returns an empty 8-bit image of the requested
    shape, and an [ImagingTranspose] that returns its destination. *)
Definition new_L (m : string) (xs ys : Z) : option Imaging :=
  Some {| mode := m; type := IMAGING_TYPE_UINT8; bands := 1; xsize := xs; ysize := ys;
          image8 := Some no_bytes; image := no_bytes;
          image32 := no_bytes; image32f := no_floats |}.

(** Neither an infinity nor a NaN. *)
Definition is_finite (x : float) : bool :=
  match x with
  | S754_zero _ | S754_finite _ _ _ => true
  | _ => false
  end.

(** The window of column [xx] has one tap, [t]: it lies inside the source
    row and the coefficient row, the weight of [t] is 1 and every other
    weight is a zero. *)
Definition single_tap (filterp : filter_t) (g : geometry) (imIn : Imaging) (xx t : Z) : Prop :=
  exists lo hi,
    to_int (column_xmin g xx) = Some lo /\
    to_int (column_xmax g imIn xx) = Some hi /\
    0 <= lo <= t /\ t < hi <= xsize imIn /\ hi - lo <= kmax g /\
    weight filterp (column_center g xx) (column_ss g) t = F32.one /\
    forall x, lo <= x < hi -> x <> t ->
      exists s, weight filterp (column_center g xx) (column_ss g) x = S754_zero s.

(** The geometry of a call with equal widths and a filter of support [S]. *)
Definition same_width_geometry (S : Z) : geometry :=
  {| scale := F32.one; filterscale := F32.one; g_support := F32.of_int S; kmax := 2 * S + 1 |}.

(** The geometry of a call with the nearest filter whose destination is
    twice as wide as the source: scale 0.5, support 0.5. *)
Definition doubling_geometry : geometry :=
  {| scale := F32.dyadic 1 (-1); filterscale := F32.one;
     g_support := F32.dyadic 1 (-1); kmax := 3 |}.

(** The geometry of a call with the nearest filter whose destination is
    half as wide as the source: scale 2, support 1. *)
Definition halving_geometry : geometry :=
  {| scale := F32.of_int 2; filterscale := F32.of_int 2;
     g_support := F32.one; kmax := 3 |}.

(** The 8-bit pixel stored for a window of two pixels with weight 0.5
    each. *)
Definition pair_pixel8 (p q : Z) : option Z :=
  clip8 (bias8 (F32.add (F32.add F32.zero (F32.mul (F32.of_int p) (F32.dyadic 1 (-1))))
                        (F32.mul (F32.of_int q) (F32.dyadic 1 (-1))))
               F32.one).

(** A row of four 8-bit pixels. *)
Definition ramp4 : Imaging := image_L 4 1 [[10; 20; 30; 40]].

(** An allocator that grants whatever [malloc] refuses, and otherwise
    returns [malloc]'s block. *)
Definition malloc_or_zeroed (malloc : Z -> option (buffer float)) (n : Z)
  : option (buffer float) :=
  match malloc n with
  | Some b => Some b
  | None => Some (fun _ => F32.zero)
  end.

(** ** Vocabulary of the rounding order *)

(** [m1 * 2^e1 <= m2 * 2^e2] and [m1 * 2^e1 < m2 * 2^e2], over the
    integers. *)
Definition dle (m1 e1 m2 e2 : Z) : Prop :=
  m1 * 2 ^ (e1 - Z.min e1 e2) <= m2 * 2 ^ (e2 - Z.min e1 e2).

Definition dlt (m1 e1 m2 e2 : Z) : Prop :=
  m1 * 2 ^ (e1 - Z.min e1 e2) < m2 * 2 ^ (e2 - Z.min e1 e2).

(** ** Round half up (spec, section 4.3: "classic round-half-up") *)

(** [floor (x + 1/2)], the integer that rounding the number [x] half up
    gives; none for an infinity or a NaN. *)
Definition round_half_up (x : float) : option Z :=
  match x with
  | S754_zero _ => Some 0
  | S754_finite s m e =>
      Some (if 0 <=? e then cond_Zopp s (Zpos m) * 2 ^ e
            else (2 * cond_Zopp s (Zpos m) + 2 ^ (- e)) / 2 ^ (1 - e))
  | _ => None
  end.

(** Saturation to [[0, 255]]. *)
Definition saturate8 (z : Z) : Z := Z.max 0 (Z.min 255 z).

(** The binary32 number just below one half, [0.5 - 2^-25]. *)
Definition below_half : float := S754_finite false 16777215 (-25).

(** The scenario of the round-half-up example: a 6-pixel row with two
    pixels set, reduced to two pixels. *)
Definition dots6 : Imaging := image_L 6 1 [[1; 0; 1; 0; 0; 0]].
Definition blank2 : Imaging := image_L 2 1 [[0; 0]].

(** The same row with the two pixels at 3. *)
Definition threes6 : Imaging := image_L 6 1 [[3; 0; 3; 0; 0; 0]].

(** [floor (q + 1/2)] of a rational. *)
Definition round_half_up_exact (q : Q) : Z :=
  (2 * Qnum q + Zpos (Qden q)) / (2 * Zpos (Qden q)).

(** The number a binary32 number stands for, as a rational. *)
Definition Q_of_float (x : float) : Q :=
  match x with
  | S754_finite s m e =>
      if 0 <=? e then inject_Z (cond_Zopp s (Zpos m) * 2 ^ e)
      else Qmake (cond_Zopp s (Zpos m)) (Z.to_pos (2 ^ (- e)))
  | _ => 0%Q
  end.

(** * Properties *)

(** ** Loops *)

Lemma Zrange_nil lo hi : hi <= lo -> Zrange lo hi = [].
Proof.
  intros Hle. unfold Zrange.
  replace (Z.to_nat (hi - lo)) with 0%nat by lia. reflexivity.
Qed.

Lemma Zrange_cons lo hi : lo < hi -> Zrange lo hi = lo :: Zrange (lo + 1) hi.
Proof.
  intros Hlt. unfold Zrange.
  replace (Z.to_nat (hi - lo)) with (S (Z.to_nat (hi - (lo + 1)))) by lia.
  cbn [seq map]. f_equal; [lia|].
  rewrite <- seq_shift, map_map.
  apply map_ext. intros i. lia.
Qed.

Lemma Zrange_snoc lo hi : lo <= hi -> Zrange lo (hi + 1) = Zrange lo hi ++ [hi].
Proof.
  intros Hle. unfold Zrange.
  replace (Z.to_nat (hi + 1 - lo)) with (Z.to_nat (hi - lo) + 1)%nat by lia.
  rewrite seq_app, map_app. cbn [seq map]. f_equal. f_equal. lia.
Qed.

Lemma in_Zrange lo hi x : In x (Zrange lo hi) <-> lo <= x < hi.
Proof.
  unfold Zrange. rewrite in_map_iff. split.
  - intros (i & <- & Hi). apply in_seq in Hi. lia.
  - intros Hx. exists (Z.to_nat (x - lo)). split; [lia|].
    apply in_seq. lia.
Qed.

Lemma for_each_app {S : Type} (body : Z -> S -> outcome S) xs ys s :
  for_each body (xs ++ ys) s =
  match for_each body xs s with
  | Ok s' => for_each body ys s'
  | r => r
  end.
Proof.
  revert s. induction xs as [|x xs IH]; intros s; cbn [for_each app].
  - reflexivity.
  - destruct (body x s); auto.
Qed.

(** A property kept by every round is kept by the loop, however it ends. *)
Lemma for_each_preserves {S : Type} (I : S -> Prop) (body : Z -> S -> outcome S) xs :
  (forall x s s', In x xs -> I s -> final_state (body x s) = Some s' -> I s') ->
  forall s s', I s -> final_state (for_each body xs s) = Some s' -> I s'.
Proof.
  induction xs as [|x xs IH]; intros Hbody s s' Hs Hfin; cbn [for_each] in Hfin.
  - inversion Hfin; subst; assumption.
  - destruct (body x s) as [s1|e s1|] eqn:Hx.
    + apply (IH (fun y t t' Hy => Hbody y t t' (or_intror Hy)) s1 s'); auto.
      apply (Hbody x s s1); [left; reflexivity|assumption|rewrite Hx; reflexivity].
    + cbn in Hfin. inversion Hfin; subst.
      apply (Hbody x s s'); [left; reflexivity|assumption|rewrite Hx; reflexivity].
    + discriminate.
Qed.

(** What each round establishes for its own index, and no later round
    undoes, holds for every index once the loop has run through. *)
Lemma for_each_establishes {S : Type} (P : Z -> S -> Prop)
    (body : Z -> S -> outcome S) xs :
  (forall x s s', In x xs -> body x s = Ok s' -> P x s') ->
  (forall x y s s', In x xs -> In y xs -> body x s = Ok s' -> P y s -> P y s') ->
  forall s s', for_each body xs s = Ok s' -> forall x, In x xs -> P x s'.
Proof.
  intros Hown Hkeep.
  assert (Hgen : forall ys s s',
             (forall y, In y ys -> In y xs) ->
             for_each body ys s = Ok s' ->
             forall x, In x xs -> (In x ys \/ P x s) -> P x s').
  { induction ys as [|y ys IH]; intros s s' Hsub Hrun x Hx Hcase; cbn [for_each] in Hrun.
    - inversion Hrun; subst. destruct Hcase as [[]|]; assumption.
    - destruct (body y s) as [s1| |] eqn:Hy; try discriminate.
      apply (IH s1 s'); auto.
      + intros z Hz. apply Hsub. right; assumption.
      + destruct Hcase as [[->|Hin]|Hp].
        * right. apply (Hown x s s1); auto.
        * left; assumption.
        * right. apply (Hkeep y x s s1); auto. apply Hsub. left; reflexivity. }
  intros s s' Hrun x Hx. apply (Hgen xs s s'); auto.
Qed.

(** The planning pass never reports an error. *)
Lemma plan_loop_no_error filterp g imOut imIn xs st e st' :
  for_each (plan_column filterp g imOut imIn) xs st <> Err e st'.
Proof.
  revert st. induction xs as [|x xs IH]; intros st; cbn [for_each].
  - discriminate.
  - unfold plan_column at 1.
    destruct (column_coefficients _ _ _ _ _ _ _) as [[[[lo hi] kk'] ww]|].
    + apply IH.
    + discriminate.
Qed.

(** ** C8: palette and bilevel sources are refused at once *)

(** C8.  For a source whose mode is "P" or "1", [ImagingStretch] returns the
    mode error with the destination as it was, and its trace of calls is
    empty: no image was allocated, no horizontal pass and no transpose was
    attempted. *)
Theorem C8_palette_and_bilevel_rejected :
  forall sin malloc ImagingNew ImagingTranspose imOut imIn filter,
    mode imIn = "P"%string \/ mode imIn = "1"%string ->
    ImagingStretch sin malloc ImagingNew ImagingTranspose imOut imIn filter
    = (Err ModeError imOut, []).
Proof.
  intros sin malloc New Transpose imOut imIn flt Hmode.
  unfold ImagingStretch.
  destruct Hmode as [-> | ->]; reflexivity.
Qed.

Lemma C8_palette_rejected_witness :
  ImagingStretch sin_stub malloc_zeroed new_stub transpose_stub
    (image_P 2 2 [[0; 0]; [0; 0]]) (image_P 4 4 [[1; 2; 3; 4]; [1; 2; 3; 4]; [1; 2; 3; 4]; [1; 2; 3; 4]])
    IMAGING_TRANSFORM_BILINEAR
  = (Err ModeError (image_P 2 2 [[0; 0]; [0; 0]]), []).
Proof.
  apply C8_palette_and_bilevel_rejected. left. reflexivity.
Defined.

(** ** C10: an unsupported format fails before any pixel is written *)

Lemma for_loop_first_error {S : Type} (body : Z -> S -> outcome S) hi s e s' :
  0 < hi -> body 0 s = Err e s' -> for_loop 0 hi body s = Err e s'.
Proof.
  intros Hhi Hbody. unfold for_loop.
  rewrite Zrange_cons by assumption. cbn [for_each]. rewrite Hbody. reflexivity.
Qed.

Lemma for_loop_first_undef {S : Type} (body : Z -> S -> outcome S) hi s :
  0 < hi -> body 0 s = Undef -> for_loop 0 hi body s = Undef.
Proof.
  intros Hhi Hbody. unfold for_loop.
  rewrite Zrange_cons by assumption. cbn [for_each]. rewrite Hbody. reflexivity.
Qed.

(** C10, as stated, fails: its conditions do not say that the scratch
    blocks are allocated.  For a source and a destination of a special
    type that meet every condition of the claim, an allocator that returns
    NULL makes the call report the memory error of line 141, not the mode
    error. *)
Lemma C10_refused_allocation_counterexample :
  mode (image_special 4 1) = mode (image_special 2 1) /\
  select_filter sin_stub IMAGING_TRANSFORM_BICUBIC <> None /\
  ysize (image_special 2 1) = ysize (image_special 4 1) /\
  1 <= xsize (image_special 2 1) /\
  image8 (image_special 4 1) = None /\
  type (image_special 4 1) = IMAGING_TYPE_SPECIAL /\
  ImagingStretchHorizaontal sin_stub malloc_failing
    (Some (image_special 2 1)) (Some (image_special 4 1)) IMAGING_TRANSFORM_BICUBIC
  = Err MemoryError (Some (image_special 2 1)) /\
  ImagingStretchHorizaontal sin_stub malloc_failing
    (Some (image_special 2 1)) (Some (image_special 4 1)) IMAGING_TRANSFORM_BICUBIC
  <> Err ModeError (Some (image_special 2 1)).
Proof.
  assert (Hrun : ImagingStretchHorizaontal sin_stub malloc_failing
            (Some (image_special 2 1)) (Some (image_special 4 1)) IMAGING_TRANSFORM_BICUBIC
          = Err MemoryError (Some (image_special 2 1))) by (vm_compute; reflexivity).
  split; [reflexivity|]. split; [discriminate|]. split; [reflexivity|].
  split; [cbn; lia|]. split; [reflexivity|]. split; [reflexivity|].
  split; [exact Hrun|]. rewrite Hrun. discriminate.
Qed.

(** C10, amended.  When the modes match, the filter tag is supported, the
    heights are equal and the destination is at least one pixel wide, but
    the source has no 8-bit plane and a type other than UINT8, INT32 and
    FLOAT32, then an [ImagingStretchHorizaontal] that stays within defined
    C fails and leaves the destination it was given: with the memory
    error when [malloc] returns NULL for the coefficient block or for the
    bounds block (lines 139-147), and with the mode error otherwise,
    before any store to the destination. *)
Theorem C10_unsupported_format_fails_unchanged :
  forall sin malloc imOut imIn filter,
    mode imIn = mode imOut ->
    select_filter sin filter <> None ->
    ysize imOut = ysize imIn ->
    1 <= xsize imOut ->
    image8 imIn = None ->
    type imIn = IMAGING_TYPE_SPECIAL ->
    ImagingStretchHorizaontal sin malloc (Some imOut) (Some imIn) filter <> Undef ->
    exists filterp g,
      select_filter sin filter = Some filterp /\
      prepare filterp imOut imIn = Some g /\
      (malloc (xsize imOut * kmax g * 4) = None \/ malloc (xsize imOut * 3 * 4) = None ->
       ImagingStretchHorizaontal sin malloc (Some imOut) (Some imIn) filter
       = Err MemoryError (Some imOut)) /\
      (malloc (xsize imOut * kmax g * 4) <> None -> malloc (xsize imOut * 3 * 4) <> None ->
       ImagingStretchHorizaontal sin malloc (Some imOut) (Some imIn) filter
       = Err ModeError (Some imOut)).
Proof.
  intros sin malloc imOut imIn flt Hmode Hflt Hys Hxs H8 Hty.
  unfold ImagingStretchHorizaontal.
  rewrite Hmode, String.eqb_refl, Hys, Z.eqb_refl. cbn [negb].
  destruct (select_filter sin flt) as [filterp|]; [|congruence].
  unfold stretch_passes.
  destruct (prepare filterp imOut imIn) as [g|] eqn:Hg; [|congruence].
  intros Hdef. exists filterp, g. split; [reflexivity|]. split; [exact Hg|].
  revert Hdef.
  destruct (in_int (xsize imOut * kmax g)); cbn [negb]; [|congruence].
  destruct (malloc (xsize imOut * kmax g * 4)) as [kk|] eqn:Hkk.
  2:{ intros _. split; [reflexivity|congruence]. }
  destruct (in_int (xsize imOut * 3)); cbn [negb]; [|congruence].
  destruct (malloc (xsize imOut * 3 * 4)) as [xb|] eqn:Hxb.
  2:{ intros _. split; [reflexivity|congruence]. }
  destruct (for_loop 0 (xsize imOut) (plan_column filterp g imOut imIn) (kk, xb))
    as [[kk1 xb1]|e st|] eqn:Hplan; [| elim (plan_loop_no_error _ _ _ _ _ _ _ _ Hplan) | congruence].
  destruct (column_coefficients filterp g imIn (xsize imOut * kmax g)
              ((xsize imOut - 1) * kmax g) 0 kk1) as [[[[lo hi] kk'] ww]|] eqn:Hco.
  - rewrite (for_loop_first_error _ _ _ ModeError (imOut, kk')); [|lia|].
    + intros _. split; [intros [H|H]; discriminate|reflexivity].
    + unfold stretch_column. cbn [fst snd]. rewrite Hco.
      unfold reduce_column. rewrite H8, Hty. reflexivity.
  - rewrite for_loop_first_undef; [congruence|lia|].
    unfold stretch_column. cbn [fst snd]. rewrite Hco. reflexivity.
Qed.

Lemma C10_unsupported_format_witness :
  ImagingStretchHorizaontal sin_stub malloc_zeroed
    (Some (image_special 2 1)) (Some (image_special 4 1)) IMAGING_TRANSFORM_BICUBIC
  = Err ModeError (Some (image_special 2 1)).
Proof.
  assert (Hflt : select_filter sin_stub IMAGING_TRANSFORM_BICUBIC <> None) by discriminate.
  assert (Hxs : 1 <= xsize (image_special 2 1)) by (cbn; lia).
  assert (Hdef : ImagingStretchHorizaontal sin_stub malloc_zeroed
                   (Some (image_special 2 1)) (Some (image_special 4 1))
                   IMAGING_TRANSFORM_BICUBIC <> Undef) by (vm_compute; discriminate).
  destruct (C10_unsupported_format_fails_unchanged sin_stub malloc_zeroed
              (image_special 2 1) (image_special 4 1) IMAGING_TRANSFORM_BICUBIC
              eq_refl Hflt eq_refl Hxs eq_refl eq_refl Hdef)
    as (filterp & g & _ & _ & _ & Hmode).
  apply Hmode; discriminate.
Defined.

(** ** Buffers and the window loop *)

Lemma store_eq {R : Type} (b : buffer R) i v : store b i v i = v.
Proof. unfold store. rewrite Z.eqb_refl. reflexivity. Qed.

Lemma store_neq {R : Type} (b : buffer R) i j v : j <> i -> store b i v j = b j.
Proof. intros Hne. unfold store. destruct (Z.eqb_spec j i); congruence. Qed.

Lemma store2_eq {V : Type} (rows : Z -> Z -> V) y x v : store2 rows y x v y x = v.
Proof. unfold store2. rewrite !Z.eqb_refl. reflexivity. Qed.

Lemma store2_neq {V : Type} (rows : Z -> Z -> V) y x v y' x' :
  y' <> y \/ x' <> x -> store2 rows y x v y' x' = rows y' x'.
Proof.
  intros Hne. unfold store2.
  destruct (Z.eqb_spec y' y), (Z.eqb_spec x' x); cbn; try reflexivity.
  destruct Hne; congruence.
Qed.

Lemma fold_left_ext_in {A B : Type} (f g : A -> B -> A) (l : list B) :
  (forall a b, In b l -> f a b = g a b) ->
  forall a, fold_left f l a = fold_left g l a.
Proof.
  induction l as [|b l IH]; intros Hfg a; cbn [fold_left].
  - reflexivity.
  - rewrite Hfg by (left; reflexivity). apply IH.
    intros a' b' Hb'. apply Hfg. right; assumption.
Qed.

Section WindowLoop.
Context {R : Type} `{Scalar R}.
Variables (w : Z -> R) (base lo : Z).

Let step (st : buffer R * R) (x : Z) : buffer R * R :=
  (store (fst st) (base + (x - lo)) (w x), s_add (snd st) (w x)).

Lemma window_fold_snd xs st :
  snd (fold_left step xs st) = fold_left (fun acc x => s_add acc (w x)) xs (snd st).
Proof.
  revert st. induction xs as [|x xs IH]; intros st; cbn [fold_left].
  - reflexivity.
  - rewrite IH. reflexivity.
Qed.

Lemma window_fold_written xs st x :
  In x xs \/ fst st (base + (x - lo)) = w x ->
  fst (fold_left step xs st) (base + (x - lo)) = w x.
Proof.
  revert st. induction xs as [|a xs IH]; intros st Hx; cbn [fold_left].
  - destruct Hx as [[]|Hx]. exact Hx.
  - apply IH. destruct Hx as [[->|Hin]|Hst].
    + right. cbn. apply store_eq.
    + left. exact Hin.
    + right. cbn. unfold store.
      destruct (Z.eqb_spec (base + (x - lo)) (base + (a - lo))) as [Heq|Hne].
      * f_equal. lia.
      * exact Hst.
Qed.

Lemma window_fold_untouched xs st i :
  (forall x, In x xs -> i <> base + (x - lo)) ->
  fst (fold_left step xs st) i = fst st i.
Proof.
  revert st. induction xs as [|a xs IH]; intros st Hi; cbn [fold_left].
  - reflexivity.
  - rewrite IH by (intros x Hx; apply Hi; right; exact Hx).
    cbn. apply store_neq. apply Hi. left; reflexivity.
Qed.

Lemma window_loop_total hi kk ww :
  snd (window_loop w base lo hi kk ww)
  = fold_left (fun acc x => s_add acc (w x)) (Zrange lo hi) ww.
Proof. unfold window_loop. apply (window_fold_snd (Zrange lo hi) (kk, ww)). Qed.

Lemma window_loop_written hi kk ww x :
  lo <= x < hi -> fst (window_loop w base lo hi kk ww) (base + (x - lo)) = w x.
Proof.
  intros Hx. unfold window_loop.
  apply (window_fold_written (Zrange lo hi) (kk, ww)).
  left. apply in_Zrange. exact Hx.
Qed.

Lemma window_loop_untouched hi kk ww i :
  i < base \/ base + (hi - lo) <= i ->
  fst (window_loop w base lo hi kk ww) i = kk i.
Proof.
  intros Hi. unfold window_loop.
  rewrite (window_fold_untouched (Zrange lo hi) (kk, ww)); [reflexivity|].
  intros x Hx. apply in_Zrange in Hx. lia.
Qed.

Lemma weighted_sum_ext px kk1 base1 kk2 base2 hi :
  (forall x, lo <= x < hi -> kk1 (base1 + (x - lo)) = kk2 (base2 + (x - lo))) ->
  weighted_sum px kk1 base1 lo hi = weighted_sum px kk2 base2 lo hi.
Proof.
  intros Hkk. unfold weighted_sum. apply fold_left_ext_in.
  intros a x Hx. apply in_Zrange in Hx. rewrite Hkk by exact Hx. reflexivity.
Qed.
End WindowLoop.

Lemma weighted_sum_column_sum px kk base lo hi w :
  (forall x, lo <= x < hi -> kk (base + (x - lo)) = w x) ->
  weighted_sum px kk base lo hi = column_sum px w lo hi.
Proof.
  intros Hkk. unfold weighted_sum, column_sum. apply fold_left_ext_in.
  intros a x Hx. apply in_Zrange in Hx. rewrite Hkk by exact Hx. reflexivity.
Qed.

(** The coefficients written to the buffer are those of [column_plan]. *)
Lemma column_coefficients_plan filterp g imIn size base xx kk lo hi kk' ww :
  column_coefficients filterp g imIn size base xx kk = Some (lo, hi, kk', ww) ->
  column_plan filterp g imIn xx
  = Some (lo, hi, weight filterp (column_center g xx) (column_ss g), ww)
  /\ writes_in_bounds base lo hi size = true
  /\ (forall x, lo <= x < hi ->
        kk' (base + (x - lo)) = weight filterp (column_center g xx) (column_ss g) x)
  /\ (forall i, i < base \/ base + (hi - lo) <= i -> kk' i = kk i).
Proof.
  unfold column_coefficients, column_plan.
  destruct (to_int (column_xmin g xx)) as [lo'|]; [|discriminate].
  destruct (to_int (column_xmax g imIn xx)) as [hi'|]; [|discriminate].
  destruct (writes_in_bounds base lo' hi' size) eqn:Hw; [|discriminate].
  intros Heq. inversion Heq; subst. clear Heq.
  rewrite (window_loop_total (H := float_scalar)).
  repeat split.
  - exact Hw.
  - intros x Hx. apply (window_loop_written (H := float_scalar)). exact Hx.
  - intros i Hi. apply (window_loop_untouched (H := float_scalar)). exact Hi.
Qed.

Lemma column_plan_coefficients filterp g imIn size base xx kk lo hi w ww :
  column_plan filterp g imIn xx = Some (lo, hi, w, ww) ->
  writes_in_bounds base lo hi size = true ->
  exists kk', column_coefficients filterp g imIn size base xx kk = Some (lo, hi, kk', ww).
Proof.
  unfold column_coefficients, column_plan.
  destruct (to_int (column_xmin g xx)) as [lo'|]; [|discriminate].
  destruct (to_int (column_xmax g imIn xx)) as [hi'|]; [|discriminate].
  intros Heq Hw. inversion Heq; subst. clear Heq. rewrite Hw.
  rewrite (window_loop_total (H := float_scalar)).
  eexists. reflexivity.
Qed.


(** ** Rows, columns and the hot loop *)

Lemma for_each_no_error {S : Type} (body : Z -> S -> outcome S) xs :
  (forall x s r, final_state (body x s) = Some r -> body x s = Ok r) ->
  forall s r, final_state (for_each body xs s) = Some r -> for_each body xs s = Ok r.
Proof.
  intros Hbody. induction xs as [|x xs IH]; intros s r Hfin; cbn [for_each] in *.
  - inversion Hfin; reflexivity.
  - destruct (body x s) as [s1|e s1|] eqn:Hx.
    + apply IH. exact Hfin.
    + specialize (Hbody x s s1). rewrite Hx in Hbody.
      specialize (Hbody eq_refl). discriminate.
    + discriminate.
Qed.

Lemma for_each_establishes_inv {S : Type} (I : S -> Prop) (P : Z -> S -> Prop)
    (body : Z -> S -> outcome S) xs :
  (forall x s s', In x xs -> I s -> body x s = Ok s' -> I s' /\ P x s') ->
  (forall x y s s', In x xs -> In y xs -> I s -> body x s = Ok s' -> P y s -> P y s') ->
  forall s s', I s -> for_each body xs s = Ok s' -> I s' /\ forall x, In x xs -> P x s'.
Proof.
  intros Hown Hkeep.
  assert (Hgen : forall ys s s',
             (forall y, In y ys -> In y xs) -> I s ->
             for_each body ys s = Ok s' ->
             I s' /\ forall x, In x xs -> (In x ys \/ P x s) -> P x s').
  { induction ys as [|y ys IH]; intros s s' Hsub Hs Hrun; cbn [for_each] in Hrun.
    - inversion Hrun; subst. split; [assumption|].
      intros x _ [[]|Hp]. exact Hp.
    - destruct (body y s) as [s1| |] eqn:Hy; try discriminate.
      assert (Hy' : In y xs) by (apply Hsub; left; reflexivity).
      destruct (Hown y s s1 Hy' Hs Hy) as [Hs1 Hp1].
      destruct (IH s1 s' (fun z Hz => Hsub z (or_intror Hz)) Hs1 Hrun) as [Hs' Hall].
      split; [assumption|].
      intros x Hx [[->|Hin]|Hp].
      + apply Hall; auto.
      + apply Hall; auto.
      + apply Hall; auto. right. apply (Hkeep y x s s1); auto. }
  intros s s' Hs Hrun.
  destruct (Hgen xs s s' (fun y Hy => Hy) Hs Hrun) as [Hs' Hall].
  split; [assumption|]. intros x Hx. apply Hall; auto.
Qed.

Section Cells.
Context {V : Type}.
Variables (get : Imaging -> Z -> Z -> option V) (lanes : list Z) (key : Z -> Z -> Z).

Lemma column_written val xx body :
  row_writer get lanes key val xx body ->
  forall H s s',
    final_state (for_loop 0 H body s) = Some s' ->
    for_loop 0 H body s = Ok s' /\
    ysize s' = ysize s /\
    (forall yy b, 0 <= yy < H -> In b lanes ->
       exists v, val yy b = Some v /\ get s' yy (key xx b) = Some v) /\
    (forall y c, ~ 0 <= y < H \/ (forall b, In b lanes -> c <> key xx b) ->
       get s' y c = get s y c).
Proof.
  intros Hrow H s s' Hfin. unfold for_loop in *.
  assert (Hok : for_each body (Zrange 0 H) s = Ok s').
  { apply for_each_no_error; [|exact Hfin].
    intros x t r Hr. apply (Hrow x t r Hr). }
  split; [exact Hok|].
  split; [|split].
  - apply (for_each_preserves (fun t => ysize t = ysize s) body (Zrange 0 H)) with (s := s);
      auto.
    intros x t t' _ Ht Hr. destruct (Hrow x t t' Hr) as (_ & Hy & _). congruence.
  - intros yy b Hyy Hb.
    apply (for_each_establishes
             (fun yy t => forall b, In b lanes ->
                exists v, val yy b = Some v /\ get t yy (key xx b) = Some v)
             body (Zrange 0 H)) with (s := s) (x := yy); auto.
    + intros x t t' _ Hx. apply (Hrow x t t'). rewrite Hx. reflexivity.
    + intros x y t t' _ _ Hx Hp b' Hb'.
      destruct (Hrow x t t') as (_ & _ & Hown & Hframe); [rewrite Hx; reflexivity|].
      destruct (Z.eq_dec y x) as [->|Hne].
      * apply Hown. exact Hb'.
      * rewrite Hframe by (left; exact Hne). apply Hp. exact Hb'.
    + apply in_Zrange. exact Hyy.
  - intros y c Hyc.
    apply (for_each_preserves (fun t => get t y c = get s y c) body (Zrange 0 H))
      with (s := s); auto.
    intros x t t' Hx Ht Hr. destruct (Hrow x t t' Hr) as (_ & _ & _ & Hframe).
    rewrite Hframe; [exact Ht|].
    apply in_Zrange in Hx.
    destruct Hyc as [Hy|Hc]; [left; lia|right; exact Hc].
Qed.

Variables (px : Z -> Z -> Z -> float) (finish : float -> float -> option V).
Variables (filterp : filter_t) (g : geometry) (imIn : Imaging) (size base : Z).
Hypothesis key_inj :
  forall x b x' b', In b lanes -> In b' lanes -> key x b = key x' b' -> x = x'.
Hypothesis format : column_writer get lanes key px finish imIn.

Lemma stretch_column_written xx s kk s' kk' :
  final_state (stretch_column filterp g imIn size base xx (s, kk)) = Some (s', kk') ->
  stretch_column filterp g imIn size base xx (s, kk) = Ok (s', kk') /\
  ysize s' = ysize s /\
  (exists lo hi w ww,
     column_plan filterp g imIn xx = Some (lo, hi, w, ww) /\
     writes_in_bounds base lo hi size = true /\
     forall yy b, 0 <= yy < ysize s -> In b lanes ->
       exists v, finish (column_sum (px yy b) w lo hi) ww = Some v /\
                 get s' yy (key xx b) = Some v) /\
  (forall y c, ~ 0 <= y < ysize s \/ (forall b, In b lanes -> c <> key xx b) ->
     get s' y c = get s y c).
Proof.
  unfold stretch_column. cbn [fst snd].
  destruct (column_coefficients filterp g imIn size base xx kk)
    as [[[[lo hi] kk1] ww]|] eqn:Hco; [|discriminate].
  destruct (column_coefficients_plan _ _ _ _ _ _ _ _ _ _ _ Hco)
    as (Hplan & Hw & Hin & _).
  destruct (format kk1 base lo hi ww xx s) as (body & Hred & Hrow).
  rewrite Hred.
  intros Hfin.
  assert (Hfin' : final_state (for_loop 0 (ysize s) body s) = Some s' /\ kk' = kk1).
  { destruct (for_loop 0 (ysize s) body s); cbn in *; inversion Hfin; auto. }
  destruct Hfin' as [Hfin' ->].
  destruct (column_written _ _ _ Hrow _ _ _ Hfin') as (Hok & Hys & Hcells & Hframe).
  rewrite Hok. repeat split; auto.
  exists lo, hi, (weight filterp (column_center g xx) (column_ss g)), ww.
  repeat split; auto.
  intros yy b Hyy Hb. destruct (Hcells yy b Hyy Hb) as (v & Hv & Hget).
  exists v. split; [|exact Hget].
  rewrite <- Hv. f_equal. symmetry. apply weighted_sum_column_sum. exact Hin.
Qed.

Lemma stretch_loop_written D imOut kk0 o kk1 :
  final_state (for_loop 0 D (stretch_column filterp g imIn size base) (imOut, kk0))
  = Some (o, kk1) ->
  for_loop 0 D (stretch_column filterp g imIn size base) (imOut, kk0) = Ok (o, kk1) /\
  ysize o = ysize imOut /\
  (forall xx yy b, 0 <= xx < D -> 0 <= yy < ysize imOut -> In b lanes ->
     exists lo hi w ww v,
       column_plan filterp g imIn xx = Some (lo, hi, w, ww) /\
       writes_in_bounds base lo hi size = true /\
       finish (column_sum (px yy b) w lo hi) ww = Some v /\
       get o yy (key xx b) = Some v) /\
  (forall y c, ~ 0 <= y < ysize imOut \/
               (forall xx b, 0 <= xx < D -> In b lanes -> c <> key xx b) ->
     get o y c = get imOut y c).
Proof.
  intros Hfin. unfold for_loop in *.
  set (body := stretch_column filterp g imIn size base) in *.
  assert (Hok : for_each body (Zrange 0 D) (imOut, kk0) = Ok (o, kk1)).
  { apply for_each_no_error; [|exact Hfin].
    intros x [t kt] [r kr] Hr. apply (stretch_column_written x t kt r kr Hr). }
  split; [exact Hok|].
  destruct (for_each_establishes_inv
              (fun st => ysize (fst st) = ysize imOut)
              (fun xx st => forall yy b, 0 <= yy < ysize imOut -> In b lanes ->
                 exists lo hi w ww v,
                   column_plan filterp g imIn xx = Some (lo, hi, w, ww) /\
                   writes_in_bounds base lo hi size = true /\
                   finish (column_sum (px yy b) w lo hi) ww = Some v /\
                   get (fst st) yy (key xx b) = Some v)
              body (Zrange 0 D)) with (s := (imOut, kk0)) (s' := (o, kk1))
    as [Hys Hcells]; auto.
  - intros x [t kt] [t' kt'] _ Ht Hx. cbn [fst] in *.
    assert (Hr : final_state (body x (t, kt)) = Some (t', kt')) by (rewrite Hx; reflexivity).
    destruct (stretch_column_written x t kt t' kt' Hr) as (_ & Hy & Hown & _).
    split; [congruence|].
    intros yy b Hyy Hb. destruct Hown as (lo & hi & w & ww & Hplan & Hw & Hv).
    rewrite Ht in Hv. destruct (Hv yy b Hyy Hb) as (v & Hv1 & Hv2).
    exists lo, hi, w, ww, v. auto.
  - intros x y [t kt] [t' kt'] _ _ Ht Hx Hp yy b Hyy Hb. cbn [fst] in *.
    assert (Hr : final_state (body x (t, kt)) = Some (t', kt')) by (rewrite Hx; reflexivity).
    destruct (stretch_column_written x t kt t' kt' Hr) as (_ & Hy & Hown & Hframe).
    destruct (Z.eq_dec y x) as [->|Hne].
    + destruct Hown as (lo & hi & w & ww & Hplan & Hw & Hv).
      rewrite Ht in Hv. destruct (Hv yy b Hyy Hb) as (v & Hv1 & Hv2).
      exists lo, hi, w, ww, v. auto.
    + rewrite Hframe; [apply Hp; assumption|].
      right. intros b' Hb' Heq. apply Hne. apply (key_inj y b x b'); assumption.
  - cbn [fst] in Hys. split; [exact Hys|]. split.
    + intros xx yy b Hxx Hyy Hb. apply (Hcells xx); auto. apply in_Zrange. exact Hxx.
    + intros y c Hyc.
      apply (for_each_preserves
               (fun st => ysize (fst st) = ysize imOut /\ get (fst st) y c = get imOut y c)
               body (Zrange 0 D)) with (s := (imOut, kk0)) (s' := (o, kk1)); auto.
      intros x [t kt] [t' kt'] Hx [Ht1 Ht2] Hr. cbn [fst] in *.
      destruct (stretch_column_written x t kt t' kt' Hr) as (_ & Hy & _ & Hframe).
      split; [congruence|].
      rewrite Hframe; [exact Ht2|].
      apply in_Zrange in Hx. rewrite Ht1.
      destruct Hyc as [Hy'|Hc]; [left; exact Hy'|right].
      intros b Hb. apply Hc; assumption.
Qed.

End Cells.

(** ** The four formats *)

Lemma format_image8 imIn src :
  image8 imIn = Some src ->
  column_writer cell8 [0] (fun xx _ => xx)
    (fun yy _ x => F32.of_int (src yy x)) (fun ss ww => clip8 (bias8 ss ww)) imIn.
Proof.
  intros H8 kk base lo hi ww xx s.
  exists (pixel8 imIn src kk base lo hi ww xx). split.
  - unfold reduce_column. rewrite H8. reflexivity.
  - intros yy t r. unfold pixel8.
    destruct (reads_in_bounds imIn lo hi); [|discriminate].
    destruct (clip8 _) as [v|] eqn:Hv; [|discriminate].
    destruct (image8 t) as [dst|] eqn:Hdst; [|discriminate].
    cbn [final_state]. intros Hr. inversion Hr; subst. clear Hr.
    split; [reflexivity|]. split; [reflexivity|]. split.
    + intros b _. exists v. split; [reflexivity|].
      unfold cell8. cbn. rewrite store2_eq. reflexivity.
    + intros y c Hyc. unfold cell8. cbn. rewrite Hdst. f_equal.
      apply store2_neq. destruct Hyc as [Hy|Hc]; [left; exact Hy|right].
      apply (Hc 0). left; reflexivity.
Qed.

Lemma format_image32 imIn :
  image8 imIn = None -> type imIn = IMAGING_TYPE_INT32 ->
  column_writer cell32 [0] (fun xx _ => xx)
    (fun yy _ x => F32.of_int (image32 imIn yy x)) scale_int imIn.
Proof.
  intros H8 Hty kk base lo hi ww xx s.
  exists (pixel32 imIn kk base lo hi ww xx). split.
  - unfold reduce_column. rewrite H8, Hty. reflexivity.
  - intros yy t r. unfold pixel32.
    destruct (reads_in_bounds imIn lo hi); [|discriminate].
    destruct (scale_int _ _) as [v|] eqn:Hv; [|discriminate].
    cbn [final_state]. intros Hr. inversion Hr; subst. clear Hr.
    split; [reflexivity|]. split; [reflexivity|]. split.
    + intros b _. exists v. split; [reflexivity|].
      unfold cell32. cbn. rewrite store2_eq. reflexivity.
    + intros y c Hyc. unfold cell32. cbn. f_equal.
      apply store2_neq. destruct Hyc as [Hy|Hc]; [left; exact Hy|right].
      apply (Hc 0). left; reflexivity.
Qed.

Lemma format_image32f imIn :
  image8 imIn = None -> type imIn = IMAGING_TYPE_FLOAT32 ->
  column_writer cell32f [0] (fun xx _ => xx)
    (fun yy _ x => image32f imIn yy x) (fun ss ww => Some (F32.mul ss ww)) imIn.
Proof.
  intros H8 Hty kk base lo hi ww xx s.
  exists (pixel32f imIn kk base lo hi ww xx). split.
  - unfold reduce_column. rewrite H8, Hty. reflexivity.
  - intros yy t r. unfold pixel32f.
    destruct (reads_in_bounds imIn lo hi); [|discriminate].
    cbn [final_state]. intros Hr. inversion Hr; subst. clear Hr.
    split; [reflexivity|]. split; [reflexivity|]. split.
    + intros b _. eexists. split; [reflexivity|].
      unfold cell32f. cbn. rewrite store2_eq. reflexivity.
    + intros y c Hyc. unfold cell32f. cbn. f_equal.
      apply store2_neq. destruct Hyc as [Hy|Hc]; [left; exact Hy|right].
      apply (Hc 0). left; reflexivity.
Qed.

(** The band loop runs its body once per lane of [band_lanes], with the
    fuel it is given. *)
Lemma band_loop_range fuel nbands body :
  nbands <> 2 ->
  forall b s,
    nbands - b <= Z.of_nat fuel ->
    band_loop fuel nbands b body s = for_each body (Zrange b nbands) s.
Proof.
  intros Hnb. induction fuel as [|fuel IH]; intros b s Hfuel; cbn [band_loop].
  - destruct (Z.ltb_spec b nbands); [lia|].
    rewrite Zrange_nil by lia. reflexivity.
  - destruct (Z.ltb_spec b nbands).
    + destruct (Z.eqb_spec nbands 2); [contradiction|]. cbn [andb].
      rewrite Zrange_cons by lia. cbn [for_each].
      destruct (body b s); try reflexivity.
      apply IH. lia.
    + rewrite Zrange_nil by lia. reflexivity.
Qed.

Lemma band_loop_lanes nbands body s :
  band_loop (Z.to_nat nbands) nbands 0 body s = for_each body (band_lanes nbands) s.
Proof.
  unfold band_lanes. destruct (Z.eqb_spec nbands 2) as [->|Hne].
  - change (Z.to_nat 2) with 2%nat. cbn.
    destruct (body 0 s) as [s1| |]; reflexivity.
  - apply band_loop_range; [exact Hne|lia].
Qed.

Lemma in_band_lanes nbands b : In b (band_lanes nbands) <-> visited_lane nbands b = true.
Proof.
  unfold band_lanes, visited_lane. destruct (Z.eqb_spec nbands 2).
  - cbn. destruct (Z.eqb_spec b 0), (Z.eqb_spec b 3); cbn; split; intros Hb;
      try reflexivity; try discriminate; auto;
      destruct Hb as [|[|[]]]; congruence.
  - rewrite in_Zrange. lia.
Qed.

Lemma pixel_band_writes imIn kk base lo hi ww xx yy b t r :
  final_state (pixel_band imIn kk base lo hi ww xx yy b t) = Some r ->
  pixel_band imIn kk base lo hi ww xx yy b t = Ok r /\
  ysize r = ysize t /\
  (exists v,
     clip8 (bias8 (weighted_sum (fun x => F32.of_int (image imIn yy (x * 4 + b) mod 256))
                     kk base lo hi) ww) = Some v /\
     image r yy (xx * 4 + b) = v) /\
  (forall y c, y <> yy \/ c <> xx * 4 + b -> image r y c = image t y c).
Proof.
  unfold pixel_band.
  destruct (reads_in_bounds imIn lo hi); [|discriminate].
  destruct (clip8 _) as [v|] eqn:Hv; [|discriminate].
  cbn [final_state]. intros Hr. inversion Hr; subst. clear Hr.
  split; [reflexivity|]. split; [reflexivity|]. split.
  - exists v. split; [reflexivity|]. cbn. apply store2_eq.
  - intros y c Hyc. cbn. apply store2_neq. exact Hyc.
Qed.

Lemma format_image imIn :
  image8 imIn = None -> type imIn = IMAGING_TYPE_UINT8 ->
  column_writer cell (band_lanes (bands imIn)) (fun xx b => xx * 4 + b)
    (fun yy b x => F32.of_int (image imIn yy (x * 4 + b) mod 256))
    (fun ss ww => clip8 (bias8 ss ww)) imIn.
Proof.
  intros H8 Hty kk base lo hi ww xx s.
  exists (fun yy => band_loop (Z.to_nat (bands imIn)) (bands imIn) 0
                      (pixel_band imIn kk base lo hi ww xx yy)).
  split.
  - unfold reduce_column. rewrite H8, Hty. reflexivity.
  - intros yy t r. rewrite band_loop_lanes.
    set (body := pixel_band imIn kk base lo hi ww xx yy).
    set (L := band_lanes (bands imIn)).
    intros Hfin.
    assert (Hok : for_each body L t = Ok r).
    { apply for_each_no_error; [|exact Hfin].
      intros b u u' Hu. apply (pixel_band_writes _ _ _ _ _ _ _ _ _ _ _ Hu). }
    split; [exact Hok|]. split; [|split].
    + apply (for_each_preserves (fun u => ysize u = ysize t) body L) with (s := t); auto.
      intros b u u' _ Hu Hr.
      destruct (pixel_band_writes _ _ _ _ _ _ _ _ _ _ _ Hr) as (_ & Hy & _). congruence.
    + intros b Hb.
      apply (for_each_establishes
               (fun b u => exists v,
                  clip8 (bias8 (weighted_sum
                                  (fun x => F32.of_int (image imIn yy (x * 4 + b) mod 256))
                                  kk base lo hi) ww) = Some v /\
                  cell u yy (xx * 4 + b) = Some v)
               body L) with (s := t) (x := b); auto.
      * intros x u u' _ Hx.
        assert (Hr : final_state (body x u) = Some u') by (rewrite Hx; reflexivity).
        destruct (pixel_band_writes _ _ _ _ _ _ _ _ _ _ _ Hr) as (_ & _ & (v & Hv & Hc) & _).
        exists v. split; [exact Hv|]. unfold cell. congruence.
      * intros x y u u' _ _ Hx (v & Hv & Hc).
        assert (Hr : final_state (body x u) = Some u') by (rewrite Hx; reflexivity).
        destruct (pixel_band_writes _ _ _ _ _ _ _ _ _ _ _ Hr)
          as (_ & _ & (v' & Hv' & Hc') & Hframe).
        destruct (Z.eq_dec y x) as [->|Hne].
        -- exists v'. split; [exact Hv'|]. unfold cell. congruence.
        -- exists v. split; [exact Hv|]. unfold cell in *.
           rewrite Hframe; [exact Hc|]. right. lia.
    + intros y c Hyc.
      apply (for_each_preserves (fun u => cell u y c = cell t y c) body L) with (s := t); auto.
      intros b u u' Hb Hu Hr.
      destruct (pixel_band_writes _ _ _ _ _ _ _ _ _ _ _ Hr) as (_ & _ & _ & Hframe).
      unfold cell in *. rewrite Hframe; [exact Hu|].
      destruct Hyc as [Hy|Hc]; [left; exact Hy|right]. apply Hc. exact Hb.
Qed.


(** ** The call as a whole *)

Lemma stretch_passes_final malloc filterp imOut imIn r :
  final_state (stretch_passes malloc filterp imOut imIn) = Some r ->
  r = imOut \/
  exists g kk0 kk1,
    prepare filterp imOut imIn = Some g /\
    final_state
      (for_loop 0 (xsize imOut)
         (stretch_column filterp g imIn (xsize imOut * kmax g) ((xsize imOut - 1) * kmax g))
         (imOut, kk0))
    = Some (r, kk1).
Proof.
  unfold stretch_passes.
  destruct (prepare filterp imOut imIn) as [g|]; [|discriminate].
  destruct (in_int (xsize imOut * kmax g)); cbn [negb]; [|discriminate].
  destruct (malloc (xsize imOut * kmax g * 4)) as [kk|];
    [|cbn; intros Hr; inversion Hr; left; reflexivity].
  destruct (in_int (xsize imOut * 3)); cbn [negb]; [|discriminate].
  destruct (malloc (xsize imOut * 3 * 4)) as [xb|];
    [|cbn; intros Hr; inversion Hr; left; reflexivity].
  destruct (for_loop 0 (xsize imOut) (plan_column filterp g imOut imIn) (kk, xb))
    as [[kk1 xb1]|e st|]; [|cbn; intros Hr; inversion Hr; left; reflexivity|discriminate].
  intros Hr. right. exists g, kk1.
  destruct (for_loop 0 (xsize imOut) _ (imOut, kk1)) as [[o k]|e [o k]|];
    cbn in Hr; inversion Hr; subst; exists k; auto.
Qed.

Lemma stretch_final sin malloc imOut imIn filter r :
  final_state (ImagingStretchHorizaontal sin malloc (Some imOut) (Some imIn) filter)
  = Some (Some r) ->
  r = imOut \/
  exists filterp g kk0 kk1,
    select_filter sin filter = Some filterp /\
    prepare filterp imOut imIn = Some g /\
    final_state
      (for_loop 0 (xsize imOut)
         (stretch_column filterp g imIn (xsize imOut * kmax g) ((xsize imOut - 1) * kmax g))
         (imOut, kk0))
    = Some (r, kk1).
Proof.
  unfold ImagingStretchHorizaontal.
  destruct (negb (String.eqb (mode imIn) (mode imOut)));
    [cbn; intros Hr; inversion Hr; left; reflexivity|].
  destruct (negb (ysize imOut =? ysize imIn));
    [cbn; intros Hr; inversion Hr; left; reflexivity|].
  destruct (select_filter sin filter) as [filterp|];
    [|cbn; intros Hr; inversion Hr; left; reflexivity].
  intros Hr.
  assert (Hr' : final_state (stretch_passes malloc filterp imOut imIn) = Some r).
  { destruct (stretch_passes malloc filterp imOut imIn); cbn in *; congruence. }
  destruct (stretch_passes_final _ _ _ _ _ Hr') as [->|(g & kk0 & kk1 & Hg & Hloop)].
  - left; reflexivity.
  - right. exists filterp, g, kk0, kk1. auto.
Qed.

Lemma stretch_ok sin malloc imOut imIn filter o :
  ImagingStretchHorizaontal sin malloc (Some imOut) (Some imIn) filter = Ok (Some o) ->
  exists filterp g kk0 kk1,
    select_filter sin filter = Some filterp /\
    prepare filterp imOut imIn = Some g /\
    final_state
      (for_loop 0 (xsize imOut)
         (stretch_column filterp g imIn (xsize imOut * kmax g) ((xsize imOut - 1) * kmax g))
         (imOut, kk0))
    = Some (o, kk1).
Proof.
  unfold ImagingStretchHorizaontal.
  destruct (negb (String.eqb (mode imIn) (mode imOut))); [discriminate|].
  destruct (negb (ysize imOut =? ysize imIn)); [discriminate|].
  destruct (select_filter sin filter) as [filterp|] eqn:Hsel; [|discriminate].
  unfold stretch_passes.
  destruct (prepare filterp imOut imIn) as [g|] eqn:Hg; [|discriminate].
  destruct (in_int (xsize imOut * kmax g)); cbn [negb]; [|discriminate].
  destruct (malloc (xsize imOut * kmax g * 4)) as [kk|]; [|discriminate].
  destruct (in_int (xsize imOut * 3)); cbn [negb]; [|discriminate].
  destruct (malloc (xsize imOut * 3 * 4)) as [xb|]; [|discriminate].
  destruct (for_loop 0 (xsize imOut) (plan_column filterp g imOut imIn) (kk, xb))
    as [[kk1 xb1]| |]; [|discriminate|discriminate].
  intros Hr. exists filterp, g, kk1.
  destruct (for_loop 0 (xsize imOut) _ (imOut, kk1)) as [[o' k]|e [o' k]|];
    cbn in Hr; inversion Hr; subst. exists k. repeat split; auto.
Qed.

(** ** The saturation rule of the 8-bit formats *)

Lemma to_uint8_range s v : to_uint8 s = Some v -> 0 <= v <= 255.
Proof.
  unfold to_uint8. destruct (Ztrunc s) as [z|]; [|discriminate].
  destruct (Z.leb_spec 0 z), (Z.leb_spec z 255); cbn; intros Hv; inversion Hv; lia.
Qed.

Lemma clip8_stored8 s v : clip8 s = Some v -> stored8 s v.
Proof.
  unfold clip8, stored8.
  destruct (F64.ltb (F64.of_float s) F64.half).
  - intros Hv; inversion Hv; subst. repeat split; try discriminate; auto; lia.
  - destruct (F64.leb (F64.of_int 255) (F64.of_float s)).
    + intros Hv; inversion Hv; subst. repeat split; try discriminate; auto; lia.
    + intros Hv. pose proof (to_uint8_range _ _ Hv). repeat split; try discriminate; auto; lia.
Qed.

Lemma band_lanes_key_inj nbands x b x' b' :
  nbands <= 4 ->
  In b (band_lanes nbands) -> In b' (band_lanes nbands) ->
  x * 4 + b = x' * 4 + b' -> x = x'.
Proof.
  intros Hnb Hb Hb'.
  assert (Hr : forall c, In c (band_lanes nbands) -> 0 <= c < 4).
  { intros c. unfold band_lanes. destruct (Z.eqb_spec nbands 2).
    - intros [<-|[<-|[]]]; lia.
    - rewrite in_Zrange. lia. }
  apply Hr in Hb. apply Hr in Hb'. lia.
Qed.

(** The statement of C4 needs the order lemmas of rounding and is given
    with them, in the last part of the file. *)

(** ** C5: the INT32 path truncates the sum, then scales it *)

(** C5.  After a call on an INT32 image that returned the destination,
    every pixel is [(int) ss * ww]: the weighted sum [ss] is truncated to
    an int [t] first, [t] is multiplied by the reciprocal [ww] as a float,
    and that product is truncated into the pixel.  This is not the
    truncation of the scaled sum: resampling the row [1, 1] to one pixel
    with the bilinear filter stores 0, where [ss * ww] truncates to 1. *)
Theorem C5_int32_truncates_then_scales :
  (forall sin malloc imOut imIn filter o,
      ImagingStretchHorizaontal sin malloc (Some imOut) (Some imIn) filter = Ok (Some o) ->
      image8 imIn = None -> type imIn = IMAGING_TYPE_INT32 ->
      exists filterp g,
        select_filter sin filter = Some filterp /\
        prepare filterp imOut imIn = Some g /\
        forall xx yy, 0 <= xx < xsize imOut -> 0 <= yy < ysize imOut ->
          exists lo hi w ww t,
            column_plan filterp g imIn xx = Some (lo, hi, w, ww) /\
            to_int (column_sum (fun x => F32.of_int (image32 imIn yy x)) w lo hi) = Some t /\
            to_int (F32.mul (F32.of_int t) ww) = Some (image32 o yy xx)) /\
  (row_image32
     (ImagingStretchHorizaontal sin_stub malloc_zeroed (Some blank_I) (Some ones_I)
        IMAGING_TRANSFORM_BILINEAR) 0 = Some [0] /\
   scaled_then_truncated BILINEAR blank_I ones_I 0 0 = Some 1).
Proof.
  split.
  - intros sin malloc imOut imIn flt o Hok H8 Hty.
    destruct (stretch_ok _ _ _ _ _ _ Hok) as (filterp & g & kk0 & kk1 & Hsel & Hg & Hloop).
    exists filterp, g. split; [exact Hsel|]. split; [exact Hg|].
    intros xx yy Hxx Hyy.
    destruct (stretch_loop_written cell32 [0] (fun xx _ => xx)
                (fun yy _ x => F32.of_int (image32 imIn yy x)) scale_int
                filterp g imIn _ _ (fun x _ x' _ _ _ Heq => Heq)
                (format_image32 imIn H8 Hty)
                _ _ _ _ _ Hloop) as (_ & _ & Hcells & _).
    destruct (Hcells xx yy 0 Hxx Hyy (or_introl eq_refl))
      as (lo & hi & w & ww & v & Hplan & _ & Hv & Hget).
    unfold cell32 in Hget. inversion Hget; subst. clear Hget.
    unfold scale_int in Hv.
    destruct (to_int (column_sum _ w lo hi)) as [t|] eqn:Ht; [|discriminate].
    exists lo, hi, w, ww, t. auto.
  - split; vm_compute; reflexivity.
Qed.

Lemma C5_int32_witness :
  exists lo hi w ww t g,
    column_plan BILINEAR g ones_I 0 = Some (lo, hi, w, ww) /\
    to_int (column_sum (fun x => F32.of_int (image32 ones_I 0 x)) w lo hi) = Some t /\
    to_int (F32.mul (F32.of_int t) ww)
    = Some (image32
              (returned_image
                 (ImagingStretchHorizaontal sin_stub malloc_zeroed (Some blank_I) (Some ones_I)
                    IMAGING_TRANSFORM_BILINEAR) blank_I) 0 0).
Proof.
  destruct (proj1 C5_int32_truncates_then_scales
              sin_stub malloc_zeroed blank_I ones_I IMAGING_TRANSFORM_BILINEAR
              (returned_image
                 (ImagingStretchHorizaontal sin_stub malloc_zeroed (Some blank_I) (Some ones_I)
                    IMAGING_TRANSFORM_BILINEAR) blank_I))
    as (filterp & g & Hsel & _ & Hpix).
  - vm_compute. reflexivity.
  - reflexivity.
  - reflexivity.
  - inversion Hsel; subst filterp.
    destruct (Hpix 0 0) as (lo & hi & w & ww & t & Hplan & Ht & Hv).
    + cbn. lia.
    + cbn. lia.
    + exists lo, hi, w, ww, t, g. auto.
Defined.

(** ** C9: two-band images use lanes 0 and 3 only *)

Lemma for_each_ext_in {S : Type} (body1 body2 : Z -> S -> outcome S) xs :
  (forall x s, In x xs -> body1 x s = body2 x s) ->
  forall s, for_each body1 xs s = for_each body2 xs s.
Proof.
  induction xs as [|x xs IH]; intros Hext s; cbn [for_each].
  - reflexivity.
  - rewrite Hext by (left; reflexivity).
    destruct (body2 x s); try reflexivity.
    apply IH. intros y t Hy. apply Hext. right; exact Hy.
Qed.

Lemma reduce_column_two_band_agree a b kk base lo hi ww xx s :
  agree_on_lanes_0_3 a b -> bands b = 2 -> image8 b = None -> type b = IMAGING_TYPE_UINT8 ->
  reduce_column a kk base lo hi ww xx s = reduce_column b kk base lo hi ww xx s.
Proof.
  intros (Hmode & Hty & Hnb & Hxs & Hys & H8 & H32 & H32f & Hlanes) Hb2 Hb8 Hbty.
  unfold reduce_column. rewrite H8, Hty, Hb8, Hbty, Hnb.
  unfold for_loop. apply for_each_ext_in. intros yy t _.
  rewrite !band_loop_lanes. apply for_each_ext_in. intros lane u Hlane.
  unfold pixel_band, reads_in_bounds. rewrite Hxs.
  assert (Hsum :
    weighted_sum (fun x => F32.of_int (image a yy (x * 4 + lane) mod 256)) kk base lo hi
    = weighted_sum (fun x => F32.of_int (image b yy (x * 4 + lane) mod 256)) kk base lo hi).
  { unfold weighted_sum. apply fold_left_ext_in. intros acc x _.
    rewrite Hb2 in Hlane. destruct Hlane as [<-|[<-|[]]].
    - rewrite (proj1 (Hlanes yy x)). reflexivity.
    - rewrite (proj2 (Hlanes yy x)). reflexivity. }
  rewrite Hsum. reflexivity.
Qed.

Lemma stretch_passes_two_band_agree malloc filterp imOut a b :
  agree_on_lanes_0_3 a b -> bands b = 2 -> image8 b = None -> type b = IMAGING_TYPE_UINT8 ->
  stretch_passes malloc filterp imOut a = stretch_passes malloc filterp imOut b.
Proof.
  intros Hagree Hb2 Hb8 Hbty.
  assert (Hxs : xsize a = xsize b) by apply Hagree.
  assert (Hco : forall g size base xx kk,
             column_coefficients filterp g a size base xx kk
             = column_coefficients filterp g b size base xx kk).
  { intros. unfold column_coefficients, column_xmax. rewrite Hxs. reflexivity. }
  assert (Hprep : prepare filterp imOut a = prepare filterp imOut b).
  { unfold prepare. rewrite Hxs. reflexivity. }
  unfold stretch_passes. rewrite Hprep.
  destruct (prepare filterp imOut b) as [g|]; [|reflexivity].
  destruct (negb _); [reflexivity|].
  destruct (malloc _) as [kk|]; [|reflexivity].
  destruct (negb _); [reflexivity|].
  destruct (malloc _) as [xb|]; [|reflexivity].
  unfold for_loop.
  rewrite (for_each_ext_in (plan_column filterp g imOut a) (plan_column filterp g imOut b)).
  - destruct (for_each _ _ (kk, xb)) as [[kk1 xb1]| |]; try reflexivity.
    rewrite (for_each_ext_in
               (stretch_column filterp g a (xsize imOut * kmax g) ((xsize imOut - 1) * kmax g))
               (stretch_column filterp g b (xsize imOut * kmax g) ((xsize imOut - 1) * kmax g)));
      [reflexivity|].
    intros xx st _. unfold stretch_column. rewrite Hco.
    destruct (column_coefficients _ _ b _ _ _ _) as [[[[lo hi] kk'] ww]|]; [|reflexivity].
    rewrite (reduce_column_two_band_agree a b) by assumption. reflexivity.
  - intros xx st _. unfold plan_column, column_xmax. rewrite Hco, Hxs. reflexivity.
Qed.

(** C9.  For a two-band 8-bit source (no 8-bit plane, type UINT8, two
    bands), whatever state [ImagingStretchHorizaontal] leaves the
    destination in, the bytes of lanes 1 and 2 of every packed pixel are
    those it had before the call; and the call reads lanes 0 and 3 only: a
    source that differs in the bytes of lanes 1 and 2 alone gives the same
    outcome. *)
Theorem C9_two_band_uses_lanes_0_and_3 :
  forall sin malloc imOut imIn filter,
    bands imIn = 2 -> image8 imIn = None -> type imIn = IMAGING_TYPE_UINT8 ->
    (forall r,
        final_state (ImagingStretchHorizaontal sin malloc (Some imOut) (Some imIn) filter)
        = Some (Some r) ->
        forall y x, image r y (x * 4 + 1) = image imOut y (x * 4 + 1) /\
                    image r y (x * 4 + 2) = image imOut y (x * 4 + 2)) /\
    (forall imIn',
        agree_on_lanes_0_3 imIn' imIn ->
        ImagingStretchHorizaontal sin malloc (Some imOut) (Some imIn') filter
        = ImagingStretchHorizaontal sin malloc (Some imOut) (Some imIn) filter).
Proof.
  intros sin malloc imOut imIn flt Hnb H8 Hty. split.
  - intros r Hfin y x.
    destruct (stretch_final _ _ _ _ _ _ Hfin)
      as [->|(filterp & g & kk0 & kk1 & Hsel & Hg & Hloop)]; [split; reflexivity|].
    assert (H4 : bands imIn <= 4) by lia.
    destruct (stretch_loop_written cell (band_lanes (bands imIn)) (fun xx b => xx * 4 + b)
                (fun yy b x => F32.of_int (image imIn yy (x * 4 + b) mod 256))
                (fun ss ww => clip8 (bias8 ss ww))
                filterp g imIn _ _
                (fun x b x' b' Hb Hb' Heq =>
                   band_lanes_key_inj (bands imIn) x b x' b' H4 Hb Hb' Heq)
                (format_image imIn H8 Hty)
                _ _ _ _ _ Hloop) as (_ & _ & _ & Hframe).
    assert (Hcell : forall c, c = x * 4 + 1 \/ c = x * 4 + 2 ->
                              image r y c = image imOut y c).
    { intros c Hc.
      assert (Heq : cell r y c = cell imOut y c).
      { apply Hframe. right. intros xx b _ Hb.
        rewrite Hnb in Hb. destruct Hb as [<-|[<-|[]]]; lia. }
      unfold cell in Heq. congruence. }
    split; apply Hcell; auto.
  - intros imIn' Hagree. unfold ImagingStretchHorizaontal.
    destruct Hagree as (Hmode & Hrest). pose proof Hrest as (_ & _ & _ & Hys & _).
    rewrite Hmode, Hys.
    destruct (negb (String.eqb (mode imIn) (mode imOut))); [reflexivity|].
    destruct (negb (ysize imOut =? ysize imIn)); [reflexivity|].
    destruct (select_filter sin flt) as [filterp|]; [|reflexivity].
    rewrite (stretch_passes_two_band_agree malloc filterp imOut imIn' imIn);
      [reflexivity|split; assumption|assumption..].
Qed.

Lemma C9_two_band_witness :
  image (returned_image
           (ImagingStretchHorizaontal sin_stub malloc_zeroed (Some blank_LA) (Some quad_LA)
              IMAGING_TRANSFORM_BILINEAR) blank_LA) 0 (1 * 4 + 1)
  = image blank_LA 0 (1 * 4 + 1).
Proof.
  destruct (C9_two_band_uses_lanes_0_and_3 sin_stub malloc_zeroed blank_LA quad_LA
              IMAGING_TRANSFORM_BILINEAR eq_refl eq_refl eq_refl) as [Hwrites _].
  refine (proj1 (Hwrites _ _ 0 1)).
  vm_compute. reflexivity.
Defined.


(** ** Calls that run through *)

Lemma for_each_ok {S : Type} (I : S -> Prop) (body : Z -> S -> outcome S) xs :
  (forall x s, In x xs -> I s -> exists s', body x s = Ok s' /\ I s') ->
  forall s, I s -> exists s', for_each body xs s = Ok s' /\ I s'.
Proof.
  induction xs as [|x xs IH]; intros Hbody s Hs; cbn [for_each].
  - exists s. auto.
  - destruct (Hbody x s (or_introl eq_refl) Hs) as (s1 & -> & Hs1).
    apply IH; [|exact Hs1].
    intros y t Hy. apply Hbody. right; exact Hy.
Qed.

Lemma defined_image8 imIn src :
  image8 imIn = Some src ->
  column_defined (fun s => image8 s <> None) [0]
    (fun yy _ x => F32.of_int (src yy x)) (fun ss ww => clip8 (bias8 ss ww)) imIn.
Proof.
  intros H8 kk base lo hi ww xx s Hready Hreads Hval.
  unfold reduce_column. rewrite H8. unfold for_loop.
  destruct (for_each_ok (fun t => image8 t <> None /\ ysize t = ysize s)
              (pixel8 imIn src kk base lo hi ww xx) (Zrange 0 (ysize s))) with (s := s)
    as (r & Hr & Hr8 & Hry); auto.
  - intros yy t Hyy [Ht8 Hty]. apply in_Zrange in Hyy.
    unfold pixel8. rewrite Hreads.
    destruct (clip8 _) as [v|] eqn:Hv;
      [|elim (Hval yy 0 Hyy (or_introl eq_refl) Hv)].
    destruct (image8 t) as [dst|]; [|congruence].
    eexists. split; [reflexivity|]. cbn. split; [discriminate|exact Hty].
  - exists r. auto.
Qed.

Lemma defined_image32 imIn :
  image8 imIn = None -> type imIn = IMAGING_TYPE_INT32 ->
  column_defined (fun _ => True) [0]
    (fun yy _ x => F32.of_int (image32 imIn yy x)) scale_int imIn.
Proof.
  intros H8 Hty kk base lo hi ww xx s _ Hreads Hval.
  unfold reduce_column. rewrite H8, Hty. unfold for_loop.
  destruct (for_each_ok (fun t => ysize t = ysize s)
              (pixel32 imIn kk base lo hi ww xx) (Zrange 0 (ysize s))) with (s := s)
    as (r & Hr & Hry); auto.
  - intros yy t Hyy Hty'. apply in_Zrange in Hyy.
    unfold pixel32. rewrite Hreads.
    destruct (scale_int _ _) as [v|] eqn:Hv;
      [|elim (Hval yy 0 Hyy (or_introl eq_refl) Hv)].
    eexists. split; [reflexivity|]. exact Hty'.
  - exists r. auto.
Qed.

Lemma defined_image32f imIn :
  image8 imIn = None -> type imIn = IMAGING_TYPE_FLOAT32 ->
  column_defined (fun _ => True) [0]
    (fun yy _ x => image32f imIn yy x) (fun ss ww => Some (F32.mul ss ww)) imIn.
Proof.
  intros H8 Hty kk base lo hi ww xx s _ Hreads Hval.
  unfold reduce_column. rewrite H8, Hty. unfold for_loop.
  destruct (for_each_ok (fun t => ysize t = ysize s)
              (pixel32f imIn kk base lo hi ww xx) (Zrange 0 (ysize s))) with (s := s)
    as (r & Hr & Hry); auto.
  - intros yy t Hyy Hty'. unfold pixel32f. rewrite Hreads.
    eexists. split; [reflexivity|]. exact Hty'.
  - exists r. auto.
Qed.

Section Defined.
Context {V : Type}.
Variables (ready : Imaging -> Prop) (lanes : list Z).
Variables (px : Z -> Z -> Z -> float) (finish : float -> float -> option V).
Variables (filterp : filter_t) (g : geometry) (imOut imIn : Imaging).
Hypothesis format : column_defined ready lanes px finish imIn.
Hypothesis columns : columns_defined lanes px finish filterp g imOut imIn.
Hypothesis kmax_pos : 0 <= kmax g.

Lemma plan_loop_defined kk0 xb0 :
  exists kk xb,
    for_loop 0 (xsize imOut) (plan_column filterp g imOut imIn) (kk0, xb0) = Ok (kk, xb).
Proof.
  unfold for_loop.
  destruct (for_each_ok (fun _ => True) (plan_column filterp g imOut imIn)
              (Zrange 0 (xsize imOut))) with (s := (kk0, xb0)) as ([kk xb] & Hr & _); auto.
  - intros xx st Hxx _. apply in_Zrange in Hxx.
    destruct (columns xx Hxx) as (lo & hi & w & ww & Hplan & Hfits & _).
    destruct (column_plan_coefficients filterp g imIn (xsize imOut * kmax g)
                (xx * kmax g) xx (fst st) lo hi w ww Hplan) as (kk' & Hco).
    + unfold writes_in_bounds. destruct Hfits as [Hfits|Hfits].
      * destruct (Z.leb_spec hi lo); [reflexivity|lia].
      * destruct (Z.leb_spec hi lo); [reflexivity|]. cbn [orb].
        apply andb_true_intro. split; [apply Z.leb_le; nia|apply Z.leb_le; nia].
    + unfold plan_column. rewrite Hco. eexists. split; [reflexivity|exact I].
  - exists kk, xb. exact Hr.
Qed.

Lemma stretch_loop_defined kk0 :
  ready imOut ->
  exists o kk1,
    for_loop 0 (xsize imOut)
      (stretch_column filterp g imIn (xsize imOut * kmax g) ((xsize imOut - 1) * kmax g))
      (imOut, kk0) = Ok (o, kk1).
Proof.
  intros Hready. unfold for_loop.
  destruct (for_each_ok (fun st => ready (fst st) /\ ysize (fst st) = ysize imOut)
              (stretch_column filterp g imIn (xsize imOut * kmax g)
                 ((xsize imOut - 1) * kmax g))
              (Zrange 0 (xsize imOut))) with (s := (imOut, kk0)) as ([o kk1] & Hr & _); auto.
  - intros xx [t kt] Hxx [Ht Hty]. cbn [fst] in *. apply in_Zrange in Hxx.
    destruct (columns xx Hxx) as (lo & hi & w & ww & Hplan & Hfits & Hreads & Hval).
    destruct (column_plan_coefficients filterp g imIn (xsize imOut * kmax g)
                ((xsize imOut - 1) * kmax g) xx kt lo hi w ww Hplan) as (kk' & Hco).
    + unfold writes_in_bounds. destruct Hfits as [Hfits|Hfits].
      * destruct (Z.leb_spec hi lo); [reflexivity|lia].
      * destruct (Z.leb_spec hi lo); [reflexivity|]. cbn [orb].
        apply andb_true_intro. split; [apply Z.leb_le; nia|apply Z.leb_le; nia].
    + unfold stretch_column. cbn [fst snd]. rewrite Hco.
      destruct (column_coefficients_plan _ _ _ _ _ _ _ _ _ _ _ Hco)
        as (Hplan' & _ & Hin & _).
      rewrite Hplan in Hplan'. inversion Hplan'; subst w. clear Hplan'.
      destruct (format kk' ((xsize imOut - 1) * kmax g) lo hi ww xx t Ht Hreads)
        as (r & Hr & Hrr & Hry).
      * intros yy b Hyy Hb.
        rewrite (weighted_sum_column_sum _ _ _ _ _ _ Hin).
        apply Hval; [lia|exact Hb].
      * rewrite Hr. eexists. split; [reflexivity|]. cbn [fst]. split; [exact Hrr|congruence].
  - exists o, kk1. exact Hr.
Qed.

Lemma stretch_passes_defined malloc :
  prepare filterp imOut imIn = Some g ->
  in_int (xsize imOut * kmax g) = true ->
  in_int (xsize imOut * 3) = true ->
  (forall n, malloc n <> None) ->
  ready imOut ->
  exists o, stretch_passes malloc filterp imOut imIn = Ok o.
Proof.
  intros Hg Hsize Hthree Hmalloc Hready.
  unfold stretch_passes. rewrite Hg, Hsize. cbn [negb].
  destruct (malloc (xsize imOut * kmax g * 4)) as [kk|] eqn:Hkk; [|elim (Hmalloc _ Hkk)].
  rewrite Hthree. cbn [negb].
  destruct (malloc (xsize imOut * 3 * 4)) as [xb|] eqn:Hxb; [|elim (Hmalloc _ Hxb)].
  destruct (plan_loop_defined kk xb) as (kk1 & xb1 & ->).
  destruct (stretch_loop_defined kk1 Hready) as (o & kk2 & ->).
  exists o. reflexivity.
Qed.

End Defined.


(** ** A call whose values are all defined stores exactly these values *)

Section Values.
Context {V : Type}.
Variables (get : Imaging -> Z -> Z -> option V) (ready : Imaging -> Prop).
Variables (lanes : list Z) (key : Z -> Z -> Z).
Variables (px : Z -> Z -> Z -> float) (finish : float -> float -> option V).
Variables (sin : double -> double) (malloc : Z -> option (buffer float)).
Variables (filter : transform) (filterp : filter_t) (g : geometry) (imOut imIn : Imaging).
Hypothesis key_inj :
  forall x b x' b', In b lanes -> In b' lanes -> key x b = key x' b' -> x = x'.
Hypothesis writer : column_writer get lanes key px finish imIn.
Hypothesis defined : column_defined ready lanes px finish imIn.
Hypothesis same_mode : mode imIn = mode imOut.
Hypothesis same_height : ysize imOut = ysize imIn.
Hypothesis selected : select_filter sin filter = Some filterp.
Hypothesis prepared : prepare filterp imOut imIn = Some g.
Hypothesis kmax_pos : 0 <= kmax g.
Hypothesis size_int : in_int (xsize imOut * kmax g) = true.
Hypothesis bounds_int : in_int (xsize imOut * 3) = true.
Hypothesis malloc_ok : forall n, malloc n <> None.
Hypothesis dest_ready : ready imOut.
Hypothesis windows : forall xx, 0 <= xx < xsize imOut -> window_ok g imIn xx = true.
Hypothesis values :
  forall xx yy b, 0 <= xx < xsize imOut -> 0 <= yy < ysize imOut -> In b lanes ->
    column_value px finish filterp g imIn xx yy b <> None.

Lemma values_columns_defined : columns_defined lanes px finish filterp g imOut imIn.
Proof.
  intros xx Hxx. specialize (windows xx Hxx). unfold window_ok in windows.
  destruct (to_int (column_xmin g xx)) as [lo|] eqn:Hlo; [|discriminate].
  destruct (to_int (column_xmax g imIn xx)) as [hi|] eqn:Hhi; [|discriminate].
  apply andb_prop in windows. destruct windows as [Hfit Hreads].
  exists lo, hi, (weight filterp (column_center g xx) (column_ss g)),
    (reciprocal (weight_total (weight filterp (column_center g xx) (column_ss g))
                   lo hi F32.zero)).
  split; [unfold column_plan; rewrite Hlo, Hhi; reflexivity|].
  split.
  { unfold fits. apply orb_prop in Hfit.
    destruct Hfit as [Hle|Hle]; apply Z.leb_le in Hle; [left|right]; exact Hle. }
  split; [exact Hreads|].
  intros yy b Hyy Hb. specialize (values xx yy b Hxx Hyy Hb).
  unfold column_value, column_plan in values. rewrite Hlo, Hhi in values. exact values.
Qed.

Theorem stretch_stores_values :
  exists o,
    ImagingStretchHorizaontal sin malloc (Some imOut) (Some imIn) filter = Ok (Some o) /\
    forall xx yy b, 0 <= xx < xsize imOut -> 0 <= yy < ysize imOut -> In b lanes ->
      get o yy (key xx b) = column_value px finish filterp g imIn xx yy b.
Proof.
  destruct (stretch_passes_defined ready lanes px finish filterp g imOut imIn
              defined values_columns_defined kmax_pos malloc
              prepared size_int bounds_int malloc_ok dest_ready) as (o & Ho).
  assert (Hcall : ImagingStretchHorizaontal sin malloc (Some imOut) (Some imIn) filter
                  = Ok (Some o)).
  { unfold ImagingStretchHorizaontal.
    rewrite same_mode, String.eqb_refl, same_height, Z.eqb_refl. cbn [negb].
    rewrite selected, Ho. reflexivity. }
  exists o. split; [exact Hcall|].
  destruct (stretch_ok _ _ _ _ _ _ Hcall) as (f' & g' & kk0 & kk1 & Hsel & Hg & Hloop).
  rewrite selected in Hsel. inversion Hsel; subst f'. clear Hsel.
  rewrite prepared in Hg. inversion Hg; subst g'. clear Hg.
  destruct (stretch_loop_written get lanes key px finish filterp g imIn _ _
              key_inj writer _ _ _ _ _ Hloop) as (_ & _ & Hcells & _).
  intros xx yy b Hxx Hyy Hb.
  destruct (Hcells xx yy b Hxx Hyy Hb) as (lo & hi & w & ww & v & Hplan & _ & Hv & Hget).
  unfold column_value. rewrite Hplan, Hv. exact Hget.
Qed.

End Values.


(** ** C6: the bilinear 8-to-4 scenario *)

(** Only the two requests of lines 139 and 143 matter. *)
Lemma stretch_passes_requests malloc1 malloc2 filterp imOut imIn g :
  prepare filterp imOut imIn = Some g ->
  malloc1 (xsize imOut * kmax g * 4) = malloc2 (xsize imOut * kmax g * 4) ->
  malloc1 (xsize imOut * 3 * 4) = malloc2 (xsize imOut * 3 * 4) ->
  stretch_passes malloc1 filterp imOut imIn = stretch_passes malloc2 filterp imOut imIn.
Proof.
  intros Hg H1 H2. unfold stretch_passes. rewrite Hg, H1, H2. reflexivity.
Qed.

Lemma stretch_passes_refused malloc filterp imOut imIn g :
  prepare filterp imOut imIn = Some g ->
  in_int (xsize imOut * kmax g) = true ->
  in_int (xsize imOut * 3) = true ->
  malloc (xsize imOut * kmax g * 4) = None \/ malloc (xsize imOut * 3 * 4) = None ->
  stretch_passes malloc filterp imOut imIn = Err MemoryError imOut.
Proof.
  intros Hg Hs Hb Hm. unfold stretch_passes. rewrite Hg, Hs, Hb. cbn [negb].
  destruct (malloc (xsize imOut * kmax g * 4)) as [kk|]; [|reflexivity].
  destruct Hm as [Hm|Hm]; [discriminate|]. rewrite Hm. reflexivity.
Qed.

Lemma malloc_or_zeroed_grants malloc n : malloc_or_zeroed malloc n <> None.
Proof. unfold malloc_or_zeroed. destruct (malloc n); discriminate. Qed.

Lemma malloc_or_zeroed_same malloc n :
  malloc n <> None -> malloc n = malloc_or_zeroed malloc n.
Proof. unfold malloc_or_zeroed. destruct (malloc n); congruence. Qed.

Lemma bilinear_ramp_row sin malloc imOut :
  mode imOut = mode ramp8 -> xsize imOut = 4 -> ysize imOut = 1 -> image8 imOut <> None ->
  (forall n, malloc n <> None) ->
  exists o,
    ImagingStretchHorizaontal sin malloc (Some imOut) (Some ramp8)
      IMAGING_TRANSFORM_BILINEAR = Ok (Some o) /\
    map (cell8 o 0) [0; 1; 2; 3] = [Some 17; Some 35; Some 55; Some 73].
Proof.
  intros Hmode Hxs Hys H8 Hmalloc.
  set (src := plane_of_rows 0 [[10; 20; 30; 40; 50; 60; 70; 80]]).
  set (g := the_geometry BILINEAR blank4 ramp8).
  assert (Hprep : prepare BILINEAR imOut ramp8 = Some g).
  { unfold prepare. rewrite Hxs. vm_compute. reflexivity. }
  assert (Hcases : forall xx, 0 <= xx < xsize imOut -> xx = 0 \/ xx = 1 \/ xx = 2 \/ xx = 3)
    by (intros xx Hxx; lia).
  destruct (stretch_stores_values cell8 (fun s => image8 s <> None) [0] (fun xx _ => xx)
              (fun yy _ x => F32.of_int (src yy x)) (fun ss ww => clip8 (bias8 ss ww))
              sin malloc IMAGING_TRANSFORM_BILINEAR BILINEAR g imOut ramp8)
    as (o & Hcall & Hvals).
  - intros x _ x' _ _ _ Heq. exact Heq.
  - apply format_image8. reflexivity.
  - apply defined_image8. reflexivity.
  - symmetry. exact Hmode.
  - rewrite Hys. reflexivity.
  - reflexivity.
  - exact Hprep.
  - vm_compute. discriminate.
  - rewrite Hxs. vm_compute. reflexivity.
  - rewrite Hxs. vm_compute. reflexivity.
  - exact Hmalloc.
  - exact H8.
  - intros xx Hxx.
    destruct (Hcases xx Hxx) as [-> | [-> | [-> | -> ]]]; vm_compute; reflexivity.
  - intros xx yy b Hxx Hyy [ <- | [] ].
    assert (yy = 0) as -> by lia.
    destruct (Hcases xx Hxx) as [-> | [-> | [-> | -> ]]]; vm_compute; discriminate.
  - exists o. split; [exact Hcall|].
    assert (Hget : forall xx, 0 <= xx < 4 ->
              cell8 o 0 xx
              = column_value (fun yy _ x => F32.of_int (src yy x))
                  (fun ss ww => clip8 (bias8 ss ww)) BILINEAR g ramp8 xx 0 0).
    { intros xx Hxx. apply (Hvals xx 0 0); [lia|lia|left; reflexivity]. }
    cbn [map].
    rewrite (Hget 0), (Hget 1), (Hget 2), (Hget 3) by lia.
    vm_compute. reflexivity.
Qed.

(** C6.  Resampling the 8-bit row [10, 20, ..., 80] into an 8-bit
    destination of width 4 and height 1 with the bilinear filter, whatever
    [sin] is, whatever the destination held and whatever [malloc] returns,
    stays within defined C and has one of two outcomes.  Either [malloc]
    refused one of the two scratch blocks and the call reports the memory
    error, the destination unchanged; or it returns the destination with
    the row [17, 35, 55, 73].  Every entry of that row is within 2 of the
    stated [15, 35, 55, 75] (the interior entries are the stated 35 and
    55); the tolerance cannot be 1, since the first and last entries are
    two grey levels away. *)
Theorem C6_bilinear_ramp_within_two :
  forall sin malloc imOut,
    mode imOut = mode ramp8 -> xsize imOut = 4 -> ysize imOut = 1 ->
    image8 imOut <> None ->
    (exists o out,
        ImagingStretchHorizaontal sin malloc (Some imOut) (Some ramp8)
          IMAGING_TRANSFORM_BILINEAR = Ok (Some o) /\
        map (cell8 o 0) [0; 1; 2; 3] = map Some out /\
        out = [17; 35; 55; 73] /\
        within 2 out [15; 35; 55; 75] = true /\
        within 1 out [15; 35; 55; 75] = false) \/
    (ImagingStretchHorizaontal sin malloc (Some imOut) (Some ramp8)
       IMAGING_TRANSFORM_BILINEAR = Err MemoryError (Some imOut) /\
     exists n, malloc n = None).
Proof.
  intros sin malloc imOut Hmode Hxs Hys H8.
  set (g := the_geometry BILINEAR blank4 ramp8).
  assert (Hprep : prepare BILINEAR imOut ramp8 = Some g).
  { unfold prepare. rewrite Hxs. vm_compute. reflexivity. }
  assert (Hcall : forall m,
            ImagingStretchHorizaontal sin m (Some imOut) (Some ramp8)
              IMAGING_TRANSFORM_BILINEAR
            = match stretch_passes m BILINEAR imOut ramp8 with
              | Ok o' => Ok (Some o')
              | Err e o' => Err e (Some o')
              | Undef => Undef
              end).
  { intros m. unfold ImagingStretchHorizaontal.
    rewrite <- Hmode, String.eqb_refl, Hys. reflexivity. }
  destruct (malloc (xsize imOut * kmax g * 4)) as [kk|] eqn:Hkk.
  - destruct (malloc (xsize imOut * 3 * 4)) as [xb|] eqn:Hxb.
    + left.
      destruct (bilinear_ramp_row sin (malloc_or_zeroed malloc) imOut Hmode Hxs Hys H8
                  (malloc_or_zeroed_grants malloc)) as (o & Ho & Hrow).
      exists o, [17; 35; 55; 73].
      split.
      { rewrite Hcall in Ho |- *.
        rewrite (stretch_passes_requests malloc (malloc_or_zeroed malloc) _ _ _ g Hprep);
          [exact Ho| |]; apply malloc_or_zeroed_same; congruence. }
      split; [exact Hrow|]. split; [reflexivity|]. split; reflexivity.
    + right. split; [|eexists; exact Hxb].
      rewrite Hcall, (stretch_passes_refused malloc _ _ _ g Hprep); [reflexivity| | |right; exact Hxb];
        rewrite Hxs; vm_compute; reflexivity.
  - right. split; [|eexists; exact Hkk].
    rewrite Hcall, (stretch_passes_refused malloc _ _ _ g Hprep); [reflexivity| | |left; exact Hkk];
      rewrite Hxs; vm_compute; reflexivity.
Qed.

Lemma C6_bilinear_ramp_witness :
  exists o,
    ImagingStretchHorizaontal sin_stub malloc_zeroed (Some blank4) (Some ramp8)
      IMAGING_TRANSFORM_BILINEAR = Ok (Some o) /\
    map (cell8 o 0) [0; 1; 2; 3] = [Some 17; Some 35; Some 55; Some 73].
Proof.
  destruct (C6_bilinear_ramp_within_two sin_stub malloc_zeroed blank4
              eq_refl eq_refl eq_refl) as [(o & out & Hcall & Hrow & -> & _) | (_ & n & Hn)].
  - discriminate.
  - exists o. split; [exact Hcall|exact Hrow].
  - discriminate.
Defined.

(** ** C7: the planning pass and the hot loop compute the same coefficients *)

Lemma for_range_establishes {St : Type} (P : Z -> St -> Prop) (body : Z -> St -> outcome St) lo :
  (forall x s s', lo <= x -> body x s = Ok s' -> P x s') ->
  (forall x y s s', lo <= y < x -> body x s = Ok s' -> P y s -> P y s') ->
  forall n s s',
    for_each body (Zrange lo (lo + Z.of_nat n)) s = Ok s' ->
    forall y, lo <= y < lo + Z.of_nat n -> P y s'.
Proof.
  intros Hown Hkeep. induction n as [|n IH]; intros s s' Hrun y Hy.
  - lia.
  - replace (lo + Z.of_nat (S n)) with (lo + Z.of_nat n + 1) in Hrun by lia.
    rewrite Zrange_snoc, for_each_app in Hrun by lia.
    destruct (for_each body (Zrange lo (lo + Z.of_nat n)) s) as [s1| |] eqn:Hs1;
      try discriminate.
    cbn [for_each] in Hrun.
    destruct (body (lo + Z.of_nat n) s1) as [s2| |] eqn:Hs2; try discriminate.
    inversion Hrun; subst s2. clear Hrun.
    destruct (Z.eq_dec y (lo + Z.of_nat n)) as [->|Hne].
    + apply (Hown _ s1 s'); [lia|exact Hs2].
    + apply (Hkeep (lo + Z.of_nat n) y s1 s'); [lia|exact Hs2|].
      apply (IH s s1 Hs1). lia.
Qed.

(** What the planning pass leaves in [xbounds] and in row [xx] of [kk]. *)
Lemma plan_loop_table filterp g imOut imIn kk0 xb0 kk xb :
  for_loop 0 (xsize imOut) (plan_column filterp g imOut imIn) (kk0, xb0) = Ok (kk, xb) ->
  forall xx, 0 <= xx < xsize imOut ->
    xb (xx * 3 + 0) = column_xmin g xx /\
    xb (xx * 3 + 1) = column_xmax g imIn xx /\
    forall lo hi w ww,
      column_plan filterp g imIn xx = Some (lo, hi, w, ww) ->
      xb (xx * 3 + 2) = ww /\
      (fits g lo hi -> forall x, lo <= x < hi -> kk (xx * kmax g + (x - lo)) = w x).
Proof.
  intros Hrun xx Hxx. unfold for_loop in Hrun.
  pose (P := fun (xx : Z) (st : buffer float * buffer float) =>
    snd st (xx * 3 + 0) = column_xmin g xx /\
    snd st (xx * 3 + 1) = column_xmax g imIn xx /\
    forall lo hi w ww,
      column_plan filterp g imIn xx = Some (lo, hi, w, ww) ->
      snd st (xx * 3 + 2) = ww /\
      (fits g lo hi -> forall x, lo <= x < hi -> fst st (xx * kmax g + (x - lo)) = w x)).
  change (P xx (kk, xb)).
  replace (xsize imOut) with (0 + Z.of_nat (Z.to_nat (xsize imOut))) in Hrun, Hxx by lia.
  apply (for_range_establishes P (plan_column filterp g imOut imIn) 0)
    with (n := Z.to_nat (xsize imOut)) (s := (kk0, xb0)); auto.
  - intros x [k b] [k' b'] _. unfold plan_column. cbn [fst snd].
    destruct (column_coefficients _ _ _ _ _ _ _) as [[[[lo hi] kk'] ww]|] eqn:Hco;
      [|discriminate].
    intros Heq. inversion Heq; subst. clear Heq.
    destruct (column_coefficients_plan _ _ _ _ _ _ _ _ _ _ _ Hco) as (Hplan & _ & Hin & _).
    unfold P. cbn [fst snd]. split; [|split].
    + rewrite !store_neq by lia. apply store_eq.
    + rewrite store_neq by lia. apply store_eq.
    + intros lo' hi' w' ww' Hplan'. rewrite Hplan in Hplan'.
      inversion Hplan'; subst. split; [apply store_eq|].
      intros _ i Hi. apply Hin. exact Hi.
  - intros x y [k b] [k' b'] Hyx. unfold plan_column. cbn [fst snd].
    destruct (column_coefficients _ _ _ _ _ _ _) as [[[[lo hi] kk'] ww]|] eqn:Hco;
      [|discriminate].
    intros Heq. inversion Heq; subst. clear Heq.
    destruct (column_coefficients_plan _ _ _ _ _ _ _ _ _ _ _ Hco) as (_ & _ & _ & Hout).
    unfold P. cbn [fst snd]. intros (H0 & H1 & H2).
    split; [|split].
    + rewrite !store_neq by lia. exact H0.
    + rewrite !store_neq by lia. exact H1.
    + intros lo' hi' w' ww' Hplan'. destruct (H2 lo' hi' w' ww' Hplan') as [H3 H4].
      split; [rewrite !store_neq by lia; exact H3|].
      intros Hfits i Hi. rewrite Hout; [apply H4; assumption|].
      left. destruct Hfits as [Hfits|Hfits]; [lia|nia].
Qed.

Lemma reduce_column_ext imIn kk1 base1 kk2 base2 lo hi ww xx s :
  (forall x, lo <= x < hi -> kk1 (base1 + (x - lo)) = kk2 (base2 + (x - lo))) ->
  reduce_column imIn kk1 base1 lo hi ww xx s = reduce_column imIn kk2 base2 lo hi ww xx s.
Proof.
  intros Hkk.
  assert (Hsum : forall px,
             weighted_sum px kk1 base1 lo hi = weighted_sum px kk2 base2 lo hi).
  { intros px. apply (weighted_sum_ext (H := float_scalar)). exact Hkk. }
  unfold reduce_column, for_loop.
  destruct (image8 imIn) as [src|].
  - apply for_each_ext_in. intros yy t _. unfold pixel8. rewrite Hsum. reflexivity.
  - destruct (type imIn); try reflexivity.
    + apply for_each_ext_in. intros yy t _.
      rewrite !band_loop_lanes. apply for_each_ext_in. intros b u _.
      unfold pixel_band. rewrite Hsum. reflexivity.
    + apply for_each_ext_in. intros yy t _. unfold pixel32. rewrite Hsum. reflexivity.
    + apply for_each_ext_in. intros yy t _. unfold pixel32f, reduce_float.
      rewrite Hsum. reflexivity.
Qed.

Lemma writes_in_last_row_fit g D lo hi :
  writes_in_bounds ((D - 1) * kmax g) lo hi (D * kmax g) = true -> fits g lo hi.
Proof.
  unfold writes_in_bounds, fits. intros Hw.
  apply orb_prop in Hw. destruct Hw as [Hw|Hw].
  - apply Z.leb_le in Hw. left; exact Hw.
  - apply andb_prop in Hw. destruct Hw as [_ Hw]. apply Z.leb_le in Hw. right. lia.
Qed.

(** The recomputed coefficients of a column are the entries of the table. *)
Lemma table_matches_recomputation filterp g imOut imIn kk0 xb0 kk xb :
  for_loop 0 (xsize imOut) (plan_column filterp g imOut imIn) (kk0, xb0) = Ok (kk, xb) ->
  forall xx kcur lo hi kk' ww,
    0 <= xx < xsize imOut ->
    column_coefficients filterp g imIn (xsize imOut * kmax g)
      ((xsize imOut - 1) * kmax g) xx kcur = Some (lo, hi, kk', ww) ->
    to_int (xb (xx * 3 + 0)) = Some lo /\
    to_int (xb (xx * 3 + 1)) = Some hi /\
    xb (xx * 3 + 2) = ww /\
    forall x, lo <= x < hi ->
      kk (xx * kmax g + (x - lo)) = kk' ((xsize imOut - 1) * kmax g + (x - lo)).
Proof.
  intros Hplanned xx kcur lo hi kk' ww Hxx Hco.
  destruct (plan_loop_table _ _ _ _ _ _ _ _ Hplanned xx Hxx) as (Hmin & Hmax & Hrow).
  destruct (column_coefficients_plan _ _ _ _ _ _ _ _ _ _ _ Hco) as (Hplan & Hw & Hin & _).
  destruct (Hrow _ _ _ _ Hplan) as [Hww Hkk].
  rewrite Hmin, Hmax.
  assert (Hbounds : to_int (column_xmin g xx) = Some lo /\
                    to_int (column_xmax g imIn xx) = Some hi).
  { unfold column_plan in Hplan.
    destruct (to_int (column_xmin g xx)) as [lo'|]; [|discriminate].
    destruct (to_int (column_xmax g imIn xx)) as [hi'|]; [|discriminate].
    inversion Hplan. split; reflexivity. }
  destruct Hbounds as [Hlo Hhi].
  split; [exact Hlo|]. split; [exact Hhi|]. split; [exact Hww|].
  intros x Hx. rewrite Hin by exact Hx. apply Hkk; [|exact Hx].
  apply (writes_in_last_row_fit g (xsize imOut)). exact Hw.
Qed.

Lemma cached_loop_agrees filterp g imOut imIn kk0 xb0 kk xb :
  for_loop 0 (xsize imOut) (plan_column filterp g imOut imIn) (kk0, xb0) = Ok (kk, xb) ->
  forall xs s kcur,
    (forall xx, In xx xs -> 0 <= xx < xsize imOut) ->
    for_each (stretch_column filterp g imIn (xsize imOut * kmax g)
                ((xsize imOut - 1) * kmax g)) xs (s, kcur) <> Undef ->
    for_each (cached_column g imIn kk xb) xs s
    = match for_each (stretch_column filterp g imIn (xsize imOut * kmax g)
                        ((xsize imOut - 1) * kmax g)) xs (s, kcur) with
      | Ok (o, _) => Ok o
      | Err e (o, _) => Err e o
      | Undef => Undef
      end.
Proof.
  intros Hplanned. induction xs as [|xx xs IH]; intros s kcur Hxs Hdef; cbn [for_each] in *.
  - reflexivity.
  - unfold stretch_column at 1 in Hdef. unfold stretch_column at 1. cbn [fst snd] in *.
    destruct (column_coefficients filterp g imIn (xsize imOut * kmax g)
                ((xsize imOut - 1) * kmax g) xx kcur)
      as [[[[lo hi] kk'] ww]|] eqn:Hco; [|congruence].
    destruct (table_matches_recomputation _ _ _ _ _ _ _ _ Hplanned xx kcur lo hi kk' ww
                (Hxs xx (or_introl eq_refl)) Hco) as (Hlo & Hhi & Hww & Hkk).
    unfold cached_column at 1. rewrite Hlo, Hhi, Hww.
    rewrite (reduce_column_ext imIn kk (xx * kmax g) kk' ((xsize imOut - 1) * kmax g))
      by exact Hkk.
    destruct (reduce_column imIn kk' ((xsize imOut - 1) * kmax g) lo hi ww xx s)
      as [s1|e s1|]; try reflexivity.
    apply IH; [|exact Hdef].
    intros y Hy. apply Hxs. right; exact Hy.
Qed.

(** C7.  The entries the planning pass stores for an output position (its
    window bounds and reciprocal in [xbounds], its weights in row [xx] of
    [kk]) are the values the hot loop computes again for that position;
    and a reduction that takes its coefficients from this table returns
    what the recomputing one returns, whenever the latter stays within
    defined C. *)
Theorem C7_cached_table_refines_recomputation :
  forall malloc filterp imOut imIn,
    (forall g kk0 xb0 kk xb,
        prepare filterp imOut imIn = Some g ->
        for_loop 0 (xsize imOut) (plan_column filterp g imOut imIn) (kk0, xb0)
        = Ok (kk, xb) ->
        forall xx kcur lo hi kk' ww,
          0 <= xx < xsize imOut ->
          column_coefficients filterp g imIn (xsize imOut * kmax g)
            ((xsize imOut - 1) * kmax g) xx kcur = Some (lo, hi, kk', ww) ->
          to_int (xb (xx * 3 + 0)) = Some lo /\
          to_int (xb (xx * 3 + 1)) = Some hi /\
          xb (xx * 3 + 2) = ww /\
          forall x, lo <= x < hi ->
            kk (xx * kmax g + (x - lo)) = kk' ((xsize imOut - 1) * kmax g + (x - lo))) /\
    (stretch_passes malloc filterp imOut imIn <> Undef ->
     stretch_passes_cached malloc filterp imOut imIn
     = stretch_passes malloc filterp imOut imIn).
Proof.
  intros malloc filterp imOut imIn. split.
  - intros g kk0 xb0 kk xb _ Hplanned. apply table_matches_recomputation with kk0 xb0.
    exact Hplanned.
  - unfold stretch_passes, stretch_passes_cached.
    destruct (prepare filterp imOut imIn) as [g|]; [|reflexivity].
    destruct (negb _); [reflexivity|].
    destruct (malloc _) as [kk0|]; [|reflexivity].
    destruct (negb _); [reflexivity|].
    destruct (malloc _) as [xb0|]; [|reflexivity].
    destruct (for_loop 0 (xsize imOut) (plan_column filterp g imOut imIn) (kk0, xb0))
      as [[kk xb]| |] eqn:Hplanned; try reflexivity.
    intros Hdef. unfold for_loop in *.
    apply (cached_loop_agrees _ _ _ _ _ _ _ _ Hplanned).
    + intros xx Hxx. apply in_Zrange in Hxx. exact Hxx.
    + intros Hundef. rewrite Hundef in Hdef. apply Hdef. reflexivity.
Qed.

Lemma C7_cached_table_witness :
  stretch_passes_cached malloc_zeroed BILINEAR blank4 ramp8
  = stretch_passes malloc_zeroed BILINEAR blank4 ramp8.
Proof.
  refine (proj2 (C7_cached_table_refines_recomputation malloc_zeroed BILINEAR blank4 ramp8) _).
  vm_compute. discriminate.
Defined.

(** ** C2: normalisation and flat fields, in exact arithmetic *)

Lemma Qfold_add_compat (f : Z -> Q) xs (a a' : Q) :
  (a == a')%Q ->
  (fold_left (fun acc x => acc + f x) xs a == fold_left (fun acc x => acc + f x) xs a')%Q.
Proof.
  revert a a'. induction xs as [|x xs IH]; intros a a' Ha; cbn [fold_left].
  - exact Ha.
  - apply IH. rewrite Ha. reflexivity.
Qed.

Lemma Qfold_scale_r (f : Z -> Q) (k : Q) xs (a : Q) :
  (fold_left (fun acc x => acc + f x * k) xs (a * k)
   == fold_left (fun acc x => acc + f x) xs a * k)%Q.
Proof.
  revert a. induction xs as [|x xs IH]; intros a; cbn [fold_left].
  - reflexivity.
  - rewrite <- IH. apply Qfold_add_compat. ring.
Qed.

Lemma Qfold_scale_l (f : Z -> Q) (c : Q) xs (a : Q) :
  (fold_left (fun acc x => acc + c * f x) xs (c * a)
   == c * fold_left (fun acc x => acc + f x) xs a)%Q.
Proof.
  revert a. induction xs as [|x xs IH]; intros a; cbn [fold_left].
  - reflexivity.
  - rewrite <- IH. apply Qfold_add_compat. ring.
Qed.

(** C2.  Read over exact rational arithmetic, for any weights (hence any
    filter) and any window [lo, hi) that is not empty and whose weights do
    not sum to zero: the weights the window loop wrote, each multiplied by
    the reciprocal the code stores, sum to 1; and the FLOAT32 reduction of
    a constant row [c] is [c]. *)
Theorem C2_normalised_weights_preserve_flat_fields :
  forall (w : Z -> Q) (base lo hi : Z) (kk0 : buffer Q) (c : Q),
    let kk := fst (window_loop (R := Q) w base lo hi kk0 0%Q) in
    let ww := reciprocal (R := Q) (snd (window_loop (R := Q) w base lo hi kk0 0%Q)) in
    lo < hi ->
    ~ (snd (window_loop (R := Q) w base lo hi kk0 0%Q) == 0)%Q ->
    (fold_left (fun acc x => acc + kk (base + (x - lo))%Z * ww) (Zrange lo hi) 0 == 1)%Q /\
    (reduce_float (R := Q) (fun _ => c) kk base lo hi ww == c)%Q.
Proof.
  intros w base lo hi kk0 c kk ww Hwin Hsum.
  rewrite (window_loop_total (H := exact_scalar)) in Hsum.
  cbn [s_add exact_scalar] in Hsum.
  set (W := fold_left (fun acc x => (acc + w x)%Q) (Zrange lo hi) 0%Q) in *.
  assert (Hww : (ww == / W)%Q).
  { unfold ww, reciprocal. rewrite (window_loop_total (H := exact_scalar)).
    cbn [s_add s_is_zero s_recip s_one exact_scalar]. fold W.
    destruct (Qeq_bool W 0) eqn:Hz.
    - apply Qeq_bool_iff in Hz. contradiction.
    - reflexivity. }
  assert (Hkk : forall x, lo <= x < hi -> kk (base + (x - lo)) = w x).
  { intros x Hx. apply (window_loop_written (H := exact_scalar)). exact Hx. }
  split.
  - rewrite (fold_left_ext_in _ (fun acc x => (acc + w x * ww)%Q)).
    + assert (H0 : (0 == 0 * ww)%Q) by ring.
      rewrite (Qfold_add_compat (fun x => (w x * ww)%Q) _ _ _ H0).
      rewrite Qfold_scale_r. fold W. rewrite Hww. field. exact Hsum.
    + intros a x Hx. apply in_Zrange in Hx. rewrite Hkk by exact Hx. reflexivity.
  - unfold reduce_float, weighted_sum. cbn [s_add s_mul s_zero exact_scalar].
    rewrite (fold_left_ext_in _ (fun acc x => (acc + c * w x)%Q)).
    + assert (H0 : (0 == c * 0)%Q) by ring.
      rewrite (Qfold_add_compat (fun x => (c * w x)%Q) _ _ _ H0).
      rewrite Qfold_scale_l. fold W. rewrite Hww. field. exact Hsum.
    + intros a x Hx. apply in_Zrange in Hx. rewrite Hkk by exact Hx. reflexivity.
Qed.

Lemma C2_normalised_weights_witness :
  let w := fun x : Z => (3 # 8)%Q in
  let kk := fst (window_loop (R := Q) w 0 0 3 (fun _ => 0%Q) 0%Q) in
  let ww := reciprocal (R := Q) (snd (window_loop (R := Q) w 0 0 3 (fun _ => 0%Q) 0%Q)) in
  (fold_left (fun acc x => acc + kk (0 + (x - 0))%Z * ww) (Zrange 0 3) 0 == 1)%Q /\
  (reduce_float (R := Q) (fun _ => (7 # 1)%Q) kk 0 0 3 ww == 7 # 1)%Q.
Proof.
  apply C2_normalised_weights_preserve_flat_fields.
  - lia.
  - vm_compute. discriminate.
Defined.


(** In binary32 the same reduction is exact only up to rounding: the
    bilinear resampling of seven pixels 7.0 to three returns
    [7, 7 - 2^-21, 7]. *)
Lemma flat_field_is_inexact_in_binary32 :
  row_image32f
    (ImagingStretchHorizaontal sin_stub malloc_zeroed (Some blank3_F) (Some sevens_F)
       IMAGING_TRANSFORM_BILINEAR) 0
  = Some [F32.of_int 7; F32.dyadic 14680063 (-21); F32.of_int 7].
Proof. vm_compute. reflexivity. Qed.

(** ** C3: the window of a very wide row can pass its end *)

(** C3 at a failing input.  For a source and destination row of
    2^24 + 3 = 16777219 pixels and the bilinear filter, the preparation is
    defined (scale 1, support 1, kmax 3), and the window of the last output
    position, 16777218, is [16777216, 16777220): its upper bound is one
    more than the source length, and its four entries are one more than
    [kmax].  The cause is binary32: [center + support] is 16777219, which
    rounds to the even neighbour 16777220, and [(float) imIn->xsize] is
    16777220 as well, so the clamp of line 158 does not apply. *)
Theorem C3_window_passes_source_end :
  prepare BILINEAR wide_L wide_L = Some (the_geometry BILINEAR wide_L wide_L) /\
  kmax (the_geometry BILINEAR wide_L wide_L) = 3 /\
  xsize wide_L = 16777219 /\
  to_int (column_xmin (the_geometry BILINEAR wide_L wide_L) 16777218) = Some 16777216 /\
  to_int (column_xmax (the_geometry BILINEAR wide_L wide_L) wide_L 16777218)
  = Some 16777220 /\
  F32.of_int (xsize wide_L) = F32.of_int 16777220 /\
  window_ok (the_geometry BILINEAR wide_L wide_L) wide_L 16777218 = false.
Proof.
  repeat split; vm_compute; reflexivity.
Qed.


(** ** Binary floating point: exact operations

    The facts about [SpecFloat] that the identity of the nearest filter
    rests on: rounding depends on the value only, representable numbers
    are their own rounding, and sums, differences and conversions of
    representable numbers are rounded from their exact value. *)

Lemma iter_pos_nat {A : Type} (f : A -> A) p x :
  iter_pos f p x = Nat.iter (Pos.to_nat p) f x.
Proof.
  revert x. induction p as [p IH|p IH|]; intros x; cbn [iter_pos].
  - rewrite !IH, Pos2Nat.inj_xI.
    replace (S (2 * Pos.to_nat p)) with (Pos.to_nat p + (Pos.to_nat p + 1))%nat by lia.
    rewrite !Nat.iter_add. reflexivity.
  - rewrite !IH, Pos2Nat.inj_xO.
    replace (2 * Pos.to_nat p)%nat with (Pos.to_nat p + Pos.to_nat p)%nat by lia.
    rewrite Nat.iter_add. reflexivity.
  - reflexivity.
Qed.

Lemma shr_nat mrs e n :
  0 <= n -> shr mrs e n = (Nat.iter (Z.to_nat n) shr_1 mrs, e + n).
Proof.
  intros Hn. destruct n as [|p|p]; cbn [shr].
  - rewrite Z.add_0_r. reflexivity.
  - rewrite iter_pos_nat. reflexivity.
  - lia.
Qed.

Lemma shr_1_even m : shr_1 (exact_record (2 * m)) = exact_record m.
Proof. destruct m as [|p|p]; reflexivity. Qed.

Lemma shr_exact k m :
  Nat.iter k shr_1 (exact_record (m * 2 ^ Z.of_nat k)) = exact_record m.
Proof.
  induction k as [|k IH].
  - cbn. rewrite Z.mul_1_r. reflexivity.
  - rewrite Nat.iter_succ_r.
    replace (m * 2 ^ Z.of_nat (S k)) with (2 * (m * 2 ^ Z.of_nat k)).
    + rewrite shr_1_even. exact IH.
    + rewrite Nat2Z.inj_succ, Z.pow_succ_r by lia. ring.
Qed.

Lemma shr_exact_Z k m :
  0 <= k ->
  Nat.iter (Z.to_nat k) shr_1 {| shr_m := m * 2 ^ k; shr_r := false; shr_s := false |}
  = {| shr_m := m; shr_r := false; shr_s := false |}.
Proof.
  intros Hk. pose proof (shr_exact (Z.to_nat k) m) as H.
  rewrite Z2Nat.id in H by exact Hk. exact H.
Qed.

Lemma Zdigits2_log2 m : 0 < m -> Zdigits2 m = Z.log2 m + 1.
Proof.
  intros Hm. destruct m as [|p|p]; try lia. cbn [Zdigits2].
  induction p as [p IH|p IH|]; cbn [digits2_pos].
  - rewrite Pos2Z.inj_succ, IH by lia.
    change (Z.pos p~1) with (2 * Z.pos p + 1).
    rewrite Z.log2_succ_double by lia. reflexivity.
  - rewrite Pos2Z.inj_succ, IH by lia.
    change (Z.pos p~0) with (2 * Z.pos p).
    rewrite Z.log2_double by lia. reflexivity.
  - reflexivity.
Qed.

Lemma Zdigits2_shift m k : 0 < m -> 0 <= k -> Zdigits2 (m * 2 ^ k) = Zdigits2 m + k.
Proof.
  intros Hm Hk.
  assert (0 < 2 ^ k) by (apply Z.pow_pos_nonneg; lia).
  rewrite !Zdigits2_log2 by nia.
  rewrite Z.log2_mul_pow2 by lia. lia.
Qed.

Lemma Zdigits2_bounds m : 0 < m -> 2 ^ (Zdigits2 m - 1) <= m < 2 ^ Zdigits2 m.
Proof.
  intros Hm. rewrite Zdigits2_log2 by exact Hm.
  replace (Z.log2 m + 1 - 1) with (Z.log2 m) by lia.
  pose proof (Z.log2_spec m Hm). replace (Z.log2 m + 1) with (Z.succ (Z.log2 m)) by lia. lia.
Qed.

Lemma Zdigits2_le m n : 0 < m -> m < 2 ^ n -> 0 <= n -> Zdigits2 m <= n.
Proof.
  intros Hm Hlt Hn. rewrite Zdigits2_log2 by exact Hm.
  assert (Z.log2 m < n) by (apply Z.log2_lt_pow2; lia). lia.
Qed.

Lemma Zdigits2_pos m : 0 < m -> 0 < Zdigits2 m.
Proof.
  intros Hm. rewrite Zdigits2_log2 by exact Hm. pose proof (Z.log2_nonneg m). lia.
Qed.

Section Format.
Variables prec emax : Z.

Local Notation "'fexp'" := (SpecFloat.fexp prec emax).
Local Notation "'BRA'" := (binary_round_aux prec emax).
Local Notation "'BR'" := (binary_round prec emax).

Lemma BRA_shift s m k e :
  0 < m -> 0 <= k ->
  e + k <= fexp (Zdigits2 m + e + k) ->
  BRA s (m * 2 ^ k) e loc_Exact = BRA s m (e + k) loc_Exact.
Proof.
  intros Hm Hk HE.
  unfold binary_round_aux, shr_fexp.
  rewrite Zdigits2_shift by assumption.
  replace (Zdigits2 m + k + e) with (Zdigits2 m + e + k) by lia.
  replace (Zdigits2 m + (e + k)) with (Zdigits2 m + e + k) by lia.
  set (E := fexp (Zdigits2 m + e + k)) in *.
  cbn [shr_record_of_loc].
  rewrite (shr_nat _ e (E - e)) by lia.
  rewrite (shr_nat _ (e + k) (E - (e + k))) by lia.
  replace (Z.to_nat (E - e)) with (Z.to_nat (E - (e + k)) + Z.to_nat k)%nat by lia.
  rewrite Nat.iter_add, shr_exact_Z by lia.
  replace (e + (E - e)) with (e + k + (E - (e + k))) by lia.
  reflexivity.
Qed.

Lemma BRA_canonical s m e :
  canonical_mantissa prec emax m e = true ->
  e <= emax - prec ->
  BRA s (Zpos m) e loc_Exact = S754_finite s m e.
Proof.
  unfold canonical_mantissa. intros Hc He. apply Z.eqb_eq in Hc.
  unfold binary_round_aux, shr_fexp. cbn [Zdigits2 shr_record_of_loc].
  rewrite Hc, Z.sub_diag. cbn [shr shr_m loc_of_shr_record round_nearest_even].
  cbn [Zdigits2 shr_record_of_loc]. rewrite Hc, Z.sub_diag. cbn [shr shr_m].
  destruct (Z.leb_spec e (emax - prec)); [reflexivity|lia].
Qed.

Lemma shl_align_spec m e e' :
  let r := shl_align m e e' in
  Zpos (fst r) = Zpos m * 2 ^ (Z.max 0 (e - e')) /\ snd r = Z.min e e'.
Proof.
  unfold shl_align. destruct (e' - e) as [|d|d] eqn:Hd; cbn [fst snd].
  - replace (Z.max 0 (e - e')) with 0 by lia. rewrite Z.mul_1_r. split; [reflexivity|lia].
  - replace (Z.max 0 (e - e')) with 0 by lia. rewrite Z.mul_1_r. split; [reflexivity|lia].
  - replace (Z.max 0 (e - e')) with (Zpos d) by lia. split; [|lia].
    clear Hd. induction d as [|d IH] using Pos.peano_ind.
    + cbn [Pos.iter]. rewrite Pos2Z.inj_xO. lia.
    + rewrite Pos.iter_succ, Pos2Z.inj_xO, IH, Pos2Z.inj_succ, Z.pow_succ_r by lia. lia.
Qed.

Lemma BR_unfold s m e :
  BR s m e
  = BRA s (Zpos m * 2 ^ (Z.max 0 (e - fexp (Zpos (digits2_pos m) + e))))
      (Z.min e (fexp (Zpos (digits2_pos m) + e))) loc_Exact.
Proof.
  unfold binary_round.
  pose proof (shl_align_spec m e (fexp (Zpos (digits2_pos m) + e))) as [H1 H2].
  destruct (shl_align m e (fexp (Zpos (digits2_pos m) + e))) as [mz ez].
  cbn [fst snd] in *. rewrite H1, H2. reflexivity.
Qed.

(** The same value in another representation rounds the same. *)
Lemma BR_shift s m p k e :
  0 <= k -> Zpos p = Zpos m * 2 ^ k -> BR s p e = BR s m (e + k).
Proof.
  intros Hk Hp. rewrite !BR_unfold.
  change (Zpos (digits2_pos p)) with (Zdigits2 (Zpos p)).
  change (Zpos (digits2_pos m)) with (Zdigits2 (Zpos m)).
  rewrite Hp, Zdigits2_shift by lia.
  replace (Zdigits2 (Zpos m) + k + e) with (Zdigits2 (Zpos m) + (e + k)) by lia.
  set (E := fexp (Zdigits2 (Zpos m) + (e + k))).
  assert (H2k : 0 < 2 ^ k) by (apply Z.pow_pos_nonneg; lia).
  destruct (Z.le_gt_cases E e) as [HEe|HEe].
  - (* both are shifted left to E *)
    replace (Z.max 0 (e - E)) with (e - E) by lia.
    replace (Z.max 0 (e + k - E)) with (e - E + k) by lia.
    replace (Z.min e E) with E by lia. replace (Z.min (e + k) E) with E by lia.
    rewrite <- Z.mul_assoc, <- Z.pow_add_r by lia.
    replace (k + (e - E)) with (e - E + k) by lia. reflexivity.
  - replace (Z.max 0 (e - E)) with 0 by lia. rewrite Z.mul_1_r.
    replace (Z.min e E) with e by lia.
    destruct (Z.le_gt_cases E (e + k)) as [HEk|HEk].
    + replace (Z.max 0 (e + k - E)) with (e + k - E) by lia.
      replace (Z.min (e + k) E) with E by lia.
      replace (Zpos m * 2 ^ k) with (Zpos m * 2 ^ (e + k - E) * 2 ^ (E - e)).
      * assert (0 < 2 ^ (e + k - E)) by (apply Z.pow_pos_nonneg; lia).
        rewrite BRA_shift; try nia; try lia.
        -- replace (e + (E - e)) with E by lia. reflexivity.
        -- rewrite Zdigits2_shift by lia.
           replace (Zdigits2 (Zpos m) + (e + k - E) + e + (E - e))
             with (Zdigits2 (Zpos m) + (e + k)) by lia.
           fold E. lia.
      * rewrite <- Z.mul_assoc, <- Z.pow_add_r by lia. f_equal. f_equal. lia.
    + replace (Z.max 0 (e + k - E)) with 0 by lia. rewrite Z.mul_1_r.
      replace (Z.min (e + k) E) with (e + k) by lia.
      apply BRA_shift; try lia.
      replace (Zdigits2 (Zpos m) + e + k) with (Zdigits2 (Zpos m) + (e + k)) by lia.
      fold E. lia.
Qed.


Lemma Zdigits2_abs z : Zdigits2 (Z.abs z) = Zdigits2 z.
Proof. destruct z; reflexivity. Qed.

Lemma normalize_shift z k e sz :
  0 <= k ->
  binary_normalize prec emax (z * 2 ^ k) e sz = binary_normalize prec emax z (e + k) sz.
Proof.
  intros Hk. assert (H2k : 0 < 2 ^ k) by (apply Z.pow_pos_nonneg; lia).
  destruct z as [|m|m]; cbn [binary_normalize].
  - reflexivity.
  - destruct (Zpos m * 2 ^ k) as [|p|p] eqn:Hp; try lia.
    cbn [binary_normalize]. apply BR_shift; [exact Hk|]. lia.
  - destruct (Zneg m * 2 ^ k) as [|p|p] eqn:Hp; try lia.
    cbn [binary_normalize]. apply BR_shift; [exact Hk|]. lia.
Qed.

Lemma normalize_sign_irrelevant z e s s' :
  z <> 0 -> binary_normalize prec emax z e s = binary_normalize prec emax z e s'.
Proof. destruct z; [congruence|reflexivity..]. Qed.

(** The representation of a representable number. *)
Lemma normalize_exact z e sz :
  representable prec emax z e ->
  binary_normalize prec emax z e sz
  = S754_finite (z <? 0) (Z.to_pos (Z.abs z * 2 ^ (prec - Zdigits2 z)))
      (e + Zdigits2 z - prec).
Proof.
  intros (Hz & Hd & Hlo & Hhi).
  set (sh := prec - Zdigits2 z).
  assert (H2 : 0 < 2 ^ sh) by (apply Z.pow_pos_nonneg; lia).
  assert (Hpos : 0 < Z.abs z * 2 ^ sh) by nia.
  set (P := Z.to_pos (Z.abs z * 2 ^ sh)).
  assert (HP : Zpos P = Z.abs z * 2 ^ sh) by (apply Z2Pos.id; exact Hpos).
  assert (Hround : forall s m, Zpos m = Z.abs z ->
             binary_round prec emax s m e = S754_finite s P (e + Zdigits2 z - prec)).
  { intros s m Hm.
    replace e with (e + Zdigits2 z - prec + sh) at 1 by (unfold sh; lia).
    rewrite <- (BR_shift s m P sh) by (try lia; rewrite HP, Hm; reflexivity).
    rewrite BR_unfold.
    change (Zpos (digits2_pos P)) with (Zdigits2 (Zpos P)).
    rewrite HP, Zdigits2_shift, Zdigits2_abs by lia.
    replace (Zdigits2 z + sh + (e + Zdigits2 z - prec)) with (prec + (e + Zdigits2 z - prec))
      by (unfold sh; lia).
    assert (HE : SpecFloat.fexp prec emax (prec + (e + Zdigits2 z - prec))
                 = e + Zdigits2 z - prec) by (unfold SpecFloat.fexp; lia).
    rewrite HE, Z.sub_diag, Z.min_id. cbn [Z.max]. rewrite Z.pow_0_r, Z.mul_1_r, <- HP.
    apply BRA_canonical; [|lia].
    unfold canonical_mantissa. apply Z.eqb_eq.
    change (Zpos (digits2_pos P)) with (Zdigits2 (Zpos P)).
    rewrite HP, Zdigits2_shift, Zdigits2_abs by lia.
    replace (Zdigits2 z + sh + (e + Zdigits2 z - prec)) with (prec + (e + Zdigits2 z - prec))
      by (unfold sh; lia).
    exact HE. }
  destruct z as [|m|m]; [congruence| |]; cbn [binary_normalize Z.ltb Z.compare].
  - apply Hround. reflexivity.
  - apply Hround. reflexivity.
Qed.

(** The signed mantissa of that representation. *)
Lemma exact_mantissa z :
  z <> 0 -> Zdigits2 z <= prec ->
  cond_Zopp (z <? 0) (Zpos (Z.to_pos (Z.abs z * 2 ^ (prec - Zdigits2 z))))
  = z * 2 ^ (prec - Zdigits2 z).
Proof.
  intros Hz Hd.
  assert (H2 : 0 < 2 ^ (prec - Zdigits2 z)) by (apply Z.pow_pos_nonneg; lia).
  rewrite Z2Pos.id by nia.
  destruct (Z.ltb_spec z 0); cbn [cond_Zopp]; nia.
Qed.

Lemma SFadd_finite sx mx ex sy my ey :
  SFadd prec emax (S754_finite sx mx ex) (S754_finite sy my ey)
  = binary_normalize prec emax
      (cond_Zopp sx (Zpos mx) * 2 ^ (ex - Z.min ex ey)
       + cond_Zopp sy (Zpos my) * 2 ^ (ey - Z.min ex ey))
      (Z.min ex ey) false.
Proof.
  cbn [SFadd].
  destruct (shl_align_spec mx ex (Z.min ex ey)) as [Hx _].
  destruct (shl_align_spec my ey (Z.min ex ey)) as [Hy _].
  rewrite Hx, Hy.
  replace (Z.max 0 (ex - Z.min ex ey)) with (ex - Z.min ex ey) by lia.
  replace (Z.max 0 (ey - Z.min ex ey)) with (ey - Z.min ex ey) by lia.
  f_equal. destruct sx, sy; cbn [cond_Zopp]; ring.
Qed.

Lemma SFsub_finite sx mx ex sy my ey :
  SFsub prec emax (S754_finite sx mx ex) (S754_finite sy my ey)
  = binary_normalize prec emax
      (cond_Zopp sx (Zpos mx) * 2 ^ (ex - Z.min ex ey)
       - cond_Zopp sy (Zpos my) * 2 ^ (ey - Z.min ex ey))
      (Z.min ex ey) false.
Proof.
  cbn [SFsub].
  destruct (shl_align_spec mx ex (Z.min ex ey)) as [Hx _].
  destruct (shl_align_spec my ey (Z.min ex ey)) as [Hy _].
  rewrite Hx, Hy.
  replace (Z.max 0 (ex - Z.min ex ey)) with (ex - Z.min ex ey) by lia.
  replace (Z.max 0 (ey - Z.min ex ey)) with (ey - Z.min ex ey) by lia.
  f_equal. destruct sx, sy; cbn [cond_Zopp]; ring.
Qed.

Lemma pow2_scale a s k n :
  0 <= s -> 0 <= k -> n = s + k -> a * 2 ^ s * 2 ^ k = a * 2 ^ n.
Proof. intros Hs Hk ->. rewrite Z.pow_add_r by lia. ring. Qed.

(** Sums and differences of representable numbers are rounded from their
    exact value. *)
Lemma add_representable a ea b eb :
  representable prec emax a ea -> representable prec emax b eb ->
  SFadd prec emax (binary_normalize prec emax a ea false) (binary_normalize prec emax b eb false)
  = binary_normalize prec emax
      (a * 2 ^ (ea - Z.min ea eb) + b * 2 ^ (eb - Z.min ea eb)) (Z.min ea eb) false.
Proof.
  intros Ha Hb.
  rewrite (normalize_exact a ea false Ha), (normalize_exact b eb false Hb).
  destruct Ha as (Ha & Hda & Hla & Hha), Hb as (Hb & Hdb & Hlb & Hhb).
  rewrite SFadd_finite, !exact_mantissa by assumption.
  set (ea' := ea + Zdigits2 a - prec). set (eb' := eb + Zdigits2 b - prec).
  rewrite (pow2_scale a _ _ (ea - Z.min ea' eb')) by (unfold ea', eb'; lia).
  rewrite (pow2_scale b _ _ (eb - Z.min ea' eb')) by (unfold ea', eb'; lia).
  replace (Z.min ea eb) with (Z.min ea' eb' + (Z.min ea eb - Z.min ea' eb')) at 3 by lia.
  rewrite <- normalize_shift by (unfold ea', eb'; lia).
  f_equal. rewrite Z.mul_add_distr_r.
  rewrite !pow2_scale with (n := ea - Z.min ea' eb') by (unfold ea', eb'; lia).
  rewrite (pow2_scale b _ _ (eb - Z.min ea' eb')) by (unfold ea', eb'; lia).
  reflexivity.
Qed.

Lemma sub_representable a ea b eb :
  representable prec emax a ea -> representable prec emax b eb ->
  SFsub prec emax (binary_normalize prec emax a ea false) (binary_normalize prec emax b eb false)
  = binary_normalize prec emax
      (a * 2 ^ (ea - Z.min ea eb) - b * 2 ^ (eb - Z.min ea eb)) (Z.min ea eb) false.
Proof.
  intros Ha Hb.
  rewrite (normalize_exact a ea false Ha), (normalize_exact b eb false Hb).
  destruct Ha as (Ha & Hda & Hla & Hha), Hb as (Hb & Hdb & Hlb & Hhb).
  rewrite SFsub_finite, !exact_mantissa by assumption.
  set (ea' := ea + Zdigits2 a - prec). set (eb' := eb + Zdigits2 b - prec).
  rewrite (pow2_scale a _ _ (ea - Z.min ea' eb')) by (unfold ea', eb'; lia).
  rewrite (pow2_scale b _ _ (eb - Z.min ea' eb')) by (unfold ea', eb'; lia).
  replace (Z.min ea eb) with (Z.min ea' eb' + (Z.min ea eb - Z.min ea' eb')) at 3 by lia.
  rewrite <- normalize_shift by (unfold ea', eb'; lia).
  f_equal. rewrite Z.mul_sub_distr_r.
  rewrite !pow2_scale with (n := ea - Z.min ea' eb') by (unfold ea', eb'; lia).
  rewrite (pow2_scale b _ _ (eb - Z.min ea' eb')) by (unfold ea', eb'; lia).
  reflexivity.
Qed.

End Format.

Lemma normalize_sign z e s m :
  Zpos m = Z.abs z -> z <> 0 ->
  forall prec emax, binary_normalize prec emax z e s = binary_round prec emax (z <? 0) m e.
Proof.
  intros Hm Hz prec emax. destruct z as [|p|p]; [congruence| |]; cbn in *; congruence.
Qed.

(** Converting a representable number to another format rounds its value
    in that format. *)
Lemma convert_representable prec emax prec' emax' a e :
  representable prec emax a e ->
  SFldexp prec' emax' (binary_normalize prec emax a e false) 0
  = binary_normalize prec' emax' a e false.
Proof.
  intros Ha. rewrite (normalize_exact prec emax a e false Ha).
  destruct Ha as (Hz & Hd & _).
  cbn [SFldexp]. rewrite Z.add_0_r.
  set (sh := prec - Zdigits2 a).
  assert (H2 : 0 < 2 ^ sh) by (apply Z.pow_pos_nonneg; unfold sh; lia).
  assert (Hm : Zpos (Z.to_pos (Z.abs a)) = Z.abs a) by (apply Z2Pos.id; lia).
  rewrite (normalize_sign a e false (Z.to_pos (Z.abs a)) Hm Hz).
  replace e with (e + Zdigits2 a - prec + sh) at 2 by (unfold sh; lia).
  apply BR_shift; [unfold sh; lia|].
  rewrite Hm. apply Z2Pos.id. nia.
Qed.

(** Multiplication by one leaves a valid number as it is. *)
Lemma mul_one_valid prec emax x :
  1 < prec -> 1 <= emax -> SpecFloat.emin prec emax <= 1 - prec ->
  valid_binary prec emax x = true ->
  SFmul prec emax x (binary_normalize prec emax 1 0 false) = x.
Proof.
  intros Hprec Hemax Hemin Hx.
  assert (Hone : representable prec emax 1 0).
  { unfold representable. cbn [Zdigits2 digits2_pos]. lia. }
  rewrite (normalize_exact prec emax 1 0 false Hone).
  cbn [Zdigits2 digits2_pos Z.ltb Z.compare Z.abs].
  rewrite Z.mul_1_l.
  assert (H2 : 0 < 2 ^ (prec - 1)) by (apply Z.pow_pos_nonneg; lia).
  destruct x as [s|s| |s m e]; cbn [SFmul]; try reflexivity; try (destruct s; reflexivity).
  cbn [valid_binary] in Hx. unfold bounded in Hx.
  apply andb_prop in Hx. destruct Hx as [Hc He]. apply Z.leb_le in He.
  rewrite Pos2Z.inj_mul, Z2Pos.id by lia.
  rewrite BRA_shift; try lia.
  - replace (e + (0 + 1 - prec) + (prec - 1)) with e by lia.
    rewrite xorb_false_r. apply BRA_canonical; assumption.
  - replace (Zdigits2 (Z.pos m) + (e + (0 + 1 - prec)) + (prec - 1))
      with (Zpos (digits2_pos m) + e) by (cbn [Zdigits2]; lia).
    unfold canonical_mantissa in Hc. apply Z.eqb_eq in Hc. lia.
Qed.

Lemma representable_small prec emax z e :
  0 < Z.abs z < 2 ^ prec -> 0 <= prec ->
  SpecFloat.emin prec emax <= e + 1 - prec -> e + prec <= emax ->
  representable prec emax z e.
Proof.
  intros Hz Hprec Hlo Hhi. unfold representable.
  assert (Hd : 0 < Zdigits2 z <= prec).
  { rewrite <- Zdigits2_abs. split.
    - apply Zdigits2_pos. lia.
    - apply Zdigits2_le; lia. }
  repeat split; lia.
Qed.

Lemma representable_valid prec emax z e :
  representable prec emax z e ->
  valid_binary prec emax (binary_normalize prec emax z e false) = true.
Proof.
  intros Hr. rewrite (normalize_exact prec emax z e false Hr).
  destruct Hr as (Hz & Hd & Hlo & Hhi).
  cbn [valid_binary]. unfold bounded, canonical_mantissa.
  assert (H2 : 0 < 2 ^ (prec - Zdigits2 z)) by (apply Z.pow_pos_nonneg; lia).
  change (Zpos (digits2_pos (Z.to_pos (Z.abs z * 2 ^ (prec - Zdigits2 z)))))
    with (Zdigits2 (Zpos (Z.to_pos (Z.abs z * 2 ^ (prec - Zdigits2 z))))).
  rewrite Z2Pos.id by nia.
  rewrite Zdigits2_shift, Zdigits2_abs by lia.
  apply andb_true_intro. split.
  - apply Z.eqb_eq. unfold SpecFloat.fexp. lia.
  - apply Z.leb_le. lia.
Qed.

Lemma floor_integer z :
  representable 53 1024 z 0 -> F64.floor (F64.of_int z) = F64.of_int z.
Proof.
  intros Hr. unfold F64.of_int, F64.dyadic, F64.prec, F64.emax.
  rewrite (normalize_exact 53 1024 z 0 false Hr).
  destruct Hr as (Hz & Hd & Hlo & Hhi).
  unfold F64.floor, F64.prec, F64.emax.
  destruct (Z.leb_spec 0 (0 + Zdigits2 z - 53)) as [He|He]; [reflexivity|].
  rewrite exact_mantissa by assumption.
  replace (- (0 + Zdigits2 z - 53)) with (53 - Zdigits2 z) by lia.
  assert (H2 : 0 < 2 ^ (53 - Zdigits2 z)) by (apply Z.pow_pos_nonneg; lia).
  rewrite Z.div_mul by lia.
  rewrite (normalize_sign_irrelevant 53 1024 z 0 _ false Hz).
  apply normalize_exact. repeat split; assumption.
Qed.

Lemma ceil_integer z :
  representable 53 1024 z 0 -> F64.ceil (F64.of_int z) = F64.of_int z.
Proof.
  intros Hr. unfold F64.of_int, F64.dyadic, F64.prec, F64.emax.
  rewrite (normalize_exact 53 1024 z 0 false Hr).
  destruct Hr as (Hz & Hd & Hlo & Hhi).
  unfold F64.ceil, F64.prec, F64.emax.
  destruct (Z.leb_spec 0 (0 + Zdigits2 z - 53)) as [He|He]; [reflexivity|].
  rewrite exact_mantissa by assumption.
  replace (- (0 + Zdigits2 z - 53)) with (53 - Zdigits2 z) by lia.
  assert (H2 : 0 < 2 ^ (53 - Zdigits2 z)) by (apply Z.pow_pos_nonneg; lia).
  rewrite <- Z.mul_opp_l, Z.div_mul, Z.opp_involutive by lia.
  rewrite (normalize_sign_irrelevant 53 1024 z 0 _ false Hz).
  apply normalize_exact. repeat split; assumption.
Qed.

Lemma Ztrunc_integer z :
  representable 24 128 z 0 -> Ztrunc (F32.of_int z) = Some z.
Proof.
  intros Hr. unfold F32.of_int, F32.dyadic, F32.prec, F32.emax.
  rewrite (normalize_exact 24 128 z 0 false Hr).
  destruct Hr as (Hz & Hd & Hlo & Hhi).
  cbn [Ztrunc].
  assert (H2 : 0 < 2 ^ (24 - Zdigits2 z)) by (apply Z.pow_pos_nonneg; lia).
  rewrite Z2Pos.id by nia. f_equal.
  destruct (Z.leb_spec 0 (0 + Zdigits2 z - 24)) as [He|He].
  - replace (24 - Zdigits2 z) with 0 by lia.
    replace (0 + Zdigits2 z - 24) with 0 by lia.
    rewrite Z.pow_0_r, !Z.mul_1_r.
    destruct (Z.ltb_spec z 0); cbn [cond_Zopp]; lia.
  - replace (- (0 + Zdigits2 z - 24)) with (24 - Zdigits2 z) by lia.
    rewrite Z.div_mul by lia.
    destruct (Z.ltb_spec z 0); cbn [cond_Zopp]; lia.
Qed.

Lemma to_int_integer z :
  representable 24 128 z 0 -> in_int z = true -> to_int (F32.of_int z) = Some z.
Proof.
  intros Hr Hi. unfold to_int. rewrite (Ztrunc_integer z Hr), Hi. reflexivity.
Qed.

Lemma ltb_integers a b :
  representable 24 128 a 0 -> representable 24 128 b 0 -> 0 < b <= a ->
  F32.ltb (F32.of_int a) (F32.of_int b) = false.
Proof.
  intros Ha Hb Hab. unfold F32.of_int, F32.dyadic, F32.prec, F32.emax.
  rewrite (normalize_exact 24 128 a 0 false Ha), (normalize_exact 24 128 b 0 false Hb).
  destruct Ha as (_ & Hda & _), Hb as (_ & Hdb & _).
  replace (a <? 0) with false by (symmetry; apply Z.ltb_ge; lia).
  replace (b <? 0) with false by (symmetry; apply Z.ltb_ge; lia).
  rewrite !Z.abs_eq by lia.
  unfold F32.ltb, SFltb. cbn [SFcompare].
  pose proof (Zdigits2_bounds a ltac:(lia)) as Hba.
  pose proof (Zdigits2_bounds b ltac:(lia)) as Hbb.
  destruct (Z.compare_spec (0 + Zdigits2 a - 24) (0 + Zdigits2 b - 24)) as [He|He|He].
  - replace (Zdigits2 b) with (Zdigits2 a) by lia.
    assert (H2 : 0 < 2 ^ (24 - Zdigits2 a)) by (apply Z.pow_pos_nonneg; lia).
    assert (HPa : Zpos (Z.to_pos (a * 2 ^ (24 - Zdigits2 a))) = a * 2 ^ (24 - Zdigits2 a))
      by (apply Z2Pos.id; nia).
    assert (HPb : Zpos (Z.to_pos (b * 2 ^ (24 - Zdigits2 a))) = b * 2 ^ (24 - Zdigits2 a))
      by (apply Z2Pos.id; nia).
    destruct (Pos.compare_cont Eq _ _) eqn:Hc; try reflexivity.
    exfalso. apply Pos.compare_lt_iff in Hc.
    apply Pos2Z.pos_lt_pos in Hc. rewrite HPa, HPb in Hc. nia.
  - exfalso.
    assert (2 ^ Zdigits2 a <= 2 ^ (Zdigits2 b - 1)) by (apply Z.pow_le_mono_r; lia).
    lia.
  - reflexivity.
Qed.

Lemma div_self L :
  representable 24 128 L 0 -> 0 < L ->
  F32.div (F32.of_int L) (F32.of_int L) = F32.one.
Proof.
  intros Hr HL. unfold F32.of_int, F32.dyadic, F32.prec, F32.emax.
  rewrite (normalize_exact 24 128 L 0 false Hr).
  destruct Hr as (Hz & Hd & Hlo & Hhi).
  replace (L <? 0) with false by (symmetry; apply Z.ltb_ge; lia).
  rewrite Z.abs_eq by lia.
  assert (H2 : 0 < 2 ^ (24 - Zdigits2 L)) by (apply Z.pow_pos_nonneg; lia).
  set (P := Z.to_pos (L * 2 ^ (24 - Zdigits2 L))).
  assert (HP : Zpos P = L * 2 ^ (24 - Zdigits2 L)) by (apply Z2Pos.id; nia).
  assert (HdP : Zdigits2 (Zpos P) = 24) by (rewrite HP, Zdigits2_shift by lia; lia).
  unfold F32.div, F32.prec, F32.emax. cbn [SFdiv]. unfold SFdiv_core_binary.
  rewrite HdP.
  replace (Z.min (SpecFloat.fexp 24 128 (24 + (0 + Zdigits2 L - 24) - (24 + (0 + Zdigits2 L - 24))))
                 (0 + Zdigits2 L - 24 - (0 + Zdigits2 L - 24))) with (-24)
    by (unfold SpecFloat.fexp, SpecFloat.emin; lia).
  replace (0 + Zdigits2 L - 24 - (0 + Zdigits2 L - 24) - -24) with 24 by lia.
  rewrite Z.shiftl_mul_pow2 by lia.
  assert (Hdiv : Z.div_eucl (Zpos P * 2 ^ 24) (Zpos P) = (2 ^ 24, 0)).
  { pose proof (Z_div_mod (Zpos P * 2 ^ 24) (Zpos P) ltac:(lia)) as Hdm.
    destruct (Z.div_eucl (Zpos P * 2 ^ 24) (Zpos P)) as [q r].
    destruct Hdm as [Heq Hr'].
    assert (q = 2 ^ 24 /\ r = 0) as [-> ->]; [|reflexivity].
    assert (Hq : Zpos P * (2 ^ 24 - q) = r) by lia.
    assert (2 ^ 24 - q = 0) by nia.
    split; nia. }
  rewrite Hdiv.
  assert (Hloc : new_location (Zpos P) 0 = loc_Exact).
  { unfold new_location, new_location_even, new_location_odd.
    destruct (Z.even (Zpos P)); reflexivity. }
  rewrite Hloc. vm_compute. reflexivity.
Qed.

Lemma prepare_nearest imOut imIn :
  xsize imOut = xsize imIn -> 1 <= xsize imIn < 2 ^ 24 ->
  prepare NEAREST imOut imIn = Some nearest_geometry.
Proof.
  intros Hx HL. unfold prepare. rewrite Hx, div_self.
  - vm_compute. reflexivity.
  - apply representable_small; try lia; vm_compute; discriminate.
  - lia.
Qed.

Ltac small := apply representable_small; [lia | lia | vm_compute; discriminate | vm_compute; discriminate].

Lemma center_nearest xx :
  0 <= xx < 2 ^ 23 -> column_center nearest_geometry xx = F32.dyadic (2 * xx + 1) (-1).
Proof.
  intros Hxx. destruct (Z.eq_dec xx 0) as [->|Hne]; [vm_compute; reflexivity|].
  unfold column_center. cbn [scale nearest_geometry].
  change (F64.of_float F32.one) with (binary_normalize 53 1024 1 0 false).
  unfold F64.of_int, F64.half, F64.dyadic, F64.add, F64.mul, F32.of_double, F32.dyadic,
    F64.prec, F64.emax, F32.prec, F32.emax.
  rewrite (add_representable 53 1024 xx 0 1 (-1)) by small.
  change (Z.min 0 (-1)) with (-1). change (0 - -1) with 1. change (-1 - -1) with 0.
  replace (xx * 2 ^ 1 + 1 * 2 ^ 0) with (2 * xx + 1) by lia.
  rewrite mul_one_valid; try lia.
  - apply convert_representable. small.
  - vm_compute. discriminate.
  - apply representable_valid. small.
Qed.

Lemma of_int_round_trip xx :
  xx <> 0 -> Z.abs xx < 2 ^ 24 ->
  F32.of_double (F64.of_float (F32.of_int xx)) = F32.of_int xx
  /\ F64.of_float (F32.of_int xx) = F64.of_int xx.
Proof.
  intros Hne Hxx.
  unfold F32.of_double, F64.of_float, F32.of_int, F64.of_int, F32.dyadic, F64.dyadic,
    F64.prec, F64.emax, F32.prec, F32.emax.
  rewrite (convert_representable 24 128 53 1024 xx 0) by small.
  split; [|reflexivity].
  apply convert_representable. small.
Qed.

Lemma xmin_nearest xx :
  0 <= xx < 2 ^ 23 -> to_int (column_xmin nearest_geometry xx) = Some xx.
Proof.
  intros Hxx. destruct (Z.eq_dec xx 0) as [->|Hne]; [vm_compute; reflexivity|].
  unfold column_xmin. rewrite center_nearest by exact Hxx.
  cbn [g_support nearest_geometry].
  assert (Hsub : F32.sub (F32.dyadic (2 * xx + 1) (-1)) (F32.dyadic 1 (-1)) = F32.of_int xx).
  { unfold F32.sub, F32.of_int, F32.dyadic, F32.prec, F32.emax.
    rewrite (sub_representable 24 128 (2 * xx + 1) (-1) 1 (-1)) by small.
    change (Z.min (-1) (-1)) with (-1). change (-1 - -1) with 0.
    replace ((2 * xx + 1) * 2 ^ 0 - 1 * 2 ^ 0) with (xx * 2 ^ 1) by lia.
    rewrite normalize_shift by lia. reflexivity. }
  rewrite Hsub.
  destruct (of_int_round_trip xx Hne ltac:(lia)) as [_ Hd].
  rewrite Hd, floor_integer by small.
  assert (Hback : F32.of_double (F64.of_int xx) = F32.of_int xx).
  { unfold F32.of_double, F64.of_int, F32.of_int, F32.dyadic, F64.dyadic,
      F64.prec, F64.emax, F32.prec, F32.emax.
    apply convert_representable. small. }
  rewrite Hback, Hd.
  assert (Hpos : F64.ltb (F64.of_int xx) F64.zero = false).
  { unfold F64.of_int, F64.dyadic, F64.prec, F64.emax.
    rewrite (normalize_exact 53 1024 xx 0 false) by small.
    replace (xx <? 0) with false by (symmetry; apply Z.ltb_ge; lia). reflexivity. }
  rewrite Hpos. apply to_int_integer; [small|].
  unfold in_int, INT_MIN, INT_MAX. lia.
Qed.

Lemma xmax_nearest imIn xx :
  0 <= xx < xsize imIn -> xsize imIn <= 2 ^ 23 ->
  to_int (column_xmax nearest_geometry imIn xx) = Some (xx + 1).
Proof.
  intros Hxx HL.
  unfold column_xmax. rewrite center_nearest by lia.
  cbn [g_support nearest_geometry].
  assert (Hadd : F32.add (F32.dyadic (2 * xx + 1) (-1)) (F32.dyadic 1 (-1))
                 = F32.of_int (xx + 1)).
  { unfold F32.add, F32.of_int, F32.dyadic, F32.prec, F32.emax.
    rewrite (add_representable 24 128 (2 * xx + 1) (-1) 1 (-1)) by small.
    change (Z.min (-1) (-1)) with (-1). change (-1 - -1) with 0.
    replace ((2 * xx + 1) * 2 ^ 0 + 1 * 2 ^ 0) with ((xx + 1) * 2 ^ 1) by lia.
    rewrite normalize_shift by lia. reflexivity. }
  rewrite Hadd.
  destruct (of_int_round_trip (xx + 1) ltac:(lia) ltac:(lia)) as [_ Hd].
  rewrite Hd, ceil_integer by small.
  assert (Hback : F32.of_double (F64.of_int (xx + 1)) = F32.of_int (xx + 1)).
  { unfold F32.of_double, F64.of_int, F32.of_int, F32.dyadic, F64.dyadic,
      F64.prec, F64.emax, F32.prec, F32.emax.
    apply convert_representable. small. }
  rewrite Hback, ltb_integers by (try small; lia).
  apply to_int_integer; [small|].
  unfold in_int, INT_MIN, INT_MAX. lia.
Qed.

Lemma ss_nearest : column_ss nearest_geometry = F32.one.
Proof. vm_compute. reflexivity. Qed.

Lemma weight_nearest xx :
  0 <= xx < 2 ^ 23 ->
  weight NEAREST (column_center nearest_geometry xx) (column_ss nearest_geometry) xx
  = F32.one.
Proof.
  intros Hxx. destruct (Z.eq_dec xx 0) as [->|Hne]; [vm_compute; reflexivity|].
  unfold weight. rewrite center_nearest, ss_nearest by exact Hxx.
  assert (Hsub : F32.sub (F32.of_int xx) (F32.dyadic (2 * xx + 1) (-1)) = F32.dyadic (-1) (-1)).
  { unfold F32.sub, F32.of_int, F32.dyadic, F32.prec, F32.emax.
    rewrite (sub_representable 24 128 xx 0 (2 * xx + 1) (-1)) by small.
    change (Z.min 0 (-1)) with (-1). change (0 - -1) with 1. change (-1 - -1) with 0.
    f_equal. lia. }
  rewrite Hsub. vm_compute. reflexivity.
Qed.

Lemma window_nearest imIn xx :
  0 <= xx < xsize imIn -> xsize imIn <= 2 ^ 23 ->
  window_ok nearest_geometry imIn xx = true.
Proof.
  intros Hxx HL. unfold window_ok.
  rewrite xmin_nearest, (xmax_nearest imIn xx) by lia.
  cbn [kmax nearest_geometry]. unfold reads_in_bounds.
  apply andb_true_intro. split.
  - apply orb_true_intro. right. apply Z.leb_le. lia.
  - apply orb_true_intro. right. apply andb_true_intro. split; apply Z.leb_le; lia.
Qed.

Lemma Zrange_one x : Zrange x (x + 1) = [x].
Proof. rewrite Zrange_cons by lia. rewrite Zrange_nil by lia. reflexivity. Qed.

Lemma column_value_nearest {V : Type} (px : Z -> Z -> Z -> float)
    (finish : float -> float -> option V) imIn xx yy b :
  0 <= xx < xsize imIn -> xsize imIn <= 2 ^ 23 ->
  column_value px finish NEAREST nearest_geometry imIn xx yy b
  = finish (F32.add F32.zero (F32.mul (px yy b xx) F32.one)) F32.one.
Proof.
  intros Hxx HL. unfold column_value, column_plan.
  rewrite xmin_nearest, (xmax_nearest imIn xx) by lia.
  unfold column_sum, weight_total. rewrite Zrange_one. cbn [fold_left].
  rewrite weight_nearest by lia.
  f_equal.
Qed.

Lemma nearest_pixel8_identity p : 0 <= p <= 255 -> nearest_pixel8 p = Some p.
Proof.
  intros Hp.
  assert (Hall : forallb (fun q => match nearest_pixel8 q with
                                   | Some v => v =? q
                                   | None => false
                                   end) (Zrange 0 256) = true)
    by (vm_compute; reflexivity).
  rewrite forallb_forall in Hall.
  specialize (Hall p ltac:(apply in_Zrange; lia)).
  destruct (nearest_pixel8 p) as [v|]; [|discriminate].
  apply Z.eqb_eq in Hall. congruence.
Qed.

Lemma mul_one32 x : valid_binary 24 128 x = true -> F32.mul x F32.one = x.
Proof.
  intros Hx. unfold F32.mul, F32.one, F32.of_int, F32.dyadic, F32.prec, F32.emax.
  apply mul_one_valid; try lia; [vm_compute; discriminate|exact Hx].
Qed.

Lemma nearest_pixel32_identity p :
  Z.abs p <= 2 ^ 24 ->
  scale_int (F32.add F32.zero (F32.mul (F32.of_int p) F32.one)) F32.one = Some p.
Proof.
  intros Hp.
  destruct (Z.eq_dec p 0) as [->|H0]; [vm_compute; reflexivity|].
  destruct (Z.eq_dec p (2 ^ 24)) as [->|H1]; [vm_compute; reflexivity|].
  destruct (Z.eq_dec p (- 2 ^ 24)) as [->|H2]; [vm_compute; reflexivity|].
  assert (Hr : representable 24 128 p 0) by small.
  assert (Hv : valid_binary 24 128 (F32.of_int p) = true) by (apply representable_valid; exact Hr).
  rewrite mul_one32 by exact Hv.
  assert (Hadd : F32.add F32.zero (F32.of_int p) = F32.of_int p).
  { unfold F32.of_int, F32.dyadic, F32.prec, F32.emax.
    rewrite (normalize_exact 24 128 p 0 false Hr). reflexivity. }
  rewrite Hadd. unfold scale_int.
  assert (Hi : in_int p = true).
  { unfold in_int, INT_MIN, INT_MAX. apply andb_true_intro. split; apply Z.leb_le; lia. }
  rewrite (to_int_integer p Hr Hi), mul_one32 by exact Hv.
  apply to_int_integer; assumption.
Qed.

Lemma nearest_pixel32f_identity x :
  valid_binary 24 128 x = true ->
  F32.mul (F32.add F32.zero (F32.mul x F32.one)) F32.one = positive_zero x.
Proof.
  intros Hx. rewrite (mul_one32 x Hx).
  destruct x as [[|]|[|]| |s m e]; try reflexivity.
  change (F32.add F32.zero (S754_finite s m e)) with (S754_finite s m e).
  apply mul_one32. exact Hx.
Qed.

Lemma in_int_small n : 0 <= n <= 2 ^ 26 -> in_int n = true.
Proof.
  intros Hn. unfold in_int, INT_MIN, INT_MAX.
  apply andb_true_intro. split; apply Z.leb_le; lia.
Qed.

(** ** C1: the nearest filter at equal widths *)

(** C1, as stated, fails on INT32 pixels that binary32 cannot hold: the
    one-pixel image with the value 2^24 + 1 = 16777217 comes back as
    16777216, because the weighted sum is accumulated in a [float]. *)
Lemma C1_int32_pixel_counterexample :
  row_image32
    (ImagingStretchHorizaontal sin_stub malloc_zeroed (Some zero_I) (Some odd_I)
       IMAGING_TRANSFORM_NEAREST) 0 = Some [16777216] /\
  map (image32 odd_I 0) (Zrange 0 (xsize odd_I)) = [16777217].
Proof. split; vm_compute; reflexivity. Qed.

(** The width bound of the amended claim cannot be dropped: in a row of
    2^23 + 1 pixels the window of output position 2^23 is
    [2^23 - 1, 2^23), so the value the reduction computes for it is that
    of the source pixel to its left. *)
Lemma nearest_window_beyond_2_23 :
  prepare NEAREST long_L long_L = Some nearest_geometry /\
  to_int (column_xmin nearest_geometry 8388608) = Some 8388607 /\
  to_int (column_xmax nearest_geometry long_L 8388608) = Some 8388608 /\
  column_value (fun yy _ x => F32.of_int (if x =? 8388607 then 200 else 100))
    (fun ss ww => clip8 (bias8 ss ww)) NEAREST nearest_geometry long_L 8388608 0 0
  = Some 200.
Proof. repeat split; vm_compute; reflexivity. Qed.

(** C1, amended.  For a source at most 2^23 pixels wide and a destination
    of the same mode, height and width, with both scratch allocations
    granted, [ImagingStretchHorizaontal] with the nearest filter returns
    the destination, and in it: every 8-bit pixel equals the source pixel;
    every INT32 pixel equals the source pixel when the source values have
    magnitude at most 2^24 (so that they are floats); every FLOAT32 pixel
    equals the source pixel, a negative zero coming out as positive
    zero. *)
Theorem C1_nearest_same_width_identity :
  forall sin malloc imOut imIn,
    mode imIn = mode imOut ->
    ysize imOut = ysize imIn ->
    xsize imOut = xsize imIn ->
    1 <= xsize imIn <= 2 ^ 23 ->
    (forall n, malloc n <> None) ->
    (forall src,
        image8 imIn = Some src -> image8 imOut <> None ->
        (forall xx yy, 0 <= xx < xsize imIn -> 0 <= yy < ysize imIn ->
           0 <= src yy xx <= 255) ->
        exists o,
          ImagingStretchHorizaontal sin malloc (Some imOut) (Some imIn)
            IMAGING_TRANSFORM_NEAREST = Ok (Some o) /\
          forall xx yy, 0 <= xx < xsize imIn -> 0 <= yy < ysize imIn ->
            cell8 o yy xx = Some (src yy xx)) /\
    (image8 imIn = None -> type imIn = IMAGING_TYPE_INT32 ->
     (forall xx yy, 0 <= xx < xsize imIn -> 0 <= yy < ysize imIn ->
        Z.abs (image32 imIn yy xx) <= 2 ^ 24) ->
     exists o,
       ImagingStretchHorizaontal sin malloc (Some imOut) (Some imIn)
         IMAGING_TRANSFORM_NEAREST = Ok (Some o) /\
       forall xx yy, 0 <= xx < xsize imIn -> 0 <= yy < ysize imIn ->
         image32 o yy xx = image32 imIn yy xx) /\
    (image8 imIn = None -> type imIn = IMAGING_TYPE_FLOAT32 ->
     (forall xx yy, 0 <= xx < xsize imIn -> 0 <= yy < ysize imIn ->
        valid_binary 24 128 (image32f imIn yy xx) = true) ->
     exists o,
       ImagingStretchHorizaontal sin malloc (Some imOut) (Some imIn)
         IMAGING_TRANSFORM_NEAREST = Ok (Some o) /\
       forall xx yy, 0 <= xx < xsize imIn -> 0 <= yy < ysize imIn ->
         image32f o yy xx = positive_zero (image32f imIn yy xx)).
Proof.
  intros sin malloc imOut imIn Hmode Hys Hxs HL Hmalloc.
  assert (Hprep : prepare NEAREST imOut imIn = Some nearest_geometry)
    by (apply prepare_nearest; [exact Hxs|lia]).
  assert (Hwin : forall xx, 0 <= xx < xsize imOut -> window_ok nearest_geometry imIn xx = true)
    by (intros xx Hxx; apply window_nearest; lia).
  assert (Hsize : in_int (xsize imOut * kmax nearest_geometry) = true)
    by (apply in_int_small; cbn [kmax nearest_geometry]; lia).
  assert (Hthree : in_int (xsize imOut * 3) = true) by (apply in_int_small; lia).
  split; [|split].
  - intros src H8 Hdst Hrange.
    destruct (stretch_stores_values cell8 (fun s => image8 s <> None) [0] (fun xx _ => xx)
                (fun yy _ x => F32.of_int (src yy x)) (fun ss ww => clip8 (bias8 ss ww))
                sin malloc IMAGING_TRANSFORM_NEAREST NEAREST nearest_geometry imOut imIn
                (fun x _ x' _ _ _ Heq => Heq) (format_image8 imIn src H8)
                (defined_image8 imIn src H8) Hmode Hys eq_refl Hprep ltac:(cbn; lia)
                Hsize Hthree Hmalloc Hdst Hwin) as (o & Hcall & Hvals).
    + intros xx yy b Hxx Hyy _. rewrite column_value_nearest by lia.
      fold (nearest_pixel8 (src yy xx)).
      rewrite nearest_pixel8_identity by (apply Hrange; lia). discriminate.
    + exists o. split; [exact Hcall|].
      intros xx yy Hxx Hyy.
      rewrite (Hvals xx yy 0) by (try lia; left; reflexivity).
      rewrite column_value_nearest by lia.
      fold (nearest_pixel8 (src yy xx)).
      apply nearest_pixel8_identity. apply Hrange; lia.
  - intros H8 Hty Hrange.
    destruct (stretch_stores_values cell32 (fun _ => True) [0] (fun xx _ => xx)
                (fun yy _ x => F32.of_int (image32 imIn yy x)) scale_int
                sin malloc IMAGING_TRANSFORM_NEAREST NEAREST nearest_geometry imOut imIn
                (fun x _ x' _ _ _ Heq => Heq) (format_image32 imIn H8 Hty)
                (defined_image32 imIn H8 Hty) Hmode Hys eq_refl Hprep ltac:(cbn; lia)
                Hsize Hthree Hmalloc I Hwin) as (o & Hcall & Hvals).
    + intros xx yy b Hxx Hyy _. rewrite column_value_nearest by lia.
      rewrite nearest_pixel32_identity by (apply Hrange; lia). discriminate.
    + exists o. split; [exact Hcall|].
      intros xx yy Hxx Hyy.
      specialize (Hvals xx yy 0 ltac:(lia) ltac:(lia) (or_introl eq_refl)).
      rewrite column_value_nearest in Hvals by lia.
      rewrite nearest_pixel32_identity in Hvals by (apply Hrange; lia).
      unfold cell32 in Hvals. congruence.
  - intros H8 Hty Hrange.
    destruct (stretch_stores_values cell32f (fun _ => True) [0] (fun xx _ => xx)
                (fun yy _ x => image32f imIn yy x) (fun ss ww => Some (F32.mul ss ww))
                sin malloc IMAGING_TRANSFORM_NEAREST NEAREST nearest_geometry imOut imIn
                (fun x _ x' _ _ _ Heq => Heq) (format_image32f imIn H8 Hty)
                (defined_image32f imIn H8 Hty) Hmode Hys eq_refl Hprep ltac:(cbn; lia)
                Hsize Hthree Hmalloc I Hwin) as (o & Hcall & Hvals).
    + intros xx yy b Hxx Hyy _. rewrite column_value_nearest by lia. discriminate.
    + exists o. split; [exact Hcall|].
      intros xx yy Hxx Hyy.
      specialize (Hvals xx yy 0 ltac:(lia) ltac:(lia) (or_introl eq_refl)).
      rewrite column_value_nearest in Hvals by lia.
      rewrite nearest_pixel32f_identity in Hvals by (apply Hrange; lia).
      unfold cell32f in Hvals. congruence.
Qed.

Lemma C1_nearest_identity_witness :
  exists o,
    ImagingStretchHorizaontal sin_stub malloc_zeroed (Some blank8) (Some ramp8)
      IMAGING_TRANSFORM_NEAREST = Ok (Some o) /\
    forall xx yy, 0 <= xx < xsize ramp8 -> 0 <= yy < ysize ramp8 ->
      cell8 o yy xx
      = Some (plane_of_rows 0 [[10; 20; 30; 40; 50; 60; 70; 80]] yy xx).
Proof.
  refine (proj1 (C1_nearest_same_width_identity sin_stub malloc_zeroed blank8 ramp8
                   eq_refl eq_refl eq_refl _ _) _ eq_refl _ _).
  - change (xsize ramp8) with 8. lia.
  - intros n. discriminate.
  - discriminate.
  - intros xx yy Hxx Hyy.
    change (xsize ramp8) with 8 in Hxx. change (ysize ramp8) with 1 in Hyy.
    assert (yy = 0) as -> by lia.
    assert (Hc : xx = 0 \/ xx = 1 \/ xx = 2 \/ xx = 3 \/ xx = 4 \/ xx = 5 \/ xx = 6 \/ xx = 7)
      by lia.
    destruct Hc as [-> | [-> | [-> | [-> | [-> | [-> | [-> | -> ]]]]]]];
      vm_compute; split; discriminate.
Defined.


(** ** The saturation of 8-bit results keeps the cast defined *)

Lemma valid_finite_bounds s m e :
  valid_binary 24 128 (S754_finite s m e) = true ->
  0 < Zdigits2 (Zpos m) <= 24 /\ -149 <= e <= 104.
Proof.
  cbn [valid_binary]. unfold bounded, canonical_mantissa, SpecFloat.fexp, SpecFloat.emin.
  intros H. apply andb_prop in H. destruct H as [Hc He].
  apply Z.eqb_eq in Hc. apply Z.leb_le in He.
  pose proof (Zdigits2_pos (Zpos m) ltac:(lia)). cbn [Zdigits2] in *. lia.
Qed.

(** A valid float as a double. *)
Lemma of_float_finite s m e :
  valid_binary 24 128 (S754_finite s m e) = true ->
  F64.of_float (S754_finite s m e)
  = S754_finite s (Z.to_pos (Zpos m * 2 ^ (53 - Zdigits2 (Zpos m))))
      (e + Zdigits2 (Zpos m) - 53).
Proof.
  intros Hv. destruct (valid_finite_bounds s m e Hv) as [Hd He].
  unfold F64.of_float, F64.prec, F64.emax. cbn [SFldexp]. rewrite Z.add_0_r.
  assert (Hr : forall z, Z.abs z = Zpos m -> representable 53 1024 z e).
  { intros z Hz. unfold representable, SpecFloat.emin.
    rewrite <- (Zdigits2_abs z), Hz. repeat split; lia. }
  destruct s.
  - change (binary_round 53 1024 true m e) with (binary_normalize 53 1024 (Zneg m) e false).
    rewrite (normalize_exact 53 1024 (Zneg m) e false (Hr (Zneg m) eq_refl)). reflexivity.
  - change (binary_round 53 1024 false m e) with (binary_normalize 53 1024 (Zpos m) e false).
    rewrite (normalize_exact 53 1024 (Zpos m) e false (Hr (Zpos m) eq_refl)). reflexivity.
Qed.

(** For every float but NaN, the tests of lines 202-205 leave to the cast
    [(UINT8) ss] only values it is defined on. *)
Lemma clip8_defined s :
  valid_binary 24 128 s = true -> s <> S754_nan -> exists v, clip8 s = Some v.
Proof.
  intros Hv Hnan. unfold clip8.
  destruct (F64.ltb (F64.of_float s) F64.half) eqn:Hlt; [eexists; reflexivity|].
  destruct (F64.leb (F64.of_int 255) (F64.of_float s)) eqn:Hle; [eexists; reflexivity|].
  destruct s as [sg|sg| |sg m e]; [| |congruence|].
  - destruct sg; vm_compute in Hlt; discriminate.
  - destruct sg; [vm_compute in Hlt|vm_compute in Hle]; discriminate.
  - destruct (valid_finite_bounds sg m e Hv) as [Hd He].
    rewrite (of_float_finite sg m e Hv) in Hlt, Hle.
    set (d := Zdigits2 (Zpos m)) in *.
    assert (H2 : 0 < 2 ^ (53 - d)) by (apply Z.pow_pos_nonneg; lia).
    set (P := Z.to_pos (Zpos m * 2 ^ (53 - d))) in *.
    assert (HP : Zpos P = Zpos m * 2 ^ (53 - d)) by (apply Z2Pos.id; nia).
    pose proof (Zdigits2_bounds (Zpos m) ltac:(lia)) as Hm. fold d in Hm.
    destruct sg; [vm_compute in Hlt; discriminate|].
    change (F64.of_int 255) with (S754_finite false 8972014882652160 (-45)) in Hle.
    unfold F64.leb, SFleb in Hle. cbn [SFcompare] in Hle.
    unfold to_uint8. cbn [Ztrunc cond_Zopp].
    assert (Hbound : Zpos m * 2 ^ (53 - d) < 255 * 2 ^ (53 - d - e) /\ e + d - 53 <= -45).
    { destruct (Z.compare_spec (-45) (e + d - 53)) as [Heq|Hlt'|Hgt]; try discriminate.
      - replace (53 - d - e) with 45 by lia. split; [|lia].
        destruct (Pos.compare_cont Eq 8972014882652160 P) eqn:Hc; try discriminate.
        apply Pos.compare_gt_iff in Hc. apply Pos2Z.pos_lt_pos in Hc.
        rewrite HP in Hc.
        change (Zpos 8972014882652160) with (255 * 2 ^ 45) in Hc. exact Hc.
      - split; [|lia].
        assert (Hlt53 : Zpos m * 2 ^ (53 - d) < 2 ^ 53).
        { replace 53 with (d + (53 - d)) at 2 by lia. rewrite Z.pow_add_r by lia. nia. }
        assert (Hge : 2 ^ 46 <= 2 ^ (53 - d - e)) by (apply Z.pow_le_mono_r; lia).
        change (2 ^ 53) with (128 * 2 ^ 46) in Hlt53. nia. }
    destruct Hbound as [Hb He'].
    assert (Hval : 0 <= (if 0 <=? e then Zpos m * 2 ^ e else Zpos m / 2 ^ (- e)) < 255).
    { destruct (Z.leb_spec 0 e) as [He0|He0].
      - assert (H2e : 0 < 2 ^ e) by (apply Z.pow_pos_nonneg; lia).
        split; [nia|].
        assert (H2k : 0 < 2 ^ (53 - d - e)) by (apply Z.pow_pos_nonneg; lia).
        assert (Hsplit : 2 ^ (53 - d) = 2 ^ e * 2 ^ (53 - d - e)).
        { rewrite <- Z.pow_add_r by lia. f_equal; lia. }
        rewrite Hsplit in Hb. nia.
      - assert (H2e : 0 < 2 ^ (- e)) by (apply Z.pow_pos_nonneg; lia).
        split; [apply Z.div_pos; lia|].
        apply Z.div_lt_upper_bound; [lia|].
        assert (Hsplit : 2 ^ (53 - d - e) = 2 ^ (53 - d) * 2 ^ (- e)).
        { rewrite <- Z.pow_add_r by lia. f_equal; lia. }
        rewrite Hsplit in Hb. nia. }
    destruct (Z.leb_spec 0 (if 0 <=? e then Zpos m * 2 ^ e else Zpos m / 2 ^ (- e))); [|lia].
    destruct (Z.leb_spec (if 0 <=? e then Zpos m * 2 ^ e else Zpos m / 2 ^ (- e)) 255); [|lia].
    eexists. reflexivity.
Qed.


(** * Further properties of the file *)

Lemma column_writer_no_error {V : Type} (get : Imaging -> Z -> Z -> option V)
    lanes key px finish imIn :
  column_writer get lanes key px finish imIn ->
  forall kk base lo hi ww xx s e s',
    reduce_column imIn kk base lo hi ww xx s <> Err e s'.
Proof.
  intros Hfmt kk base lo hi ww xx s e s' Herr.
  destruct (Hfmt kk base lo hi ww xx s) as (body & Hred & Hrow).
  rewrite Hred in Herr.
  assert (Hfin : final_state (for_loop 0 (ysize s) body s) = Some s')
    by (rewrite Herr; reflexivity).
  destruct (column_written get lanes key _ xx body Hrow _ _ _ Hfin) as (Hok & _).
  congruence.
Qed.

Lemma reduce_column_error imIn kk base lo hi ww xx s e s' :
  reduce_column imIn kk base lo hi ww xx s = Err e s' ->
  s' = s /\ e = ModeError /\ image8 imIn = None /\ type imIn = IMAGING_TYPE_SPECIAL.
Proof.
  intros Herr.
  destruct (image8 imIn) as [src|] eqn:H8.
  - elim (column_writer_no_error _ _ _ _ _ _ (format_image8 imIn src H8) _ _ _ _ _ _ _ _ _ Herr).
  - destruct (type imIn) eqn:Hty.
    + elim (column_writer_no_error _ _ _ _ _ _ (format_image imIn H8 Hty) _ _ _ _ _ _ _ _ _ Herr).
    + elim (column_writer_no_error _ _ _ _ _ _ (format_image32 imIn H8 Hty) _ _ _ _ _ _ _ _ _ Herr).
    + elim (column_writer_no_error _ _ _ _ _ _ (format_image32f imIn H8 Hty) _ _ _ _ _ _ _ _ _ Herr).
    + unfold reduce_column in Herr. rewrite H8, Hty in Herr.
      inversion Herr; subst. auto.
Qed.

Lemma for_each_error_state {S : Type} (I : S -> Prop) (P : error -> S -> Prop)
    (body : Z -> S -> outcome S) xs :
  (forall x s s', I s -> body x s = Ok s' -> I s') ->
  (forall x s e s', I s -> body x s = Err e s' -> P e s') ->
  forall s e s', I s -> for_each body xs s = Err e s' -> P e s'.
Proof.
  intros Hok Herr. induction xs as [|x xs IH]; intros s e s' Hs Hrun; cbn [for_each] in Hrun.
  - discriminate.
  - destruct (body x s) as [s1|e1 s1|] eqn:Hx; try discriminate.
    + apply (IH s1); [apply (Hok x s); assumption|exact Hrun].
    + inversion Hrun; subst. apply (Herr x s); assumption.
Qed.

Lemma stretch_loop_error filterp g imIn size base xs imOut kk e o kk' :
  for_each (stretch_column filterp g imIn size base) xs (imOut, kk) = Err e (o, kk') ->
  o = imOut /\ e = ModeError /\ image8 imIn = None /\ type imIn = IMAGING_TYPE_SPECIAL.
Proof.
  intros Hrun.
  apply (for_each_error_state
           (fun st => image8 imIn = None /\ type imIn = IMAGING_TYPE_SPECIAL -> fst st = imOut)
           (fun e st => fst st = imOut /\ e = ModeError /\
                        image8 imIn = None /\ type imIn = IMAGING_TYPE_SPECIAL)
           (stretch_column filterp g imIn size base) xs) with (s := (imOut, kk)) (s' := (o, kk'))
    (e := e); auto.
  - intros x [s k] [s' k'] _. unfold stretch_column. cbn [fst snd].
    destruct (column_coefficients _ _ _ _ _ _ _) as [[[[lo hi] k1] ww]|]; [|discriminate].
    destruct (reduce_column imIn k1 base lo hi ww x s) as [s1|e1 s1|] eqn:Hred; try discriminate.
    intros _ [H8 Hty]. unfold reduce_column in Hred. rewrite H8, Hty in Hred. discriminate.
  - intros x [s k] e1 [s' k'] Hs. unfold stretch_column. cbn [fst snd] in *.
    destruct (column_coefficients _ _ _ _ _ _ _) as [[[[lo hi] k1] ww]|]; [|discriminate].
    destruct (reduce_column imIn k1 base lo hi ww x s) as [s1|e2 s1|] eqn:Hred; try discriminate.
    intros Heq. inversion Heq; subst.
    destruct (reduce_column_error _ _ _ _ _ _ _ _ _ _ Hred) as (-> & -> & H8 & Hty).
    auto.
Qed.

Lemma stretch_passes_error malloc filterp imOut imIn e r :
  stretch_passes malloc filterp imOut imIn = Err e r ->
  r = imOut /\
  ((e = MemoryError /\ exists n, malloc n = None) \/
   (e = ModeError /\ image8 imIn = None /\ type imIn = IMAGING_TYPE_SPECIAL)).
Proof.
  unfold stretch_passes.
  destruct (prepare filterp imOut imIn) as [g|]; [|discriminate].
  destruct (in_int (xsize imOut * kmax g)); cbn [negb]; [|discriminate].
  destruct (malloc (xsize imOut * kmax g * 4)) as [kk|] eqn:Hkk.
  2:{ intros Hr; inversion Hr; subst. split; [reflexivity|]. left. split; [reflexivity|].
      eexists; exact Hkk. }
  destruct (in_int (xsize imOut * 3)); cbn [negb]; [|discriminate].
  destruct (malloc (xsize imOut * 3 * 4)) as [xb|] eqn:Hxb.
  2:{ intros Hr; inversion Hr; subst. split; [reflexivity|]. left. split; [reflexivity|].
      eexists; exact Hxb. }
  destruct (for_loop 0 (xsize imOut) (plan_column filterp g imOut imIn) (kk, xb))
    as [[kk1 xb1]|e1 st|] eqn:Hplan;
    [|elim (plan_loop_no_error _ _ _ _ _ _ _ _ Hplan)|discriminate].
  destruct (for_loop 0 (xsize imOut) _ (imOut, kk1)) as [[o k]|e1 [o k]|] eqn:Hloop;
    try discriminate.
  intros Hr; inversion Hr; subst.
  destruct (stretch_loop_error _ _ _ _ _ _ _ _ _ _ _ Hloop) as (-> & -> & H8 & Hty).
  split; [reflexivity|]. right. auto.
Qed.

(** X1.  Every error of [ImagingStretchHorizaontal] has one of four
    causes.  A mode error means that an image is NULL, that the modes
    differ, or that the source has no 8-bit plane and a type other than
    UINT8, INT32 and FLOAT32.  A value error carries one of the two
    messages of the file: "requires equal heights" when the heights
    differ, "unsupported resampling filter" when they are equal and the
    filter tag is none of the four.  A memory error means that [malloc]
    returned NULL.  No other error is reported. *)
Theorem stretch_horizontal_error_causes :
  forall sin malloc imOut imIn filter e r,
    ImagingStretchHorizaontal sin malloc imOut imIn filter = Err e r ->
    match e with
    | ModeError =>
        imOut = None \/ imIn = None \/
        exists o i, imOut = Some o /\ imIn = Some i /\
          (mode i <> mode o \/ (image8 i = None /\ type i = IMAGING_TYPE_SPECIAL))
    | ValueError msg =>
        exists o i, imOut = Some o /\ imIn = Some i /\ mode i = mode o /\
          ((msg = "ImagingStretchHorizaontal requires equal heights"%string /\
            ysize o <> ysize i) \/
           (msg = "unsupported resampling filter"%string /\
            ysize o = ysize i /\ select_filter sin filter = None))
    | MemoryError => exists n, malloc n = None
    | CalleeError => False
    end.
Proof.
  intros sin malloc imOut imIn flt e r.
  unfold ImagingStretchHorizaontal.
  destruct imOut as [o|]; [|intros Hr; inversion Hr; subst; left; reflexivity].
  destruct imIn as [i|]; [|intros Hr; inversion Hr; subst; right; left; reflexivity].
  destruct (String.eqb_spec (mode i) (mode o)) as [Hmode|Hmode]; cbn [negb].
  2:{ intros Hr; inversion Hr; subst. right; right. exists o, i. auto. }
  destruct (Z.eqb_spec (ysize o) (ysize i)) as [Hys|Hys]; cbn [negb].
  2:{ intros Hr; inversion Hr; subst. exists o, i.
      split; [reflexivity|]. split; [reflexivity|]. split; [exact Hmode|].
      left. split; [reflexivity|exact Hys]. }
  destruct (select_filter sin flt) as [filterp|] eqn:Hsel.
  2:{ intros Hr; inversion Hr; subst. exists o, i.
      split; [reflexivity|]. split; [reflexivity|]. split; [exact Hmode|].
      right. split; [reflexivity|]. split; [exact Hys|reflexivity]. }
  destruct (stretch_passes malloc filterp o i) as [o'|e' o'|] eqn:Hpass; try discriminate.
  intros Hr; inversion Hr; subst.
  destruct (stretch_passes_error _ _ _ _ _ _ Hpass) as (_ & [[-> Hm]|(-> & H8 & Hty)]).
  - exact Hm.
  - right; right. exists o, i. auto.
Qed.

Lemma stretch_horizontal_error_causes_witness :
  exists o i,
    Some blank4 = Some o /\ Some (image_L 8 2 []) = Some i /\ mode i = mode o /\
    (("ImagingStretchHorizaontal requires equal heights"%string
      = "ImagingStretchHorizaontal requires equal heights"%string /\ ysize o <> ysize i) \/
     ("ImagingStretchHorizaontal requires equal heights"%string
      = "unsupported resampling filter"%string /\
      ysize o = ysize i /\ select_filter sin_stub IMAGING_TRANSFORM_OTHER = None)).
Proof.
  exact (stretch_horizontal_error_causes sin_stub malloc_zeroed (Some blank4)
           (Some (image_L 8 2 [])) IMAGING_TRANSFORM_OTHER
           (ValueError "ImagingStretchHorizaontal requires equal heights") (Some blank4)
           eq_refl).
Defined.

(** X2.  Whenever [ImagingStretchHorizaontal] fails, whatever the error,
    the destination is exactly what it was before the call: no pixel has
    been written. *)
Theorem stretch_horizontal_failure_is_atomic :
  forall sin malloc imOut imIn filter e r,
    ImagingStretchHorizaontal sin malloc imOut imIn filter = Err e r -> r = imOut.
Proof.
  intros sin malloc imOut imIn flt e r.
  unfold ImagingStretchHorizaontal.
  destruct imOut as [o|]; [|intros Hr; inversion Hr; reflexivity].
  destruct imIn as [i|]; [|intros Hr; inversion Hr; reflexivity].
  destruct (negb (String.eqb (mode i) (mode o))); [intros Hr; inversion Hr; reflexivity|].
  destruct (negb (ysize o =? ysize i)); [intros Hr; inversion Hr; reflexivity|].
  destruct (select_filter sin flt) as [filterp|]; [|intros Hr; inversion Hr; reflexivity].
  destruct (stretch_passes malloc filterp o i) as [o'|e' o'|] eqn:Hpass; try discriminate.
  intros Hr; inversion Hr; subst.
  destruct (stretch_passes_error _ _ _ _ _ _ Hpass) as (-> & _). reflexivity.
Qed.

Lemma stretch_horizontal_failure_is_atomic_witness :
  Some blank4 = Some blank4.
Proof.
  exact (stretch_horizontal_failure_is_atomic sin_stub malloc_failing (Some blank4)
           (Some ramp8) IMAGING_TRANSFORM_BILINEAR MemoryError (Some blank4) eq_refl).
Defined.

(** ** Header and frame *)

Lemma same_header_refl a : same_header a a.
Proof. unfold same_header. auto. Qed.

Lemma same_header_trans a b c : same_header a b -> same_header b c -> same_header a c.
Proof. unfold same_header. intuition congruence. Qed.

Lemma for_loop_header (body : Z -> Imaging -> outcome Imaging) lo hi :
  (forall x s r, final_state (body x s) = Some r -> same_header r s) ->
  forall s r, final_state (for_loop lo hi body s) = Some r -> same_header r s.
Proof.
  intros Hbody s r Hfin. unfold for_loop in Hfin.
  apply (for_each_preserves (fun t => same_header t s) body (Zrange lo hi)) with (s := s).
  - intros x t t' _ Ht Hr. apply same_header_trans with t; [|exact Ht].
    apply (Hbody x). exact Hr.
  - apply same_header_refl.
  - exact Hfin.
Qed.

Lemma reduce_column_header imIn kk base lo hi ww xx s r :
  final_state (reduce_column imIn kk base lo hi ww xx s) = Some r -> same_header r s.
Proof.
  unfold reduce_column.
  destruct (image8 imIn) as [src|].
  - apply for_loop_header. intros yy t t'. unfold pixel8.
    destruct (reads_in_bounds imIn lo hi); [|discriminate].
    destruct (clip8 _); [|discriminate].
    destruct (image8 t); [|discriminate].
    cbn. intros Hr; inversion Hr. unfold same_header. cbn. auto.
  - destruct (type imIn).
    + apply for_loop_header. intros yy t t'. rewrite band_loop_lanes.
      intros Hfin.
      apply (for_each_preserves (fun u => same_header u t)
               (pixel_band imIn kk base lo hi ww xx yy) (band_lanes (bands imIn))) with (s := t).
      * intros b u u' _ Hu Hr. apply same_header_trans with u; [|exact Hu].
        unfold pixel_band in Hr.
        destruct (reads_in_bounds imIn lo hi); [|discriminate].
        destruct (clip8 _); [|discriminate].
        cbn in Hr. inversion Hr. unfold same_header. cbn. auto.
      * apply same_header_refl.
      * exact Hfin.
    + apply for_loop_header. intros yy t t'. unfold pixel32.
      destruct (reads_in_bounds imIn lo hi); [|discriminate].
      destruct (scale_int _ _); [|discriminate].
      cbn. intros Hr; inversion Hr. unfold same_header. cbn. auto.
    + apply for_loop_header. intros yy t t'. unfold pixel32f.
      destruct (reads_in_bounds imIn lo hi); [|discriminate].
      cbn. intros Hr; inversion Hr. unfold same_header. cbn. auto.
    + cbn. intros Hr; inversion Hr. apply same_header_refl.
Qed.

Lemma stretch_loop_header filterp g imIn size base xs imOut kk0 r kk1 :
  final_state (for_each (stretch_column filterp g imIn size base) xs (imOut, kk0))
  = Some (r, kk1) ->
  same_header r imOut.
Proof.
  intros Hfin.
  apply (for_each_preserves (fun st => same_header (fst st) imOut)
           (stretch_column filterp g imIn size base) xs) with (s := (imOut, kk0)) (s' := (r, kk1)).
  - intros x [s k] [s' k'] _ Hs. unfold stretch_column. cbn [fst snd] in *.
    destruct (column_coefficients _ _ _ _ _ _ _) as [[[[lo hi] k1] ww]|]; [|discriminate].
    pose proof (reduce_column_header imIn k1 base lo hi ww x s) as Hh.
    destruct (reduce_column imIn k1 base lo hi ww x s) as [s1|e s1|]; try discriminate.
    + cbn. intros Hr; inversion Hr; subst.
      apply same_header_trans with s; [|exact Hs]. apply Hh. reflexivity.
    + cbn. intros Hr; inversion Hr; subst.
      apply same_header_trans with s; [|exact Hs]. apply Hh. reflexivity.
  - apply same_header_refl.
  - exact Hfin.
Qed.

Lemma lane_of_key x b x' b' :
  0 <= b < 4 -> 0 <= b' < 4 -> x * 4 + b = x' * 4 + b' -> x = x' /\ b = b'.
Proof. lia. Qed.

Lemma band_lanes_range nbands b : nbands <= 4 -> In b (band_lanes nbands) -> 0 <= b < 4.
Proof.
  intros Hnb. unfold band_lanes. destruct (Z.eqb_spec nbands 2).
  - intros [<-|[<-|[]]]; lia.
  - rewrite in_Zrange. lia.
Qed.

(** X3.  Whatever state [ImagingStretchHorizaontal] leaves the destination
    in, its mode, type, bands, width and height are unchanged, no pixel
    outside the rectangle of [ysize] rows and [xsize] columns has been
    written (in the 8-bit plane, the INT32 pixels, the FLOAT32 pixels or
    the four bytes of a packed pixel, whichever the source's format
    selects), and in a packed image of at most four bands the bytes of
    the lanes the band loop does not visit are unchanged everywhere. *)
Theorem stretch_horizontal_frame :
  forall sin malloc imOut imIn filter r,
    final_state (ImagingStretchHorizaontal sin malloc (Some imOut) (Some imIn) filter)
    = Some (Some r) ->
    same_header r imOut /\
    (forall y x, ~ (0 <= y < ysize imOut /\ 0 <= x < xsize imOut) ->
       (image8 imIn <> None -> cell8 r y x = cell8 imOut y x) /\
       (image8 imIn = None -> type imIn = IMAGING_TYPE_INT32 ->
        image32 r y x = image32 imOut y x) /\
       (image8 imIn = None -> type imIn = IMAGING_TYPE_FLOAT32 ->
        image32f r y x = image32f imOut y x) /\
       (image8 imIn = None -> type imIn = IMAGING_TYPE_UINT8 -> bands imIn <= 4 ->
        forall b, 0 <= b < 4 -> image r y (x * 4 + b) = image imOut y (x * 4 + b))) /\
    (image8 imIn = None -> type imIn = IMAGING_TYPE_UINT8 -> bands imIn <= 4 ->
     forall y x b, 0 <= b < 4 -> visited_lane (bands imIn) b = false ->
       image r y (x * 4 + b) = image imOut y (x * 4 + b)).
Proof.
  intros sin malloc imOut imIn flt r Hfin.
  destruct (stretch_final _ _ _ _ _ _ Hfin) as [->|(filterp & g & kk0 & kk1 & Hsel & Hg & Hloop)].
  { split; [apply same_header_refl|]. split; [|reflexivity].
    intros y x _. repeat split; reflexivity. }
  split; [apply (stretch_loop_header _ _ _ _ _ _ _ _ _ _ Hloop)|].
  split.
  - intros y x Hout. split; [|split; [|split]].
    + intros H8. destruct (image8 imIn) as [src|] eqn:Hsrc; [|congruence].
      destruct (stretch_loop_written cell8 [0] (fun xx _ => xx) _ _ filterp g imIn _ _
                  (fun x _ x' _ _ _ Heq => Heq) (format_image8 imIn src Hsrc) _ _ _ _ _ Hloop)
        as (_ & _ & _ & Hframe).
      apply Hframe. destruct (Z.le_gt_cases 0 y), (Z.lt_ge_cases y (ysize imOut));
        try (left; lia). right. intros xx b Hxx _. lia.
    + intros H8 Hty.
      destruct (stretch_loop_written cell32 [0] (fun xx _ => xx) _ _ filterp g imIn _ _
                  (fun x _ x' _ _ _ Heq => Heq) (format_image32 imIn H8 Hty) _ _ _ _ _ Hloop)
        as (_ & _ & _ & Hframe).
      assert (Hc : cell32 r y x = cell32 imOut y x).
      { apply Hframe. destruct (Z.le_gt_cases 0 y), (Z.lt_ge_cases y (ysize imOut));
          try (left; lia). right. intros xx b Hxx _. lia. }
      unfold cell32 in Hc. congruence.
    + intros H8 Hty.
      destruct (stretch_loop_written cell32f [0] (fun xx _ => xx) _ _ filterp g imIn _ _
                  (fun x _ x' _ _ _ Heq => Heq) (format_image32f imIn H8 Hty) _ _ _ _ _ Hloop)
        as (_ & _ & _ & Hframe).
      assert (Hc : cell32f r y x = cell32f imOut y x).
      { apply Hframe. destruct (Z.le_gt_cases 0 y), (Z.lt_ge_cases y (ysize imOut));
          try (left; lia). right. intros xx b Hxx _. lia. }
      unfold cell32f in Hc. congruence.
    + intros H8 Hty Hnb b Hb.
      destruct (stretch_loop_written cell (band_lanes (bands imIn)) (fun xx b => xx * 4 + b)
                  _ _ filterp g imIn _ _
                  (fun x b x' b' => band_lanes_key_inj (bands imIn) x b x' b' Hnb)
                  (format_image imIn H8 Hty) _ _ _ _ _ Hloop)
        as (_ & _ & _ & Hframe).
      assert (Hc : cell r y (x * 4 + b) = cell imOut y (x * 4 + b)).
      { apply Hframe. destruct (Z.le_gt_cases 0 y), (Z.lt_ge_cases y (ysize imOut));
          try (left; lia). right. intros xx b' Hxx Hb' Heq.
        apply (band_lanes_range _ _ Hnb) in Hb'.
        destruct (lane_of_key x b xx b' Hb Hb' Heq) as [-> _]. lia. }
      unfold cell in Hc. congruence.
  - intros H8 Hty Hnb y x b Hb Hlane.
    destruct (stretch_loop_written cell (band_lanes (bands imIn)) (fun xx b => xx * 4 + b)
                _ _ filterp g imIn _ _
                (fun x b x' b' => band_lanes_key_inj (bands imIn) x b x' b' Hnb)
                (format_image imIn H8 Hty) _ _ _ _ _ Hloop)
      as (_ & _ & _ & Hframe).
    assert (Hc : cell r y (x * 4 + b) = cell imOut y (x * 4 + b)).
    { apply Hframe. right. intros xx b' Hxx Hb' Heq.
      pose proof (band_lanes_range _ _ Hnb Hb') as Hr'.
      destruct (lane_of_key x b xx b' Hb Hr' Heq) as [_ ->].
      apply in_band_lanes in Hb'. congruence. }
    unfold cell in Hc. congruence.
Qed.

Lemma stretch_horizontal_frame_witness :
  same_header
    (returned_image
       (ImagingStretchHorizaontal sin_stub malloc_zeroed (Some blank_LA) (Some quad_LA)
          IMAGING_TRANSFORM_BILINEAR) blank_LA) blank_LA.
Proof.
  refine (proj1 (stretch_horizontal_frame sin_stub malloc_zeroed blank_LA quad_LA
                   IMAGING_TRANSFORM_BILINEAR _ _)).
  vm_compute. reflexivity.
Defined.

(** ** Empty rows *)

Lemma reduce_column_no_rows imIn kk base lo hi ww xx s r :
  ysize s <= 0 ->
  final_state (reduce_column imIn kk base lo hi ww xx s) = Some r -> r = s.
Proof.
  intros Hys. unfold reduce_column, for_loop.
  rewrite Zrange_nil by lia. cbn [for_each].
  destruct (image8 imIn); [cbn; congruence|].
  destruct (type imIn); cbn; congruence.
Qed.

(** X4.  With a destination of height 0 (or less) the loops over [yy] do
    not run: whatever state the call leaves, the destination is the one it
    was given. *)
Theorem stretch_horizontal_no_rows :
  forall sin malloc imOut imIn filter r,
    ysize imOut <= 0 ->
    final_state (ImagingStretchHorizaontal sin malloc (Some imOut) (Some imIn) filter)
    = Some (Some r) ->
    r = imOut.
Proof.
  intros sin malloc imOut imIn flt r Hys Hfin.
  destruct (stretch_final _ _ _ _ _ _ Hfin) as [->|(filterp & g & kk0 & kk1 & _ & _ & Hloop)];
    [reflexivity|].
  unfold for_loop in Hloop.
  change r with (fst (r, kk1)).
  apply (for_each_preserves (fun st => fst st = imOut)
           (stretch_column filterp g imIn (xsize imOut * kmax g) ((xsize imOut - 1) * kmax g))
           (Zrange 0 (xsize imOut))) with (s := (imOut, kk0)); [|reflexivity|exact Hloop].
  intros x [s k] [s' k'] _ Hs. unfold stretch_column. cbn [fst snd] in *. subst s.
  destruct (column_coefficients _ _ _ _ _ _ _) as [[[[lo hi] k1] ww]|]; [|discriminate].
  pose proof (reduce_column_no_rows imIn k1 ((xsize imOut - 1) * kmax g) lo hi ww x imOut) as Hn.
  destruct (reduce_column imIn k1 _ lo hi ww x imOut) as [s1|e s1|]; try discriminate;
    cbn; intros Hr; inversion Hr; subst; apply Hn; auto.
Qed.

Lemma stretch_horizontal_no_rows_witness :
  returned_image
    (ImagingStretchHorizaontal sin_stub malloc_zeroed (Some (image_L 2 0 []))
       (Some (image_L 4 0 [])) IMAGING_TRANSFORM_BICUBIC) blank4
  = image_L 2 0 [].
Proof.
  refine (stretch_horizontal_no_rows sin_stub malloc_zeroed (image_L 2 0 []) (image_L 4 0 [])
            IMAGING_TRANSFORM_BICUBIC _ _ _).
  - cbn. lia.
  - vm_compute. reflexivity.
Defined.

(** ** The scratch blocks *)

Lemma column_coefficients_scratch filterp g imIn size base xx kk1 kk2 :
  match column_coefficients filterp g imIn size base xx kk1,
        column_coefficients filterp g imIn size base xx kk2 with
  | Some (lo1, hi1, k1, ww1), Some (lo2, hi2, k2, ww2) =>
      lo1 = lo2 /\ hi1 = hi2 /\ ww1 = ww2 /\
      forall x, lo1 <= x < hi1 -> k1 (base + (x - lo1)) = k2 (base + (x - lo1))
  | None, None => True
  | _, _ => False
  end.
Proof.
  destruct (column_coefficients filterp g imIn size base xx kk1)
    as [[[[lo1 hi1] k1] ww1]|] eqn:H1;
  destruct (column_coefficients filterp g imIn size base xx kk2)
    as [[[[lo2 hi2] k2] ww2]|] eqn:H2.
  - destruct (column_coefficients_plan _ _ _ _ _ _ _ _ _ _ _ H1) as (Hp1 & _ & Hin1 & _).
    destruct (column_coefficients_plan _ _ _ _ _ _ _ _ _ _ _ H2) as (Hp2 & _ & Hin2 & _).
    rewrite Hp1 in Hp2. inversion Hp2; subst.
    repeat split; auto. intros x Hx. rewrite Hin1, Hin2 by exact Hx. reflexivity.
  - exfalso. unfold column_coefficients in *.
    destruct (to_int (column_xmin g xx)); [|discriminate].
    destruct (to_int (column_xmax g imIn xx)); [|discriminate].
    destruct (writes_in_bounds _ _ _ _); discriminate.
  - exfalso. unfold column_coefficients in *.
    destruct (to_int (column_xmin g xx)); [|discriminate].
    destruct (to_int (column_xmax g imIn xx)); [|discriminate].
    destruct (writes_in_bounds _ _ _ _); discriminate.
  - exact I.
Qed.

Lemma plan_loop_scratch filterp g imOut imIn xs st1 st2 :
  match for_each (plan_column filterp g imOut imIn) xs st1,
        for_each (plan_column filterp g imOut imIn) xs st2 with
  | Ok _, Ok _ => True
  | Undef, Undef => True
  | _, _ => False
  end.
Proof.
  revert st1 st2. induction xs as [|x xs IH]; intros st1 st2; cbn [for_each].
  - exact I.
  - assert (Hstep : match plan_column filterp g imOut imIn x st1,
                          plan_column filterp g imOut imIn x st2 with
                    | Ok _, Ok _ => True
                    | Undef, Undef => True
                    | _, _ => False
                    end).
    { unfold plan_column.
      pose proof (column_coefficients_scratch filterp g imIn (xsize imOut * kmax g)
                    (x * kmax g) x (fst st1) (fst st2)) as Hs.
      destruct (column_coefficients _ _ _ _ _ _ (fst st1)) as [[[[lo1 hi1] k1] ww1]|];
        destruct (column_coefficients _ _ _ _ _ _ (fst st2)) as [[[[lo2 hi2] k2] ww2]|];
        try contradiction; exact I. }
    destruct (plan_column filterp g imOut imIn x st1) as [s1|e1 s1|];
      destruct (plan_column filterp g imOut imIn x st2) as [s2|e2 s2|];
      try contradiction; [apply IH|exact I].
Qed.

Lemma stretch_loop_scratch filterp g imIn size base xs s k1 k2 :
  match for_each (stretch_column filterp g imIn size base) xs (s, k1),
        for_each (stretch_column filterp g imIn size base) xs (s, k2) with
  | Ok (o1, _), Ok (o2, _) => o1 = o2
  | Err e1 (o1, _), Err e2 (o2, _) => e1 = e2 /\ o1 = o2
  | Undef, Undef => True
  | _, _ => False
  end.
Proof.
  revert s k1 k2. induction xs as [|x xs IH]; intros s k1 k2; cbn [for_each].
  - reflexivity.
  - assert (Hstep : match stretch_column filterp g imIn size base x (s, k1),
                          stretch_column filterp g imIn size base x (s, k2) with
                    | Ok (o1, _), Ok (o2, _) => o1 = o2
                    | Err e1 (o1, _), Err e2 (o2, _) => e1 = e2 /\ o1 = o2
                    | Undef, Undef => True
                    | _, _ => False
                    end).
    { unfold stretch_column. cbn [fst snd].
      pose proof (column_coefficients_scratch filterp g imIn size base x k1 k2) as Hs.
      destruct (column_coefficients _ _ _ _ _ _ k1) as [[[[lo1 hi1] k1'] ww1]|];
        destruct (column_coefficients _ _ _ _ _ _ k2) as [[[[lo2 hi2] k2'] ww2]|];
        try contradiction; [|exact I].
      destruct Hs as (<- & <- & <- & Hk).
      rewrite (reduce_column_ext imIn k1' base k2' base lo1 hi1 ww1 x s Hk).
      destruct (reduce_column imIn k2' base lo1 hi1 ww1 x s) as [s1|e s1|]; auto. }
    destruct (stretch_column filterp g imIn size base x (s, k1)) as [[o1 c1]|e1 [o1 c1]|];
      destruct (stretch_column filterp g imIn size base x (s, k2)) as [[o2 c2]|e2 [o2 c2]|];
      try contradiction.
    + subst o2. apply IH.
    + exact Hstep.
    + exact I.
Qed.

(** X5.  The outcome does not depend on what the two blocks returned by
    [malloc] contain, only on whether they are NULL: every coefficient
    that is read was written before, and [xbounds] is never read. *)
Theorem stretch_horizontal_ignores_scratch_contents :
  forall sin malloc1 malloc2 imOut imIn filter,
    (forall n, malloc1 n = None <-> malloc2 n = None) ->
    ImagingStretchHorizaontal sin malloc1 imOut imIn filter
    = ImagingStretchHorizaontal sin malloc2 imOut imIn filter.
Proof.
  intros sin malloc1 malloc2 imOut imIn flt Hm.
  unfold ImagingStretchHorizaontal.
  destruct imOut as [o|]; [|reflexivity].
  destruct imIn as [i|]; [|reflexivity].
  destruct (negb (String.eqb (mode i) (mode o))); [reflexivity|].
  destruct (negb (ysize o =? ysize i)); [reflexivity|].
  destruct (select_filter sin flt) as [filterp|]; [|reflexivity].
  assert (Hpass : stretch_passes malloc1 filterp o i = stretch_passes malloc2 filterp o i);
    [|rewrite Hpass; reflexivity].
  unfold stretch_passes.
  destruct (prepare filterp o i) as [g|]; [|reflexivity].
  destruct (negb (in_int (xsize o * kmax g))); [reflexivity|].
  pose proof (Hm (xsize o * kmax g * 4)) as Hm1.
  destruct (malloc1 (xsize o * kmax g * 4)) as [ka|], (malloc2 (xsize o * kmax g * 4)) as [kb|];
    try reflexivity;
    try (exfalso; destruct Hm1 as [Ha Hb]; (discriminate (Ha eq_refl) || discriminate (Hb eq_refl))).
  destruct (negb (in_int (xsize o * 3))); [reflexivity|].
  pose proof (Hm (xsize o * 3 * 4)) as Hm2.
  destruct (malloc1 (xsize o * 3 * 4)) as [xa|], (malloc2 (xsize o * 3 * 4)) as [xb|];
    try reflexivity;
    try (exfalso; destruct Hm2 as [Ha Hb]; (discriminate (Ha eq_refl) || discriminate (Hb eq_refl))).
  unfold for_loop.
  pose proof (plan_loop_scratch filterp g o i (Zrange 0 (xsize o)) (ka, xa) (kb, xb)) as Hp.
  destruct (for_each (plan_column filterp g o i) (Zrange 0 (xsize o)) (ka, xa))
    as [[ka1 xa1]|e1 [ka1 xa1]|];
    destruct (for_each (plan_column filterp g o i) (Zrange 0 (xsize o)) (kb, xb))
    as [[kb1 xb1]|e2 [kb1 xb1]|]; try contradiction; [|reflexivity].
  pose proof (stretch_loop_scratch filterp g i (xsize o * kmax g) ((xsize o - 1) * kmax g)
                (Zrange 0 (xsize o)) o ka1 kb1) as Hl.
  destruct (for_each _ _ (o, ka1)) as [[o1 k1]|e1 [o1 k1]|];
    destruct (for_each _ _ (o, kb1)) as [[o2 k2]|e2 [o2 k2]|]; try contradiction.
  - subst. reflexivity.
  - destruct Hl as [-> ->]. reflexivity.
  - reflexivity.
Qed.

Lemma stretch_horizontal_ignores_scratch_contents_witness :
  ImagingStretchHorizaontal sin_stub malloc_zeroed (Some blank4) (Some ramp8)
    IMAGING_TRANSFORM_BILINEAR
  = ImagingStretchHorizaontal sin_stub malloc_garbage (Some blank4) (Some ramp8)
      IMAGING_TRANSFORM_BILINEAR.
Proof.
  apply stretch_horizontal_ignores_scratch_contents.
  intros n. split; discriminate.
Defined.

(** ** The two-pass resize *)

(** X12.  Whenever [ImagingStretch] returns, with the result or with NULL,
    every temporary image that [ImagingNew] created has been deleted, once,
    and no image was deleted that was not alive. *)
Theorem stretch_frees_its_temporaries :
  forall sin malloc ImagingNew ImagingTranspose imOut imIn filter,
    fst (ImagingStretch sin malloc ImagingNew ImagingTranspose imOut imIn filter) <> Undef ->
    live_temps ImagingNew
      (snd (ImagingStretch sin malloc ImagingNew ImagingTranspose imOut imIn filter)) 1 []
    = Some [].
Proof.
  intros sin malloc New Transpose imOut imIn flt.
  unfold ImagingStretch.
  destruct (String.eqb (mode imIn) "P" || String.eqb (mode imIn) "1"); [reflexivity|].
  destruct (New (mode imIn) (xsize imOut) (ysize imIn)) as [t1|] eqn:H1;
    [|cbn; rewrite H1; reflexivity].
  destruct (horizontal_pass sin malloc t1 imIn flt) as [[t1'|]|e o|];
    [| | |cbn; congruence]; try (cbn; rewrite H1; reflexivity).
  destruct (New (mode imIn) (ysize imIn) (xsize imOut)) as [t2|] eqn:H2;
    [|cbn; rewrite H1, H2; reflexivity].
  destruct (Transpose t2 t1') as [t2'|]; [|cbn; rewrite H1, H2; reflexivity].
  destruct (New (mode imIn) (ysize imOut) (xsize imOut)) as [t3|] eqn:H3;
    [|cbn; rewrite H1, H2, H3; reflexivity].
  destruct (horizontal_pass sin malloc t3 t2' flt) as [[t3'|]|e o|];
    [| | |cbn; congruence]; try (cbn; rewrite H1, H2, H3; reflexivity).
  destruct (Transpose imOut t3') as [o'|]; cbn; rewrite H1, H2, H3; reflexivity.
Qed.

Lemma stretch_frees_its_temporaries_witness :
  live_temps new_L
    (snd (ImagingStretch sin_stub malloc_zeroed new_L transpose_stub
            (image_L 2 2 [[0; 0]; [0; 0]])
            (image_L 4 4 [[1; 2; 3; 4]; [5; 6; 7; 8]; [9; 10; 11; 12]; [13; 14; 15; 16]])
            IMAGING_TRANSFORM_BILINEAR)) 1 []
  = Some [].
Proof.
  apply stretch_frees_its_temporaries. vm_compute. discriminate.
Defined.

Lemma new_L_contract : new_contract new_L.
Proof.
  intros m xs ys im H. unfold new_L in H. inversion H; subst. cbn. auto.
Qed.

Lemma transpose_stub_contract : transpose_contract transpose_stub.
Proof.
  intros o i r H. unfold transpose_stub in H. inversion H; subst. apply same_header_refl.
Qed.

Lemma horizontal_pass_error sin malloc o i filter e r :
  ImagingStretchHorizaontal sin malloc (Some o) (Some i) filter = Err e r ->
  mode i = mode o -> ysize o = ysize i ->
  match e with
  | ValueError msg =>
      msg = "unsupported resampling filter"%string /\ select_filter sin filter = None
  | MemoryError => exists n, malloc n = None
  | ModeError => image8 i = None /\ type i = IMAGING_TYPE_SPECIAL
  | CalleeError => False
  end.
Proof.
  intros Hcall Hmode Hys. unfold ImagingStretchHorizaontal in Hcall.
  rewrite Hmode, String.eqb_refl, Hys, Z.eqb_refl in Hcall. cbn [negb] in Hcall.
  destruct (select_filter sin filter) as [filterp|].
  - destruct (stretch_passes malloc filterp o i) as [o'|e' o'|] eqn:Hpass; try discriminate.
    inversion Hcall; subst.
    destruct (stretch_passes_error _ _ _ _ _ _ Hpass) as (_ & [[-> Hm]|(-> & H8 & Hty)]); auto.
  - inversion Hcall; subst. auto.
Qed.

(** X13.  [ImagingStretch] does not check the filter itself: for a source
    that is neither "P" nor "1" and a filter tag that is none of the four,
    when [ImagingNew] grants the first temporary with the mode and size it
    was asked for, [ImagingStretch] allocates that temporary, lets the
    first horizontal pass report "unsupported resampling filter", deletes
    the temporary and fails with that error, the destination unchanged. *)
Theorem stretch_reports_unsupported_filter_after_allocating :
  forall sin malloc ImagingNew ImagingTranspose imOut imIn imTemp1,
    mode imIn <> "P"%string -> mode imIn <> "1"%string ->
    new_contract ImagingNew ->
    ImagingNew (mode imIn) (xsize imOut) (ysize imIn) = Some imTemp1 ->
    ImagingStretch sin malloc ImagingNew ImagingTranspose imOut imIn IMAGING_TRANSFORM_OTHER
    = (Err (ValueError "unsupported resampling filter") imOut,
       [EvNew (mode imIn) (xsize imOut) (ysize imIn); EvStretch; EvDelete 1]).
Proof.
  intros sin malloc New Transpose imOut imIn t1 HP H1 Hnew Ht1.
  unfold ImagingStretch.
  destruct (String.eqb_spec (mode imIn) "P"); [contradiction|].
  destruct (String.eqb_spec (mode imIn) "1"); [contradiction|].
  cbn [orb]. rewrite Ht1.
  destruct (Hnew _ _ _ _ Ht1) as (Hm & _ & Hy).
  unfold horizontal_pass, ImagingStretchHorizaontal.
  rewrite Hm, String.eqb_refl, Hy, Z.eqb_refl. cbn. reflexivity.
Qed.

Lemma stretch_reports_unsupported_filter_witness :
  ImagingStretch sin_stub malloc_zeroed new_L transpose_stub
    (image_L 2 2 [[0; 0]; [0; 0]])
    (image_L 4 4 [[1; 2; 3; 4]; [5; 6; 7; 8]; [9; 10; 11; 12]; [13; 14; 15; 16]])
    IMAGING_TRANSFORM_OTHER
  = (Err (ValueError "unsupported resampling filter") (image_L 2 2 [[0; 0]; [0; 0]]),
     [EvNew "L" 2 4; EvStretch; EvDelete 1]).
Proof.
  refine (stretch_reports_unsupported_filter_after_allocating sin_stub malloc_zeroed new_L
            transpose_stub (image_L 2 2 [[0; 0]; [0; 0]])
            (image_L 4 4 [[1; 2; 3; 4]; [5; 6; 7; 8]; [9; 10; 11; 12]; [13; 14; 15; 16]])
            _ _ _ new_L_contract eq_refl); discriminate.
Defined.

(** X14.  If [ImagingNew] returns images of the mode and size it is asked
    for and [ImagingTranspose] returns its destination's shape, the two
    horizontal passes of [ImagingStretch] are called on images of equal
    mode and equal height: a value error of [ImagingStretch] is always
    "unsupported resampling filter", never "requires equal heights"; a
    memory error means that [malloc] returned NULL; and on every failure
    the destination is unchanged. *)
Theorem stretch_passes_get_matching_shapes :
  forall sin malloc ImagingNew ImagingTranspose imOut imIn filter e r t,
    new_contract ImagingNew ->
    transpose_contract ImagingTranspose ->
    ImagingStretch sin malloc ImagingNew ImagingTranspose imOut imIn filter = (Err e r, t) ->
    r = imOut /\
    match e with
    | ValueError msg =>
        msg = "unsupported resampling filter"%string /\ select_filter sin filter = None
    | MemoryError => exists n, malloc n = None
    | _ => True
    end.
Proof.
  intros sin malloc New Transpose imOut imIn flt e r t Hnew Htr.
  unfold ImagingStretch.
  destruct (String.eqb (mode imIn) "P" || String.eqb (mode imIn) "1").
  { intros Hr; inversion Hr; subst. auto. }
  destruct (New (mode imIn) (xsize imOut) (ysize imIn)) as [t1|] eqn:H1.
  2:{ intros Hr; inversion Hr; subst. auto. }
  destruct (Hnew _ _ _ _ H1) as (Hm1 & Hx1 & Hy1).
  unfold horizontal_pass.
  destruct (ImagingStretchHorizaontal sin malloc (Some t1) (Some imIn) flt)
    as [[t1'|]|e1 o1|] eqn:Hp1.
  4:{ discriminate. }
  3:{ intros Hr; inversion Hr; subst. split; [reflexivity|].
      pose proof (horizontal_pass_error _ _ _ _ _ _ _ Hp1 (eq_sym Hm1) Hy1) as Hc.
      destruct e; auto. }
  2:{ intros Hr; inversion Hr; subst. auto. }
  destruct (New (mode imIn) (ysize imIn) (xsize imOut)) as [t2|] eqn:H2.
  2:{ intros Hr; inversion Hr; subst. auto. }
  destruct (Hnew _ _ _ _ H2) as (Hm2 & Hx2 & Hy2).
  destruct (Transpose t2 t1') as [t2'|] eqn:HT.
  2:{ intros Hr; inversion Hr; subst. auto. }
  destruct (Htr _ _ _ HT) as (Hm2' & _ & _ & _ & Hy2').
  destruct (New (mode imIn) (ysize imOut) (xsize imOut)) as [t3|] eqn:H3.
  2:{ intros Hr; inversion Hr; subst. auto. }
  destruct (Hnew _ _ _ _ H3) as (Hm3 & Hx3 & Hy3).
  destruct (ImagingStretchHorizaontal sin malloc (Some t3) (Some t2') flt)
    as [[t3'|]|e2 o2|] eqn:Hp2.
  4:{ discriminate. }
  3:{ intros Hr; inversion Hr; subst. split; [reflexivity|].
      assert (Hmode : mode t2' = mode t3) by congruence.
      assert (Hys : ysize t3 = ysize t2') by congruence.
      pose proof (horizontal_pass_error _ _ _ _ _ _ _ Hp2 Hmode Hys) as Hc.
      destruct e; auto. }
  2:{ intros Hr; inversion Hr; subst. auto. }
  destruct (Transpose imOut t3'); intros Hr; inversion Hr; subst. auto.
Qed.

Lemma stretch_passes_get_matching_shapes_witness :
  image_L 2 2 [[0; 0]; [0; 0]] = image_L 2 2 [[0; 0]; [0; 0]] /\
  exists n, malloc_failing n = None.
Proof.
  exact (stretch_passes_get_matching_shapes sin_stub malloc_failing new_L transpose_stub
           (image_L 2 2 [[0; 0]; [0; 0]])
           (image_L 4 4 [[1; 2; 3; 4]; [5; 6; 7; 8]; [9; 10; 11; 12]; [13; 14; 15; 16]])
           IMAGING_TRANSFORM_BILINEAR MemoryError (image_L 2 2 [[0; 0]; [0; 0]])
           [EvNew "L" 2 4; EvStretch; EvDelete 1]
           new_L_contract transpose_stub_contract eq_refl).
Defined.

(** ** A destination without columns *)

(** The sign of a rounded number is the sign that was rounded. *)
Lemma binary_round_aux_sign prec emax s m e l :
  match binary_round_aux prec emax s m e l with
  | S754_zero s' | S754_infinity s' | S754_finite s' _ _ => s' = s
  | S754_nan => True
  end.
Proof.
  unfold binary_round_aux.
  destruct (shr_fexp prec emax m e l) as [mrs' e'].
  destruct (shr_fexp prec emax _ e' loc_Exact) as [mrs'' e''].
  destruct (shr_m mrs''); try exact I; try reflexivity.
  destruct (e'' <=? emax - prec); reflexivity.
Qed.

Lemma binary_round_sign prec emax s m e :
  match binary_round prec emax s m e with
  | S754_zero s' | S754_infinity s' | S754_finite s' _ _ => s' = s
  | S754_nan => True
  end.
Proof.
  unfold binary_round. destruct (shl_align m e _) as [mz ez].
  apply binary_round_aux_sign.
Qed.

Lemma div_by_zero_width n :
  0 <= n ->
  F32.div (F32.of_int n) (F32.of_int 0) = S754_infinity false \/
  F32.div (F32.of_int n) (F32.of_int 0) = S754_nan.
Proof.
  intros Hn. change (F32.of_int 0) with (S754_zero false).
  destruct n as [|p|p]; [right; reflexivity| |lia].
  unfold F32.of_int, F32.dyadic. cbn [binary_normalize].
  pose proof (binary_round_sign F32.prec F32.emax false p 0) as Hs.
  destruct (binary_round F32.prec F32.emax false p 0) as [s|s| |s m e]; subst;
    cbn; auto.
Qed.

Lemma prepare_zero_width filterp imOut imIn :
  xsize imOut = 0 -> 0 <= xsize imIn -> prepare filterp imOut imIn = None.
Proof.
  intros Hout Hin. unfold prepare. rewrite Hout.
  destruct (div_by_zero_width (xsize imIn) Hin) as [-> | ->].
  - change (F64.ltb (F64.of_float (S754_infinity false)) F64.one) with false. cbv iota.
    destruct (support filterp) as [s|s| |s m e]; try reflexivity; destruct s; reflexivity.
  - change (F64.ltb (F64.of_float S754_nan) F64.one) with false. cbv iota.
    destruct (support filterp) as [s|s| |s m e]; reflexivity.
Qed.

(** X6.  A destination of width 0 takes the call out of defined C: with
    matching modes and heights, a supported filter and a source of width 0
    or more, [(float) imIn->xsize / imOut->xsize] is an infinity or a NaN,
    so is [support], and [(int) ceil(support)] is undefined. *)
Theorem stretch_horizontal_zero_width_is_undefined :
  forall sin malloc imOut imIn filter,
    mode imIn = mode imOut ->
    ysize imOut = ysize imIn ->
    select_filter sin filter <> None ->
    xsize imOut = 0 ->
    0 <= xsize imIn ->
    ImagingStretchHorizaontal sin malloc (Some imOut) (Some imIn) filter = Undef.
Proof.
  intros sin malloc imOut imIn flt Hmode Hys Hflt Hout Hin.
  unfold ImagingStretchHorizaontal.
  rewrite Hmode, String.eqb_refl, Hys, Z.eqb_refl. cbn [negb].
  destruct (select_filter sin flt) as [filterp|]; [|congruence].
  unfold stretch_passes. rewrite prepare_zero_width by assumption. reflexivity.
Qed.

Lemma stretch_horizontal_zero_width_witness :
  ImagingStretchHorizaontal sin_stub malloc_zeroed (Some (image_L 0 1 [[]])) (Some ramp8)
    IMAGING_TRANSFORM_NEAREST = Undef.
Proof.
  apply stretch_horizontal_zero_width_is_undefined; try reflexivity.
  - discriminate.
  - cbn. lia.
Defined.

(** ** Rounding gives numbers of the format *)

Lemma shr_1_m r : 0 <= shr_m r -> shr_m (shr_1 r) = shr_m r / 2.
Proof.
  destruct r as [m b c]. cbn [shr_m]. intros Hm.
  destruct m as [|p|p]; [reflexivity| |lia].
  destruct p as [p|p|]; cbn [shr_1 shr_m].
  - apply (Z.div_unique (Zpos p~1) 2 (Zpos p) 1); lia.
  - apply (Z.div_unique (Zpos p~0) 2 (Zpos p) 0); lia.
  - reflexivity.
Qed.

Lemma shr_iter_m k r :
  0 <= shr_m r -> shr_m (Nat.iter k shr_1 r) = shr_m r / 2 ^ Z.of_nat k.
Proof.
  intros Hm. induction k as [|k IH].
  - cbn. rewrite Z.div_1_r. reflexivity.
  - rewrite Nat.iter_succ, shr_1_m.
    + rewrite IH, Nat2Z.inj_succ, Z.pow_succ_r by lia.
      rewrite Z.div_div by (try lia; apply Z.pow_pos_nonneg; lia).
      f_equal. lia.
    + rewrite IH. apply Z.div_pos; [exact Hm|apply Z.pow_pos_nonneg; lia].
Qed.

Lemma shr_m_record m l : shr_m (shr_record_of_loc m l) = m.
Proof. destruct l as [|[| |]]; reflexivity. Qed.

Lemma shr_spec r e k :
  0 <= shr_m r -> 0 <= k ->
  shr_m (fst (shr r e k)) = shr_m r / 2 ^ k /\ snd (shr r e k) = e + k.
Proof.
  intros Hm Hk. rewrite shr_nat by exact Hk. cbn [fst snd].
  rewrite shr_iter_m by exact Hm. rewrite Z2Nat.id by exact Hk. auto.
Qed.

Lemma Zdigits2_nonneg m : 0 <= Zdigits2 m.
Proof. destruct m; cbn; lia. Qed.

Lemma Zdigits2_mono a b : 0 <= a <= b -> Zdigits2 a <= Zdigits2 b.
Proof.
  intros Hab. destruct (Z.eq_dec a 0) as [->|Ha]; [apply Zdigits2_nonneg|].
  rewrite !Zdigits2_log2 by lia.
  pose proof (Z.log2_le_mono a b ltac:(lia)). lia.
Qed.

Lemma Zdigits2_div m k :
  0 < m -> 0 <= k -> 0 < m / 2 ^ k -> Zdigits2 (m / 2 ^ k) = Zdigits2 m - k.
Proof.
  intros Hm Hk Hq.
  rewrite !Zdigits2_log2 by lia.
  rewrite <- Z.shiftr_div_pow2 by exact Hk.
  rewrite Z.log2_shiftr by exact Hm.
  assert (H2 : 0 < 2 ^ k) by (apply Z.pow_pos_nonneg; lia).
  assert (Hge : 2 ^ k <= m).
  { destruct (Z.lt_ge_cases m (2 ^ k)) as [Hlt|Hge]; [|exact Hge].
    rewrite Z.div_small in Hq by lia. lia. }
  assert (k <= Z.log2 m) by (apply Z.log2_le_pow2; lia).
  lia.
Qed.

Lemma round_nearest_even_cases m l :
  round_nearest_even m l = m \/ round_nearest_even m l = m + 1.
Proof.
  destruct l as [|[| |]]; cbn [round_nearest_even]; auto.
  destruct (Z.even m); auto.
Qed.

Section Validity.
Variables prec emax : Z.
Hypothesis prec_pos : 0 < prec.

Local Notation "'fexp'" := (SpecFloat.fexp prec emax).
Local Notation "'emin'" := (SpecFloat.emin prec emax).

Lemma fexp_ge_emin x : emin <= fexp x.
Proof. unfold SpecFloat.fexp. lia. Qed.

Lemma fexp_mono x y : x <= y -> fexp x <= fexp y.
Proof. unfold SpecFloat.fexp. lia. Qed.

(** Rounding a mantissa that is not shorter than the format allows gives
    a zero, an infinity or a number in canonical form. *)
Lemma binary_round_aux_valid s mx ex lx :
  0 <= mx -> ex <= fexp (Zdigits2 mx + ex) ->
  valid_binary prec emax (binary_round_aux prec emax s mx ex lx) = true.
Proof.
  intros Hmx Hex. unfold binary_round_aux, shr_fexp.
  set (E0 := fexp (Zdigits2 mx + ex)) in *.
  destruct (shr_spec (shr_record_of_loc mx lx) ex (E0 - ex)) as [Hm1 He1];
    [rewrite shr_m_record; exact Hmx|lia|].
  destruct (shr (shr_record_of_loc mx lx) ex (E0 - ex)) as [mrs' e'].
  cbn [fst snd] in Hm1, He1. rewrite shr_m_record in Hm1.
  replace e' with E0 by lia. clear He1 e'.
  assert (H2 : 0 < 2 ^ (E0 - ex)) by (apply Z.pow_pos_nonneg; lia).
  set (m1 := shr_m mrs') in *.
  assert (Hm1pos : 0 <= m1) by (rewrite Hm1; apply Z.div_pos; lia).
  set (m2 := round_nearest_even m1 (loc_of_shr_record mrs')).
  assert (Hm2 : m1 <= m2 <= m1 + 1)
    by (destruct (round_nearest_even_cases m1 (loc_of_shr_record mrs')) as [H|H];
        fold m2 in H; lia).
  assert (HE : E0 <= fexp (Zdigits2 m1 + E0)).
  { destruct (Z.eq_dec m1 0) as [H0|H0].
    - assert (E0 = emin); [|pose proof (fexp_ge_emin (Zdigits2 m1 + E0)); lia].
      destruct (Z.eq_dec mx 0) as [->|Hne].
      + unfold E0, SpecFloat.fexp in *. cbn [Zdigits2] in *. lia.
      + assert (Hlt : mx < 2 ^ (E0 - ex)).
        { destruct (Z.lt_ge_cases mx (2 ^ (E0 - ex))) as [Hlt|Hge]; [exact Hlt|].
          assert (1 <= mx / 2 ^ (E0 - ex)) by (apply Z.div_le_lower_bound; lia). lia. }
        assert (Hd : Zdigits2 mx <= E0 - ex) by (apply Zdigits2_le; lia).
        unfold E0, SpecFloat.fexp in *. lia.
    - assert (Hmx0 : 0 < mx).
      { destruct (Z.eq_dec mx 0) as [Hz|Hz]; [|lia].
        rewrite Hz, Z.div_0_l in Hm1 by lia. lia. }
      assert (Hd : Zdigits2 m1 = Zdigits2 mx - (E0 - ex))
        by (rewrite Hm1; apply Zdigits2_div; lia).
      rewrite Hd. replace (Zdigits2 mx - (E0 - ex) + E0) with (Zdigits2 mx + ex) by lia.
      fold E0. lia. }
  assert (HE2 : E0 <= fexp (Zdigits2 m2 + E0)).
  { pose proof (Zdigits2_mono m1 m2 ltac:(lia)).
    pose proof (fexp_mono (Zdigits2 m1 + E0) (Zdigits2 m2 + E0) ltac:(lia)). lia. }
  set (E2 := fexp (Zdigits2 m2 + E0)) in *.
  destruct (shr_spec (shr_record_of_loc m2 loc_Exact) E0 (E2 - E0)) as [Hm3 He3];
    [cbn; lia|lia|].
  destruct (shr (shr_record_of_loc m2 loc_Exact) E0 (E2 - E0)) as [mrs'' e''].
  cbn [fst snd] in Hm3, He3. rewrite shr_m_record in Hm3.
  destruct (shr_m mrs'') as [|p|p] eqn:Hp; try reflexivity.
  destruct (Z.leb_spec e'' (emax - prec)) as [Hle|Hgt]; [|reflexivity].
  cbn [valid_binary]. unfold bounded, canonical_mantissa.
  apply andb_true_intro. split; [|apply Z.leb_le; exact Hle].
  apply Z.eqb_eq.
  change (Zpos (digits2_pos p)) with (Zdigits2 (Zpos p)).
  assert (Hm2pos : 0 < m2).
  { destruct (Z.eq_dec m2 0) as [Hz|Hz]; [|lia].
    rewrite Hz, Z.div_0_l in Hm3 by lia. lia. }
  rewrite Hm3, Zdigits2_div by lia.
  replace (Zdigits2 m2 - (E2 - E0) + e'') with (Zdigits2 m2 + E0) by lia.
  fold E2. lia.
Qed.

Lemma binary_round_valid s m e :
  valid_binary prec emax (binary_round prec emax s m e) = true.
Proof.
  rewrite BR_unfold.
  change (Zpos (digits2_pos m)) with (Zdigits2 (Zpos m)).
  set (E0 := fexp (Zdigits2 (Zpos m) + e)).
  apply binary_round_aux_valid.
  - assert (0 < 2 ^ Z.max 0 (e - E0)) by (apply Z.pow_pos_nonneg; lia). lia.
  - rewrite Zdigits2_shift by lia.
    replace (Zdigits2 (Zpos m) + Z.max 0 (e - E0) + Z.min e E0)
      with (Zdigits2 (Zpos m) + e) by lia.
    fold E0. lia.
Qed.

Lemma binary_normalize_valid z e sz :
  valid_binary prec emax (binary_normalize prec emax z e sz) = true.
Proof. destruct z; cbn [binary_normalize]; [reflexivity|apply binary_round_valid..]. Qed.

Lemma SFldexp_valid x e :
  valid_binary prec emax x = true ->
  valid_binary prec emax (SFldexp prec emax x e) = true.
Proof.
  intros Hx. destruct x; cbn [SFldexp]; try exact Hx. apply binary_round_valid.
Qed.

End Validity.

Lemma of_double_valid d : valid_binary 24 128 (F32.of_double d) = true.
Proof.
  unfold F32.of_double. destruct d; cbn [SFldexp]; try reflexivity.
  apply (binary_round_valid 24 128). reflexivity.
Qed.

Lemma of_int32_valid z : valid_binary 24 128 (F32.of_int z) = true.
Proof. apply (binary_normalize_valid 24 128). reflexivity. Qed.

(** ** The window stays inside the source row *)

Lemma Some_eq {A : Type} (a b : A) : Some a = Some b -> a = b.
Proof. congruence. Qed.

Lemma Ztrunc_nonneg x lo :
  valid_binary 24 128 x = true ->
  F64.ltb (F64.of_float x) F64.zero = false ->
  Ztrunc x = Some lo -> 0 <= lo.
Proof.
  intros Hv Hlt Htr. destruct x as [s|s| |s m e]; cbn [Ztrunc] in Htr; try discriminate.
  - apply Some_eq in Htr. lia.
  - apply Some_eq in Htr. subst lo.
    destruct s.
    + rewrite (of_float_finite true m e Hv) in Hlt. discriminate.
    + cbn [cond_Zopp]. destruct (Z.leb_spec 0 e).
      * apply Z.mul_nonneg_nonneg; [lia|apply Z.pow_nonneg; lia].
      * apply Z.div_pos; [lia|]. apply Z.pow_pos_nonneg; lia.
Qed.

Lemma Ztrunc_finite_le m e n :
  0 <= n -> Zpos m <= (if 0 <=? e then n else n * 2 ^ (- e)) -> (0 <= e -> e = 0) ->
  (if 0 <=? e then Zpos m * 2 ^ e else Zpos m / 2 ^ (- e)) <= n.
Proof.
  intros Hn Hm He. destruct (Z.leb_spec 0 e) as [H0|H0].
  - rewrite (He H0), Z.pow_0_r. lia.
  - assert (H2 : 0 < 2 ^ (- e)) by (apply Z.pow_pos_nonneg; lia).
    apply Z.div_le_upper_bound; [exact H2|]. lia.
Qed.

(** A number that is not above the width, truncated, is not above it. *)
Lemma ltb_false_Ztrunc_le n x hi :
  0 <= n <= 2 ^ 24 ->
  valid_binary 24 128 x = true ->
  F32.ltb (F32.of_int n) x = false ->
  Ztrunc x = Some hi -> hi <= n.
Proof.
  intros Hn Hv Hlt Htr.
  destruct x as [s|s| |s m e]; cbn [Ztrunc] in Htr; try discriminate.
  { apply Some_eq in Htr. lia. }
  apply Some_eq in Htr. subst hi.
  destruct (valid_finite_bounds s m e Hv) as [Hd He].
  pose proof (Zdigits2_bounds (Zpos m) ltac:(lia)) as Hm.
  assert (Hm24 : Zpos m < 2 ^ 24).
  { assert (2 ^ Zdigits2 (Zpos m) <= 2 ^ 24) by (apply Z.pow_le_mono_r; lia). lia. }
  destruct s.
  { cbn [cond_Zopp].
    assert (0 <= (if 0 <=? e then Zpos m * 2 ^ e else Zpos m / 2 ^ (- e))); [|lia].
    destruct (Z.leb_spec 0 e).
    - apply Z.mul_nonneg_nonneg; [lia|apply Z.pow_nonneg; lia].
    - apply Z.div_pos; [lia|]. apply Z.pow_pos_nonneg; lia. }
  cbn [cond_Zopp].
  destruct (Z.eq_dec n 0) as [->|Hn0]; [discriminate|].
  destruct (Z.eq_dec n (2 ^ 24)) as [->|Hn24].
  - change (F32.of_int (2 ^ 24)) with (S754_finite false 8388608 1) in Hlt.
    unfold F32.ltb, SFltb in Hlt. cbn [SFcompare] in Hlt.
    destruct (Z.compare_spec 1 e) as [Heq|Hlt1|Hgt]; try discriminate.
    + subst e. cbn [Z.leb Z.compare].
      destruct (Pos.compare_cont Eq 8388608 m) eqn:Hc; try discriminate.
      * apply Pos.compare_eq in Hc. subst m. vm_compute. discriminate.
      * apply Pos.compare_gt_iff in Hc. apply Pos2Z.pos_lt_pos in Hc.
        change (2 ^ 1) with 2. change (2 ^ 24) with 16777216. lia.
    + destruct (Z.leb_spec 0 e) as [H0|H0].
      * assert (e = 0) by lia. subst e. rewrite Z.pow_0_r. lia.
      * assert (H2 : 0 < 2 ^ (- e)) by (apply Z.pow_pos_nonneg; lia).
        apply Z.div_le_upper_bound; [exact H2|]. nia.
  - assert (Hr : representable 24 128 n 0)
      by (apply representable_small; try lia; vm_compute; discriminate).
    unfold F32.of_int, F32.dyadic, F32.prec, F32.emax in Hlt.
    rewrite (normalize_exact 24 128 n 0 false Hr) in Hlt.
    destruct Hr as (_ & Hdn & _).
    replace (n <? 0) with false in Hlt by (symmetry; apply Z.ltb_ge; lia).
    rewrite Z.abs_eq in Hlt by lia.
    pose proof (Zdigits2_bounds n ltac:(lia)) as Hbn.
    pose proof (Zdigits2_pos n ltac:(lia)) as Hdpos.
    set (dn := Zdigits2 n) in *.
    assert (H2 : 0 < 2 ^ (24 - dn)) by (apply Z.pow_pos_nonneg; lia).
    assert (HP : Zpos (Z.to_pos (n * 2 ^ (24 - dn))) = n * 2 ^ (24 - dn))
      by (apply Z2Pos.id; nia).
    unfold F32.ltb, SFltb in Hlt. cbn [SFcompare] in Hlt.
    destruct (Z.compare_spec (0 + dn - 24) e) as [Heq|Hlt1|Hgt]; try discriminate.
    + destruct (Pos.compare_cont Eq _ m) eqn:Hc; try discriminate.
      * apply Pos.compare_eq in Hc. apply (f_equal Zpos) in Hc. rewrite HP in Hc.
        apply Ztrunc_finite_le; [lia| |lia].
        destruct (Z.leb_spec 0 e).
        -- replace (24 - dn) with 0 in Hc by lia. rewrite Z.pow_0_r in Hc. lia.
        -- replace (- e) with (24 - dn) by lia. lia.
      * apply Pos.compare_gt_iff in Hc. apply Pos2Z.pos_lt_pos in Hc. rewrite HP in Hc.
        apply Ztrunc_finite_le; [lia| |lia].
        destruct (Z.leb_spec 0 e).
        -- replace (24 - dn) with 0 in Hc by lia. rewrite Z.pow_0_r in Hc. lia.
        -- replace (- e) with (24 - dn) by lia. lia.
    + destruct (Z.leb_spec 0 e) as [H0|H0]; [lia|].
      assert (H2e : 0 < 2 ^ (- e)) by (apply Z.pow_pos_nonneg; lia).
      apply Z.div_le_upper_bound; [exact H2e|].
      assert (Hsplit : 2 ^ (- e) = 2 ^ (25 - dn) * 2 ^ (- e - (25 - dn))).
      { rewrite <- Z.pow_add_r by lia. f_equal. lia. }
      assert (H2k : 0 < 2 ^ (- e - (25 - dn))) by (apply Z.pow_pos_nonneg; lia).
      assert (H24 : 2 ^ 24 = 2 ^ (25 - dn) * 2 ^ (dn - 1)).
      { rewrite <- Z.pow_add_r by lia. f_equal. lia. }
      assert (H25 : 0 < 2 ^ (25 - dn)) by (apply Z.pow_pos_nonneg; lia).
      rewrite Hsplit. nia.
Qed.

Lemma of_int_Ztrunc n : 0 <= n <= 2 ^ 24 -> Ztrunc (F32.of_int n) = Some n.
Proof.
  intros Hn.
  destruct (Z.eq_dec n 0) as [->|Hn0]; [reflexivity|].
  destruct (Z.eq_dec n (2 ^ 24)) as [->|Hn24]; [vm_compute; reflexivity|].
  apply Ztrunc_integer. apply representable_small; try lia; vm_compute; discriminate.
Qed.

Lemma to_int_Ztrunc x z : to_int x = Some z -> Ztrunc x = Some z.
Proof.
  unfold to_int. destruct (Ztrunc x) as [t|]; [|discriminate].
  destruct (in_int t); [congruence|discriminate].
Qed.

Lemma column_xmin_nonneg g xx lo : to_int (column_xmin g xx) = Some lo -> 0 <= lo.
Proof.
  unfold column_xmin. intros Hlo.
  destruct (F64.ltb (F64.of_float _) F64.zero) eqn:Hlt.
  - vm_compute in Hlo. inversion Hlo. lia.
  - apply to_int_Ztrunc in Hlo. revert Hlt Hlo. apply Ztrunc_nonneg. apply of_double_valid.
Qed.

Lemma column_xmax_le g imIn xx hi :
  0 <= xsize imIn <= 2 ^ 24 ->
  to_int (column_xmax g imIn xx) = Some hi -> hi <= xsize imIn.
Proof.
  unfold column_xmax. intros HL Hhi. apply to_int_Ztrunc in Hhi.
  destruct (F32.ltb (F32.of_int (xsize imIn)) _) eqn:Hlt.
  - rewrite of_int_Ztrunc in Hhi by exact HL. inversion Hhi. lia.
  - revert Hlt Hhi. apply ltb_false_Ztrunc_le; [exact HL|apply of_double_valid].
Qed.

(** X7.  For a source at most 2^24 pixels wide, whatever the filter, the
    scale and the output position: when the casts [(int) xmin] and
    [(int) xmax] are defined, the window they bound lies inside the source
    row, [0 <= (int) xmin] and [(int) xmax <= imIn->xsize], so the inner
    loops read no pixel outside it. *)
Theorem window_stays_inside_source_row :
  forall g imIn xx lo hi,
    0 <= xsize imIn <= 2 ^ 24 ->
    to_int (column_xmin g xx) = Some lo ->
    to_int (column_xmax g imIn xx) = Some hi ->
    0 <= lo /\ hi <= xsize imIn /\ reads_in_bounds imIn lo hi = true.
Proof.
  intros g imIn xx lo hi HL Hlo Hhi.
  pose proof (column_xmin_nonneg g xx lo Hlo) as H0.
  pose proof (column_xmax_le g imIn xx hi HL Hhi) as H1.
  split; [exact H0|]. split; [exact H1|].
  unfold reads_in_bounds. apply orb_true_intro. right.
  apply andb_true_intro. split; apply Z.leb_le; assumption.
Qed.

Lemma window_stays_inside_source_row_witness :
  0 <= 5 /\ 8 <= xsize ramp8 /\ reads_in_bounds ramp8 5 8 = true.
Proof.
  apply (window_stays_inside_source_row (the_geometry BILINEAR blank4 ramp8) ramp8 3 5 8).
  - change (xsize ramp8) with 8. lia.
  - vm_compute. reflexivity.
  - vm_compute. reflexivity.
Defined.

(** ** Exact arithmetic on small dyadic numbers *)

Lemma of_float_dyadic z e :
  representable 24 128 z e -> F64.of_float (F32.dyadic z e) = F64.dyadic z e.
Proof. intros Hr. apply (convert_representable 24 128 53 1024). exact Hr. Qed.

Lemma of_double_dyadic z e :
  representable 53 1024 z e -> F32.of_double (F64.dyadic z e) = F32.dyadic z e.
Proof. intros Hr. apply (convert_representable 53 1024 24 128). exact Hr. Qed.

Lemma opp_dyadic z e :
  representable 24 128 z e -> SFopp (F32.dyadic z e) = F32.dyadic (- z) e.
Proof.
  intros Hr. unfold F32.dyadic, F32.prec, F32.emax.
  assert (Hr' : representable 24 128 (- z) e).
  { destruct Hr as (Hz & Hd & Hlo & Hhi). unfold representable.
    rewrite <- (Zdigits2_abs (- z)), Z.abs_opp, Zdigits2_abs. repeat split; auto. lia. }
  rewrite (normalize_exact 24 128 z e false Hr), (normalize_exact 24 128 (- z) e false Hr').
  destruct Hr as (Hz & _).
  cbn [SFopp]. rewrite Z.abs_opp.
  rewrite <- (Zdigits2_abs (- z)), Z.abs_opp, Zdigits2_abs.
  f_equal. destruct (Z.ltb_spec z 0), (Z.ltb_spec (- z) 0); try reflexivity; lia.
Qed.

Lemma sub_int_dyadic x b eb :
  eb <= 0 -> x = 0 \/ representable 24 128 x 0 -> representable 24 128 b eb ->
  F32.sub (F32.of_int x) (F32.dyadic b eb) = F32.dyadic (x * 2 ^ (- eb) - b) eb.
Proof.
  intros He [->|Hx] Hb.
  - change (F32.of_int 0) with (S754_zero false).
    replace (0 * 2 ^ (- eb) - b) with (- b) by lia.
    rewrite <- opp_dyadic by exact Hb.
    unfold F32.dyadic, F32.prec, F32.emax.
    rewrite (normalize_exact 24 128 b eb false Hb). reflexivity.
  - unfold F32.sub, F32.of_int, F32.dyadic, F32.prec, F32.emax.
    rewrite (sub_representable 24 128 x 0 b eb Hx Hb).
    replace (Z.min 0 eb) with eb by lia.
    replace (0 - eb) with (- eb) by lia. rewrite Z.sub_diag, Z.pow_0_r, Z.mul_1_r.
    reflexivity.
Qed.

Lemma add64_half z :
  representable 53 1024 z (-1) ->
  F64.add (F64.dyadic z (-1)) F64.half = F64.dyadic (z + 1) (-1).
Proof.
  intros Hz. unfold F64.add, F64.half, F64.dyadic, F64.prec, F64.emax.
  rewrite (add_representable 53 1024 z (-1) 1 (-1) Hz)
    by (apply representable_small; try lia; vm_compute; discriminate).
  change (Z.min (-1) (-1)) with (-1). change (-1 - -1) with 0.
  rewrite Z.pow_0_r, !Z.mul_1_r. reflexivity.
Qed.

Lemma dyadic64_even z : F64.dyadic (2 * z) (-1) = F64.of_int z.
Proof.
  unfold F64.dyadic, F64.of_int, F64.dyadic.
  replace (2 * z) with (z * 2 ^ 1) by lia.
  rewrite normalize_shift by lia. reflexivity.
Qed.

Lemma dyadic32_even z : F32.dyadic (2 * z) (-1) = F32.of_int z.
Proof.
  unfold F32.dyadic, F32.of_int, F32.dyadic.
  replace (2 * z) with (z * 2 ^ 1) by lia.
  rewrite normalize_shift by lia. reflexivity.
Qed.

Lemma of_double_of_int z : Z.abs z < 2 ^ 53 -> F32.of_double (F64.of_int z) = F32.of_int z.
Proof.
  intros Hz. destruct (Z.eq_dec z 0) as [->|Hne]; [reflexivity|].
  apply of_double_dyadic. apply representable_small; try lia; vm_compute; discriminate.
Qed.

Lemma of_float_of_int z : Z.abs z < 2 ^ 24 -> F64.of_float (F32.of_int z) = F64.of_int z.
Proof.
  intros Hz. destruct (Z.eq_dec z 0) as [->|Hne]; [reflexivity|].
  apply of_float_dyadic. small.
Qed.

Lemma mul64_one x :
  valid_binary 53 1024 x = true -> F64.mul x (F64.of_float F32.one) = x.
Proof.
  intros Hx. change (F64.of_float F32.one) with (binary_normalize 53 1024 1 0 false).
  apply mul_one_valid; try lia; [vm_compute; discriminate|exact Hx].
Qed.

Lemma of_int64_valid z : valid_binary 53 1024 (F64.of_int z) = true.
Proof. apply (binary_normalize_valid 53 1024). reflexivity. Qed.

Lemma div_pow2_cancel z a b : 0 <= a -> 0 <= b -> (z * 2 ^ a) / (2 ^ a * 2 ^ b) = z / 2 ^ b.
Proof.
  intros Ha Hb.
  assert (0 < 2 ^ a) by (apply Z.pow_pos_nonneg; lia).
  assert (0 < 2 ^ b) by (apply Z.pow_pos_nonneg; lia).
  rewrite (Z.mul_comm z), Z.div_mul_cancel_l by lia. reflexivity.
Qed.

Lemma floor_dyadic z e :
  representable 53 1024 z e -> e < 0 ->
  F64.floor (F64.dyadic z e) = binary_normalize 53 1024 (z / 2 ^ (- e)) 0 (z <? 0).
Proof.
  intros Hr He. unfold F64.dyadic, F64.prec, F64.emax.
  rewrite (normalize_exact 53 1024 z e false Hr).
  destruct Hr as (Hz & Hd & Hlo & Hhi).
  unfold F64.floor, F64.prec, F64.emax.
  destruct (Z.leb_spec 0 (e + Zdigits2 z - 53)) as [H0|H0]; [lia|].
  rewrite exact_mantissa by assumption.
  replace (2 ^ (- (e + Zdigits2 z - 53))) with (2 ^ (53 - Zdigits2 z) * 2 ^ (- e))
    by (rewrite <- Z.pow_add_r by lia; f_equal; lia).
  rewrite div_pow2_cancel by lia. reflexivity.
Qed.

Lemma ceil_dyadic z e :
  representable 53 1024 z e -> e < 0 ->
  F64.ceil (F64.dyadic z e) = binary_normalize 53 1024 (- ((- z) / 2 ^ (- e))) 0 (z <? 0).
Proof.
  intros Hr He. unfold F64.dyadic, F64.prec, F64.emax.
  rewrite (normalize_exact 53 1024 z e false Hr).
  destruct Hr as (Hz & Hd & Hlo & Hhi).
  unfold F64.ceil, F64.prec, F64.emax.
  destruct (Z.leb_spec 0 (e + Zdigits2 z - 53)) as [H0|H0]; [lia|].
  rewrite exact_mantissa by assumption.
  replace (2 ^ (- (e + Zdigits2 z - 53))) with (2 ^ (53 - Zdigits2 z) * 2 ^ (- e))
    by (rewrite <- Z.pow_add_r by lia; f_equal; lia).
  rewrite <- Z.mul_opp_l, div_pow2_cancel by lia. reflexivity.
Qed.

Lemma ltb64_zero j : Z.abs j < 2 ^ 53 -> F64.ltb (F64.of_int j) F64.zero = (j <? 0).
Proof.
  intros Hj. destruct (Z.eq_dec j 0) as [->|Hne]; [reflexivity|].
  unfold F64.of_int, F64.dyadic, F64.prec, F64.emax.
  rewrite (normalize_exact 53 1024 j 0 false)
    by (apply representable_small; try lia; vm_compute; discriminate).
  destruct (j <? 0); reflexivity.
Qed.

(** ** Windows and weights at equal widths *)

Lemma center_unit_scale g xx :
  scale g = F32.one -> 0 <= xx < 2 ^ 23 ->
  column_center g xx = F32.dyadic (2 * xx + 1) (-1).
Proof.
  intros Hs Hxx. rewrite <- (center_nearest xx Hxx).
  unfold column_center. rewrite Hs. reflexivity.
Qed.

Lemma xmin_same_width S xx :
  1 <= S <= 2 ^ 20 -> 0 <= xx < 2 ^ 23 ->
  to_int (column_xmin (same_width_geometry S) xx) = Some (Z.max 0 (xx - S)).
Proof.
  intros HS Hxx. unfold column_xmin.
  rewrite center_unit_scale by (try reflexivity; exact Hxx).
  cbn [g_support same_width_geometry].
  assert (Hsub : F32.sub (F32.dyadic (2 * xx + 1) (-1)) (F32.of_int S)
                 = F32.dyadic (2 * (xx - S) + 1) (-1)).
  { unfold F32.sub, F32.of_int, F32.dyadic, F32.prec, F32.emax.
    rewrite (sub_representable 24 128 (2 * xx + 1) (-1) S 0) by small.
    change (Z.min (-1) 0) with (-1). change (-1 - -1) with 0. change (0 - -1) with 1.
    f_equal. lia. }
  rewrite Hsub, of_float_dyadic by small.
  rewrite floor_dyadic by (try lia; apply representable_small; try lia; vm_compute; discriminate).
  change (2 ^ (- -1)) with 2.
  replace ((2 * (xx - S) + 1) / 2) with (xx - S)
    by (apply (Z.div_unique _ 2 _ 1); lia).
  destruct (Z.eq_dec (xx - S) 0) as [H0|H0].
  - rewrite H0. replace (2 * 0 + 1 <? 0) with false by reflexivity.
    cbn [binary_normalize]. vm_compute. reflexivity.
  - rewrite (normalize_sign_irrelevant 53 1024 (xx - S) 0 _ false H0).
    change (binary_normalize 53 1024 (xx - S) 0 false) with (F64.of_int (xx - S)).
    rewrite of_double_of_int, of_float_of_int, ltb64_zero by lia.
    destruct (Z.ltb_spec (xx - S) 0) as [Hneg|Hpos].
    + replace (Z.max 0 (xx - S)) with 0 by lia. reflexivity.
    + replace (Z.max 0 (xx - S)) with (xx - S) by lia.
      apply to_int_integer; [small|]. apply in_int_small. lia.
Qed.

Lemma xmax_same_width S imIn xx :
  1 <= S <= 2 ^ 20 -> 0 <= xx < xsize imIn -> xsize imIn <= 2 ^ 22 ->
  to_int (column_xmax (same_width_geometry S) imIn xx)
  = Some (Z.min (xsize imIn) (xx + S + 1)).
Proof.
  intros HS Hxx HL. unfold column_xmax.
  rewrite center_unit_scale by (try reflexivity; lia).
  cbn [g_support same_width_geometry].
  assert (Hadd : F32.add (F32.dyadic (2 * xx + 1) (-1)) (F32.of_int S)
                 = F32.dyadic (2 * (xx + S) + 1) (-1)).
  { unfold F32.add, F32.of_int, F32.dyadic, F32.prec, F32.emax.
    rewrite (add_representable 24 128 (2 * xx + 1) (-1) S 0) by small.
    change (Z.min (-1) 0) with (-1). change (-1 - -1) with 0. change (0 - -1) with 1.
    f_equal. lia. }
  rewrite Hadd, of_float_dyadic by small.
  rewrite ceil_dyadic by (try lia; apply representable_small; try lia; vm_compute; discriminate).
  change (2 ^ (- -1)) with 2.
  replace (- (- (2 * (xx + S) + 1) / 2)) with (xx + S + 1).
  2:{ assert (Hq : - (xx + S + 1) = - (2 * (xx + S) + 1) / 2)
        by (apply (Z.div_unique _ 2 _ 1); lia).
      rewrite <- Hq. lia. }
  rewrite (normalize_sign_irrelevant 53 1024 (xx + S + 1) 0 _ false) by lia.
  change (binary_normalize 53 1024 (xx + S + 1) 0 false) with (F64.of_int (xx + S + 1)).
  rewrite of_double_of_int by lia.
  destruct (F32.ltb (F32.of_int (xsize imIn)) (F32.of_int (xx + S + 1))) eqn:Hlt.
  - destruct (Z.le_gt_cases (xx + S + 1) (xsize imIn)) as [Hle|Hgt].
    + rewrite ltb_integers in Hlt by (try small; lia). discriminate.
    + replace (Z.min (xsize imIn) (xx + S + 1)) with (xsize imIn) by lia.
      apply to_int_integer; [small|]. apply in_int_small. lia.
  - assert (Htr : Ztrunc (F32.of_int (xx + S + 1)) = Some (xx + S + 1))
      by (apply Ztrunc_integer; small).
    pose proof (ltb_false_Ztrunc_le (xsize imIn) _ _ ltac:(lia)
                  (of_int32_valid (xx + S + 1)) Hlt Htr) as Hle.
    replace (Z.min (xsize imIn) (xx + S + 1)) with (xx + S + 1) by lia.
    apply to_int_integer; [small|]. apply in_int_small. lia.
Qed.

Lemma ss_unit_scale g : filterscale g = F32.one -> column_ss g = F32.one.
Proof. intros Hf. unfold column_ss. rewrite Hf. vm_compute. reflexivity. Qed.

Lemma weight_unit_scale filterp g xx x :
  scale g = F32.one -> filterscale g = F32.one ->
  0 <= xx < 2 ^ 23 -> 0 <= x < 2 ^ 24 -> Z.abs (x - xx) < 2 ^ 22 ->
  weight filterp (column_center g xx) (column_ss g) x
  = F32.mul (filter filterp (F32.of_int (x - xx))) F32.one.
Proof.
  intros Hs Hf Hxx Hx Hd. unfold weight.
  rewrite center_unit_scale, ss_unit_scale by assumption.
  rewrite sub_int_dyadic; try lia; try small.
  2:{ destruct (Z.eq_dec x 0); [left; assumption|right; small]. }
  change (2 ^ (- -1)) with 2.
  replace (x * 2 - (2 * xx + 1)) with (2 * (x - xx) - 1) by lia.
  rewrite of_float_dyadic by small.
  rewrite add64_half by (apply representable_small; try lia; vm_compute; discriminate).
  replace (2 * (x - xx) - 1 + 1) with (2 * (x - xx)) by lia.
  rewrite dyadic64_even, mul64_one by apply of_int64_valid.
  rewrite of_double_of_int by lia. reflexivity.
Qed.

Lemma single_tap_same_width filterp S imIn xx :
  1 <= S <= 2 ^ 20 ->
  F32.mul (filter filterp (F32.of_int 0)) F32.one = F32.one ->
  (forall d, - S <= d <= S -> d <> 0 ->
     exists s, F32.mul (filter filterp (F32.of_int d)) F32.one = S754_zero s) ->
  0 <= xx < xsize imIn -> xsize imIn <= 2 ^ 22 ->
  single_tap filterp (same_width_geometry S) imIn xx xx.
Proof.
  intros HS Hone Hzero Hxx HL.
  exists (Z.max 0 (xx - S)), (Z.min (xsize imIn) (xx + S + 1)).
  split; [apply xmin_same_width; lia|].
  split; [apply xmax_same_width; lia|].
  split; [lia|]. split; [lia|]. split; [cbn [kmax same_width_geometry]; lia|].
  split.
  - rewrite weight_unit_scale by (try reflexivity; lia).
    rewrite Z.sub_diag. exact Hone.
  - intros x Hx Hne.
    rewrite weight_unit_scale by (try reflexivity; lia).
    apply Hzero; lia.
Qed.

(** ** Columns with a single tap *)

Lemma Zrange_app lo mid hi :
  lo <= mid <= hi -> Zrange lo hi = Zrange lo mid ++ Zrange mid hi.
Proof.
  intros Hm.
  assert (Hgen : forall n lo, lo + Z.of_nat n <= hi ->
             Zrange lo hi = Zrange lo (lo + Z.of_nat n) ++ Zrange (lo + Z.of_nat n) hi).
  { induction n as [|n IH]; intros l Hl.
    - rewrite (Zrange_nil l (l + Z.of_nat 0)) by lia.
      replace (l + Z.of_nat 0) with l by lia. reflexivity.
    - rewrite (Zrange_cons l hi) by lia.
      rewrite (Zrange_cons l (l + Z.of_nat (S n))) by lia.
      rewrite (IH (l + 1)) by lia.
      replace (l + 1 + Z.of_nat n) with (l + Z.of_nat (S n)) by lia. reflexivity. }
  specialize (Hgen (Z.to_nat (mid - lo)) lo).
  replace (lo + Z.of_nat (Z.to_nat (mid - lo))) with mid in Hgen by lia.
  apply Hgen. lia.
Qed.

Lemma fold_add_zeros (f : Z -> float) xs acc :
  acc = F32.zero \/ (exists s m e, acc = S754_finite s m e) ->
  (forall x, In x xs -> exists s, f x = S754_zero s) ->
  fold_left (fun a x => F32.add a (f x)) xs acc = acc.
Proof.
  intros Hacc. induction xs as [|x xs IH]; intros Hf; cbn [fold_left]; [reflexivity|].
  destruct (Hf x (or_introl eq_refl)) as [s Hs]. rewrite Hs.
  assert (Hstep : F32.add acc (S754_zero s) = acc).
  { destruct Hacc as [->|(s' & m & e & ->)]; [destruct s; reflexivity|reflexivity]. }
  rewrite Hstep. apply IH. intros y Hy. apply Hf. right; exact Hy.
Qed.

Lemma fold_add_single (f : Z -> float) lo hi t v :
  lo <= t < hi ->
  f t = v ->
  F32.add F32.zero v = F32.zero \/ (exists s m e, F32.add F32.zero v = S754_finite s m e) ->
  (forall x, lo <= x < hi -> x <> t -> exists s, f x = S754_zero s) ->
  fold_left (fun a x => F32.add a (f x)) (Zrange lo hi) F32.zero = F32.add F32.zero v.
Proof.
  intros Ht Hv Hfin Hz.
  rewrite (Zrange_app lo t hi) by lia.
  rewrite (Zrange_cons t hi) by lia.
  rewrite fold_left_app. cbn [fold_left].
  rewrite (fold_add_zeros f (Zrange lo t) F32.zero).
  - rewrite Hv. apply fold_add_zeros; [exact Hfin|].
    intros x Hx. apply in_Zrange in Hx. apply Hz; lia.
  - left; reflexivity.
  - intros x Hx. apply in_Zrange in Hx. apply Hz; lia.
Qed.

Lemma add_zero_finite v :
  is_finite v = true ->
  F32.add F32.zero v = F32.zero \/ (exists s m e, F32.add F32.zero v = S754_finite s m e).
Proof.
  destruct v as [s|s| |s m e]; try discriminate; intros _.
  - left. destruct s; reflexivity.
  - right. exists s, m, e. reflexivity.
Qed.

Lemma mul_finite_zero x s :
  is_finite x = true -> exists s', F32.mul x (S754_zero s) = S754_zero s'.
Proof.
  destruct x as [sx|sx| |sx m e]; try discriminate; intros _; eexists; reflexivity.
Qed.

Lemma single_tap_window filterp g imIn xx t :
  single_tap filterp g imIn xx t -> window_ok g imIn xx = true.
Proof.
  intros (lo & hi & Hlo & Hhi & Hl & Hh & Hk & _). unfold window_ok.
  rewrite Hlo, Hhi. unfold reads_in_bounds.
  apply andb_true_intro. split; apply orb_true_intro; right.
  - apply Z.leb_le. exact Hk.
  - apply andb_true_intro. split; apply Z.leb_le; lia.
Qed.

Lemma single_tap_value {V : Type} (px : Z -> Z -> Z -> float)
    (finish : float -> float -> option V) filterp g imIn xx t yy b :
  single_tap filterp g imIn xx t ->
  (forall x, 0 <= x < xsize imIn ->
     is_finite (px yy b x) = true /\ valid_binary 24 128 (px yy b x) = true) ->
  column_value px finish filterp g imIn xx yy b
  = finish (F32.add F32.zero (F32.mul (px yy b t) F32.one)) F32.one.
Proof.
  intros (lo & hi & Hlo & Hhi & Hl & Hh & Hk & Hone & Hzero) Hpx.
  unfold column_value, column_plan. rewrite Hlo, Hhi.
  set (w := weight filterp (column_center g xx) (column_ss g)) in *.
  assert (Htot : weight_total w lo hi F32.zero = F32.one).
  { unfold weight_total.
    rewrite (fold_add_single w lo hi t F32.one); try lia; auto.
    right. exists false, 8388608%positive, (-23). reflexivity. }
  assert (Hsum : column_sum (px yy b) w lo hi
                 = F32.add F32.zero (F32.mul (px yy b t) F32.one)).
  { unfold column_sum.
    destruct (Hpx t ltac:(lia)) as [Hft Hvt].
    apply (fold_add_single (fun x => F32.mul (px yy b x) (w x)) lo hi t); try lia.
    - cbv beta. rewrite Hone. reflexivity.
    - rewrite mul_one32 by exact Hvt. apply add_zero_finite. exact Hft.
    - intros x Hx Hne. cbv beta. destruct (Hzero x Hx Hne) as [s ->].
      apply mul_finite_zero. apply Hpx. lia. }
  rewrite Htot, Hsum. reflexivity.
Qed.

Lemma of_int_is_finite p : Z.abs p <= 2 ^ 24 -> is_finite (F32.of_int p) = true.
Proof.
  intros Hp.
  destruct (Z.eq_dec p 0) as [->|H0]; [reflexivity|].
  destruct (Z.eq_dec p (2 ^ 24)) as [->|H1]; [reflexivity|].
  destruct (Z.eq_dec p (- 2 ^ 24)) as [->|H2]; [reflexivity|].
  unfold F32.of_int, F32.dyadic, F32.prec, F32.emax.
  rewrite (normalize_exact 24 128 p 0 false) by small. reflexivity.
Qed.

Lemma defined_image imIn :
  image8 imIn = None -> type imIn = IMAGING_TYPE_UINT8 ->
  column_defined (fun _ => True) (band_lanes (bands imIn))
    (fun yy b x => F32.of_int (image imIn yy (x * 4 + b) mod 256))
    (fun ss ww => clip8 (bias8 ss ww)) imIn.
Proof.
  intros H8 Hty kk base lo hi ww xx s _ Hreads Hval.
  unfold reduce_column. rewrite H8, Hty. unfold for_loop.
  destruct (for_each_ok (fun t => ysize t = ysize s)
              (fun yy => band_loop (Z.to_nat (bands imIn)) (bands imIn) 0
                           (pixel_band imIn kk base lo hi ww xx yy))
              (Zrange 0 (ysize s))) with (s := s) as (r & Hr & Hry); auto.
  - intros yy t Hyy Hty'. apply in_Zrange in Hyy. rewrite band_loop_lanes.
    destruct (for_each_ok (fun u => ysize u = ysize s)
                (pixel_band imIn kk base lo hi ww xx yy) (band_lanes (bands imIn)))
      with (s := t) as (u & Hu & Huy); auto.
    + intros b v Hb Hv. unfold pixel_band. rewrite Hreads.
      destruct (clip8 _) as [c|] eqn:Hc; [|elim (Hval yy b Hyy Hb Hc)].
      eexists. split; [reflexivity|]. exact Hv.
    + exists u. auto.
  - exists r. auto.
Qed.

Lemma byte_is_finite p :
  is_finite (F32.of_int (p mod 256)) = true /\
  valid_binary 24 128 (F32.of_int (p mod 256)) = true.
Proof.
  split; [|apply of_int32_valid].
  apply of_int_is_finite. pose proof (Z.mod_pos_bound p 256 ltac:(lia)). lia.
Qed.

Section SingleTap.
Variables (sin : double -> double) (malloc : Z -> option (buffer float)).
Variables (filter : transform) (filterp : filter_t) (g : geometry) (imOut imIn : Imaging).
Variable tap : Z -> Z.
Hypothesis same_mode : mode imIn = mode imOut.
Hypothesis same_height : ysize imOut = ysize imIn.
Hypothesis selected : select_filter sin filter = Some filterp.
Hypothesis prepared : prepare filterp imOut imIn = Some g.
Hypothesis kmax_pos : 0 <= kmax g.
Hypothesis size_int : in_int (xsize imOut * kmax g) = true.
Hypothesis bounds_int : in_int (xsize imOut * 3) = true.
Hypothesis malloc_ok : forall n, malloc n <> None.
Hypothesis taps : forall xx, 0 <= xx < xsize imOut -> single_tap filterp g imIn xx (tap xx).

Lemma tap_in_row xx : 0 <= xx < xsize imOut -> 0 <= tap xx < xsize imIn.
Proof.
  intros Hxx. destruct (taps xx Hxx) as (lo & hi & _ & _ & Hl & Hh & _). lia.
Qed.

Lemma single_tap_resampling :
  (forall src,
      image8 imIn = Some src -> image8 imOut <> None ->
      (forall x yy, 0 <= x < xsize imIn -> 0 <= yy < ysize imIn -> 0 <= src yy x <= 255) ->
      exists o,
        ImagingStretchHorizaontal sin malloc (Some imOut) (Some imIn) filter = Ok (Some o) /\
        forall xx yy, 0 <= xx < xsize imOut -> 0 <= yy < ysize imOut ->
          cell8 o yy xx = Some (src yy (tap xx))) /\
  (image8 imIn = None -> type imIn = IMAGING_TYPE_UINT8 -> bands imIn <= 4 ->
   exists o,
     ImagingStretchHorizaontal sin malloc (Some imOut) (Some imIn) filter = Ok (Some o) /\
     forall xx yy b, 0 <= xx < xsize imOut -> 0 <= yy < ysize imOut ->
       visited_lane (bands imIn) b = true ->
       image o yy (xx * 4 + b) = image imIn yy (tap xx * 4 + b) mod 256) /\
  (image8 imIn = None -> type imIn = IMAGING_TYPE_INT32 ->
   (forall x yy, 0 <= x < xsize imIn -> 0 <= yy < ysize imIn ->
      Z.abs (image32 imIn yy x) <= 2 ^ 24) ->
   exists o,
     ImagingStretchHorizaontal sin malloc (Some imOut) (Some imIn) filter = Ok (Some o) /\
     forall xx yy, 0 <= xx < xsize imOut -> 0 <= yy < ysize imOut ->
       image32 o yy xx = image32 imIn yy (tap xx)) /\
  (image8 imIn = None -> type imIn = IMAGING_TYPE_FLOAT32 ->
   (forall x yy, 0 <= x < xsize imIn -> 0 <= yy < ysize imIn ->
      is_finite (image32f imIn yy x) = true /\
      valid_binary 24 128 (image32f imIn yy x) = true) ->
   exists o,
     ImagingStretchHorizaontal sin malloc (Some imOut) (Some imIn) filter = Ok (Some o) /\
     forall xx yy, 0 <= xx < xsize imOut -> 0 <= yy < ysize imOut ->
       image32f o yy xx = positive_zero (image32f imIn yy (tap xx))).
Proof.
  assert (Hwin : forall xx, 0 <= xx < xsize imOut -> window_ok g imIn xx = true)
    by (intros xx Hxx; apply (single_tap_window filterp g imIn xx (tap xx)); auto).
  split; [|split; [|split]].
  - intros src H8 Hdst Hrange.
    assert (Hpx : forall yy, 0 <= yy < ysize imOut -> forall x, 0 <= x < xsize imIn ->
              is_finite (F32.of_int (src yy x)) = true /\
              valid_binary 24 128 (F32.of_int (src yy x)) = true).
    { intros yy Hyy x Hx. split; [|apply of_int32_valid].
      apply of_int_is_finite. specialize (Hrange x yy Hx ltac:(lia)). lia. }
    destruct (stretch_stores_values cell8 (fun s => image8 s <> None) [0] (fun xx _ => xx)
                (fun yy _ x => F32.of_int (src yy x)) (fun ss ww => clip8 (bias8 ss ww))
                sin malloc filter filterp g imOut imIn
                (fun x _ x' _ _ _ Heq => Heq) (format_image8 imIn src H8)
                (defined_image8 imIn src H8) same_mode same_height selected prepared kmax_pos
                size_int bounds_int malloc_ok Hdst Hwin) as (o & Hcall & Hvals).
    + intros xx yy b Hxx Hyy _.
      rewrite (single_tap_value _ _ filterp g imIn xx (tap xx)) by auto.
      fold (nearest_pixel8 (src yy (tap xx))).
      rewrite nearest_pixel8_identity; [discriminate|].
      apply Hrange; [apply tap_in_row; exact Hxx|lia].
    + exists o. split; [exact Hcall|].
      intros xx yy Hxx Hyy.
      rewrite (Hvals xx yy 0) by (try lia; left; reflexivity).
      rewrite (single_tap_value _ _ filterp g imIn xx (tap xx)) by auto.
      fold (nearest_pixel8 (src yy (tap xx))).
      apply nearest_pixel8_identity. apply Hrange; [apply tap_in_row; exact Hxx|lia].
  - intros H8 Hty Hnb.
    destruct (stretch_stores_values cell (fun _ => True) (band_lanes (bands imIn))
                (fun xx b => xx * 4 + b)
                (fun yy b x => F32.of_int (image imIn yy (x * 4 + b) mod 256))
                (fun ss ww => clip8 (bias8 ss ww))
                sin malloc filter filterp g imOut imIn
                (fun x b x' b' => band_lanes_key_inj (bands imIn) x b x' b' Hnb)
                (format_image imIn H8 Hty)
                (defined_image imIn H8 Hty) same_mode same_height selected prepared kmax_pos
                size_int bounds_int malloc_ok I Hwin) as (o & Hcall & Hvals).
    + intros xx yy b Hxx Hyy _.
      rewrite (single_tap_value _ _ filterp g imIn xx (tap xx))
        by (auto; intros x _; apply byte_is_finite).
      fold (nearest_pixel8 (image imIn yy (tap xx * 4 + b) mod 256)).
      rewrite nearest_pixel8_identity; [discriminate|].
      pose proof (Z.mod_pos_bound (image imIn yy (tap xx * 4 + b)) 256 ltac:(lia)). lia.
    + exists o. split; [exact Hcall|].
      intros xx yy b Hxx Hyy Hb. apply in_band_lanes in Hb.
      specialize (Hvals xx yy b Hxx Hyy Hb).
      rewrite (single_tap_value _ _ filterp g imIn xx (tap xx)) in Hvals
        by (auto; intros x _; apply byte_is_finite).
      fold (nearest_pixel8 (image imIn yy (tap xx * 4 + b) mod 256)) in Hvals.
      rewrite nearest_pixel8_identity in Hvals
        by (pose proof (Z.mod_pos_bound (image imIn yy (tap xx * 4 + b)) 256 ltac:(lia)); lia).
      unfold cell in Hvals. congruence.
  - intros H8 Hty Hrange.
    assert (Hpx : forall yy, 0 <= yy < ysize imOut -> forall x, 0 <= x < xsize imIn ->
              is_finite (F32.of_int (image32 imIn yy x)) = true /\
              valid_binary 24 128 (F32.of_int (image32 imIn yy x)) = true).
    { intros yy Hyy x Hx. split; [|apply of_int32_valid].
      apply of_int_is_finite. apply Hrange; lia. }
    destruct (stretch_stores_values cell32 (fun _ => True) [0] (fun xx _ => xx)
                (fun yy _ x => F32.of_int (image32 imIn yy x)) scale_int
                sin malloc filter filterp g imOut imIn
                (fun x _ x' _ _ _ Heq => Heq) (format_image32 imIn H8 Hty)
                (defined_image32 imIn H8 Hty) same_mode same_height selected prepared kmax_pos
                size_int bounds_int malloc_ok I Hwin) as (o & Hcall & Hvals).
    + intros xx yy b Hxx Hyy _.
      rewrite (single_tap_value _ _ filterp g imIn xx (tap xx)) by auto.
      rewrite nearest_pixel32_identity; [discriminate|].
      apply Hrange; [apply tap_in_row; exact Hxx|lia].
    + exists o. split; [exact Hcall|].
      intros xx yy Hxx Hyy.
      specialize (Hvals xx yy 0 ltac:(lia) ltac:(lia) (or_introl eq_refl)).
      rewrite (single_tap_value _ _ filterp g imIn xx (tap xx)) in Hvals by auto.
      rewrite nearest_pixel32_identity in Hvals
        by (apply Hrange; [apply tap_in_row; exact Hxx|lia]).
      unfold cell32 in Hvals. congruence.
  - intros H8 Hty Hrange.
    destruct (stretch_stores_values cell32f (fun _ => True) [0] (fun xx _ => xx)
                (fun yy _ x => image32f imIn yy x) (fun ss ww => Some (F32.mul ss ww))
                sin malloc filter filterp g imOut imIn
                (fun x _ x' _ _ _ Heq => Heq) (format_image32f imIn H8 Hty)
                (defined_image32f imIn H8 Hty) same_mode same_height selected prepared kmax_pos
                size_int bounds_int malloc_ok I Hwin) as (o & Hcall & Hvals).
    + intros xx yy b Hxx Hyy _.
      rewrite (single_tap_value _ _ filterp g imIn xx (tap xx));
        [discriminate|auto|].
      intros x Hx. apply Hrange; lia.
    + exists o. split; [exact Hcall|].
      intros xx yy Hxx Hyy.
      specialize (Hvals xx yy 0 ltac:(lia) ltac:(lia) (or_introl eq_refl)).
      rewrite (single_tap_value _ _ filterp g imIn xx (tap xx)) in Hvals;
        [|auto|intros x Hx; apply Hrange; lia].
      rewrite nearest_pixel32f_identity in Hvals
        by (apply Hrange; [apply tap_in_row; exact Hxx|lia]).
      unfold cell32f in Hvals. congruence.
Qed.

End SingleTap.

(** ** Bilinear and bicubic resampling at equal widths *)

Lemma prepare_bilinear_same_width imOut imIn :
  xsize imOut = xsize imIn -> 1 <= xsize imIn < 2 ^ 24 ->
  prepare BILINEAR imOut imIn = Some (same_width_geometry 1).
Proof.
  intros Hx HL. unfold prepare. rewrite Hx, div_self.
  - vm_compute. reflexivity.
  - small.
  - lia.
Qed.

Lemma prepare_bicubic_same_width imOut imIn :
  xsize imOut = xsize imIn -> 1 <= xsize imIn < 2 ^ 24 ->
  prepare BICUBIC imOut imIn = Some (same_width_geometry 2).
Proof.
  intros Hx HL. unfold prepare. rewrite Hx, div_self.
  - vm_compute. reflexivity.
  - small.
  - lia.
Qed.

Lemma bilinear_taps imIn xx :
  0 <= xx < xsize imIn -> xsize imIn <= 2 ^ 22 ->
  single_tap BILINEAR (same_width_geometry 1) imIn xx xx.
Proof.
  intros Hxx HL. apply single_tap_same_width; try lia.
  - vm_compute. reflexivity.
  - intros d Hd Hne.
    assert (Hc : d = -1 \/ d = 1) by lia.
    destruct Hc as [-> | ->]; eexists; vm_compute; reflexivity.
Qed.

Lemma bicubic_taps imIn xx :
  0 <= xx < xsize imIn -> xsize imIn <= 2 ^ 22 ->
  single_tap BICUBIC (same_width_geometry 2) imIn xx xx.
Proof.
  intros Hxx HL. apply single_tap_same_width; try lia.
  - vm_compute. reflexivity.
  - intros d Hd Hne.
    assert (Hc : d = -2 \/ d = -1 \/ d = 1 \/ d = 2) by lia.
    destruct Hc as [-> | [-> | [-> | ->]]]; eexists; vm_compute; reflexivity.
Qed.

Lemma nearest_taps imIn xx :
  0 <= xx < xsize imIn -> xsize imIn <= 2 ^ 23 ->
  single_tap NEAREST nearest_geometry imIn xx xx.
Proof.
  intros Hxx HL. exists xx, (xx + 1).
  split; [apply xmin_nearest; lia|].
  split; [apply xmax_nearest; lia|].
  split; [lia|]. split; [lia|]. split; [cbn [kmax nearest_geometry]; lia|].
  split; [apply weight_nearest; lia|].
  intros x Hx Hne. lia.
Qed.

(** X8.  For a source at most 2^22 pixels wide and a destination of the
    same mode, height and width, with both scratch allocations granted,
    [ImagingStretchHorizaontal] with the nearest, the bilinear or the
    bicubic filter returns the destination with every pixel equal to the
    source pixel, in each of four cases: an 8-bit plane; a packed image
    of at most four bands (every visited lane); an INT32 image all of
    whose pixels have magnitude at most 2^24; a FLOAT32 image all of whose
    pixels are finite (a negative zero comes out positive). *)
Theorem same_width_resampling_is_identity :
  forall sin malloc imOut imIn filter,
    filter = IMAGING_TRANSFORM_NEAREST \/ filter = IMAGING_TRANSFORM_BILINEAR \/
    filter = IMAGING_TRANSFORM_BICUBIC ->
    mode imIn = mode imOut ->
    ysize imOut = ysize imIn ->
    xsize imOut = xsize imIn ->
    1 <= xsize imIn <= 2 ^ 22 ->
    (forall n, malloc n <> None) ->
    (forall src,
        image8 imIn = Some src -> image8 imOut <> None ->
        (forall x yy, 0 <= x < xsize imIn -> 0 <= yy < ysize imIn -> 0 <= src yy x <= 255) ->
        exists o,
          ImagingStretchHorizaontal sin malloc (Some imOut) (Some imIn) filter = Ok (Some o) /\
          forall xx yy, 0 <= xx < xsize imOut -> 0 <= yy < ysize imOut ->
            cell8 o yy xx = Some (src yy xx)) /\
    (image8 imIn = None -> type imIn = IMAGING_TYPE_UINT8 -> bands imIn <= 4 ->
     exists o,
       ImagingStretchHorizaontal sin malloc (Some imOut) (Some imIn) filter = Ok (Some o) /\
       forall xx yy b, 0 <= xx < xsize imOut -> 0 <= yy < ysize imOut ->
         visited_lane (bands imIn) b = true ->
         image o yy (xx * 4 + b) = image imIn yy (xx * 4 + b) mod 256) /\
    (image8 imIn = None -> type imIn = IMAGING_TYPE_INT32 ->
     (forall x yy, 0 <= x < xsize imIn -> 0 <= yy < ysize imIn ->
        Z.abs (image32 imIn yy x) <= 2 ^ 24) ->
     exists o,
       ImagingStretchHorizaontal sin malloc (Some imOut) (Some imIn) filter = Ok (Some o) /\
       forall xx yy, 0 <= xx < xsize imOut -> 0 <= yy < ysize imOut ->
         image32 o yy xx = image32 imIn yy xx) /\
    (image8 imIn = None -> type imIn = IMAGING_TYPE_FLOAT32 ->
     (forall x yy, 0 <= x < xsize imIn -> 0 <= yy < ysize imIn ->
        is_finite (image32f imIn yy x) = true /\
        valid_binary 24 128 (image32f imIn yy x) = true) ->
     exists o,
       ImagingStretchHorizaontal sin malloc (Some imOut) (Some imIn) filter = Ok (Some o) /\
       forall xx yy, 0 <= xx < xsize imOut -> 0 <= yy < ysize imOut ->
         image32f o yy xx = positive_zero (image32f imIn yy xx)).
Proof.
  intros sin malloc imOut imIn flt Hflt Hmode Hys Hxs HL Hmalloc.
  destruct Hflt as [-> | [-> | ->]].
  - apply (single_tap_resampling sin malloc IMAGING_TRANSFORM_NEAREST NEAREST
             nearest_geometry imOut imIn (fun xx => xx)); auto.
    + apply prepare_nearest; [exact Hxs|lia].
    + cbn. lia.
    + apply in_int_small. cbn [kmax nearest_geometry]. lia.
    + apply in_int_small. lia.
    + intros xx Hxx. apply nearest_taps; lia.
  - apply (single_tap_resampling sin malloc IMAGING_TRANSFORM_BILINEAR BILINEAR
             (same_width_geometry 1) imOut imIn (fun xx => xx)); auto.
    + apply prepare_bilinear_same_width; [exact Hxs|lia].
    + cbn. lia.
    + apply in_int_small. cbn [kmax same_width_geometry]. lia.
    + apply in_int_small. lia.
    + intros xx Hxx. apply bilinear_taps; lia.
  - apply (single_tap_resampling sin malloc IMAGING_TRANSFORM_BICUBIC BICUBIC
             (same_width_geometry 2) imOut imIn (fun xx => xx)); auto.
    + apply prepare_bicubic_same_width; [exact Hxs|lia].
    + cbn. lia.
    + apply in_int_small. cbn [kmax same_width_geometry]. lia.
    + apply in_int_small. lia.
    + intros xx Hxx. apply bicubic_taps; lia.
Qed.

Lemma same_width_resampling_is_identity_witness :
  exists o,
    ImagingStretchHorizaontal sin_stub malloc_zeroed (Some blank8) (Some ramp8)
      IMAGING_TRANSFORM_BICUBIC = Ok (Some o) /\
    forall xx yy, 0 <= xx < xsize blank8 -> 0 <= yy < ysize blank8 ->
      cell8 o yy xx
      = Some (plane_of_rows 0 [[10; 20; 30; 40; 50; 60; 70; 80]] yy xx).
Proof.
  refine (proj1 (same_width_resampling_is_identity sin_stub malloc_zeroed blank8 ramp8
                   IMAGING_TRANSFORM_BICUBIC (or_intror (or_intror eq_refl))
                   eq_refl eq_refl eq_refl _ _) _ eq_refl _ _).
  - change (xsize ramp8) with 8. lia.
  - intros n. discriminate.
  - discriminate.
  - intros xx yy Hxx Hyy.
    change (xsize ramp8) with 8 in Hxx. change (ysize ramp8) with 1 in Hyy.
    assert (yy = 0) as -> by lia.
    assert (Hc : xx = 0 \/ xx = 1 \/ xx = 2 \/ xx = 3 \/ xx = 4 \/ xx = 5 \/ xx = 6 \/ xx = 7)
      by lia.
    destruct Hc as [-> | [-> | [-> | [-> | [-> | [-> | [-> | -> ]]]]]]];
      vm_compute; split; discriminate.
Defined.

(** ** The kernels *)

Lemma abs_finite s m e :
  valid_binary 24 128 (S754_finite s m e) = true ->
  (if F64.ltb (F64.of_float (S754_finite s m e)) F64.zero
   then SFopp (S754_finite s m e) else S754_finite s m e)
  = S754_finite false m e.
Proof.
  intros Hv. rewrite (of_float_finite s m e Hv). destruct s; reflexivity.
Qed.

(** X11.  The bilinear and the bicubic kernel are even functions, on
    every float; every kernel is 1 at zero of either sign, the Lanczos
    kernel whatever [sin] returns; and the nearest kernel is not even: it
    is 1 at -0.5 and 0 at 0.5. *)
Theorem kernels_are_even_and_one_at_zero :
  (forall x, valid_binary 24 128 x = true ->
     bilinear_filter (SFopp x) = bilinear_filter x /\
     bicubic_filter (SFopp x) = bicubic_filter x) /\
  (forall sin s,
     nearest_filter (S754_zero s) = F32.one /\
     bilinear_filter (S754_zero s) = F32.one /\
     bicubic_filter (S754_zero s) = F32.one /\
     sinc_filter sin (S754_zero s) = F32.one /\
     antialias_filter sin (S754_zero s) = F32.one) /\
  nearest_filter (F32.dyadic (-1) (-1)) = F32.one /\
  nearest_filter (F32.dyadic 1 (-1)) = F32.zero.
Proof.
  split; [|split; [|split]].
  - intros x Hv. destruct x as [s|s| |s m e].
    + destruct s; split; vm_compute; reflexivity.
    + destruct s; split; vm_compute; reflexivity.
    + split; reflexivity.
    + assert (Hv' : valid_binary 24 128 (S754_finite (negb s) m e) = true) by exact Hv.
      change (SFopp (S754_finite s m e)) with (S754_finite (negb s) m e).
      unfold bilinear_filter, bicubic_filter.
      rewrite (abs_finite s m e Hv), (abs_finite (negb s) m e Hv').
      split; reflexivity.
  - intros sin s. destruct s; repeat split; vm_compute; reflexivity.
  - vm_compute. reflexivity.
  - vm_compute. reflexivity.
Qed.

(** ** Scaling by a power of two *)

Lemma div_same_mantissa P e1 e2 :
  Zdigits2 (Zpos P) = 24 -> -100 <= e1 - e2 <= 100 ->
  SFdiv 24 128 (S754_finite false P e1) (S754_finite false P e2)
  = binary_round_aux 24 128 false (2 ^ 24) (e1 - e2 - 24) loc_Exact.
Proof.
  intros HdP He. cbn [SFdiv]. unfold SFdiv_core_binary. rewrite HdP.
  replace (Z.min (SpecFloat.fexp 24 128 (24 + e1 - (24 + e2))) (e1 - e2)) with (e1 - e2 - 24)
    by (unfold SpecFloat.fexp, SpecFloat.emin; lia).
  replace (e1 - e2 - (e1 - e2 - 24)) with 24 by lia.
  rewrite Z.shiftl_mul_pow2 by lia.
  assert (Hdiv : Z.div_eucl (Zpos P * 2 ^ 24) (Zpos P) = (2 ^ 24, 0)).
  { pose proof (Z_div_mod (Zpos P * 2 ^ 24) (Zpos P) ltac:(lia)) as Hdm.
    destruct (Z.div_eucl (Zpos P * 2 ^ 24) (Zpos P)) as [q r].
    destruct Hdm as [Heq Hr'].
    assert (q = 2 ^ 24 /\ r = 0) as [-> ->]; [|reflexivity].
    assert (Hq : Zpos P * (2 ^ 24 - q) = r) by lia.
    assert (2 ^ 24 - q = 0) by nia.
    split; nia. }
  rewrite Hdiv.
  assert (Hloc : new_location (Zpos P) 0 = loc_Exact).
  { unfold new_location, new_location_even, new_location_odd.
    destruct (Z.even (Zpos P)); reflexivity. }
  rewrite Hloc. reflexivity.
Qed.

Lemma of_int_canonical L :
  0 < L < 2 ^ 24 ->
  F32.of_int L
  = S754_finite false (Z.to_pos (L * 2 ^ (24 - Zdigits2 L))) (Zdigits2 L - 24) /\
  Zdigits2 (Zpos (Z.to_pos (L * 2 ^ (24 - Zdigits2 L)))) = 24.
Proof.
  intros HL.
  assert (Hr : representable 24 128 L 0) by small.
  unfold F32.of_int, F32.dyadic, F32.prec, F32.emax.
  rewrite (normalize_exact 24 128 L 0 false Hr).
  destruct Hr as (Hz & Hd & _).
  replace (L <? 0) with false by (symmetry; apply Z.ltb_ge; lia).
  rewrite Z.abs_eq by lia.
  assert (H2 : 0 < 2 ^ (24 - Zdigits2 L)) by (apply Z.pow_pos_nonneg; lia).
  split; [f_equal; lia|].
  rewrite Z2Pos.id by nia. rewrite Zdigits2_shift by lia. lia.
Qed.

Lemma Zdigits2_double L : 0 < L -> Zdigits2 (2 * L) = Zdigits2 L + 1.
Proof.
  intros HL. replace (2 * L) with (L * 2 ^ 1) by lia. apply Zdigits2_shift; lia.
Qed.

Lemma of_int_double L :
  0 < L -> 2 * L < 2 ^ 24 ->
  exists P e, Zdigits2 (Zpos P) = 24 /\
    F32.of_int L = S754_finite false P e /\ F32.of_int (2 * L) = S754_finite false P (e + 1).
Proof.
  intros HL H2L.
  destruct (of_int_canonical L ltac:(lia)) as [H1 Hd1].
  destruct (of_int_canonical (2 * L) ltac:(lia)) as [H2 _].
  exists (Z.to_pos (L * 2 ^ (24 - Zdigits2 L))), (Zdigits2 L - 24).
  split; [exact Hd1|]. split; [exact H1|].
  rewrite H2, Zdigits2_double by lia.
  pose proof (Zdigits2_pos L HL) as Hp.
  assert (Hd : Zdigits2 L + 1 <= 24).
  { rewrite <- Zdigits2_double by lia. apply Zdigits2_le; lia. }
  f_equal; [|lia].
  f_equal. replace (24 - Zdigits2 L) with (24 - (Zdigits2 L + 1) + 1) by lia.
  rewrite Z.pow_add_r by lia. change (2 ^ 1) with 2. lia.
Qed.

Lemma div_half L :
  0 < L -> 2 * L < 2 ^ 24 -> F32.div (F32.of_int L) (F32.of_int (2 * L)) = F32.dyadic 1 (-1).
Proof.
  intros HL H2L. destruct (of_int_double L HL H2L) as (P & e & Hd & -> & ->).
  unfold F32.div, F32.prec, F32.emax. rewrite div_same_mantissa by (try exact Hd; lia).
  replace (e - (e + 1) - 24) with (-25) by lia. vm_compute. reflexivity.
Qed.

Lemma div_two L :
  0 < L -> 2 * L < 2 ^ 24 -> F32.div (F32.of_int (2 * L)) (F32.of_int L) = F32.of_int 2.
Proof.
  intros HL H2L. destruct (of_int_double L HL H2L) as (P & e & Hd & -> & ->).
  unfold F32.div, F32.prec, F32.emax. rewrite div_same_mantissa by (try exact Hd; lia).
  replace (e + 1 - e - 24) with (-23) by lia. vm_compute. reflexivity.
Qed.

Lemma prepare_doubling imOut imIn :
  xsize imOut = 2 * xsize imIn -> 0 < xsize imIn -> 2 * xsize imIn < 2 ^ 24 ->
  prepare NEAREST imOut imIn = Some doubling_geometry.
Proof.
  intros Hx HL H2L. unfold prepare. rewrite Hx, div_half by assumption.
  vm_compute. reflexivity.
Qed.

Lemma prepare_halving imOut imIn :
  xsize imIn = 2 * xsize imOut -> 0 < xsize imOut -> 2 * xsize imOut < 2 ^ 24 ->
  prepare NEAREST imOut imIn = Some halving_geometry.
Proof.
  intros Hx HL H2L. unfold prepare. rewrite Hx, div_two by assumption.
  vm_compute. reflexivity.
Qed.

(** Multiplication by a power of two is exact. *)
Lemma mul_dyadic_pow2 prec emax z e k :
  1 < prec ->
  representable prec emax z e -> representable prec emax z (e + k) ->
  representable prec emax 1 k ->
  SFmul prec emax (binary_normalize prec emax z e false) (binary_normalize prec emax 1 k false)
  = binary_normalize prec emax z (e + k) false.
Proof.
  intros Hprec Hz Hzk H1.
  rewrite (normalize_exact prec emax z e false Hz), (normalize_exact prec emax z (e + k) false Hzk),
    (normalize_exact prec emax 1 k false H1).
  destruct Hz as (Hz0 & Hd & Hlo & Hhi). destruct Hzk as (_ & _ & Hlo' & Hhi').
  cbn [Zdigits2 digits2_pos Z.ltb Z.compare Z.abs]. rewrite Z.mul_1_l.
  assert (H2 : 0 < 2 ^ (prec - 1)) by (apply Z.pow_pos_nonneg; lia).
  assert (H2d : 0 < 2 ^ (prec - Zdigits2 z)) by (apply Z.pow_pos_nonneg; lia).
  set (M := Z.to_pos (Z.abs z * 2 ^ (prec - Zdigits2 z))).
  assert (HM : Zpos M = Z.abs z * 2 ^ (prec - Zdigits2 z)) by (apply Z2Pos.id; nia).
  assert (HdM : Zdigits2 (Zpos M) = prec).
  { rewrite HM, Zdigits2_shift, Zdigits2_abs by lia. lia. }
  cbn [SFmul]. rewrite xorb_false_r.
  rewrite Pos2Z.inj_mul, (Z2Pos.id (2 ^ (prec - 1))) by lia.
  rewrite BRA_shift; try lia.
  - replace (e + Zdigits2 z - prec + (k + 1 - prec) + (prec - 1))
      with (e + k + Zdigits2 z - prec) by lia.
    apply BRA_canonical.
    + unfold canonical_mantissa. apply Z.eqb_eq.
      change (Zpos (digits2_pos M)) with (Zdigits2 (Zpos M)). rewrite HdM.
      unfold SpecFloat.fexp. lia.
    + lia.
  - rewrite HdM. unfold SpecFloat.fexp. lia.
Qed.

(** ** The nearest filter at twice the width *)

Lemma center_doubling xx :
  0 <= xx < 2 ^ 23 -> column_center doubling_geometry xx = F32.dyadic (2 * xx + 1) (-2).
Proof.
  intros Hxx. destruct (Z.eq_dec xx 0) as [->|Hne]; [vm_compute; reflexivity|].
  unfold column_center. cbn [scale doubling_geometry].
  change (F64.of_float (F32.dyadic 1 (-1))) with (binary_normalize 53 1024 1 (-1) false).
  unfold F64.of_int, F64.half, F64.dyadic, F64.add, F64.mul, F64.prec, F64.emax.
  rewrite (add_representable 53 1024 xx 0 1 (-1)) by small.
  change (Z.min 0 (-1)) with (-1). change (0 - -1) with 1. change (-1 - -1) with 0.
  replace (xx * 2 ^ 1 + 1 * 2 ^ 0) with (2 * xx + 1) by lia.
  rewrite (mul_dyadic_pow2 53 1024 (2 * xx + 1) (-1) (-1)) by (try lia; small).
  apply of_double_dyadic. small.
Qed.

Lemma to_int_clamped_floor z s :
  z <> 0 \/ s = false -> -1 <= z < 2 ^ 23 ->
  let xmin := F32.of_double (binary_normalize 53 1024 z 0 s) in
  to_int (if F64.ltb (F64.of_float xmin) F64.zero then F32.zero else xmin)
  = Some (Z.max 0 z).
Proof.
  intros Hs Hz. cbv zeta.
  destruct (Z.eq_dec z 0) as [->|H0].
  - destruct Hs as [Hs | ->]; [congruence|]. reflexivity.
  - rewrite (normalize_sign_irrelevant 53 1024 z 0 s false H0).
    change (binary_normalize 53 1024 z 0 false) with (F64.of_int z).
    rewrite of_double_of_int, of_float_of_int, ltb64_zero by lia.
    destruct (Z.ltb_spec z 0) as [Hneg|Hpos].
    + replace (Z.max 0 z) with 0 by lia. reflexivity.
    + replace (Z.max 0 z) with z by lia.
      apply to_int_integer; [small|]. apply in_int_small. lia.
Qed.

Lemma to_int_clamped_ceil h imIn :
  0 < h < 2 ^ 23 -> 0 <= xsize imIn <= 2 ^ 23 ->
  let xmax := F32.of_double (binary_normalize 53 1024 h 0 false) in
  to_int (if F32.ltb (F32.of_int (xsize imIn)) xmax then F32.of_int (xsize imIn) else xmax)
  = Some (Z.min (xsize imIn) h).
Proof.
  intros Hh HL. cbv zeta.
  change (binary_normalize 53 1024 h 0 false) with (F64.of_int h).
  rewrite of_double_of_int by lia.
  destruct (F32.ltb (F32.of_int (xsize imIn)) (F32.of_int h)) eqn:Hlt.
  - destruct (Z.le_gt_cases h (xsize imIn)) as [Hle|Hgt].
    + rewrite ltb_integers in Hlt by (try small; lia). discriminate.
    + replace (Z.min (xsize imIn) h) with (xsize imIn) by lia.
      destruct (Z.eq_dec (xsize imIn) 0) as [->|Hne]; [reflexivity|].
      apply to_int_integer; [small|]. apply in_int_small. lia.
  - assert (Htr : Ztrunc (F32.of_int h) = Some h) by (apply Ztrunc_integer; small).
    pose proof (ltb_false_Ztrunc_le (xsize imIn) _ _ ltac:(lia)
                  (of_int32_valid h) Hlt Htr) as Hle.
    replace (Z.min (xsize imIn) h) with h by lia.
    apply to_int_integer; [small|]. apply in_int_small. lia.
Qed.

Lemma xmin_doubling xx :
  0 <= xx < 2 ^ 22 ->
  to_int (column_xmin doubling_geometry xx) = Some (Z.max 0 ((2 * xx - 1) / 4)).
Proof.
  intros Hxx. unfold column_xmin. rewrite center_doubling by lia.
  cbn [g_support doubling_geometry].
  assert (Hsub : F32.sub (F32.dyadic (2 * xx + 1) (-2)) (F32.dyadic 1 (-1))
                 = F32.dyadic (2 * xx - 1) (-2)).
  { unfold F32.sub, F32.dyadic, F32.prec, F32.emax.
    rewrite (sub_representable 24 128 (2 * xx + 1) (-2) 1 (-1)) by small.
    change (Z.min (-2) (-1)) with (-2). change (-2 - -2) with 0. change (-1 - -2) with 1.
    f_equal. lia. }
  rewrite Hsub, of_float_dyadic by small.
  rewrite floor_dyadic by (try lia; apply representable_small; try lia; vm_compute; discriminate).
  change (2 ^ (- -2)) with 4.
  apply to_int_clamped_floor.
  - destruct (Z.eq_dec xx 0) as [->|Hne]; [left; vm_compute; discriminate|].
    right. apply Z.ltb_ge. lia.
  - assert (-1 <= (2 * xx - 1) / 4) by (apply Z.div_le_lower_bound; lia).
    assert ((2 * xx - 1) / 4 < 2 ^ 23) by (apply Z.div_lt_upper_bound; lia).
    lia.
Qed.

Lemma xmax_doubling imIn xx :
  0 <= xx < 2 ^ 22 -> 0 <= xsize imIn <= 2 ^ 23 ->
  to_int (column_xmax doubling_geometry imIn xx)
  = Some (Z.min (xsize imIn) (- ((- (2 * xx + 3)) / 4))).
Proof.
  intros Hxx HL. unfold column_xmax. rewrite center_doubling by lia.
  cbn [g_support doubling_geometry].
  assert (Hadd : F32.add (F32.dyadic (2 * xx + 1) (-2)) (F32.dyadic 1 (-1))
                 = F32.dyadic (2 * xx + 3) (-2)).
  { unfold F32.add, F32.dyadic, F32.prec, F32.emax.
    rewrite (add_representable 24 128 (2 * xx + 1) (-2) 1 (-1)) by small.
    change (Z.min (-2) (-1)) with (-2). change (-2 - -2) with 0. change (-1 - -2) with 1.
    f_equal. lia. }
  rewrite Hadd, of_float_dyadic by small.
  rewrite ceil_dyadic by (try lia; apply representable_small; try lia; vm_compute; discriminate).
  change (2 ^ (- -2)) with 4.
  assert (Hq : - 2 ^ 22 <= - (2 * xx + 3) / 4 < 0).
  { split; [apply Z.div_le_lower_bound; lia|apply Z.div_lt_upper_bound; lia]. }
  rewrite (normalize_sign_irrelevant 53 1024 _ 0 _ false) by lia.
  apply to_int_clamped_ceil; lia.
Qed.

Lemma weight_doubling xx x c :
  0 <= xx < 2 ^ 22 -> 0 <= x < 2 ^ 21 -> c = 4 * x - (2 * xx + 1) ->
  weight NEAREST (column_center doubling_geometry xx) (column_ss doubling_geometry) x
  = F32.mul
      (nearest_filter
         (F32.of_double
            (F64.mul (F64.add (F64.of_float (F32.dyadic c (-2))) F64.half)
               (F64.of_float F32.one))))
      F32.one.
Proof.
  intros Hxx Hx ->. unfold weight. rewrite center_doubling by lia.
  rewrite (ss_unit_scale doubling_geometry eq_refl).
  rewrite sub_int_dyadic; try lia; try small.
  2:{ destruct (Z.eq_dec x 0); [left; assumption|right; small]. }
  change (2 ^ (- -2)) with 4.
  replace (x * 4 - (2 * xx + 1)) with (4 * x - (2 * xx + 1)) by lia.
  reflexivity.
Qed.

Lemma doubling_taps imIn xx :
  0 <= xx < 2 * xsize imIn -> xsize imIn <= 2 ^ 21 ->
  single_tap NEAREST doubling_geometry imIn xx (xx / 2).
Proof.
  intros Hxx HL.
  set (m := xx / 2).
  assert (Hm : xx = 2 * m \/ xx = 2 * m + 1).
  { unfold m. pose proof (Z.div_mod xx 2 ltac:(lia)).
    pose proof (Z.mod_pos_bound xx 2 ltac:(lia)). lia. }
  assert (Hlo : (2 * xx - 1) / 4 = if Z.even xx then m - 1 else m).
  { destruct Hm as [Hm|Hm]; rewrite Hm.
    - rewrite Z.even_mul. cbn [Z.even orb].
      symmetry. apply (Z.div_unique _ 4 _ 3); lia.
    - rewrite Z.even_add, Z.even_mul. cbn [Z.even orb Bool.eqb].
      symmetry. apply (Z.div_unique _ 4 _ 1); lia. }
  assert (Hhi : - ((- (2 * xx + 3)) / 4) = if Z.even xx then m + 1 else m + 2).
  { destruct Hm as [Hm|Hm]; rewrite Hm.
    - rewrite Z.even_mul. cbn [Z.even orb].
      assert (Hq : - (m + 1) = - (2 * (2 * m) + 3) / 4)
        by (apply (Z.div_unique _ 4 _ 1); lia).
      rewrite <- Hq. lia.
    - rewrite Z.even_add, Z.even_mul. cbn [Z.even orb Bool.eqb].
      assert (Hq : - (m + 2) = - (2 * (2 * m + 1) + 3) / 4)
        by (apply (Z.div_unique _ 4 _ 3); lia).
      rewrite <- Hq. lia. }
  exists (Z.max 0 ((2 * xx - 1) / 4)), (Z.min (xsize imIn) (- ((- (2 * xx + 3)) / 4))).
  split; [apply xmin_doubling; lia|].
  split; [apply xmax_doubling; lia|].
  rewrite Hlo, Hhi. clear Hlo Hhi.
  assert (Hml : 0 <= m < xsize imIn) by lia.
  destruct Hm as [Hm|Hm].
  - assert (He : Z.even xx = true) by (rewrite Hm, Z.even_mul; reflexivity).
    rewrite He.
    split; [lia|]. split; [lia|]. split; [cbn [kmax doubling_geometry]; lia|].
    split.
    + rewrite (weight_doubling xx m (-1)) by lia. vm_compute. reflexivity.
    + intros x Hx Hne. assert (x = m - 1) by lia. subst x.
      rewrite (weight_doubling xx (m - 1) (-5)) by lia.
      eexists. vm_compute. reflexivity.
  - assert (He : Z.even xx = false)
      by (rewrite Hm, Z.even_add, Z.even_mul; reflexivity).
    rewrite He.
    split; [lia|]. split; [lia|]. split; [cbn [kmax doubling_geometry]; lia|].
    split.
    + rewrite (weight_doubling xx m (-3)) by lia. vm_compute. reflexivity.
    + intros x Hx Hne. assert (x = m + 1) by lia. subst x.
      rewrite (weight_doubling xx (m + 1) 1) by lia.
      eexists. vm_compute. reflexivity.
Qed.

(** X9.  For a source at most 2^21 pixels wide and a destination of the
    same mode and height that is twice as wide, with both scratch
    allocations granted, [ImagingStretchHorizaontal] with the nearest
    filter repeats every source pixel twice: output pixel [xx] is source
    pixel [xx / 2], in each of four cases: an 8-bit plane; a packed image
    of at most four bands (every visited lane); an INT32 image all of
    whose pixels have magnitude at most 2^24; a FLOAT32 image all of whose
    pixels are finite (a negative zero comes out positive). *)
Theorem nearest_doubling_replicates_pixels :
  forall sin malloc imOut imIn,
    mode imIn = mode imOut ->
    ysize imOut = ysize imIn ->
    xsize imOut = 2 * xsize imIn ->
    1 <= xsize imIn <= 2 ^ 21 ->
    (forall n, malloc n <> None) ->
    (forall src,
        image8 imIn = Some src -> image8 imOut <> None ->
        (forall x yy, 0 <= x < xsize imIn -> 0 <= yy < ysize imIn -> 0 <= src yy x <= 255) ->
        exists o,
          ImagingStretchHorizaontal sin malloc (Some imOut) (Some imIn)
            IMAGING_TRANSFORM_NEAREST = Ok (Some o) /\
          forall xx yy, 0 <= xx < xsize imOut -> 0 <= yy < ysize imOut ->
            cell8 o yy xx = Some (src yy (xx / 2))) /\
    (image8 imIn = None -> type imIn = IMAGING_TYPE_UINT8 -> bands imIn <= 4 ->
     exists o,
       ImagingStretchHorizaontal sin malloc (Some imOut) (Some imIn)
         IMAGING_TRANSFORM_NEAREST = Ok (Some o) /\
       forall xx yy b, 0 <= xx < xsize imOut -> 0 <= yy < ysize imOut ->
         visited_lane (bands imIn) b = true ->
         image o yy (xx * 4 + b) = image imIn yy (xx / 2 * 4 + b) mod 256) /\
    (image8 imIn = None -> type imIn = IMAGING_TYPE_INT32 ->
     (forall x yy, 0 <= x < xsize imIn -> 0 <= yy < ysize imIn ->
        Z.abs (image32 imIn yy x) <= 2 ^ 24) ->
     exists o,
       ImagingStretchHorizaontal sin malloc (Some imOut) (Some imIn)
         IMAGING_TRANSFORM_NEAREST = Ok (Some o) /\
       forall xx yy, 0 <= xx < xsize imOut -> 0 <= yy < ysize imOut ->
         image32 o yy xx = image32 imIn yy (xx / 2)) /\
    (image8 imIn = None -> type imIn = IMAGING_TYPE_FLOAT32 ->
     (forall x yy, 0 <= x < xsize imIn -> 0 <= yy < ysize imIn ->
        is_finite (image32f imIn yy x) = true /\
        valid_binary 24 128 (image32f imIn yy x) = true) ->
     exists o,
       ImagingStretchHorizaontal sin malloc (Some imOut) (Some imIn)
         IMAGING_TRANSFORM_NEAREST = Ok (Some o) /\
       forall xx yy, 0 <= xx < xsize imOut -> 0 <= yy < ysize imOut ->
         image32f o yy xx = positive_zero (image32f imIn yy (xx / 2))).
Proof.
  intros sin malloc imOut imIn Hmode Hys Hxs HL Hmalloc.
  apply (single_tap_resampling sin malloc IMAGING_TRANSFORM_NEAREST NEAREST
           doubling_geometry imOut imIn (fun xx => xx / 2)); auto.
  - apply prepare_doubling; [exact Hxs|lia|lia].
  - cbn. lia.
  - apply in_int_small. cbn [kmax doubling_geometry]. lia.
  - apply in_int_small. lia.
  - intros xx Hxx. apply doubling_taps; lia.
Qed.

Lemma nearest_doubling_replicates_pixels_witness :
  exists o,
    ImagingStretchHorizaontal sin_stub malloc_zeroed (Some blank8) (Some ramp4)
      IMAGING_TRANSFORM_NEAREST = Ok (Some o) /\
    forall xx yy, 0 <= xx < xsize blank8 -> 0 <= yy < ysize blank8 ->
      cell8 o yy xx = Some (plane_of_rows 0 [[10; 20; 30; 40]] yy (xx / 2)).
Proof.
  refine (proj1 (nearest_doubling_replicates_pixels sin_stub malloc_zeroed blank8 ramp4
                   eq_refl eq_refl eq_refl _ _) _ eq_refl _ _).
  - change (xsize ramp4) with 4. lia.
  - intros n. discriminate.
  - discriminate.
  - intros x yy Hx Hyy.
    change (xsize ramp4) with 4 in Hx. change (ysize ramp4) with 1 in Hyy.
    assert (yy = 0) as -> by lia.
    assert (Hc : x = 0 \/ x = 1 \/ x = 2 \/ x = 3) by lia.
    destruct Hc as [-> | [-> | [-> | -> ]]]; vm_compute; split; discriminate.
Defined.

(** ** The nearest filter at half the width *)

Lemma center_halving xx :
  0 <= xx < 2 ^ 22 -> column_center halving_geometry xx = F32.of_int (2 * xx + 1).
Proof.
  intros Hxx. destruct (Z.eq_dec xx 0) as [->|Hne]; [vm_compute; reflexivity|].
  unfold column_center. cbn [scale halving_geometry].
  change (F64.of_float (F32.of_int 2)) with (binary_normalize 53 1024 1 1 false).
  unfold F64.of_int, F64.half, F64.dyadic, F64.add, F64.mul, F64.prec, F64.emax.
  rewrite (add_representable 53 1024 xx 0 1 (-1)) by small.
  change (Z.min 0 (-1)) with (-1). change (0 - -1) with 1. change (-1 - -1) with 0.
  replace (xx * 2 ^ 1 + 1 * 2 ^ 0) with (2 * xx + 1) by lia.
  rewrite (mul_dyadic_pow2 53 1024 (2 * xx + 1) (-1) 1) by (try lia; small).
  change (-1 + 1) with 0.
  change (binary_normalize 53 1024 (2 * xx + 1) 0 false) with (F64.of_int (2 * xx + 1)).
  apply of_double_of_int. lia.
Qed.

Lemma xmin_halving xx :
  0 <= xx < 2 ^ 21 -> to_int (column_xmin halving_geometry xx) = Some (2 * xx).
Proof.
  intros Hxx. destruct (Z.eq_dec xx 0) as [->|Hne]; [vm_compute; reflexivity|].
  unfold column_xmin. rewrite center_halving by lia.
  cbn [g_support halving_geometry].
  assert (Hsub : F32.sub (F32.of_int (2 * xx + 1)) F32.one = F32.of_int (2 * xx)).
  { unfold F32.sub, F32.one, F32.of_int, F32.dyadic, F32.prec, F32.emax.
    rewrite (sub_representable 24 128 (2 * xx + 1) 0 1 0) by small.
    change (Z.min 0 0) with 0. change (0 - 0) with 0. rewrite Z.pow_0_r, !Z.mul_1_r.
    f_equal. lia. }
  rewrite Hsub, of_float_of_int, floor_integer by (try small; lia).
  replace (Some (2 * xx)) with (Some (Z.max 0 (2 * xx))) by (f_equal; lia).
  apply (to_int_clamped_floor (2 * xx) false); [right; reflexivity|lia].
Qed.

Lemma xmax_halving imIn xx :
  0 <= xx < 2 ^ 21 -> 2 * xx + 2 <= xsize imIn <= 2 ^ 23 ->
  to_int (column_xmax halving_geometry imIn xx) = Some (2 * xx + 2).
Proof.
  intros Hxx HL. unfold column_xmax. rewrite center_halving by lia.
  cbn [g_support halving_geometry].
  assert (Hadd : F32.add (F32.of_int (2 * xx + 1)) F32.one = F32.of_int (2 * xx + 2)).
  { unfold F32.add, F32.one, F32.of_int, F32.dyadic, F32.prec, F32.emax.
    rewrite (add_representable 24 128 (2 * xx + 1) 0 1 0) by small.
    change (Z.min 0 0) with 0. change (0 - 0) with 0. rewrite Z.pow_0_r, !Z.mul_1_r.
    f_equal. lia. }
  rewrite Hadd, of_float_of_int, ceil_integer by (try small; lia).
  replace (Some (2 * xx + 2)) with (Some (Z.min (xsize imIn) (2 * xx + 2))) by (f_equal; lia).
  apply (to_int_clamped_ceil (2 * xx + 2) imIn); lia.
Qed.

Lemma weight_halving xx x :
  0 <= xx < 2 ^ 21 -> x = 2 * xx \/ x = 2 * xx + 1 ->
  weight NEAREST (column_center halving_geometry xx) (column_ss halving_geometry) x
  = F32.dyadic 1 (-1).
Proof.
  intros Hxx Hx. destruct (Z.eq_dec xx 0) as [->|Hne].
  { destruct Hx as [-> | ->]; vm_compute; reflexivity. }
  unfold weight. rewrite center_halving by lia.
  assert (Hsub : F32.sub (F32.of_int x) (F32.of_int (2 * xx + 1))
                 = F32.of_int (x - (2 * xx + 1))).
  { unfold F32.sub, F32.of_int, F32.dyadic, F32.prec, F32.emax.
    rewrite (sub_representable 24 128 x 0 (2 * xx + 1) 0) by (destruct Hx; subst x; small).
    change (Z.min 0 0) with 0. change (0 - 0) with 0. rewrite Z.pow_0_r, !Z.mul_1_r.
    reflexivity. }
  rewrite Hsub.
  destruct Hx as [-> | ->].
  - replace (2 * xx - (2 * xx + 1)) with (-1) by lia. vm_compute. reflexivity.
  - replace (2 * xx + 1 - (2 * xx + 1)) with 0 by lia. vm_compute. reflexivity.
Qed.

Lemma Zrange_two x : Zrange x (x + 2) = [x; x + 1].
Proof.
  rewrite Zrange_cons by lia. rewrite Zrange_cons by lia. rewrite Zrange_nil by lia.
  reflexivity.
Qed.

Lemma column_value_halving {V : Type} (px : Z -> Z -> Z -> float)
    (finish : float -> float -> option V) imIn xx yy b :
  0 <= xx < 2 ^ 21 -> 2 * xx + 2 <= xsize imIn <= 2 ^ 23 ->
  column_value px finish NEAREST halving_geometry imIn xx yy b
  = finish (F32.add (F32.add F32.zero (F32.mul (px yy b (2 * xx)) (F32.dyadic 1 (-1))))
                    (F32.mul (px yy b (2 * xx + 1)) (F32.dyadic 1 (-1))))
           F32.one.
Proof.
  intros Hxx HL. unfold column_value, column_plan.
  rewrite xmin_halving, (xmax_halving imIn xx) by lia.
  unfold column_sum, weight_total. rewrite Zrange_two. cbn [fold_left].
  rewrite !weight_halving by lia.
  reflexivity.
Qed.

Lemma window_halving imIn xx :
  0 <= xx < 2 ^ 21 -> 2 * xx + 2 <= xsize imIn <= 2 ^ 23 ->
  window_ok halving_geometry imIn xx = true.
Proof.
  intros Hxx HL. unfold window_ok.
  rewrite xmin_halving, (xmax_halving imIn xx) by lia.
  cbn [kmax halving_geometry]. unfold reads_in_bounds.
  apply andb_true_intro. split; apply orb_true_intro; right.
  - apply Z.leb_le. lia.
  - apply andb_true_intro. split; apply Z.leb_le; lia.
Qed.

Lemma pair_pixel8_average p q :
  0 <= p <= 255 -> 0 <= q <= 255 -> pair_pixel8 p q = Some ((p + q + 1) / 2).
Proof.
  intros Hp Hq.
  assert (Hall : forallb (fun a =>
                    forallb (fun c => match pair_pixel8 a c with
                                      | Some v => v =? (a + c + 1) / 2
                                      | None => false
                                      end) (Zrange 0 256)) (Zrange 0 256) = true)
    by (vm_compute; reflexivity).
  rewrite forallb_forall in Hall.
  specialize (Hall p ltac:(apply in_Zrange; lia)).
  rewrite forallb_forall in Hall.
  specialize (Hall q ltac:(apply in_Zrange; lia)).
  destruct (pair_pixel8 p q) as [v|]; [|discriminate].
  apply Z.eqb_eq in Hall. congruence.
Qed.

(** The INT32 sum of a pair of pixels with weight 0.5 each, exactly. *)

Lemma mul_half p :
  Z.abs p < 2 ^ 24 ->
  F32.mul (F32.of_int p) (F32.dyadic 1 (-1)) = F32.dyadic p (-1).
Proof.
  intros Hp. destruct (Z.eq_dec p 0) as [->|Hne]; [reflexivity|].
  unfold F32.mul, F32.of_int, F32.dyadic, F32.prec, F32.emax.
  rewrite (mul_dyadic_pow2 24 128 p 0 (-1)) by (try lia; small). reflexivity.
Qed.

Lemma add_zero_dyadic z e :
  z = 0 \/ representable 24 128 z e ->
  F32.add F32.zero (F32.dyadic z e) = F32.dyadic z e.
Proof.
  intros [->|Hz]; [reflexivity|].
  unfold F32.dyadic, F32.prec, F32.emax.
  rewrite (normalize_exact 24 128 z e false Hz). reflexivity.
Qed.

Lemma add_halves p q :
  Z.abs p < 2 ^ 24 -> Z.abs q < 2 ^ 24 ->
  F32.add (F32.dyadic p (-1)) (F32.dyadic q (-1)) = F32.dyadic (p + q) (-1).
Proof.
  intros Hp Hq.
  destruct (Z.eq_dec p 0) as [->|Hp0].
  { apply add_zero_dyadic. destruct (Z.eq_dec q 0); [left; assumption|right; small]. }
  destruct (Z.eq_dec q 0) as [->|Hq0].
  { rewrite Z.add_0_r. unfold F32.dyadic, F32.prec, F32.emax.
    rewrite (normalize_exact 24 128 p (-1) false) by small. reflexivity. }
  unfold F32.add, F32.dyadic, F32.prec, F32.emax.
  rewrite (add_representable 24 128 p (-1) q (-1)) by small.
  change (Z.min (-1) (-1)) with (-1). change (-1 - -1) with 0.
  rewrite Z.pow_0_r, !Z.mul_1_r. reflexivity.
Qed.

Lemma Ztrunc_half z :
  Z.abs z < 2 ^ 24 -> Ztrunc (F32.dyadic z (-1)) = Some (Z.quot z 2).
Proof.
  intros Hz. destruct (Z.eq_dec z 0) as [->|Hne]; [reflexivity|].
  assert (Hr : representable 24 128 z (-1)) by small.
  unfold F32.dyadic, F32.prec, F32.emax.
  rewrite (normalize_exact 24 128 z (-1) false Hr).
  destruct Hr as (_ & Hd & _).
  pose proof (Zdigits2_pos (Z.abs z) ltac:(lia)) as Hdp. rewrite Zdigits2_abs in Hdp.
  cbn [Ztrunc].
  destruct (Z.leb_spec 0 (-1 + Zdigits2 z - 24)) as [H0|H0]; [lia|].
  assert (H2 : 0 < 2 ^ (24 - Zdigits2 z)) by (apply Z.pow_pos_nonneg; lia).
  rewrite Z2Pos.id by nia.
  replace (2 ^ (- (-1 + Zdigits2 z - 24))) with (2 ^ (24 - Zdigits2 z) * 2 ^ 1)
    by (rewrite <- Z.pow_add_r by lia; f_equal; lia).
  rewrite div_pow2_cancel by lia. change (2 ^ 1) with 2.
  f_equal.
  destruct (Z.ltb_spec z 0) as [Hneg|Hpos]; cbn [cond_Zopp].
  - rewrite Z.abs_neq by lia.
    replace z with (- (- z)) at 2 by lia.
    rewrite Z.quot_opp_l by lia. rewrite Z.quot_div_nonneg by lia. reflexivity.
  - rewrite Z.abs_eq by lia. rewrite Z.quot_div_nonneg by lia. reflexivity.
Qed.

Lemma pair_pixel32_mean p q :
  Z.abs p < 2 ^ 23 -> Z.abs q < 2 ^ 23 ->
  scale_int (F32.add (F32.add F32.zero (F32.mul (F32.of_int p) (F32.dyadic 1 (-1))))
                     (F32.mul (F32.of_int q) (F32.dyadic 1 (-1))))
            F32.one
  = Some (Z.quot (p + q) 2).
Proof.
  intros Hp Hq.
  rewrite !mul_half by lia.
  rewrite add_zero_dyadic
    by (destruct (Z.eq_dec p 0); [left; assumption|right; small]).
  rewrite add_halves by lia.
  unfold scale_int, to_int. rewrite Ztrunc_half by lia.
  set (t := Z.quot (p + q) 2).
  assert (Ht : Z.abs t < 2 ^ 24).
  { unfold t. rewrite <- Z.quot_abs by lia.
    change (Z.abs 2) with 2. rewrite Z.quot_div_nonneg by lia.
    apply Z.div_lt_upper_bound; lia. }
  assert (Hi : in_int t = true).
  { unfold in_int, INT_MIN, INT_MAX. apply andb_true_intro. split; apply Z.leb_le; lia. }
  rewrite Hi, mul_one32 by apply of_int32_valid.
  destruct (Z.eq_dec t 0) as [H0|H0]; [rewrite H0; reflexivity|].
  rewrite Ztrunc_integer by small. rewrite Hi. reflexivity.
Qed.

(** X10.  For a destination at most 2^21 pixels wide and a source of the
    same mode and height that is twice as wide, with both scratch
    allocations granted, [ImagingStretchHorizaontal] with the nearest
    filter averages pairs of pixels: an 8-bit output pixel is the mean of
    source pixels [2 xx] and [2 xx + 1] rounded half up,
    [(p + q + 1) / 2]; an INT32 output pixel (source values of magnitude
    below 2^23) is the mean truncated towards zero. *)
Theorem nearest_halving_averages_pairs :
  forall sin malloc imOut imIn,
    mode imIn = mode imOut ->
    ysize imOut = ysize imIn ->
    xsize imIn = 2 * xsize imOut ->
    1 <= xsize imOut <= 2 ^ 21 ->
    (forall n, malloc n <> None) ->
    (forall src,
        image8 imIn = Some src -> image8 imOut <> None ->
        (forall x yy, 0 <= x < xsize imIn -> 0 <= yy < ysize imIn -> 0 <= src yy x <= 255) ->
        exists o,
          ImagingStretchHorizaontal sin malloc (Some imOut) (Some imIn)
            IMAGING_TRANSFORM_NEAREST = Ok (Some o) /\
          forall xx yy, 0 <= xx < xsize imOut -> 0 <= yy < ysize imOut ->
            cell8 o yy xx = Some ((src yy (2 * xx) + src yy (2 * xx + 1) + 1) / 2)) /\
    (image8 imIn = None -> type imIn = IMAGING_TYPE_INT32 ->
     (forall x yy, 0 <= x < xsize imIn -> 0 <= yy < ysize imIn ->
        Z.abs (image32 imIn yy x) < 2 ^ 23) ->
     exists o,
       ImagingStretchHorizaontal sin malloc (Some imOut) (Some imIn)
         IMAGING_TRANSFORM_NEAREST = Ok (Some o) /\
       forall xx yy, 0 <= xx < xsize imOut -> 0 <= yy < ysize imOut ->
         image32 o yy xx
         = Z.quot (image32 imIn yy (2 * xx) + image32 imIn yy (2 * xx + 1)) 2).
Proof.
  intros sin malloc imOut imIn Hmode Hys Hxs HL Hmalloc.
  assert (Hprep : prepare NEAREST imOut imIn = Some halving_geometry)
    by (apply prepare_halving; [exact Hxs|lia|lia]).
  assert (Hwin : forall xx, 0 <= xx < xsize imOut -> window_ok halving_geometry imIn xx = true)
    by (intros xx Hxx; apply window_halving; lia).
  assert (Hsize : in_int (xsize imOut * kmax halving_geometry) = true)
    by (apply in_int_small; cbn [kmax halving_geometry]; lia).
  assert (Hthree : in_int (xsize imOut * 3) = true) by (apply in_int_small; lia).
  split.
  - intros src H8 Hdst Hrange.
    destruct (stretch_stores_values cell8 (fun s => image8 s <> None) [0] (fun xx _ => xx)
                (fun yy _ x => F32.of_int (src yy x)) (fun ss ww => clip8 (bias8 ss ww))
                sin malloc IMAGING_TRANSFORM_NEAREST NEAREST halving_geometry imOut imIn
                (fun x _ x' _ _ _ Heq => Heq) (format_image8 imIn src H8)
                (defined_image8 imIn src H8) Hmode Hys eq_refl Hprep ltac:(cbn; lia)
                Hsize Hthree Hmalloc Hdst Hwin) as (o & Hcall & Hvals).
    + intros xx yy b Hxx Hyy _. rewrite column_value_halving by lia.
      fold (pair_pixel8 (src yy (2 * xx)) (src yy (2 * xx + 1))).
      rewrite pair_pixel8_average by (apply Hrange; lia). discriminate.
    + exists o. split; [exact Hcall|].
      intros xx yy Hxx Hyy.
      rewrite (Hvals xx yy 0) by (try lia; left; reflexivity).
      rewrite column_value_halving by lia.
      fold (pair_pixel8 (src yy (2 * xx)) (src yy (2 * xx + 1))).
      apply pair_pixel8_average; apply Hrange; lia.
  - intros H8 Hty Hrange.
    destruct (stretch_stores_values cell32 (fun _ => True) [0] (fun xx _ => xx)
                (fun yy _ x => F32.of_int (image32 imIn yy x)) scale_int
                sin malloc IMAGING_TRANSFORM_NEAREST NEAREST halving_geometry imOut imIn
                (fun x _ x' _ _ _ Heq => Heq) (format_image32 imIn H8 Hty)
                (defined_image32 imIn H8 Hty) Hmode Hys eq_refl Hprep ltac:(cbn; lia)
                Hsize Hthree Hmalloc I Hwin) as (o & Hcall & Hvals).
    + intros xx yy b Hxx Hyy _. rewrite column_value_halving by lia.
      rewrite pair_pixel32_mean by (apply Hrange; lia). discriminate.
    + exists o. split; [exact Hcall|].
      intros xx yy Hxx Hyy.
      specialize (Hvals xx yy 0 ltac:(lia) ltac:(lia) (or_introl eq_refl)).
      rewrite column_value_halving in Hvals by lia.
      rewrite pair_pixel32_mean in Hvals by (apply Hrange; lia).
      unfold cell32 in Hvals. congruence.
Qed.

Lemma nearest_halving_averages_pairs_witness :
  exists o,
    ImagingStretchHorizaontal sin_stub malloc_zeroed (Some blank4) (Some ramp8)
      IMAGING_TRANSFORM_NEAREST = Ok (Some o) /\
    forall xx yy, 0 <= xx < xsize blank4 -> 0 <= yy < ysize blank4 ->
      cell8 o yy xx
      = Some ((plane_of_rows 0 [[10; 20; 30; 40; 50; 60; 70; 80]] yy (2 * xx)
               + plane_of_rows 0 [[10; 20; 30; 40; 50; 60; 70; 80]] yy (2 * xx + 1) + 1) / 2).
Proof.
  refine (proj1 (nearest_halving_averages_pairs sin_stub malloc_zeroed blank4 ramp8
                   eq_refl eq_refl eq_refl _ _)
            (plane_of_rows 0 [[10; 20; 30; 40; 50; 60; 70; 80]]) eq_refl _ _).
  - change (xsize blank4) with 4. lia.
  - intros n. discriminate.
  - discriminate.
  - intros x yy Hx Hyy.
    change (xsize ramp8) with 8 in Hx. change (ysize ramp8) with 1 in Hyy.
    assert (yy = 0) as -> by lia.
    assert (Hc : x = 0 \/ x = 1 \/ x = 2 \/ x = 3 \/ x = 4 \/ x = 5 \/ x = 6 \/ x = 7)
      by lia.
    destruct Hc as [-> | [-> | [-> | [-> | [-> | [-> | [-> | -> ]]]]]]];
      vm_compute; split; discriminate.
Defined.

(** * The 8-bit store and round half up *)

(** ** Rounding to nearest keeps the order with the numbers of the format *)

Lemma dle_at c m1 e1 m2 e2 :
  c <= e1 -> c <= e2 ->
  (dle m1 e1 m2 e2 <-> m1 * 2 ^ (e1 - c) <= m2 * 2 ^ (e2 - c)).
Proof.
  intros H1 H2. unfold dle. set (mn := Z.min e1 e2).
  assert (Hk : 0 < 2 ^ (mn - c)) by (apply Z.pow_pos_nonneg; lia).
  replace (e1 - c) with ((e1 - mn) + (mn - c)) by lia.
  replace (e2 - c) with ((e2 - mn) + (mn - c)) by lia.
  rewrite !Z.pow_add_r by lia. rewrite !Z.mul_assoc.
  apply Z.mul_le_mono_pos_r. exact Hk.
Qed.

Lemma dlt_at c m1 e1 m2 e2 :
  c <= e1 -> c <= e2 ->
  (dlt m1 e1 m2 e2 <-> m1 * 2 ^ (e1 - c) < m2 * 2 ^ (e2 - c)).
Proof.
  intros H1 H2. unfold dlt. set (mn := Z.min e1 e2).
  assert (Hk : 0 < 2 ^ (mn - c)) by (apply Z.pow_pos_nonneg; lia).
  replace (e1 - c) with ((e1 - mn) + (mn - c)) by lia.
  replace (e2 - c) with ((e2 - mn) + (mn - c)) by lia.
  rewrite !Z.pow_add_r by lia. rewrite !Z.mul_assoc.
  apply Z.mul_lt_mono_pos_r. exact Hk.
Qed.

Lemma dle_trans a ea b eb c ec :
  dle a ea b eb -> dle b eb c ec -> dle a ea c ec.
Proof.
  set (z := Z.min ea (Z.min eb ec)).
  rewrite (dle_at z a ea b eb), (dle_at z b eb c ec), (dle_at z a ea c ec) by lia. lia.
Qed.

Lemma dlt_le_trans a ea b eb c ec :
  dlt a ea b eb -> dle b eb c ec -> dlt a ea c ec.
Proof.
  set (z := Z.min ea (Z.min eb ec)).
  rewrite (dlt_at z a ea b eb), (dle_at z b eb c ec), (dlt_at z a ea c ec) by lia. lia.
Qed.

Lemma dle_lt_trans a ea b eb c ec :
  dle a ea b eb -> dlt b eb c ec -> dlt a ea c ec.
Proof.
  set (z := Z.min ea (Z.min eb ec)).
  rewrite (dle_at z a ea b eb), (dlt_at z b eb c ec), (dlt_at z a ea c ec) by lia. lia.
Qed.

Lemma dlt_dle a ea b eb : dlt a ea b eb -> dle a ea b eb.
Proof. unfold dlt, dle. lia. Qed.

Lemma dle_refl a ea : dle a ea a ea.
Proof. unfold dle. lia. Qed.

(** The same number at a lower exponent. *)
Lemma dle_shift_l a ea k b eb :
  0 <= k -> (dle (a * 2 ^ k) (ea - k) b eb <-> dle a ea b eb).
Proof.
  intros Hk. set (z := Z.min (ea - k) eb).
  rewrite (dle_at z (a * 2 ^ k) (ea - k) b eb), (dle_at z a ea b eb) by lia.
  replace (ea - z) with (k + (ea - k - z)) by lia.
  rewrite Z.pow_add_r by lia. rewrite Z.mul_assoc. reflexivity.
Qed.

Lemma dle_shift_r a ea k b eb :
  0 <= k -> (dle a ea (b * 2 ^ k) (eb - k) <-> dle a ea b eb).
Proof.
  intros Hk. set (z := Z.min ea (eb - k)).
  rewrite (dle_at z a ea (b * 2 ^ k) (eb - k)), (dle_at z a ea b eb) by lia.
  replace (eb - z) with (k + (eb - k - z)) by lia.
  rewrite Z.pow_add_r by lia. rewrite Z.mul_assoc. reflexivity.
Qed.

Lemma dlt_shift_l a ea k b eb :
  0 <= k -> (dlt (a * 2 ^ k) (ea - k) b eb <-> dlt a ea b eb).
Proof.
  intros Hk. set (z := Z.min (ea - k) eb).
  rewrite (dlt_at z (a * 2 ^ k) (ea - k) b eb), (dlt_at z a ea b eb) by lia.
  replace (ea - z) with (k + (ea - k - z)) by lia.
  rewrite Z.pow_add_r by lia. rewrite Z.mul_assoc. reflexivity.
Qed.

Lemma dlt_shift_r a ea k b eb :
  0 <= k -> (dlt a ea (b * 2 ^ k) (eb - k) <-> dlt a ea b eb).
Proof.
  intros Hk. set (z := Z.min ea (eb - k)).
  rewrite (dlt_at z a ea (b * 2 ^ k) (eb - k)), (dlt_at z a ea b eb) by lia.
  replace (eb - z) with (k + (eb - k - z)) by lia.
  rewrite Z.pow_add_r by lia. rewrite Z.mul_assoc. reflexivity.
Qed.

(** A quotient by a power of two, as numbers. *)
Lemma dle_floor m k e : 0 <= k -> dle (m / 2 ^ k) (e + k) m e.
Proof.
  intros Hk. rewrite (dle_at e) by lia.
  replace (e + k - e) with k by lia. rewrite Z.sub_diag, Z.pow_0_r, Z.mul_1_r.
  assert (H2 : 0 < 2 ^ k) by (apply Z.pow_pos_nonneg; lia).
  pose proof (Z.mul_div_le m (2 ^ k) H2). lia.
Qed.

Lemma dlt_floor m k e : 0 <= k -> dlt m e (m / 2 ^ k + 1) (e + k).
Proof.
  intros Hk. rewrite (dlt_at e) by lia.
  replace (e + k - e) with k by lia. rewrite Z.sub_diag, Z.pow_0_r, Z.mul_1_r.
  assert (H2 : 0 < 2 ^ k) by (apply Z.pow_pos_nonneg; lia).
  pose proof (Z.mod_pos_bound m (2 ^ k) H2). pose proof (Z.div_mod m (2 ^ k) ltac:(lia)). lia.
Qed.

Section RoundingOrder.
Variables prec emax : Z.
Hypothesis prec_pos : 0 < prec.

Local Notation "'fexp'" := (SpecFloat.fexp prec emax).
Local Notation "'emin'" := (SpecFloat.emin prec emax).

(** A number of the format above [q * 2^E] is at least the next multiple
    of [2^E], when [q * 2^E] has the shape of a number of the format. *)
Lemma next_multiple q E t k :
  0 < t < 2 ^ prec -> emin <= k ->
  0 <= q -> E = emin \/ 2 ^ (prec - 1) <= q ->
  dlt q E t k -> dle (q + 1) E t k.
Proof.
  intros Ht Hk Hq Hshape.
  destruct (Z.le_gt_cases E k) as [HEk|HEk].
  - rewrite (dlt_at E), (dle_at E) by lia. rewrite Z.sub_diag, Z.pow_0_r. lia.
  - destruct Hshape as [->|Hq1]; [lia|].
    rewrite (dlt_at k) by lia. rewrite Z.sub_diag, Z.pow_0_r. intros Hlt. exfalso.
    assert (H2 : 2 <= 2 ^ (E - k)).
    { change 2 with (2 ^ 1) at 1. apply Z.pow_le_mono_r; lia. }
    assert (Hp : 2 ^ prec = 2 ^ (prec - 1) * 2).
    { replace prec with ((prec - 1) + 1) at 1 by lia. rewrite Z.pow_add_r by lia. reflexivity. }
    assert (0 < 2 ^ (prec - 1)) by (apply Z.pow_pos_nonneg; lia).
    nia.
Qed.

Lemma previous_multiple q E t k :
  0 < t < 2 ^ prec -> emin <= k ->
  0 <= q -> E = emin \/ 2 ^ (prec - 1) <= q ->
  dlt t k (q + 1) E -> dle t k q E.
Proof.
  intros Ht Hk Hq Hshape.
  destruct (Z.le_gt_cases E k) as [HEk|HEk].
  - rewrite (dlt_at E), (dle_at E) by lia. rewrite Z.sub_diag, Z.pow_0_r. lia.
  - destruct Hshape as [->|Hq1]; [lia|].
    intros _. rewrite (dle_at k) by lia. rewrite Z.sub_diag, Z.pow_0_r.
    assert (H2 : 2 <= 2 ^ (E - k)).
    { change 2 with (2 ^ 1) at 1. apply Z.pow_le_mono_r; lia. }
    assert (Hp : 2 ^ prec = 2 ^ (prec - 1) * 2).
    { replace prec with ((prec - 1) + 1) at 1 by lia. rewrite Z.pow_add_r by lia. reflexivity. }
    assert (0 < 2 ^ (prec - 1)) by (apply Z.pow_pos_nonneg; lia).
    nia.
Qed.

(** A mantissa at the exponent the format gives it has the shape of a
    number of the format. *)
Lemma fexp_shape m E :
  0 <= m -> fexp (Zdigits2 m + E) = E -> E = emin \/ 2 ^ (prec - 1) <= m.
Proof.
  intros Hm HE. unfold SpecFloat.fexp in HE.
  destruct (Z.eq_dec E emin) as [He|He]; [left; exact He|right].
  assert (Hd : Zdigits2 m = prec) by lia.
  destruct (Z.eq_dec m 0) as [->|Hm0]; [cbn in Hd; lia|].
  pose proof (Zdigits2_bounds m ltac:(lia)) as Hb. rewrite Hd in Hb. lia.
Qed.

(** Shifting to the exponent of the format leaves a mantissa of the
    format's shape. *)
Lemma shifted_shape m e :
  0 <= m -> e <= fexp (Zdigits2 m + e) ->
  fexp (Zdigits2 (m / 2 ^ (fexp (Zdigits2 m + e) - e)) + fexp (Zdigits2 m + e))
  = fexp (Zdigits2 m + e).
Proof.
  intros Hm He. set (E := fexp (Zdigits2 m + e)) in *.
  assert (H2 : 0 < 2 ^ (E - e)) by (apply Z.pow_pos_nonneg; lia).
  destruct (Z.eq_dec (m / 2 ^ (E - e)) 0) as [H0|H0].
  - rewrite H0. cbn [Zdigits2]. rewrite Z.add_0_l.
    assert (HE : E = emin).
    { destruct (Z.eq_dec m 0) as [->|Hne].
      - unfold E, SpecFloat.fexp in *. cbn [Zdigits2] in *. lia.
      - assert (Hlt : m < 2 ^ (E - e)).
        { destruct (Z.lt_ge_cases m (2 ^ (E - e))) as [Hlt|Hge]; [exact Hlt|].
          assert (1 <= m / 2 ^ (E - e)) by (apply Z.div_le_lower_bound; lia). lia. }
        assert (Hd : Zdigits2 m <= E - e) by (apply Zdigits2_le; lia).
        unfold E, SpecFloat.fexp in *. lia. }
    rewrite HE. unfold SpecFloat.fexp, SpecFloat.emin. lia.
  - assert (Hq : 0 <= m / 2 ^ (E - e)) by (apply Z.div_pos; lia).
    assert (Hm0 : 0 < m).
    { destruct (Z.eq_dec m 0) as [Hz|Hz]; [|lia].
      rewrite Hz, Z.div_0_l in H0 by lia. lia. }
    rewrite Zdigits2_div by lia.
    replace (Zdigits2 m - (E - e) + E) with (Zdigits2 m + e) by lia. reflexivity.
Qed.

(** What [binary_round_aux] returns for an exact mantissa: the quotient
    [q] by the shift or its successor [q + 1], the latter only when the
    shift lost bits; then shifted once more to the exponent of the
    result. *)
Lemma binary_round_aux_bracket s mx ex :
  0 < mx -> ex <= fexp (Zdigits2 mx + ex) ->
  exists m2 E2,
    let E0 := fexp (Zdigits2 mx + ex) in
    let q := mx / 2 ^ (E0 - ex) in
    (m2 = q \/ (m2 = q + 1 /\ dlt q E0 mx ex)) /\
    E0 <= E2 /\
    fexp (Zdigits2 (m2 / 2 ^ (E2 - E0)) + E2) = E2 /\
    binary_round_aux prec emax s mx ex loc_Exact
    = match m2 / 2 ^ (E2 - E0) with
      | Z0 => S754_zero s
      | Zpos p => if E2 <=? emax - prec then S754_finite s p E2 else S754_infinity s
      | Zneg _ => S754_nan
      end.
Proof.
  intros Hmx Hex. unfold binary_round_aux, shr_fexp.
  set (E0 := fexp (Zdigits2 mx + ex)) in *.
  assert (H2 : 0 < 2 ^ (E0 - ex)) by (apply Z.pow_pos_nonneg; lia).
  set (q := mx / 2 ^ (E0 - ex)).
  assert (Hq : 0 <= q) by (apply Z.div_pos; lia).
  destruct (shr_spec (shr_record_of_loc mx loc_Exact) ex (E0 - ex)) as [Hm1 He1];
    [cbn; lia|lia|].
  assert (Hexact : mx mod 2 ^ (E0 - ex) = 0 ->
            round_nearest_even
              (shr_m (fst (shr (shr_record_of_loc mx loc_Exact) ex (E0 - ex))))
              (loc_of_shr_record (fst (shr (shr_record_of_loc mx loc_Exact) ex (E0 - ex))))
            = q).
  { intros Hmod.
    assert (Hmq : mx = q * 2 ^ (E0 - ex)).
    { unfold q. pose proof (Z.div_mod mx (2 ^ (E0 - ex)) ltac:(lia)). lia. }
    rewrite shr_nat by lia. cbn [fst shr_record_of_loc].
    rewrite Hmq at 1 2. rewrite shr_exact_Z by lia. reflexivity. }
  destruct (shr (shr_record_of_loc mx loc_Exact) ex (E0 - ex)) as [mrs' e'].
  cbn [fst snd] in Hm1, He1, Hexact. cbn [shr_record_of_loc shr_m] in Hm1.
  replace e' with E0 by lia. clear He1 e'.
  fold q in Hm1.
  set (m2 := round_nearest_even (shr_m mrs') (loc_of_shr_record mrs')) in *.
  assert (Hm2 : m2 = q \/ (m2 = q + 1 /\ dlt q E0 mx ex)).
  { destruct (Z.eq_dec (mx mod 2 ^ (E0 - ex)) 0) as [Hz|Hnz]; [left; auto|].
    destruct (round_nearest_even_cases (shr_m mrs') (loc_of_shr_record mrs')) as [H|H];
      fold m2 in H; rewrite Hm1 in H; [left; exact H|right; split; [exact H|]].
    rewrite (dlt_at ex) by lia. rewrite Z.sub_diag, Z.pow_0_r, Z.mul_1_r.
    pose proof (Z.mod_pos_bound mx (2 ^ (E0 - ex)) H2).
    pose proof (Z.div_mod mx (2 ^ (E0 - ex)) ltac:(lia)). fold q in H1. lia. }
  assert (Hm2q : q <= m2 <= q + 1) by (destruct Hm2 as [->|[-> _]]; lia).
  assert (HEq : fexp (Zdigits2 q + E0) = E0) by (apply shifted_shape; lia).
  assert (HE2 : E0 <= fexp (Zdigits2 m2 + E0)).
  { pose proof (Zdigits2_mono q m2 ltac:(lia)).
    pose proof (fexp_mono prec emax (Zdigits2 q + E0) (Zdigits2 m2 + E0) ltac:(lia)). lia. }
  exists m2, (fexp (Zdigits2 m2 + E0)).
  cbn zeta. fold E0. fold q.
  split; [exact Hm2|]. split; [exact HE2|].
  split; [apply shifted_shape; lia|].
  set (E2 := fexp (Zdigits2 m2 + E0)) in *.
  destruct (shr_spec (shr_record_of_loc m2 loc_Exact) E0 (E2 - E0)) as [Hm3 He3];
    [cbn; lia|lia|].
  destruct (shr (shr_record_of_loc m2 loc_Exact) E0 (E2 - E0)) as [mrs'' e''].
  cbn [fst snd] in Hm3, He3. cbn [shr_record_of_loc shr_m] in Hm3.
  rewrite Hm3. replace e'' with E2 by lia. reflexivity.
Qed.


Lemma binary_round_bracket s m e :
  exists m2 E0 E2,
    (dle m2 E0 (Zpos m) e \/
     (exists q, m2 = q + 1 /\ 0 <= q /\ (E0 = emin \/ 2 ^ (prec - 1) <= q) /\
                dlt q E0 (Zpos m) e)) /\
    (dlt (Zpos m) e m2 E0 \/
     (dlt (Zpos m) e (m2 + 1) E0 /\ (E0 = emin \/ 2 ^ (prec - 1) <= m2))) /\
    0 <= m2 /\ E0 <= E2 /\
    (E2 = emin \/ 2 ^ (prec - 1) <= m2 / 2 ^ (E2 - E0)) /\
    binary_round prec emax s m e
    = match m2 / 2 ^ (E2 - E0) with
      | Z0 => S754_zero s
      | Zpos p => if E2 <=? emax - prec then S754_finite s p E2 else S754_infinity s
      | Zneg _ => S754_nan
      end.
Proof.
  rewrite BR_unfold.
  change (Zpos (digits2_pos m)) with (Zdigits2 (Zpos m)).
  set (E := fexp (Zdigits2 (Zpos m) + e)).
  set (j := Z.max 0 (e - E)).
  assert (Hj : 0 <= j) by lia.
  assert (H2j : 0 < 2 ^ j) by (apply Z.pow_pos_nonneg; lia).
  set (mx := Zpos m * 2 ^ j).
  replace (Z.min e E) with (e - j) by lia.
  assert (Hmx : 0 < mx) by (unfold mx; nia).
  assert (Hd : Zdigits2 mx + (e - j) = Zdigits2 (Zpos m) + e).
  { unfold mx. rewrite Zdigits2_shift by lia. lia. }
  assert (HE : fexp (Zdigits2 mx + (e - j)) = E) by (rewrite Hd; reflexivity).
  destruct (binary_round_aux_bracket s mx (e - j) Hmx ltac:(rewrite HE; lia))
    as (m2 & E2 & Hm2 & HE2 & Hshape2 & Hres).
  cbn zeta in Hm2, HE2, Hshape2, Hres. rewrite HE in Hm2, HE2, Hshape2, Hres.
  set (q := mx / 2 ^ (E - (e - j))) in *.
  assert (H2k : 0 < 2 ^ (E - (e - j))) by (apply Z.pow_pos_nonneg; lia).
  assert (Hq : 0 <= q) by (apply Z.div_pos; lia).
  assert (Hqshape : E = emin \/ 2 ^ (prec - 1) <= q).
  { apply fexp_shape; [exact Hq|].
    pose proof (shifted_shape mx (e - j) ltac:(lia) ltac:(rewrite HE; lia)) as Hs.
    rewrite HE in Hs. exact Hs. }
  assert (Hfl : dle q E (Zpos m) e).
  { apply (dle_shift_r _ _ j) ; [exact Hj|]. fold mx.
    pose proof (dle_floor mx (E - (e - j)) (e - j) ltac:(lia)) as H.
    replace (e - j + (E - (e - j))) with E in H by lia. exact H. }
  assert (Hfu : dlt (Zpos m) e (q + 1) E).
  { apply (dlt_shift_l _ _ j); [exact Hj|]. fold mx.
    pose proof (dlt_floor mx (E - (e - j)) (e - j) ltac:(lia)) as H.
    replace (e - j + (E - (e - j))) with E in H by lia. exact H. }
  exists m2, E, E2.
  assert (Hm2pos : 0 <= m2) by (destruct Hm2 as [->|[-> _]]; lia).
  split.
  { destruct Hm2 as [->|[-> Hlt]]; [left; exact Hfl|right].
    exists q. split; [reflexivity|]. split; [exact Hq|]. split; [exact Hqshape|].
    apply (dlt_shift_r _ _ j); [exact Hj|]. exact Hlt. }
  split.
  { destruct Hm2 as [->|[-> Hlt]]; [right; split; [exact Hfu|exact Hqshape]|left; exact Hfu]. }
  split; [exact Hm2pos|]. split; [exact HE2|].
  split; [|exact Hres].
  apply fexp_shape; [|exact Hshape2].
  apply Z.div_pos; [exact Hm2pos|]. apply Z.pow_pos_nonneg; lia.
Qed.

(** Rounding a number that is not above a number of the format gives a
    result that is not above it. *)
Lemma binary_round_le s m e t k :
  0 < t < 2 ^ prec -> emin <= k -> k <= emax - prec ->
  dle (Zpos m) e t k ->
  binary_round prec emax s m e = S754_zero s \/
  exists p E, binary_round prec emax s m e = S754_finite s p E /\ dle (Zpos p) E t k.
Proof.
  intros Ht Hk Hkmax Hle.
  destruct (binary_round_bracket s m e)
    as (m2 & E0 & E2 & Hlow & _ & Hm2 & HE2 & Hshape & ->).
  assert (Hm2t : dle m2 E0 t k).
  { destruct Hlow as [Hlow|(q & -> & Hq & Hqs & Hlt)].
    - exact (dle_trans _ _ _ _ _ _ Hlow Hle).
    - apply next_multiple; try assumption.
      exact (dlt_le_trans _ _ _ _ _ _ Hlt Hle). }
  assert (H2 : 0 < 2 ^ (E2 - E0)) by (apply Z.pow_pos_nonneg; lia).
  assert (Hm3 : dle (m2 / 2 ^ (E2 - E0)) E2 t k).
  { pose proof (dle_floor m2 (E2 - E0) E0 ltac:(lia)) as H.
    replace (E0 + (E2 - E0)) with E2 in H by lia.
    exact (dle_trans _ _ _ _ _ _ H Hm2t). }
  pose proof (Z.div_pos m2 (2 ^ (E2 - E0)) Hm2 H2) as Hm3pos.
  destruct (m2 / 2 ^ (E2 - E0)) as [|p|p] eqn:Hp; [left; reflexivity| |lia].
  right. exists p, E2. split; [|exact Hm3].
  destruct (Z.leb_spec E2 (emax - prec)) as [Hok|Hover]; [reflexivity|exfalso].
  destruct Hshape as [->|Hp1]; [lia|].
  rewrite (dle_at k) in Hm3 by lia. rewrite Z.sub_diag, Z.pow_0_r in Hm3.
  assert (H2' : 2 <= 2 ^ (E2 - k)).
  { change 2 with (2 ^ 1) at 1. apply Z.pow_le_mono_r; lia. }
  assert (Hpp : 2 ^ prec = 2 ^ (prec - 1) * 2).
  { replace prec with ((prec - 1) + 1) at 1 by lia. rewrite Z.pow_add_r by lia. reflexivity. }
  assert (0 < 2 ^ (prec - 1)) by (apply Z.pow_pos_nonneg; lia).
  nia.
Qed.

(** Rounding a number that is not below a number of the format gives a
    result that is not below it. *)
Lemma binary_round_ge s m e t k :
  0 < t < 2 ^ prec -> emin <= k ->
  dle t k (Zpos m) e ->
  binary_round prec emax s m e = S754_infinity s \/
  exists p E, binary_round prec emax s m e = S754_finite s p E /\ dle t k (Zpos p) E.
Proof.
  intros Ht Hk Hle.
  destruct (binary_round_bracket s m e)
    as (m2 & E0 & E2 & _ & Hup & Hm2 & HE2 & Hshape & ->).
  assert (Hm2t : dle t k m2 E0).
  { destruct Hup as [Hup|[Hup Hs]].
    - apply dlt_dle. exact (dle_lt_trans _ _ _ _ _ _ Hle Hup).
    - apply previous_multiple; try assumption.
      exact (dle_lt_trans _ _ _ _ _ _ Hle Hup). }
  assert (H2 : 0 < 2 ^ (E2 - E0)) by (apply Z.pow_pos_nonneg; lia).
  pose proof (Z.div_pos m2 (2 ^ (E2 - E0)) Hm2 H2) as Hm3pos.
  assert (Hm3 : dle t k (m2 / 2 ^ (E2 - E0)) E2).
  { apply previous_multiple; try assumption.
    pose proof (dlt_floor m2 (E2 - E0) E0 ltac:(lia)) as H.
    replace (E0 + (E2 - E0)) with E2 in H by lia.
    exact (dle_lt_trans _ _ _ _ _ _ Hm2t H). }
  destruct (m2 / 2 ^ (E2 - E0)) as [|p|p] eqn:Hp; [exfalso| |lia].
  - unfold dle in Hm3. rewrite Z.mul_0_l in Hm3.
    assert (0 < 2 ^ (k - Z.min k E2)) by (apply Z.pow_pos_nonneg; lia). nia.
  - destruct (E2 <=? emax - prec); [right|left; reflexivity].
    exists p, E2. split; [reflexivity|exact Hm3].
Qed.

End RoundingOrder.

(** ** The biased sum of the 8-bit reduction, as a number *)

Lemma binary_round_cases prec emax s m e :
  0 < prec ->
  binary_round prec emax s m e = S754_zero s \/
  binary_round prec emax s m e = S754_infinity s \/
  exists p E, binary_round prec emax s m e = S754_finite s p E.
Proof.
  intros Hprec.
  destruct (binary_round_bracket prec emax Hprec s m e)
    as (m2 & E0 & E2 & _ & _ & Hm2 & HE2 & _ & ->).
  assert (H2 : 0 < 2 ^ (E2 - E0)) by (apply Z.pow_pos_nonneg; lia).
  pose proof (Z.div_pos m2 (2 ^ (E2 - E0)) Hm2 H2) as Hm3pos.
  destruct (m2 / 2 ^ (E2 - E0)) as [|p|p]; [left; reflexivity| |lia].
  right. destruct (E2 <=? emax - prec); [right; eauto|left; reflexivity].
Qed.

(** [x + 0.5] in double precision is rounded from the exact sum. *)
Lemma bias_sum s m e :
  valid_binary 24 128 (S754_finite s m e) = true ->
  F64.add (F64.of_float (S754_finite s m e)) F64.half
  = binary_normalize 53 1024
      (cond_Zopp s (Zpos m) * 2 ^ (e - Z.min e 0 + 1) + 2 ^ (- Z.min e 0))
      (Z.min e 0 - 1) false.
Proof.
  intros Hv. destruct (valid_finite_bounds s m e Hv) as [Hd He].
  rewrite (of_float_finite s m e Hv).
  set (d := Zdigits2 (Zpos m)) in *.
  assert (H2 : 0 < 2 ^ (53 - d)) by (apply Z.pow_pos_nonneg; lia).
  assert (HP : Zpos (Z.to_pos (Zpos m * 2 ^ (53 - d))) = Zpos m * 2 ^ (53 - d))
    by (apply Z2Pos.id; nia).
  change F64.half with (S754_finite false 4503599627370496 (-53)).
  unfold F64.add, F64.prec, F64.emax. rewrite SFadd_finite.
  set (e0 := Z.min (e + d - 53) (-53)).
  set (e' := Z.min e 0).
  assert (Hk : 0 <= e' - 1 - e0) by (unfold e0, e'; lia).
  transitivity (binary_normalize 53 1024
                  ((cond_Zopp s (Zpos m) * 2 ^ (e - e' + 1) + 2 ^ (- e')) * 2 ^ (e' - 1 - e0))
                  e0 false).
  - f_equal.
    replace (cond_Zopp s (Zpos (Z.to_pos (Zpos m * 2 ^ (53 - d)))))
      with (cond_Zopp s (Zpos m) * 2 ^ (53 - d))
      by (destruct s; cbn [cond_Zopp]; rewrite ?HP; lia).
    cbn [cond_Zopp]. change (Zpos 4503599627370496) with (2 ^ 52).
    rewrite Z.mul_add_distr_r.
    rewrite <- !Z.mul_assoc, <- !Z.pow_add_r by (unfold e0, e'; lia).
    f_equal; [f_equal|]; f_equal; unfold e0, e'; lia.
  - rewrite (normalize_shift 53 1024 _ (e' - 1 - e0) e0 false Hk).
    f_equal. lia.
Qed.

Lemma of_double_le d t k :
  0 < t < 2 ^ 24 -> -149 <= k <= 104 ->
  (d = S754_zero false \/ exists p E, d = S754_finite false p E /\ dle (Zpos p) E t k) ->
  F32.of_double d = S754_zero false \/
  exists p E, F32.of_double d = S754_finite false p E /\ dle (Zpos p) E t k.
Proof.
  intros Ht Hk [->|(p & E & -> & Hle)]; [left; reflexivity|].
  unfold F32.of_double, F32.prec, F32.emax. cbn [SFldexp]. rewrite Z.add_0_r.
  apply (binary_round_le 24 128 ltac:(lia)); try assumption;
    unfold SpecFloat.emin; lia.
Qed.

Lemma of_double_ge d t k :
  0 < t < 2 ^ 24 -> -149 <= k ->
  (d = S754_infinity false \/ exists p E, d = S754_finite false p E /\ dle t k (Zpos p) E) ->
  F32.of_double d = S754_infinity false \/
  exists p E, F32.of_double d = S754_finite false p E /\ dle t k (Zpos p) E.
Proof.
  intros Ht Hk [->|(p & E & -> & Hle)]; [left; reflexivity|].
  unfold F32.of_double, F32.prec, F32.emax. cbn [SFldexp]. rewrite Z.add_0_r.
  apply (binary_round_ge 24 128 ltac:(lia)); try assumption;
    unfold SpecFloat.emin; lia.
Qed.

Lemma pow2_24_53 : 2 ^ 24 < 2 ^ 53.
Proof. reflexivity. Qed.

(** The biased sum is not above a binary32 number that [x + 0.5] is not
    above, and not below one that [x + 0.5] is not below. *)
Lemma bias_le s m e t k :
  valid_binary 24 128 (S754_finite s m e) = true ->
  0 < t < 2 ^ 24 -> -149 <= k <= 104 ->
  0 < cond_Zopp s (Zpos m) * 2 ^ (e - Z.min e 0 + 1) + 2 ^ (- Z.min e 0) ->
  dle (cond_Zopp s (Zpos m) * 2 ^ (e - Z.min e 0 + 1) + 2 ^ (- Z.min e 0)) (Z.min e 0 - 1) t k ->
  F32.of_double (F64.add (F64.of_float (S754_finite s m e)) F64.half) = S754_zero false \/
  exists p E,
    F32.of_double (F64.add (F64.of_float (S754_finite s m e)) F64.half)
    = S754_finite false p E /\ dle (Zpos p) E t k.
Proof.
  intros Hv Ht Hk Hpos Hle. rewrite (bias_sum s m e Hv).
  destruct (cond_Zopp s (Zpos m) * 2 ^ (e - Z.min e 0 + 1) + 2 ^ (- Z.min e 0))
    as [|Y|Y]; try lia.
  cbn [binary_normalize].
  apply of_double_le; try assumption.
  pose proof pow2_24_53.
  apply (binary_round_le 53 1024 ltac:(lia)); try assumption;
    unfold SpecFloat.emin; lia.
Qed.

Lemma bias_ge s m e t k :
  valid_binary 24 128 (S754_finite s m e) = true ->
  0 < t < 2 ^ 24 -> -149 <= k ->
  0 < cond_Zopp s (Zpos m) * 2 ^ (e - Z.min e 0 + 1) + 2 ^ (- Z.min e 0) ->
  dle t k (cond_Zopp s (Zpos m) * 2 ^ (e - Z.min e 0 + 1) + 2 ^ (- Z.min e 0)) (Z.min e 0 - 1) ->
  F32.of_double (F64.add (F64.of_float (S754_finite s m e)) F64.half) = S754_infinity false \/
  exists p E,
    F32.of_double (F64.add (F64.of_float (S754_finite s m e)) F64.half)
    = S754_finite false p E /\ dle t k (Zpos p) E.
Proof.
  intros Hv Ht Hk Hpos Hle. rewrite (bias_sum s m e Hv).
  destruct (cond_Zopp s (Zpos m) * 2 ^ (e - Z.min e 0 + 1) + 2 ^ (- Z.min e 0))
    as [|Y|Y]; try lia.
  cbn [binary_normalize].
  apply of_double_ge; try assumption.
  pose proof pow2_24_53.
  apply (binary_round_ge 53 1024 ltac:(lia)); try assumption;
    unfold SpecFloat.emin; lia.
Qed.

(** A biased sum that is zero or negative is stored as 0. *)
Lemma clip8_not_positive b :
  valid_binary 24 128 b = true ->
  (exists s, b = S754_zero s) \/ b = S754_infinity true \/
  (exists p E, b = S754_finite true p E) ->
  clip8 b = Some 0.
Proof.
  intros Hv [[s ->]|[->|(p & E & ->)]].
  - destruct s; reflexivity.
  - reflexivity.
  - unfold clip8. rewrite (of_float_finite true p E Hv). reflexivity.
Qed.

Lemma bias_not_positive s m e :
  valid_binary 24 128 (S754_finite s m e) = true ->
  cond_Zopp s (Zpos m) * 2 ^ (e - Z.min e 0 + 1) + 2 ^ (- Z.min e 0) <= 0 ->
  clip8 (F32.of_double (F64.add (F64.of_float (S754_finite s m e)) F64.half)) = Some 0.
Proof.
  intros Hv Hneg. apply clip8_not_positive; [apply of_double_valid|].
  rewrite (bias_sum s m e Hv).
  destruct (cond_Zopp s (Zpos m) * 2 ^ (e - Z.min e 0 + 1) + 2 ^ (- Z.min e 0))
    as [|Y|Y]; try lia.
  - left. exists false. reflexivity.
  - cbn [binary_normalize].
    destruct (binary_round_cases 53 1024 true Y (Z.min e 0 - 1) ltac:(lia))
      as [->|[->|(p & E & ->)]].
    + left. exists true. reflexivity.
    + right. left. reflexivity.
    + unfold F32.of_double, F32.prec, F32.emax. cbn [SFldexp]. rewrite Z.add_0_r.
      destruct (binary_round_cases 24 128 true p E ltac:(lia))
        as [->|[->|(p' & E' & ->)]].
      * left. exists true. reflexivity.
      * right. left. reflexivity.
      * right. right. eauto.
Qed.

(** ** The tests and the cast of lines 202-207, on a positive number *)

Lemma valid_shape s p E :
  valid_binary 24 128 (S754_finite s p E) = true ->
  (Zdigits2 (Zpos p) = 24 \/ E = -149) /\ 0 < Zdigits2 (Zpos p) <= 24 /\ -149 <= E <= 104.
Proof.
  intros Hv. destruct (valid_finite_bounds s p E Hv) as [Hd He].
  split; [|split; assumption].
  cbn [valid_binary] in Hv. unfold bounded, canonical_mantissa, SpecFloat.fexp,
    SpecFloat.emin in Hv.
  apply andb_prop in Hv. destruct Hv as [Hc _]. apply Z.eqb_eq in Hc.
  cbn [Zdigits2] in *. lia.
Qed.

Lemma dle_digits t k p E :
  0 < t -> dle t k (Zpos p) E -> k + Zdigits2 t <= E + Zdigits2 (Zpos p).
Proof.
  intros Ht Hle.
  pose proof (Zdigits2_bounds t Ht) as Hbt.
  pose proof (Zdigits2_bounds (Zpos p) ltac:(lia)) as Hbp.
  pose proof (Zdigits2_pos t Ht) as Hdt.
  pose proof (Zdigits2_pos (Zpos p) ltac:(lia)) as Hdp.
  set (dt := Zdigits2 t) in *. set (dp := Zdigits2 (Zpos p)) in *.
  destruct (Z.le_gt_cases (k + dt) (E + dp)) as [Hok|Hbad]; [exact Hok|exfalso].
  set (c := Z.min k E).
  rewrite (dle_at c) in Hle by (unfold c; lia).
  (* t * 2^(k-c) >= 2^(dt-1+k-c) >= 2^(dp+E-c) > p * 2^(E-c) *)
  assert (H1 : 2 ^ (dt - 1 + (k - c)) <= t * 2 ^ (k - c)).
  { rewrite Z.pow_add_r by (unfold c; lia).
    apply Z.mul_le_mono_nonneg_r; [apply Z.pow_nonneg; lia|lia]. }
  assert (H2 : Zpos p * 2 ^ (E - c) < 2 ^ (dp + (E - c))).
  { rewrite Z.pow_add_r by (unfold c; lia).
    apply Z.mul_lt_mono_pos_r; [apply Z.pow_pos_nonneg; unfold c; lia|lia]. }
  assert (H3 : 2 ^ (dp + (E - c)) <= 2 ^ (dt - 1 + (k - c)))
    by (apply Z.pow_le_mono_r; unfold c; lia).
  lia.
Qed.

Lemma dlt_digits t k p E :
  0 < t -> dlt (Zpos p) E t k -> E + Zdigits2 (Zpos p) <= k + Zdigits2 t.
Proof.
  intros Ht Hlt.
  pose proof (Zdigits2_bounds t Ht) as Hbt.
  pose proof (Zdigits2_bounds (Zpos p) ltac:(lia)) as Hbp.
  pose proof (Zdigits2_pos t Ht) as Hdt.
  pose proof (Zdigits2_pos (Zpos p) ltac:(lia)) as Hdp.
  set (dt := Zdigits2 t) in *. set (dp := Zdigits2 (Zpos p)) in *.
  destruct (Z.le_gt_cases (E + dp) (k + dt)) as [Hok|Hbad]; [exact Hok|exfalso].
  set (c := Z.min k E).
  rewrite (dlt_at c) in Hlt by (unfold c; lia).
  assert (H1 : 2 ^ (dp - 1 + (E - c)) <= Zpos p * 2 ^ (E - c)).
  { rewrite Z.pow_add_r by (unfold c; lia).
    apply Z.mul_le_mono_nonneg_r; [apply Z.pow_nonneg; lia|lia]. }
  assert (H2 : t * 2 ^ (k - c) < 2 ^ (dt + (k - c))).
  { rewrite Z.pow_add_r by (unfold c; lia).
    apply Z.mul_lt_mono_pos_r; [apply Z.pow_pos_nonneg; unfold c; lia|lia]. }
  assert (H3 : 2 ^ (dt + (k - c)) <= 2 ^ (dp - 1 + (E - c)))
    by (apply Z.pow_le_mono_r; unfold c; lia).
  lia.
Qed.

(** A number that is at least one half is not below 0.5. *)
Lemma not_below_half p E :
  valid_binary 24 128 (S754_finite false p E) = true ->
  dle 1 (-1) (Zpos p) E ->
  F64.ltb (F64.of_float (S754_finite false p E)) F64.half = false.
Proof.
  intros Hv Hle. destruct (valid_shape false p E Hv) as (Hs & Hd & He).
  pose proof (dle_digits 1 (-1) p E ltac:(lia) Hle) as Hdig. change (Zdigits2 1) with 1 in Hdig.
  rewrite (of_float_finite false p E Hv).
  pose proof (Zdigits2_bounds (Zpos p) ltac:(lia)) as Hb.
  set (d := Zdigits2 (Zpos p)) in *.
  assert (H2 : 0 < 2 ^ (53 - d)) by (apply Z.pow_pos_nonneg; lia).
  set (P := Z.to_pos (Zpos p * 2 ^ (53 - d))).
  assert (HP : Zpos P = Zpos p * 2 ^ (53 - d)) by (apply Z2Pos.id; nia).
  change F64.half with (S754_finite false 4503599627370496 (-53)).
  unfold F64.ltb, SFltb. cbn [SFcompare].
  destruct (Z.compare_spec (E + d - 53) (-53)) as [Heq|Hlt|Hgt]; try reflexivity; [|lia].
  destruct (Pos.compare_cont Eq P 4503599627370496) eqn:Hc; try reflexivity.
  apply Pos.compare_lt_iff in Hc. apply Pos2Z.pos_lt_pos in Hc. rewrite HP in Hc.
  assert (d = 24) by lia. subst d. 
  replace (Zdigits2 (Zpos p)) with 24 in * by lia.
  change (2 ^ (53 - 24)) with 536870912 in Hc. change (2 ^ (24 - 1)) with 8388608 in Hb.
  change (Zpos 4503599627370496) with 4503599627370496 in Hc. lia.
Qed.

(** A number below 255 is not at least 255.0. *)
Lemma not_above_255 p E :
  valid_binary 24 128 (S754_finite false p E) = true ->
  dlt (Zpos p) E 255 0 ->
  F64.leb (F64.of_int 255) (F64.of_float (S754_finite false p E)) = false.
Proof.
  intros Hv Hlt. destruct (valid_shape false p E Hv) as (Hs & Hd & He).
  pose proof (dlt_digits 255 0 p E ltac:(lia) Hlt) as Hdig.
  change (Zdigits2 255) with 8 in Hdig.
  rewrite (of_float_finite false p E Hv).
  pose proof (Zdigits2_bounds (Zpos p) ltac:(lia)) as Hb.
  set (d := Zdigits2 (Zpos p)) in *.
  assert (H2 : 0 < 2 ^ (53 - d)) by (apply Z.pow_pos_nonneg; lia).
  set (P := Z.to_pos (Zpos p * 2 ^ (53 - d))).
  assert (HP : Zpos P = Zpos p * 2 ^ (53 - d)) by (apply Z2Pos.id; nia).
  change (F64.of_int 255) with (S754_finite false 8972014882652160 (-45)).
  unfold F64.leb, SFleb. cbn [SFcompare].
  destruct (Z.compare_spec (-45) (E + d - 53)) as [Heq|Hlt'|Hgt]; try reflexivity; [|lia].
  destruct (Pos.compare_cont Eq 8972014882652160 P) eqn:Hc; try reflexivity; exfalso.
  - apply Pos.compare_eq in Hc. apply (f_equal Zpos) in Hc. rewrite HP in Hc.
    assert (Hd24 : d = 24) by lia. rewrite Hd24 in Hc. assert (HE : E = -16) by lia. subst E.
    rewrite (dlt_at (-16)) in Hlt by lia.
    change (2 ^ (-16 - -16)) with 1 in Hlt. change (2 ^ (0 - -16)) with 65536 in Hlt.
    change (2 ^ (53 - 24)) with 536870912 in Hc. lia.
  - apply Pos.compare_lt_iff in Hc. apply Pos2Z.pos_lt_pos in Hc. rewrite HP in Hc.
    assert (Hd24 : d = 24) by lia. rewrite Hd24 in Hc. assert (HE : E = -16) by lia. subst E.
    rewrite (dlt_at (-16)) in Hlt by lia.
    change (2 ^ (-16 - -16)) with 1 in Hlt. change (2 ^ (0 - -16)) with 65536 in Hlt.
    change (2 ^ (53 - 24)) with 536870912 in Hc. lia.
Qed.

(** A number that is at least 255 is stored as 255. *)
Lemma clip8_at_least_255 p E :
  valid_binary 24 128 (S754_finite false p E) = true ->
  dle 255 0 (Zpos p) E ->
  clip8 (S754_finite false p E) = Some 255.
Proof.
  intros Hv Hle. unfold clip8.
  rewrite (not_below_half p E Hv).
  2:{ apply (dle_trans 1 (-1) 255 0); [|exact Hle]. unfold dle. cbn. lia. }
  destruct (valid_shape false p E Hv) as (Hs & Hd & He).
  pose proof (dle_digits 255 0 p E ltac:(lia) Hle) as Hdig.
  change (Zdigits2 255) with 8 in Hdig.
  rewrite (of_float_finite false p E Hv).
  pose proof (Zdigits2_bounds (Zpos p) ltac:(lia)) as Hb.
  set (d := Zdigits2 (Zpos p)) in *.
  assert (H2 : 0 < 2 ^ (53 - d)) by (apply Z.pow_pos_nonneg; lia).
  set (P := Z.to_pos (Zpos p * 2 ^ (53 - d))).
  assert (HP : Zpos P = Zpos p * 2 ^ (53 - d)) by (apply Z2Pos.id; nia).
  change (F64.of_int 255) with (S754_finite false 8972014882652160 (-45)).
  unfold F64.leb, SFleb. cbn [SFcompare].
  destruct (Z.compare_spec (-45) (E + d - 53)) as [Heq|Hlt'|Hgt]; try reflexivity; [|lia].
  destruct (Pos.compare_cont Eq 8972014882652160 P) eqn:Hc; try reflexivity; exfalso.
  apply Pos.compare_gt_iff in Hc. apply Pos2Z.pos_lt_pos in Hc. rewrite HP in Hc.
  assert (Hd24 : d = 24) by lia. rewrite Hd24 in Hc. assert (HE : E = -16) by lia. subst E.
  rewrite (dle_at (-16)) in Hle by lia.
  change (2 ^ (-16 - -16)) with 1 in Hle. change (2 ^ (0 - -16)) with 65536 in Hle.
  change (2 ^ (53 - 24)) with 536870912 in Hc. lia.
Qed.

(** The cast of a number of [[n, n + 1)] gives [n]. *)
Lemma Ztrunc_between p E n :
  dle n 0 (Zpos p) E -> dlt (Zpos p) E (n + 1) 0 ->
  Ztrunc (S754_finite false p E) = Some n.
Proof.
  intros Hlo Hhi. cbn [Ztrunc cond_Zopp]. f_equal.
  destruct (Z.leb_spec 0 E) as [HE|HE].
  - rewrite (dle_at 0) in Hlo by lia. rewrite (dlt_at 0) in Hhi by lia.
    rewrite Z.sub_diag, Z.pow_0_r, Z.sub_0_r in *. lia.
  - rewrite (dle_at E) in Hlo by lia. rewrite (dlt_at E) in Hhi by lia.
    rewrite Z.sub_diag, Z.pow_0_r, Z.sub_0_l in *.
    assert (H2 : 0 < 2 ^ (- E)) by (apply Z.pow_pos_nonneg; lia).
    symmetry. apply (Z.div_unique_pos _ _ n (Zpos p - n * 2 ^ (- E))); lia.
Qed.

(** A number of [[n, n + 1)], with [n] from 0 to 254, that is at least one
    half unless [n] is 0, is stored as [n]. *)
Lemma clip8_between p E n :
  valid_binary 24 128 (S754_finite false p E) = true ->
  0 <= n <= 254 ->
  dle n 0 (Zpos p) E -> dlt (Zpos p) E (n + 1) 0 ->
  n = 0 \/ dle 1 (-1) (Zpos p) E ->
  clip8 (S754_finite false p E) = Some n.
Proof.
  intros Hv Hn Hlo Hhi Hhalf. unfold clip8.
  destruct (F64.ltb (F64.of_float (S754_finite false p E)) F64.half) eqn:Hlt.
  - destruct Hhalf as [->|Hge]; [reflexivity|].
    rewrite (not_below_half p E Hv Hge) in Hlt. discriminate.
  - rewrite (not_above_255 p E Hv).
    2:{ apply (dlt_le_trans _ _ (n + 1) 0); [exact Hhi|]. unfold dle. cbn. lia. }
    unfold to_uint8. rewrite (Ztrunc_between p E n Hlo Hhi).
    destruct (Z.leb_spec 0 n); [|lia]. destruct (Z.leb_spec n 255); [|lia]. reflexivity.
Qed.

(** ** Truncating the biased sum rounds half up, except just below 0.5 *)

Lemma round_half_up_floor s m e n :
  round_half_up (S754_finite s m e) = Some n ->
  let Y := cond_Zopp s (Zpos m) * 2 ^ (e - Z.min e 0 + 1) + 2 ^ (- Z.min e 0) in
  n * 2 ^ (1 - Z.min e 0) <= Y < (n + 1) * 2 ^ (1 - Z.min e 0).
Proof.
  cbn [round_half_up]. intros Hn. apply Some_eq in Hn. cbn zeta.
  set (z := cond_Zopp s (Zpos m)) in *.
  destruct (Z.leb_spec 0 e) as [He|He].
  - replace (Z.min e 0) with 0 by lia.
    replace (e - 0 + 1) with (e + 1) by lia.
    rewrite Z.pow_add_r by lia. cbn [Z.opp]. change (2 ^ 0) with 1.
    change (2 ^ (1 - 0)) with 2. change (2 ^ 1) with 2. lia.
  - replace (Z.min e 0) with e by lia.
    replace (e - e + 1) with 1 by lia. change (2 ^ 1) with 2.
    assert (H2 : 0 < 2 ^ (1 - e)) by (apply Z.pow_pos_nonneg; lia).
    pose proof (Z.div_mod (2 * z + 2 ^ (- e)) (2 ^ (1 - e)) ltac:(lia)) as Hdm.
    pose proof (Z.mod_pos_bound (2 * z + 2 ^ (- e)) (2 ^ (1 - e)) H2) as Hmb.
    rewrite Hn in Hdm. lia.
Qed.

Lemma finite_result_eq s p E s' p' E' (b : float) :
  b = S754_finite s p E -> b = S754_finite s' p' E' -> p = p' /\ E = E'.
Proof. intros -> H. inversion H. auto. Qed.

Theorem clip8_rounds_half_up x n :
  valid_binary 24 128 x = true ->
  round_half_up x = Some n ->
  x <> below_half ->
  clip8 (F32.of_double (F64.add (F64.of_float x) F64.half)) = Some (saturate8 n).
Proof.
  intros Hv Hn Hbad.
  destruct x as [s|s| |s m e]; try discriminate.
  { cbn [round_half_up] in Hn. apply Some_eq in Hn. subst n. destruct s; reflexivity. }
  pose proof (round_half_up_floor s m e n Hn) as Hfloor. cbn zeta in Hfloor.
  destruct (valid_shape s m e Hv) as (Hshape & Hd & He).
  pose proof (Zdigits2_bounds (Zpos m) ltac:(lia)) as Hb.
  assert (Hm24 : Zpos m < 2 ^ 24).
  { assert (2 ^ Zdigits2 (Zpos m) <= 2 ^ 24) by (apply Z.pow_le_mono_r; lia). lia. }
  set (e' := Z.min e 0) in *.
  set (Y := cond_Zopp s (Zpos m) * 2 ^ (e - e' + 1) + 2 ^ (- e')) in *.
  assert (H2 : 0 < 2 ^ (1 - e')) by (apply Z.pow_pos_nonneg; unfold e'; lia).
  assert (Hlo : dle n 0 Y (e' - 1)).
  { rewrite (dle_at (e' - 1)) by (unfold e'; lia).
    replace (0 - (e' - 1)) with (1 - e') by lia.
    rewrite Z.sub_diag, Z.pow_0_r. lia. }
  assert (Hhi : dlt Y (e' - 1) (n + 1) 0).
  { rewrite (dlt_at (e' - 1)) by (unfold e'; lia).
    replace (0 - (e' - 1)) with (1 - e') by lia.
    rewrite Z.sub_diag, Z.pow_0_r. lia. }
  assert (Hbv : valid_binary 24 128
                  (F32.of_double (F64.add (F64.of_float (S754_finite s m e)) F64.half)) = true)
    by apply of_double_valid.
  destruct (Z.le_gt_cases Y 0) as [HY|HY].
  { (* the sum is not positive *)
    assert (n <= 0) by nia.
    replace (saturate8 n) with 0 by (unfold saturate8; lia).
    apply bias_not_positive; assumption. }
  assert (Hn0 : 0 <= n) by nia.
  destruct (Z.le_gt_cases 255 n) as [Hn255|Hn255].
  { (* at least 255 *)
    replace (saturate8 n) with 255 by (unfold saturate8; lia).
    assert (Hle : dle 255 0 Y (e' - 1)).
    { apply (dle_trans 255 0 n 0); [|exact Hlo]. unfold dle. cbn. lia. }
    destruct (bias_ge s m e 255 0 Hv ltac:(cbn; lia) ltac:(lia) HY Hle)
      as [Hb'|(p & E & Hb' & Hge)]; rewrite Hb' in *.
    - reflexivity.
    - apply clip8_at_least_255; assumption. }
  replace (saturate8 n) with n by (unfold saturate8; lia).
  assert (H2e : 0 < 2 ^ (- e')) by (apply Z.pow_pos_nonneg; unfold e'; lia).
  destruct s.
  { (* a negative number above -0.5: the sum is below 0.5 *)
    cbn [cond_Zopp] in Y.
    assert (H2x : 0 < 2 ^ (e - e' + 1)) by (apply Z.pow_pos_nonneg; unfold e'; lia).
    assert (HYu : Y < 2 ^ (- e')) by (unfold Y; nia).
    assert (Hpow : 2 ^ (1 - e') = 2 * 2 ^ (- e')).
    { replace (1 - e') with (1 + - e') by lia. rewrite Z.pow_add_r by (unfold e'; lia).
      reflexivity. }
    assert (n = 0) by nia. subst n.
    assert (Hle : dle Y (e' - 1) 1 (-1)).
    { rewrite (dle_at (e' - 1)) by (unfold e'; lia).
      replace (-1 - (e' - 1)) with (- e') by lia.
      rewrite Z.sub_diag, Z.pow_0_r. lia. }
    destruct (bias_le true m e 1 (-1) Hv ltac:(cbn; lia) ltac:(lia) HY Hle)
      as [Hb'|(p & E & Hb' & Hle')]; rewrite Hb' in *.
    - reflexivity.
    - apply clip8_between; try assumption; try lia.
      + unfold dle. rewrite Z.mul_0_l.
        apply Z.mul_nonneg_nonneg; [lia|apply Z.pow_nonneg; lia].
      + apply (dle_lt_trans _ _ 1 (-1)); [exact Hle'|]. unfold dlt. cbn. lia. }
  (* a positive number *)
  cbn [cond_Zopp] in Y.
  assert (Hneg : e < 0).
  { destruct (Z.lt_ge_cases e 0) as [Hlt|Hge]; [exact Hlt|exfalso].
    assert (He' : e' = 0) by (unfold e'; lia).
    assert (Hd24 : Zdigits2 (Zpos m) = 24) by lia. rewrite Hd24 in Hb.
    change (2 ^ (24 - 1)) with 8388608 in Hb.
    unfold Y in Hfloor. rewrite He' in Hfloor.
    replace (e - 0 + 1) with (e + 1) in Hfloor by lia.
    assert (2 <= 2 ^ (e + 1)).
    { change 2 with (2 ^ 1) at 1. apply Z.pow_le_mono_r; lia. }
    change (2 ^ (1 - 0)) with 2 in Hfloor. nia. }
  assert (He' : e' = e) by (unfold e'; lia).
  set (u := 2 ^ (- e)).
  assert (Hu : 0 < u) by (apply Z.pow_pos_nonneg; lia).
  assert (HY2 : Y = 2 * Zpos m + u).
  { unfold Y, u. rewrite He'. replace (e - e + 1) with 1 by lia. change (2 ^ 1) with 2. lia. }
  assert (Hpow : 2 ^ (1 - e') = 2 * u).
  { rewrite He'. replace (1 - e) with (1 + - e) by lia. rewrite Z.pow_add_r by lia.
    reflexivity. }
  rewrite Hpow in Hfloor.
  assert (Hhalf : dle 1 (-1) Y (e' - 1)).
  { rewrite He'. rewrite (dle_at (e - 1)) by lia.
    replace (-1 - (e - 1)) with (- e) by lia.
    rewrite Z.sub_diag, Z.pow_0_r. fold u. lia. }
  destruct (Z.eq_dec n 0) as [->|Hn1].
  - (* below one half: the sum is in [0.5, 1) *)
    assert (He25 : e <= -25).
    { destruct (Z.le_gt_cases e (-25)) as [Hok|Hgt]; [exact Hok|exfalso].
      assert (Hd24 : Zdigits2 (Zpos m) = 24) by lia. rewrite Hd24 in Hb.
      change (2 ^ (24 - 1)) with 8388608 in Hb.
      assert (u <= 2 ^ 24) by (apply Z.pow_le_mono_r; lia).
      change (2 ^ 24) with 16777216 in *. lia. }
    set (v := 2 ^ (-25 - e)).
    assert (Hv1 : 1 <= v) by (change 1 with (2 ^ 0); apply Z.pow_le_mono_r; lia).
    assert (Huv : u = 33554432 * v).
    { unfold u, v. replace (- e) with (25 + (-25 - e)) by lia.
      rewrite Z.pow_add_r by lia. reflexivity. }
    assert (Hmv : Zpos m <= 16777214 * v).
    { change (2 ^ 24) with 16777216 in Hm24.
      destruct (Z.eq_dec e (-25)) as [->|Hne].
      - assert (v = 1) by reflexivity.
        assert (Zpos m <> 16777215).
        { intros Heq. apply Hbad. unfold below_half. inversion Heq. reflexivity. }
        lia.
      - assert (2 <= v) by (change 2 with (2 ^ 1); apply Z.pow_le_mono_r; lia). lia. }
    assert (Hle : dle Y (e' - 1) 16777215 (-24)).
    { rewrite He'. rewrite (dle_at (e - 1)) by lia.
      replace (-24 - (e - 1)) with (2 + (-25 - e)) by lia.
      rewrite Z.sub_diag, Z.pow_0_r, Z.pow_add_r by lia. fold v.
      change (2 ^ 2) with 4. lia. }
    destruct (bias_ge false m e 1 (-1) Hv ltac:(cbn; lia) ltac:(lia) HY Hhalf)
      as [Hb1|(p & E & Hb1 & Hge)];
      destruct (bias_le false m e 16777215 (-24) Hv ltac:(cbn; lia) ltac:(lia) HY Hle)
        as [Hb2|(p' & E' & Hb2 & Hle')]; try congruence.
    destruct (finite_result_eq _ _ _ _ _ _ _ Hb1 Hb2) as [<- <-].
    rewrite Hb1 in *.
    apply clip8_between; try assumption; try lia.
    + unfold dle. rewrite Z.mul_0_l.
      apply Z.mul_nonneg_nonneg; [lia|apply Z.pow_nonneg; lia].
    + apply (dle_lt_trans _ _ 16777215 (-24)); [exact Hle'|]. unfold dlt. cbn. lia.
  - (* from 1 to 254 *)
    assert (Hnpos : 1 <= n) by lia.
    assert (Hge : dle n 0 Y (e' - 1)) by exact Hlo.
    assert (Hu25 : u < 2 ^ 25).
    { change (2 ^ 25) with (2 * 2 ^ 24). nia. }
    assert (He24 : -24 <= e).
    { destruct (Z.le_gt_cases (-24) e) as [Hok|Hlt]; [exact Hok|exfalso].
      assert (2 ^ 25 <= u) by (apply Z.pow_le_mono_r; lia). lia. }
    set (w := 2 ^ (- e - 1)).
    assert (Hw : 0 < w) by (apply Z.pow_pos_nonneg; lia).
    assert (Huw : u = 2 * w).
    { unfold u, w. replace (- e) with (1 + (- e - 1)) at 1 by lia.
      rewrite Z.pow_add_r by lia. reflexivity. }
    assert (Hupper : exists t k,
              0 < t < 2 ^ 24 /\ -149 <= k <= 104 /\
              dle Y (e' - 1) t k /\ dlt t k (n + 1) 0).
    { destruct (Z.lt_ge_cases (Zpos m + w) (2 ^ 24)) as [Hfit|Hcarry].
      - exists (Zpos m + w), e. split; [lia|]. split; [lia|]. split.
        + rewrite He'. rewrite (dle_at (e - 1)) by lia.
          replace (e - (e - 1)) with 1 by lia.
          rewrite Z.sub_diag, Z.pow_0_r. change (2 ^ 1) with 2. lia.
        + rewrite (dlt_at e) by lia.
          replace (0 - e) with (- e) by lia. fold u.
          rewrite Z.sub_diag, Z.pow_0_r. lia.
      - exists (2 * n + 1), (-1). split; [change (2 ^ 24) with 16777216; lia|].
        split; [lia|]. split.
        + rewrite He'. rewrite (dle_at (e - 1)) by lia.
          replace (-1 - (e - 1)) with (- e) by lia. fold u.
          rewrite Z.sub_diag, Z.pow_0_r.
          set (B := 2 ^ (24 + e)).
          assert (HB : B * u = 2 ^ 24).
          { unfold B, u. rewrite <- Z.pow_add_r by lia. f_equal. lia. }
          assert (HnB : n < B + 1) by nia.
          assert (HBn : B < n + 1) by nia.
          assert (n = B) by lia. subst n. nia.
        + rewrite (dlt_at (-1)) by lia.
          change (2 ^ (-1 - -1)) with 1. change (2 ^ (0 - -1)) with 2. lia. }
    destruct Hupper as (t & k & Ht & Hk & Hle & Hlt).
    destruct (bias_ge false m e n 0 Hv ltac:(cbn; lia) ltac:(lia) HY Hge)
      as [Hb1|(p & E & Hb1 & Hge')];
      destruct (bias_le false m e t k Hv Ht Hk HY Hle)
        as [Hb2|(p' & E' & Hb2 & Hle')]; try congruence.
    destruct (finite_result_eq _ _ _ _ _ _ _ Hb1 Hb2) as [<- <-].
    rewrite Hb1 in *.
    apply clip8_between; try assumption; try lia.
    + exact (dle_lt_trans _ _ _ _ _ _ Hle' Hlt).
    + right. apply (dle_trans 1 (-1) n 0); [|exact Hge']. unfold dle. cbn. lia.
Qed.

(** ** The numbers of the reduction are in canonical form *)

Lemma Zdigits2_mul a b :
  0 < a -> 0 < b -> Zdigits2 a + Zdigits2 b - 1 <= Zdigits2 (a * b).
Proof.
  intros Ha Hb.
  pose proof (Zdigits2_bounds a Ha) as Hba. pose proof (Zdigits2_bounds b Hb) as Hbb.
  pose proof (Zdigits2_pos a Ha). pose proof (Zdigits2_pos b Hb).
  assert (Hab : 0 < a * b) by nia.
  pose proof (Zdigits2_bounds (a * b) Hab) as Hbab.
  destruct (Z.le_gt_cases (Zdigits2 a + Zdigits2 b - 1) (Zdigits2 (a * b))) as [Hok|Hbad];
    [exact Hok|exfalso].
  assert (H1 : 2 ^ (Zdigits2 a - 1 + (Zdigits2 b - 1)) <= a * b).
  { rewrite Z.pow_add_r by lia. apply Z.mul_le_mono_nonneg; try lia;
      apply Z.pow_nonneg; lia. }
  assert (H2 : 2 ^ Zdigits2 (a * b) <= 2 ^ (Zdigits2 a - 1 + (Zdigits2 b - 1))).
  { apply Z.pow_le_mono_r; [lia|]. lia. }
  lia.
Qed.

Lemma mul_valid x y :
  valid_binary 24 128 x = true -> valid_binary 24 128 y = true ->
  valid_binary 24 128 (F32.mul x y) = true.
Proof.
  intros Hx Hy. unfold F32.mul, F32.prec, F32.emax.
  destruct x as [sx|sx| |sx mx ex], y as [sy|sy| |sy my ey]; try reflexivity.
  cbn [SFmul].
  destruct (valid_shape sx mx ex Hx) as (Hsx & Hdx & Hex).
  destruct (valid_shape sy my ey Hy) as (Hsy & Hdy & Hey).
  apply (binary_round_aux_valid 24 128 ltac:(lia)); [lia|].
  pose proof (Zdigits2_mul (Zpos mx) (Zpos my) ltac:(lia) ltac:(lia)) as Hd.
  change (Zpos (mx * my)) with (Zpos mx * Zpos my).
  unfold SpecFloat.fexp, SpecFloat.emin. lia.
Qed.

Lemma add_valid x y :
  valid_binary 24 128 x = true -> valid_binary 24 128 y = true ->
  valid_binary 24 128 (F32.add x y) = true.
Proof.
  intros Hx Hy. unfold F32.add, F32.prec, F32.emax.
  destruct x as [sx|sx| |sx mx ex], y as [sy|sy| |sy my ey];
    try reflexivity; try assumption.
  - destruct sx, sy; reflexivity.
  - destruct sx, sy; reflexivity.
  - cbn [SFadd]. apply (binary_normalize_valid 24 128). reflexivity.
Qed.

Lemma selected_filter_valid sin flt filterp x :
  select_filter sin flt = Some filterp ->
  valid_binary 24 128 (filter filterp x) = true.
Proof.
  destruct flt; cbn [select_filter]; intros Hsel; inversion Hsel; subst filterp; clear Hsel.
  - cbn [filter NEAREST]. unfold nearest_filter.
    destruct (_ && _); reflexivity.
  - cbn [filter ANTIALIAS]. unfold antialias_filter.
    destruct (_ && _); [|reflexivity].
    apply mul_valid; unfold sinc_filter;
      match goal with |- context [if ?c then _ else _] => destruct c end;
      try reflexivity; apply of_double_valid.
  - cbn [filter BILINEAR]. unfold bilinear_filter.
    match goal with |- context [if F64.ltb ?a F64.one then _ else _] =>
      destruct (F64.ltb a F64.one) end; [apply of_double_valid|reflexivity].
  - cbn [filter BICUBIC]. unfold bicubic_filter. cbn zeta.
    repeat match goal with |- context [if F64.ltb ?a ?b then F32.of_double _ else _] =>
      destruct (F64.ltb a b) end; try apply of_double_valid; reflexivity.
Qed.

Lemma column_sum_valid px w lo hi :
  (forall x, valid_binary 24 128 (px x) = true) ->
  (forall x, valid_binary 24 128 (w x) = true) ->
  valid_binary 24 128 (column_sum px w lo hi) = true.
Proof.
  intros Hpx Hw. unfold column_sum.
  assert (Hgen : forall l acc, valid_binary 24 128 acc = true ->
            valid_binary 24 128
              (fold_left (fun ss x => F32.add ss (F32.mul (px x) (w x))) l acc) = true).
  { induction l as [|x l IH]; intros acc Hacc; [exact Hacc|].
    cbn [fold_left]. apply IH. apply add_valid; [exact Hacc|]. apply mul_valid; auto. }
  apply Hgen. reflexivity.
Qed.

Lemma column_plan_valid sin flt filterp g imIn xx lo hi w ww :
  select_filter sin flt = Some filterp ->
  column_plan filterp g imIn xx = Some (lo, hi, w, ww) ->
  (forall x, valid_binary 24 128 (w x) = true) /\ valid_binary 24 128 ww = true.
Proof.
  intros Hsel Hplan. unfold column_plan in Hplan.
  destruct (to_int (column_xmin g xx)) as [lo'|]; [|discriminate].
  destruct (to_int (column_xmax g imIn xx)) as [hi'|]; [|discriminate].
  inversion Hplan; subst. clear Hplan. split.
  - intros x. unfold weight. apply mul_valid.
    + apply (selected_filter_valid sin flt). exact Hsel.
    + apply of_double_valid.
  - unfold reciprocal. cbn [s_is_zero s_one s_recip float_scalar].
    destruct (F64.eqb _ F64.zero); [reflexivity|apply of_double_valid].
Qed.

(** ** C4: 8-bit outputs are biased, saturated and truncated *)

(** What is stored for the product [x = ss * ww] of a weighted sum and
    the reciprocal of the summed weights: the three-way rule of lines
    201-207 on [x + 0.5] rounded to binary32, a value in [[0, 255]], and,
    unless [x] is the number just below one half, the saturated
    round-half-up of [x]. *)
Lemma stored_pixel_rule x v :
  valid_binary 24 128 x = true ->
  clip8 (F32.of_double (F64.add (F64.of_float x) F64.half)) = Some v ->
  let biased := F32.of_double (F64.add (F64.of_float x) F64.half) in
  let below := F64.ltb (F64.of_float biased) F64.half in
  let above := F64.leb (F64.of_int 255) (F64.of_float biased) in
  (below = true -> v = 0) /\
  (below = false -> above = true -> v = 255) /\
  (below = false -> above = false -> to_uint8 biased = Some v) /\
  0 <= v <= 255 /\
  (forall n, round_half_up x = Some n -> x <> below_half -> v = saturate8 n) /\
  (x = below_half -> v = 1).
Proof.
  intros Hv Hclip. cbn zeta.
  destruct (clip8_stored8 _ _ Hclip) as (H1 & H2 & H3 & H4).
  split; [exact H1|]. split; [exact H2|]. split; [exact H3|]. split; [exact H4|]. split.
  - intros n Hn Hbad. rewrite (clip8_rounds_half_up x n Hv Hn Hbad) in Hclip.
    congruence.
  - intros ->. vm_compute in Hclip. congruence.
Qed.

(** C4, amended.  After a call that returned the destination, every 8-bit
    pixel of the reduction is obtained from the weighted sum [ss] of the
    source pixels over the column's window and the reciprocal [ww] of the
    summed weights as follows.  The product [ss * ww] is taken in
    binary32, 0.5 is added to it in double precision and the sum is
    stored back in binary32; the pixel is 0 when that biased value is
    below 0.5, 255 when it is at least 255.0, and the biased value
    truncated otherwise; it lies in [[0, 255]].  The pixel is the
    round-half-up of the product [ss * ww], saturated to [[0, 255]], for
    every finite product but one: for the binary32 number just below one
    half, [0.5 - 2^-25], the biased value rounds to 1.0 and 1 is stored.
    This holds for the single-channel plane and for every visited lane of
    a packed image of up to four bands, the two-band case included. *)
Theorem C4_uint8_results_are_biased_saturated_truncated :
  forall sin malloc imOut imIn filter o,
    ImagingStretchHorizaontal sin malloc (Some imOut) (Some imIn) filter = Ok (Some o) ->
    exists filterp g,
      select_filter sin filter = Some filterp /\
      prepare filterp imOut imIn = Some g /\
      (forall src, image8 imIn = Some src ->
         forall xx yy, 0 <= xx < xsize imOut -> 0 <= yy < ysize imOut ->
         exists lo hi w ww v,
           column_plan filterp g imIn xx = Some (lo, hi, w, ww) /\
           cell8 o yy xx = Some v /\
           let x := F32.mul (column_sum (fun x => F32.of_int (src yy x)) w lo hi) ww in
           let biased := F32.of_double (F64.add (F64.of_float x) F64.half) in
           let below := F64.ltb (F64.of_float biased) F64.half in
           let above := F64.leb (F64.of_int 255) (F64.of_float biased) in
           (below = true -> v = 0) /\
           (below = false -> above = true -> v = 255) /\
           (below = false -> above = false -> to_uint8 biased = Some v) /\
           0 <= v <= 255 /\
           (forall n, round_half_up x = Some n -> x <> below_half -> v = saturate8 n) /\
           (x = below_half -> v = 1)) /\
      (image8 imIn = None -> type imIn = IMAGING_TYPE_UINT8 -> bands imIn <= 4 ->
         forall xx yy b, 0 <= xx < xsize imOut -> 0 <= yy < ysize imOut ->
         visited_lane (bands imIn) b = true ->
         exists lo hi w ww,
           column_plan filterp g imIn xx = Some (lo, hi, w, ww) /\
           let x := F32.mul (column_sum (fun x => F32.of_int (image imIn yy (x * 4 + b) mod 256))
                               w lo hi) ww in
           let v := image o yy (xx * 4 + b) in
           let biased := F32.of_double (F64.add (F64.of_float x) F64.half) in
           let below := F64.ltb (F64.of_float biased) F64.half in
           let above := F64.leb (F64.of_int 255) (F64.of_float biased) in
           (below = true -> v = 0) /\
           (below = false -> above = true -> v = 255) /\
           (below = false -> above = false -> to_uint8 biased = Some v) /\
           0 <= v <= 255 /\
           (forall n, round_half_up x = Some n -> x <> below_half -> v = saturate8 n) /\
           (x = below_half -> v = 1)).
Proof.
  intros sin malloc imOut imIn flt o Hok.
  destruct (stretch_ok _ _ _ _ _ _ Hok) as (filterp & g & kk0 & kk1 & Hsel & Hg & Hloop).
  exists filterp, g. split; [exact Hsel|]. split; [exact Hg|]. split.
  - intros src H8 xx yy Hxx Hyy.
    destruct (stretch_loop_written cell8 [0] (fun xx _ => xx)
                (fun yy _ x => F32.of_int (src yy x)) (fun ss ww => clip8 (bias8 ss ww))
                filterp g imIn _ _ (fun x _ x' _ _ _ Heq => Heq) (format_image8 imIn src H8)
                _ _ _ _ _ Hloop) as (_ & _ & Hcells & _).
    destruct (Hcells xx yy 0 Hxx Hyy (or_introl eq_refl))
      as (lo & hi & w & ww & v & Hplan & _ & Hv & Hget).
    exists lo, hi, w, ww, v. split; [exact Hplan|]. split; [exact Hget|].
    destruct (column_plan_valid sin flt filterp g imIn xx lo hi w ww Hsel Hplan) as [Hw Hww].
    apply stored_pixel_rule; [|exact Hv].
    apply mul_valid; [|exact Hww].
    apply column_sum_valid; [intros x; apply of_int32_valid|exact Hw].
  - intros H8 Hty Hnb xx yy b Hxx Hyy Hb.
    destruct (stretch_loop_written cell (band_lanes (bands imIn)) (fun xx b => xx * 4 + b)
                (fun yy b x => F32.of_int (image imIn yy (x * 4 + b) mod 256))
                (fun ss ww => clip8 (bias8 ss ww))
                filterp g imIn _ _
                (fun x b x' b' Hb Hb' Heq => band_lanes_key_inj _ x b x' b' Hnb Hb Hb' Heq)
                (format_image imIn H8 Hty)
                _ _ _ _ _ Hloop) as (_ & _ & Hcells & _).
    apply in_band_lanes in Hb.
    destruct (Hcells xx yy b Hxx Hyy Hb)
      as (lo & hi & w & ww & v & Hplan & _ & Hv & Hget).
    exists lo, hi, w, ww. split; [exact Hplan|].
    unfold cell in Hget. inversion Hget; subst.
    destruct (column_plan_valid sin flt filterp g imIn xx lo hi w ww Hsel Hplan) as [Hw Hww].
    apply stored_pixel_rule; [|exact Hv].
    apply mul_valid; [|exact Hww].
    apply column_sum_valid; [intros x; apply of_int32_valid|exact Hw].
Qed.

Lemma C4_uint8_results_witness :
  exists v,
    cell8 (returned_image
             (ImagingStretchHorizaontal sin_stub malloc_zeroed (Some blank4) (Some ramp8)
                IMAGING_TRANSFORM_BILINEAR) blank4) 0 0 = Some v /\
    0 <= v <= 255.
Proof.
  destruct (C4_uint8_results_are_biased_saturated_truncated
              sin_stub malloc_zeroed blank4 ramp8 IMAGING_TRANSFORM_BILINEAR
              (returned_image
                 (ImagingStretchHorizaontal sin_stub malloc_zeroed (Some blank4) (Some ramp8)
                    IMAGING_TRANSFORM_BILINEAR) blank4))
    as (filterp & g & _ & _ & Hplane & _).
  - vm_compute. reflexivity.
  - destruct (Hplane (plane_of_rows 0 [[10; 20; 30; 40; 50; 60; 70; 80]]) eq_refl 0 0)
      as (lo & hi & w & ww & v & _ & Hcell & _ & _ & _ & Hrange & _).
    + cbn. lia.
    + cbn. lia.
    + exists v. split; [exact Hcell|exact Hrange].
Defined.

(** C4, as stated, fails: truncating the biased value is not always
    round-half-up, neither of the product the call computes nor of the
    exact weighted mean.

    Reducing the 8-bit row [1, 0, 1, 0, 0, 0] to two pixels with the
    bilinear filter, the first output has the weighted sum
    [ss = 14913080 * 2^-25] and the reciprocal [ww = 1.125]; their product
    in binary32 is [0.5 - 2^-25], below one half, and so is the quotient
    14913080 / 29826161 that the loops of the reduction give over the
    rationals on the weights the call computed.  The round-half-up of
    either is 0, but the pixel stored is 1.

    Reducing the row [3, 0, 3, 0, 0, 0] in the same way, the weights of
    the tent kernel, [(1 - |x - 1| / 3) / 3] for [x] from 0 to 4, give the
    exact mean 3/2, whose round-half-up is 2, but the pixel stored is
    1. *)
Lemma C4_round_half_up_counterexample :
  (exists lo hi w ww,
     column_plan BILINEAR (the_geometry BILINEAR blank2 dots6) dots6 0
     = Some (lo, hi, w, ww) /\
     let src := plane_of_rows 0 [[1; 0; 1; 0; 0; 0]] in
     let x := F32.mul (column_sum (fun x => F32.of_int (src 0 x)) w lo hi) ww in
     x = below_half /\
     round_half_up x = Some 0 /\
     (reduce_float (H := exact_scalar)
        (fun i => inject_Z (src 0%Z i)) (fun i => Q_of_float (w i)) lo lo hi
        (reciprocal (H := exact_scalar)
           (snd (window_loop (H := exact_scalar)
                   (fun i => Q_of_float (w i)) 0%Z lo hi (fun _ => 0%Q) 0%Q)))
      == 14913080 # 29826161)%Q /\
     round_half_up_exact (14913080 # 29826161) = 0 /\
     row_image8
       (ImagingStretchHorizaontal sin_stub malloc_zeroed (Some blank2) (Some dots6)
          IMAGING_TRANSFORM_BILINEAR) 0 = Some [1; 0]) /\
  (let src := plane_of_rows 0 [[3; 0; 3; 0; 0; 0]] in
   let tent := fun i => nth (Z.to_nat i) [2 # 9; 3 # 9; 2 # 9; 1 # 9; 0]%Q 0%Q in
   (reduce_float (H := exact_scalar)
      (fun i => inject_Z (src 0%Z i)) tent 0%Z 0%Z 5%Z
      (reciprocal (H := exact_scalar)
         (snd (window_loop (H := exact_scalar) tent 0%Z 0%Z 5%Z (fun _ => 0%Q) 0%Q)))
    == 3 # 2)%Q /\
   round_half_up_exact (3 # 2) = 2 /\
   row_image8
     (ImagingStretchHorizaontal sin_stub malloc_zeroed (Some blank2) (Some threes6)
        IMAGING_TRANSFORM_BILINEAR) 0 = Some [1; 0]).
Proof.
  split.
  - set (g := the_geometry BILINEAR blank2 dots6).
    exists 0, 5, (weight BILINEAR (column_center g 0) (column_ss g)),
      (reciprocal (weight_total (weight BILINEAR (column_center g 0) (column_ss g))
                     0 5 F32.zero)).
    split.
    { unfold column_plan.
      replace (to_int (column_xmin g 0)) with (Some 0) by (vm_compute; reflexivity).
      replace (to_int (column_xmax g dots6 0)) with (Some 5) by (vm_compute; reflexivity).
      reflexivity. }
    cbn zeta.
    assert (Hx : F32.mul
                   (column_sum
                      (fun x => F32.of_int (plane_of_rows 0 [[1; 0; 1; 0; 0; 0]] 0 x))
                      (weight BILINEAR (column_center g 0) (column_ss g)) 0 5)
                   (reciprocal
                      (weight_total (weight BILINEAR (column_center g 0) (column_ss g))
                         0 5 F32.zero))
                 = below_half) by (vm_compute; reflexivity).
    rewrite Hx.
    split; [reflexivity|].
    split; [reflexivity|].
    split; [vm_compute; reflexivity|].
    split; [reflexivity|].
    vm_compute. reflexivity.
  - cbn zeta.
    split; [vm_compute; reflexivity|].
    split; [reflexivity|].
    vm_compute. reflexivity.
Qed.
